(** * jscex-parser.js: the tokenizer and the recursive-descent parser

    A shallow embedding of [src/heart/js/jscex-parser.js] (the UglifyJS
    [parse-js] port shipped with Jscex) and the properties of it that the
    specification states.

    Conventions of the embedding.

    - A JavaScript string is a [string]; a character is a string of length
      one, as in JavaScript, and [charAt] past the end is the empty string.
      Each [ascii] stands for the code unit of the same number, so the source
      text ranges over U+0000..U+00FF.  The Unicode classes of the tokenizer
      are cut to that range (the letter class keeps its first eight ranges,
      the two mark classes are empty there, the connector class keeps [_]);
      U+200B, U+200C, U+200D, U+2028, U+2029 and U+FEFF lie outside it.
    - The closures over the tokenizer's [S] and the parser's [S] become state
      passing in a state-and-exception monad; [throw] is an outcome.
    - Loops and recursion take fuel; running out of it is the outcome
      [OutOfFuel], never a result.  The theorems about a given text hold
      for every fuel from a stated bound on.
    - A number is held by its shortest decimal form, [mantissa * 10^exp10]:
      the integers up to 2^53, and the decimals of at most 15 significant
      digits between 1e-300 and 1e300, each of which is the shortest form
      of one double and prints as JavaScript prints that double.  A literal
      of another value (one that the engine rounds to a double with a
      different shortest form, to Infinity or to zero) is outside the
      embedding: reading it is the outcome [OutOfRange], never a token.
    - A syntax-tree node is the array the parser builds: its tag first,
      then its children, whatever they are. *)

From Stdlib Require Import Bool Arith Lia List String Ascii ZArith NArith.
From Stdlib Require Import DecimalString.
From Stdlib Require DecimalNat DecimalFacts.
Import ListNotations.
Open Scope string_scope.

(* ------------------------------------------------------------------ *)
(** ** JavaScript strings and characters *)

Definition LF : string := String (ascii_of_nat 10) "".
Definition CR : string := String (ascii_of_nat 13) "".
Definition TAB : string := String (ascii_of_nat 9) "".
Definition DQUOTE : string := String (ascii_of_nat 34) "".
Definition SQUOTE : string := "'".
Definition BACKSLASH : string := String (ascii_of_nat 92) "".

(** [s.charAt(n)]: the character at [n], the empty string past the end. *)
Definition charAt (s : string) (n : nat) : string :=
  match String.get n s with
  | Some c => String c ""
  | None => ""
  end.

(** [s.charCodeAt(0)]; [None] is NaN. *)
Definition charCodeAt0 (ch : string) : option nat :=
  match ch with
  | String c _ => Some (nat_of_ascii c)
  | "" => None
  end.

(** [s.substr(n)]. *)
Definition substr (s : string) (n : nat) : string :=
  substring n (String.length s - n) s.

(** [s.substring(a, b)] for [a <= b]. *)
Definition substring_js (s : string) (a b : nat) : string :=
  substring a (b - a) s.

(** [s.indexOf(what, from)]; [None] is -1. *)
Definition indexOf (s what : string) (from : nat) : option nat :=
  String.index from what s.

(** [!s] for a string. *)
Definition is_empty (s : string) : bool := s =? "".

(** [text.split("\n").length - 1]: the number of line feeds. *)
Fixpoint count_LF (s : string) : nat :=
  match s with
  | "" => 0
  | String c rest =>
      (if Ascii.eqb c (ascii_of_nat 10) then 1 else 0) + count_LF rest
  end.

(** Decimal rendering of a non-negative integer, as [+] on a string does. *)
Definition string_of_nat (n : nat) : string :=
  NilZero.string_of_uint (Nat.to_uint n).

Definition string_of_N (n : N) : string :=
  NilZero.string_of_uint (N.to_uint n).

(** [characters(str)]: [str.split("")]. *)
Fixpoint characters (str : string) : list string :=
  match str with
  | "" => []
  | String c rest => String c "" :: characters rest
  end.

(** [array_to_hash(a)] keeps the keys; [HOP(obj, prop)] is own-property
    lookup. *)
Definition array_to_hash (a : list string) : list string := a.

Definition HOP (obj : list string) (prop : string) : bool :=
  existsb (String.eqb prop) obj.

(* ------------------------------------------------------------------ *)
(** ** Tokenizer constants *)

Definition KEYWORDS : list string := array_to_hash
  [ "break"; "case"; "catch"; "const"; "continue"; "default"; "delete";
    "do"; "else"; "finally"; "for"; "function"; "if"; "in"; "instanceof";
    "new"; "return"; "switch"; "throw"; "try"; "typeof"; "var"; "void";
    "while"; "with" ].

Definition KEYWORDS_BEFORE_EXPRESSION : list string := array_to_hash
  [ "return"; "new"; "delete"; "throw"; "else"; "case" ].

Definition KEYWORDS_ATOM : list string := array_to_hash
  [ "false"; "null"; "true"; "undefined" ].

Definition OPERATOR_CHARS : list string :=
  array_to_hash (characters "+-*&%=<>!?|~^").

Definition OPERATORS : list string := array_to_hash
  [ "in"; "instanceof"; "typeof"; "new"; "void"; "delete"; "++"; "--";
    "+"; "-"; "!"; "~"; "&"; "|"; "^"; "*"; "/"; "%"; ">>"; "<<"; ">>>";
    "<"; ">"; "<="; ">="; "=="; "==="; "!="; "!=="; "?"; "="; "+="; "-=";
    "/="; "*="; "%="; ">>="; "<<="; ">>>="; "|="; "^="; "&="; "&&"; "||" ].

(** [" \n\r\t"] and U+200B, which is outside the modelled range. *)
Definition WHITESPACE_CHARS : list string :=
  array_to_hash (characters (" " ++ LF ++ CR ++ TAB)).

Definition PUNC_BEFORE_EXPRESSION : list string :=
  array_to_hash (characters "[{}(,.;:").

Definition PUNC_CHARS : list string :=
  array_to_hash (characters "[]{}(),;:").

Definition UNARY_PREFIX : list string := array_to_hash
  [ "typeof"; "void"; "delete"; "--"; "++"; "!"; "~"; "-"; "+" ].

Definition UNARY_POSTFIX : list string := array_to_hash [ "--"; "++" ].

(* ------------------------------------------------------------------ *)
(** ** Character classes *)

Definition code_in (lo hi : nat) (c : ascii) : bool :=
  ((lo <=? nat_of_ascii c) && (nat_of_ascii c <=? hi))%nat.

(** [UNICODE.letter] below U+0100:
    A-Z a-z U+00AA U+00B5 U+00BA U+00C0-U+00D6 U+00D8-U+00F6 U+00F8-. *)
Definition letter_class (c : ascii) : bool :=
  code_in 65 90 c || code_in 97 122 c || code_in 170 170 c
  || code_in 181 181 c || code_in 186 186 c || code_in 192 214 c
  || code_in 216 246 c || code_in 248 255 c.

(** [re.test(ch)] for a character class without anchors: some character
    of [ch] is in the class. *)
Fixpoint class_test (cls : ascii -> bool) (ch : string) : bool :=
  match ch with
  | "" => false
  | String c rest => cls c || class_test cls rest
  end.

Definition is_letter (ch : string) : bool := class_test letter_class ch.

Definition is_digit (ch : string) : bool :=
  match charCodeAt0 ch with
  | Some n => ((48 <=? n) && (n <=? 57))%nat
  | None => false
  end.

Definition is_alphanumeric_char (ch : string) : bool :=
  is_digit ch || is_letter ch.

(** Both mark classes start above U+00FF. *)
Definition is_unicode_combining_mark (ch : string) : bool :=
  class_test (fun _ => false) ch || class_test (fun _ => false) ch.

Definition is_unicode_connector_punctuation (ch : string) : bool :=
  class_test (code_in 95 95) ch.

Definition is_identifier_start (ch : string) : bool :=
  (ch =? "$") || (ch =? "_") || is_letter ch.

(** The comparisons with ZWNJ and ZWJ are false in the modelled range. *)
Definition is_identifier_char (ch : string) : bool :=
  is_identifier_start ch || is_unicode_combining_mark ch || is_digit ch
  || is_unicode_connector_punctuation ch.

(* ------------------------------------------------------------------ *)
(** ** Regular expressions

    The three number patterns are anchored at both ends, so [test] is a
    match of the whole string; it is computed with derivatives. *)

Inductive regex : Type :=
| Nothing
| Epsilon
| Class (cls : ascii -> bool)
| Cat (r1 r2 : regex)
| Or (r1 r2 : regex)
| Star (r : regex).

Definition Opt (r : regex) : regex := Or r Epsilon.
Definition Plus (r : regex) : regex := Cat r (Star r).

Fixpoint nullable (r : regex) : bool :=
  match r with
  | Nothing => false
  | Epsilon => true
  | Class _ => false
  | Cat r1 r2 => nullable r1 && nullable r2
  | Or r1 r2 => nullable r1 || nullable r2
  | Star _ => true
  end.

Fixpoint deriv (c : ascii) (r : regex) : regex :=
  match r with
  | Nothing => Nothing
  | Epsilon => Nothing
  | Class cls => if cls c then Epsilon else Nothing
  | Cat r1 r2 =>
      if nullable r1 then Or (Cat (deriv c r1) r2) (deriv c r2)
      else Cat (deriv c r1) r2
  | Or r1 r2 => Or (deriv c r1) (deriv c r2)
  | Star r1 => Cat (deriv c r1) (Star r1)
  end.

(** [/^r$/.test(s)]. *)
Fixpoint regex_test (r : regex) (s : string) : bool :=
  match s with
  | "" => nullable r
  | String c rest => regex_test (deriv c r) rest
  end.

Definition one (c : ascii) : regex := Class (Ascii.eqb c).
(** A letter under the [i] flag. *)
Definition one_i (lower upper : ascii) : regex :=
  Class (fun c => Ascii.eqb c lower || Ascii.eqb c upper).
(** [\d]. *)
Definition re_d : regex := Class (code_in 48 57).
(** [[0-9a-f]] under the [i] flag. *)
Definition re_hex_i : regex :=
  Class (fun c => code_in 48 57 c || code_in 97 102 c || code_in 65 70 c).
(** [[0-7]]. *)
Definition re_oct : regex := Class (code_in 48 55).
Definition re_dot : regex := one (ascii_of_nat 46).
(** [[+-]]. *)
Definition re_sign : regex :=
  Class (fun c => Ascii.eqb c "+" || Ascii.eqb c "-").

(** [/^0x[0-9a-f]+$/i] *)
Definition RE_HEX_NUMBER : regex :=
  Cat (one "0") (Cat (one_i "x" "X") (Plus re_hex_i)).

(** [/^0[0-7]+$/] *)
Definition RE_OCT_NUMBER : regex :=
  Cat (one "0") (Plus re_oct).

(** [RE_DEC_NUMBER]: digits, an optional dot, digits, and an optional
    exponent: [e], an optional sign, digits, then a digit with an optional
    dot after it or an optional dot with a digit after it, then digits;
    under the [i] flag. *)
Definition RE_DEC_NUMBER : regex :=
  Cat (Star re_d) (Cat (Opt re_dot) (Cat (Star re_d)
    (Opt (Cat (one_i "e" "E") (Cat (Opt re_sign) (Cat (Star re_d)
       (Cat (Or (Cat re_d (Opt re_dot)) (Cat (Opt re_dot) re_d))
            (Star re_d)))))))).

(* ------------------------------------------------------------------ *)
(** ** Numbers *)

(** A number: the double whose shortest decimal form is
    [mantissa * 10^exp10].  An integer is held with [exp10 = 0]; any other
    number with a mantissa that does not end in zero and a negative
    [exp10]. *)
Record js_number : Type := mkNumber { mantissa : N; exp10 : Z }.

Definition number_of_N (n : N) : js_number := mkNumber n 0.

(** What [parseFloat] and [parse_js_number] answer: NaN (or [undefined],
    of which [isNaN] is true as well), a number the embedding holds, or a
    number it does not hold. *)
Inductive parsed_number : Type :=
| NaN
| Finite (n : js_number)
| Unrepresented.

(** The value of one digit in radix up to 16. *)
Definition digit_value (c : ascii) : option N :=
  if code_in 48 57 c then Some (N.of_nat (nat_of_ascii c - 48))
  else if code_in 97 102 c then Some (N.of_nat (nat_of_ascii c - 87))
  else if code_in 65 70 c then Some (N.of_nat (nat_of_ascii c - 55))
  else None.

Definition digit_in (radix : N) (c : ascii) : option N :=
  match digit_value c with
  | Some d => if (d <? radix)%N then Some d else None
  | None => None
  end.

(** The longest prefix of digits of [radix], read into [acc]. *)
Fixpoint read_digits (radix : N) (s : string) (acc : N) (seen : nat)
  : N * nat * string :=
  match s with
  | "" => (acc, seen, "")
  | String c rest =>
      match digit_in radix c with
      | Some d => read_digits radix rest (acc * radix + d)%N (S seen)
      | None => (acc, seen, s)
      end
  end.

(** [parseInt(s, radix)] on a string that starts with neither white space,
    a sign nor a radix prefix (the tokenizer passes a single character, or
    digits a pattern has checked): the integer that the leading digits
    write, NaN when there is none.  An integer above 2^53 the engine
    rounds to a double, and the embedding does not hold it. *)
Definition parseInt (s : string) (radix : N) : parsed_number :=
  match read_digits radix s 0%N 0 with
  | (_, O, _) => NaN
  | (v, _, _) =>
      if (v <=? 2 ^ 53)%N then Finite (number_of_N v) else Unrepresented
  end.

(** The exponent part [[eE][+-]?digits] at the head of [s], 0 when there
    is none. *)
Definition read_exponent (s : string) : Z :=
  match s with
  | String c rest =>
      if Ascii.eqb c "e" || Ascii.eqb c "E" then
        let '(neg, digits) :=
          match rest with
          | String "+" r => (false, r)
          | String "-" r => (true, r)
          | _ => (false, rest)
          end in
        match read_digits 10 digits 0%N 0 with
        | (_, O, _) => 0%Z
        | (v, _, _) => if neg then (- Z.of_N v)%Z else Z.of_N v
        end
      else 0%Z
  | "" => 0%Z
  end.

(** The decimal literal that is the longest prefix of [s], as the pair
    [(m, e)] of value [m * 10^e]; [None] when [s] does not begin with
    one. *)
Definition decimal_prefix (s : string) : option (N * Z) :=
  let '(int_part, int_len, r1) := read_digits 10 s 0%N 0 in
  match r1 with
  | String "." r2 =>
      let '(all, frac_len, r3) := read_digits 10 r2 int_part 0 in
      if ((int_len =? 0) && (frac_len =? 0))%nat then None
      else Some (all, (read_exponent r3 - Z.of_nat frac_len)%Z)
  | _ =>
      if (int_len =? 0)%nat then None
      else Some (int_part, read_exponent r1)
  end.

(** [m * 10^e] without the zeros [m] ends in, at most [fuel] of them. *)
Fixpoint strip_zeros (fuel : nat) (m : N) (e : Z) : N * Z :=
  match fuel with
  | O => (m, e)
  | S n =>
      if ((m mod 10 =? 0) && negb (m =? 0))%N
      then strip_zeros n (m / 10)%N (e + 1)%Z
      else (m, e)
  end.

(** The significant digits [s] and the exponent [n] of [m * 10^e]: [s]
    does not end in zero, and [s * 10^n] is the value.  A number has fewer
    decimal digits than binary ones. *)
Definition shortest (m : N) (e : Z) : N * Z :=
  if (m =? 0)%N then (0%N, 0%Z) else strip_zeros (N.to_nat (N.size m)) m e.

(** The number of value [m * 10^e], when the embedding holds it: at most
    15 significant digits or an integer up to 2^53, and zero or between
    1e-300 and 1e300. *)
Definition number_of_decimal (m : N) (e : Z) : parsed_number :=
  let '(s, n) := shortest m e in
  match n with
  | Zneg p =>
      if ((s <? 10 ^ 15) && (10 ^ Npos p <=? s * 10 ^ 300))%N
      then Finite (mkNumber s n)
      else Unrepresented
  | _ =>
      let v := (s * 10 ^ Z.to_N n)%N in
      if (((s <? 10 ^ 15) || (v <=? 2 ^ 53)) && (v <? 10 ^ 300))%N
      then Finite (mkNumber v 0)
      else Unrepresented
  end.

(** [parseFloat(s)] on a string that starts with neither white space nor a
    sign and is not [Infinity]: the number of the longest prefix that is a
    decimal literal. *)
Definition parseFloat (s : string) : parsed_number :=
  match decimal_prefix s with
  | None => NaN
  | Some (m, e) => number_of_decimal m e
  end.

(** [parse_js_number(num)]; [undefined], when no pattern matches, is
    [NaN] here: [isNaN] is all that is asked of it. *)
Definition parse_js_number (num : string) : parsed_number :=
  if regex_test RE_HEX_NUMBER num then parseInt (substr num 2) 16
  else if regex_test RE_OCT_NUMBER num then parseInt (substr num 1) 8
  else if regex_test RE_DEC_NUMBER num then
    parseFloat num
  else NaN.

Fixpoint zeros (n : nat) : string :=
  match n with
  | O => ""
  | S n' => String "0" (zeros n')
  end.

(** [String(n)] for a number, from its shortest decimal form: [k] digits
    and the decimal point behind the first [n] of them; written out when
    [-6 < n <= 21], with an exponent otherwise. *)
Definition string_of_number (x : js_number) : string :=
  let '(s, e) := shortest (mantissa x) (exp10 x) in
  if (s =? 0)%N then "0"
  else
    let digits := string_of_N s in
    let k := Z.of_nat (String.length digits) in
    let n := (e + k)%Z in
    if ((k <=? n) && (n <=? 21))%Z then digits ++ zeros (Z.to_nat (n - k))
    else if ((0 <? n) && (n <=? 21))%Z then
      substring 0 (Z.to_nat n) digits ++ "." ++ substr digits (Z.to_nat n)
    else if ((-6 <? n) && (n <=? 0))%Z then
      "0." ++ zeros (Z.to_nat (- n)) ++ digits
    else
      let exponent :=
        (if (n - 1 <? 0)%Z then "-" else "+")
        ++ string_of_N (Z.abs_N (n - 1)) in
      if (k =? 1)%Z then digits ++ "e" ++ exponent
      else substring 0 1 digits ++ "." ++ substr digits 1 ++ "e" ++ exponent.

(* ------------------------------------------------------------------ *)
(** ** Parse errors *)

Record JS_Parse_Error : Type := mkError {
  message : string;
  err_line : nat;
  err_col : nat;
  err_pos : nat
}.

(** [JS_Parse_Error.prototype.toString]; [stack] is the text of
    [this.stack], which the constructor copies from the TypeError that
    [({})()] raises in the host engine. *)
Definition toString (e : JS_Parse_Error) (stack : string) : string :=
  message e ++ " (line: " ++ string_of_nat (err_line e)
    ++ ", col: " ++ string_of_nat (err_col e)
    ++ ", pos: " ++ string_of_nat (err_pos e) ++ ")"
    ++ LF ++ LF ++ stack.

(** What a [throw] carries: the sentinel [EX_EOF], a [JS_Parse_Error], or
    the engine's TypeError for indexing [undefined]. *)
Inductive exn : Type :=
| EX_EOF
| ParseError (e : JS_Parse_Error)
| TypeError.

(* ------------------------------------------------------------------ *)
(** ** Tokens *)

Inductive token_value : Type :=
| VUndefined
| VStr (s : string)
| VNum (n : js_number)
| VRegexp (body mods : string).

(** [tok_comments_before] is [None] on a comment token, which has no such
    property. *)
#[warnings="-register-all"]
Inductive Token : Type := mkToken {
  tok_type : string;
  tok_value : token_value;
  tok_line : nat;
  tok_col : nat;
  tok_pos : nat;
  tok_nlb : bool;
  tok_comments_before : option (list Token)
}.

(** [String(v)]. *)
Definition string_of_value (v : token_value) : string :=
  match v with
  | VUndefined => "undefined"
  | VStr s => s
  | VNum n => string_of_number n
  | VRegexp body mods => body ++ "," ++ mods
  end.

(** [HOP(obj, v)] for a token value: the key is [String(v)].  The tables
    hold no key that is the rendering of a number. *)
Definition HOP_value (obj : list string) (v : token_value) : bool :=
  match v with
  | VNum _ => false
  | _ => HOP obj (string_of_value v)
  end.

(** [v == s] for a string [s] that is not numeric (every literal the
    parser compares with is a word or punctuation). *)
Definition value_eq (v : token_value) (s : string) : bool :=
  match v with
  | VUndefined => false
  | VStr x => x =? s
  | VNum _ => false
  | VRegexp body mods => (body ++ "," ++ mods) =? s
  end.

(** [is_token(token, type, val)]; [val = None] when it is not given. *)
Definition is_token (t : Token) (type : string) (val : option string) : bool :=
  (tok_type t =? type) &&
  match val with
  | None => true
  | Some v => value_eq (tok_value t) v
  end.

(* ------------------------------------------------------------------ *)
(** ** Outcomes and the state monad *)

(** How a call ends: with a value, with a [throw], or outside the model
    (no fuel left, or a [\uHHHH] escape naming a code unit above U+00FF). *)
Inductive outcome (A : Type) : Type :=
| Ok (a : A)
| Throw (e : exn)
| OutOfFuel
| OutOfRange.

Arguments Ok {A} a.
Arguments Throw {A} e.
Arguments OutOfFuel {A}.
Arguments OutOfRange {A}.

Definition M (St A : Type) : Type := St -> outcome (A * St).

Definition ret {St A : Type} (a : A) : M St A := fun s => Ok (a, s).

Definition bind {St A B : Type} (m : M St A) (k : A -> M St B) : M St B :=
  fun s =>
    match m s with
    | Ok (a, s') => k a s'
    | Throw e => Throw e
    | OutOfFuel => OutOfFuel
    | OutOfRange => OutOfRange
    end.

Definition throw {St A : Type} (e : exn) : M St A := fun _ => Throw e.
Definition out_of_fuel {St A : Type} : M St A := fun _ => OutOfFuel.
Definition out_of_range {St A : Type} : M St A := fun _ => OutOfRange.
Definition get {St : Type} : M St St := fun s => Ok (s, s).
Definition gets {St A : Type} (f : St -> A) : M St A := fun s => Ok (f s, s).
Definition modify {St : Type} (f : St -> St) : M St unit :=
  fun s => Ok (tt, f s).

Declare Scope monad_scope.
Delimit Scope monad_scope with monad.
Notation "x <- m ;; k" := (bind m (fun x => k))
  (at level 61, m at next level, right associativity) : monad_scope.
Notation "m ;; k" := (bind m (fun _ => k))
  (at level 61, right associativity) : monad_scope.
Open Scope monad_scope.

(* ------------------------------------------------------------------ *)
(** ** The tokenizer *)

Module Tokenizer.

(** The record [S] of [tokenizer]. *)
Record state : Type := mkS {
  text : string;
  pos : nat;
  tokpos : nat;
  line : nat;
  tokline : nat;
  col : nat;
  tokcol : nat;
  newline_before : bool;
  regex_allowed : bool;
  comments_before : list Token
}.

Definition set_pos (v : nat) (st : state) : state :=
  mkS (text st) v (tokpos st) (line st) (tokline st) (col st) (tokcol st)
      (newline_before st) (regex_allowed st) (comments_before st).
Definition set_tokpos (v : nat) (st : state) : state :=
  mkS (text st) (pos st) v (line st) (tokline st) (col st) (tokcol st)
      (newline_before st) (regex_allowed st) (comments_before st).
Definition set_line (v : nat) (st : state) : state :=
  mkS (text st) (pos st) (tokpos st) v (tokline st) (col st) (tokcol st)
      (newline_before st) (regex_allowed st) (comments_before st).
Definition set_tokline (v : nat) (st : state) : state :=
  mkS (text st) (pos st) (tokpos st) (line st) v (col st) (tokcol st)
      (newline_before st) (regex_allowed st) (comments_before st).
Definition set_col (v : nat) (st : state) : state :=
  mkS (text st) (pos st) (tokpos st) (line st) (tokline st) v (tokcol st)
      (newline_before st) (regex_allowed st) (comments_before st).
Definition set_tokcol (v : nat) (st : state) : state :=
  mkS (text st) (pos st) (tokpos st) (line st) (tokline st) (col st) v
      (newline_before st) (regex_allowed st) (comments_before st).
Definition set_newline_before (v : bool) (st : state) : state :=
  mkS (text st) (pos st) (tokpos st) (line st) (tokline st) (col st)
      (tokcol st) v (regex_allowed st) (comments_before st).
Definition set_regex_allowed (v : bool) (st : state) : state :=
  mkS (text st) (pos st) (tokpos st) (line st) (tokline st) (col st)
      (tokcol st) (newline_before st) v (comments_before st).
Definition set_comments_before (v : list Token) (st : state) : state :=
  mkS (text st) (pos st) (tokpos st) (line st) (tokline st) (col st)
      (tokcol st) (newline_before st) (regex_allowed st) v.

Definition T (A : Type) : Type := M state A.

(** The line-ending replacement of [tokenizer]: CR LF and a lone CR
    become LF. *)
Fixpoint normalize (s : string) : string :=
  match s with
  | "" => ""
  | String c rest =>
      if Ascii.eqb c (ascii_of_nat 13) then
        match rest with
        | String c' rest' =>
            if Ascii.eqb c' (ascii_of_nat 10)
            then String (ascii_of_nat 10) (normalize rest')
            else String (ascii_of_nat 10) (normalize rest)
        | "" => String (ascii_of_nat 10) ""
        end
      else String c (normalize rest)
  end.

(** The initial [S]; a leading U+FEFF cannot occur in the modelled range. *)
Definition tokenizer (TEXT : string) : state :=
  mkS (normalize TEXT) 0 0 0 0 0 0 false false [].

Definition peek : T string :=
  gets (fun st => charAt (text st) (pos st)).

Definition next (signal_eof : bool) : T string := fun st =>
  let ch := charAt (text st) (pos st) in
  let st := set_pos (S (pos st)) st in
  if signal_eof && is_empty ch then Throw EX_EOF
  else if ch =? LF then
    Ok (ch, set_col 0 (set_line (S (line st)) (set_newline_before true st)))
  else Ok (ch, set_col (S (col st)) st).

(** [find(what, signal_eof)]; [None] is -1. *)
Definition find (what : string) (signal_eof : bool) : T (option nat) :=
  fun st =>
    match indexOf (text st) what (pos st) with
    | None => if signal_eof then Throw EX_EOF else Ok (None, st)
    | Some p => Ok (Some p, st)
    end.

Definition start_token : T unit :=
  modify (fun st =>
    set_tokpos (pos st) (set_tokcol (col st) (set_tokline (line st) st))).

Definition token (type : string) (value : token_value) (is_comment : bool)
  : T Token := fun st =>
  let st := set_regex_allowed
    (((type =? "operator") && negb (HOP_value UNARY_POSTFIX value))
     || ((type =? "keyword") && HOP_value KEYWORDS_BEFORE_EXPRESSION value)
     || ((type =? "punc") && HOP_value PUNC_BEFORE_EXPRESSION value)) st in
  let ret_ := mkToken type value (tokline st) (tokcol st) (tokpos st)
                      (newline_before st) in
  if is_comment then
    Ok (ret_ None, set_newline_before false st)
  else
    Ok (ret_ (Some (comments_before st)),
        set_newline_before false (set_comments_before [] st)).

Fixpoint skip_whitespace (fuel : nat) : T unit :=
  match fuel with
  | O => out_of_fuel
  | S n =>
      ch <- peek ;;
      if HOP WHITESPACE_CHARS ch then next false ;; skip_whitespace n
      else ret tt
  end.

(** [read_while(pred)]: [pred] is a closure, its captured variables are
    the state [F]; [i] and [acc] are the loop's [i] and [ret]. *)
Fixpoint read_while {F : Type} (fuel : nat)
  (pred : string -> nat -> F -> bool * F) (f : F) (i : nat) (acc : string)
  : T string :=
  match fuel with
  | O => out_of_fuel
  | S n =>
      ch <- peek ;;
      if is_empty ch then ret acc
      else
        let '(ok, f') := pred ch i f in
        if ok then c <- next false ;; read_while n pred f' (S i) (acc ++ c)
        else ret acc
  end.

Definition parse_error {A : Type} (err : string) : T A := fun st =>
  Throw (ParseError (mkError err (tokline st) (tokcol st) (tokpos st))).

(** The variables [read_num] shares with the predicate it passes on. *)
Record num_flags : Type := mkFlags {
  has_e : bool;
  after_e : bool;
  has_x : bool;
  has_dot : bool
}.

(** The prefix argument of [read_num] and [read_operator]: [None] when the
    call passes none. *)
Definition truthy_prefix (prefix : option string) : bool :=
  match prefix with
  | Some p => negb (is_empty p)
  | None => false
  end.

Definition read_num_pred (prefix : option string) (ch : string) (i : nat)
  (f : num_flags) : bool * num_flags :=
  if (ch =? "x") || (ch =? "X") then
    if has_x f then (false, f)
    else (true, mkFlags (has_e f) (after_e f) true (has_dot f))
  else if negb (has_x f) && ((ch =? "E") || (ch =? "e")) then
    if has_e f then (false, f)
    else (true, mkFlags true true (has_x f) (has_dot f))
  else if ch =? "-" then
    if after_e f || ((i =? 0)%nat && negb (truthy_prefix prefix))
    then (true, f) else (false, f)
  else if ch =? "+" then (after_e f, f)
  else
    let f := mkFlags (has_e f) false (has_x f) (has_dot f) in
    if ch =? "." then
      if negb (has_dot f) && negb (has_x f)
      then (true, mkFlags (has_e f) (after_e f) (has_x f) true)
      else (false, f)
    else (is_alphanumeric_char ch, f).

Definition read_num_flags (prefix : option string) : num_flags :=
  mkFlags false false false
    (match prefix with Some p => p =? "." | None => false end).

(** The lexeme [read_num] validates: [prefix + num] when there is a
    prefix. *)
Definition with_prefix (prefix : option string) (num : string) : string :=
  match prefix with
  | Some p => if is_empty p then num else p ++ num
  | None => num
  end.

Definition read_num (fuel : nat) (prefix : option string) : T Token :=
  num <- read_while fuel (read_num_pred prefix) (read_num_flags prefix) 0 "" ;;
  let num := with_prefix prefix num in
  match parse_js_number num with
  | Finite valid => token "num" (VNum valid) false
  | NaN => parse_error ("Invalid syntax: " ++ num)
  | Unrepresented => out_of_range
  end.

(** [String.fromCharCode(n)]. *)
Definition fromCharCode (n : N) : T string :=
  if (n <? 256)%N then ret (String (ascii_of_N n) "") else out_of_range.

(** [hex_bytes(n)]: [n] is 2 or 4, so [(num << 4) | digit] never wraps;
    [digit], of one character, is an integer below 16. *)
Fixpoint hex_bytes_from (n : nat) (num : N) : T N :=
  match n with
  | O => ret num
  | S n' =>
      ch <- next true ;;
      match parseInt ch 16 with
      | NaN => parse_error "Invalid hex-character pattern in string"
      | Finite digit =>
          hex_bytes_from n' (N.lor (N.shiftl num 4) (mantissa digit))
      | Unrepresented => out_of_range
      end
  end.

Definition hex_bytes (n : nat) : T N := hex_bytes_from n 0%N.

Definition read_escaped_char : T string :=
  ch <- next true ;;
  if ch =? "n" then ret LF
  else if ch =? "r" then ret CR
  else if ch =? "t" then ret TAB
  else if ch =? "b" then ret (String (ascii_of_nat 8) "")
  else if ch =? "v" then ret (String (ascii_of_nat 11) "")
  else if ch =? "f" then ret (String (ascii_of_nat 12) "")
  else if ch =? "0" then ret (String (ascii_of_nat 0) "")
  else if ch =? "x" then n <- hex_bytes 2 ;; fromCharCode n
  else if ch =? "u" then n <- hex_bytes 4 ;; fromCharCode n
  else ret ch.

(** [with_eof_error(eof_error, cont)].  [cont] never starts a token, so the
    [tokline], [tokcol] and [tokpos] that [parse_error] reads in the handler
    are those of the state the call began with. *)
Definition with_eof_error {A : Type} (eof_error : string) (cont : T A)
  : T A := fun st =>
  match cont st with
  | Throw EX_EOF => parse_error eof_error st
  | r => r
  end.

Fixpoint read_string_from (fuel : nat) (quote acc : string) : T string :=
  match fuel with
  | O => out_of_fuel
  | S n =>
      ch <- next true ;;
      if ch =? BACKSLASH then
        c <- read_escaped_char ;; read_string_from n quote (acc ++ c)
      else if ch =? quote then ret acc
      else read_string_from n quote (acc ++ ch)
  end.

Definition read_string (fuel : nat) : T Token :=
  with_eof_error "Unterminated string constant"
    (quote <- next false ;;
     s <- read_string_from fuel quote "" ;;
     token "string" (VStr s) false).

Definition read_line_comment : T Token :=
  next false ;;
  i <- find LF false ;;
  st <- get ;;
  match i with
  | None =>
      modify (set_pos (String.length (text st))) ;;
      token "comment1" (VStr (substr (text st) (pos st))) true
  | Some i =>
      modify (set_pos i) ;;
      token "comment1" (VStr (substring_js (text st) (pos st) i)) true
  end.

(** The warning sink [warn] is the empty function, so the [@cc_on] branch
    has no effect.  [find] with [signal_eof] never yields -1. *)
Definition read_multiline_comment : T Token :=
  next false ;;
  with_eof_error "Unterminated multiline comment"
    (i <- find "*/" true ;;
     match i with
     | None => throw EX_EOF
     | Some i =>
         st <- get ;;
         let text_ := substring_js (text st) (pos st) i in
         tok <- token "comment2" (VStr text_) true ;;
         modify (set_pos (i + 2)) ;;
         modify (fun st => set_line (line st + count_LF text_) st) ;;
         modify (set_newline_before
                   (match indexOf text_ LF 0 with
                    | Some _ => true
                    | None => false
                    end)) ;;
         ret tok
     end).

Definition string_of_charCode (ch : string) : string :=
  match charCodeAt0 ch with
  | Some n => string_of_nat n
  | None => "NaN"
  end.

(** [read_name()]: [peek()] is never [null], so the loop ends only at its
    [break]. *)
Fixpoint read_name_from (fuel : nat) (backslash : bool) (name : string)
  : T string :=
  match fuel with
  | O => out_of_fuel
  | S n =>
      ch <- peek ;;
      if negb backslash then
        if ch =? BACKSLASH then next false ;; read_name_from n true name
        else if is_identifier_char ch then
          c <- next false ;; read_name_from n false (name ++ c)
        else ret name
      else
        if negb (ch =? "u") then
          parse_error "Expecting UnicodeEscapeSequence -- uXXXX"
        else
          ch <- read_escaped_char ;;
          if negb (is_identifier_char ch) then
            parse_error ("Unicode char: " ++ string_of_charCode ch
                         ++ " is not valid in identifier")
          else read_name_from n false (name ++ ch)
  end.

Definition read_name (fuel : nat) : T string := read_name_from fuel false "".

Fixpoint read_regexp_from (fuel : nat) (prev_backslash in_class : bool)
  (regexp : string) : T string :=
  match fuel with
  | O => out_of_fuel
  | S n =>
      ch <- next true ;;
      if prev_backslash then
        read_regexp_from n false in_class (regexp ++ BACKSLASH ++ ch)
      else if ch =? "[" then read_regexp_from n false true (regexp ++ ch)
      else if (ch =? "]") && in_class then
        read_regexp_from n false false (regexp ++ ch)
      else if (ch =? "/") && negb in_class then ret regexp
      else if ch =? BACKSLASH then read_regexp_from n true in_class regexp
      else read_regexp_from n false in_class (regexp ++ ch)
  end.

Definition read_regexp (fuel : nat) : T Token :=
  with_eof_error "Unterminated regular expression"
    (regexp <- read_regexp_from fuel false false "" ;;
     mods <- read_name fuel ;;
     token "regexp" (VRegexp regexp mods) false).

Fixpoint grow (fuel : nat) (op : string) : T string :=
  match fuel with
  | O => out_of_fuel
  | S n =>
      ch <- peek ;;
      if is_empty ch then ret op
      else
        let bigger := op ++ ch in
        if HOP OPERATORS bigger then next false ;; grow n bigger
        else ret op
  end.

Definition read_operator (fuel : nat) (prefix : option string)
  : T Token :=
  op <- (if truthy_prefix prefix
         then ret (match prefix with Some p => p | None => "" end)
         else next false) ;;
  op <- grow fuel op ;;
  token "operator" (VStr op) false.

(** [S.comments_before.push(c)]. *)
Definition push_comment (c : Token) (st : state) : state :=
  set_comments_before (comments_before st ++ [c])%list st.

(** [handle_slash()]; [next_token] is the function it calls back. *)
Definition handle_slash (fuel : nat) (next_token : T Token)
  : T Token :=
  next false ;;
  regex_allowed_ <- gets regex_allowed ;;
  ch <- peek ;;
  if ch =? "/" then
    c <- read_line_comment ;;
    modify (push_comment c) ;;
    modify (set_regex_allowed regex_allowed_) ;;
    next_token
  else if ch =? "*" then
    c <- read_multiline_comment ;;
    modify (push_comment c) ;;
    modify (set_regex_allowed regex_allowed_) ;;
    next_token
  else
    allowed <- gets regex_allowed ;;
    if allowed then read_regexp fuel else read_operator fuel (Some "/").

Definition handle_dot (fuel : nat) : T Token :=
  next false ;;
  ch <- peek ;;
  if is_digit ch then read_num fuel (Some ".")
  else token "punc" (VStr ".") false.

Definition read_word (fuel : nat) : T Token :=
  word <- read_name fuel ;;
  if negb (HOP KEYWORDS word) then token "name" (VStr word) false
  else if HOP OPERATORS word then token "operator" (VStr word) false
  else if HOP KEYWORDS_ATOM word then token "atom" (VStr word) false
  else token "keyword" (VStr word) false.

(** The body of [next_token(force_regexp)]; [self] is [next_token]
    itself, for the call in [handle_slash]. *)
Definition next_token_body (fuel : nat) (self : bool -> T Token)
  (force_regexp : bool) : T Token :=
  if force_regexp then read_regexp fuel
  else
    skip_whitespace fuel ;;
    start_token ;;
    ch <- peek ;;
    if is_empty ch then token "eof" VUndefined false
    else if is_digit ch then read_num fuel None
    else if (ch =? DQUOTE) || (ch =? SQUOTE) then read_string fuel
    else if HOP PUNC_CHARS ch then
      c <- next false ;; token "punc" (VStr c) false
    else if ch =? "." then handle_dot fuel
    else if ch =? "/" then handle_slash fuel (self false)
    else if HOP OPERATOR_CHARS ch then read_operator fuel None
    else if (ch =? BACKSLASH) || is_identifier_start ch then read_word fuel
    else parse_error ("Unexpected character '" ++ ch ++ "'").

Fixpoint next_token (fuel : nat) (force_regexp : bool) : T Token :=
  match fuel with
  | O => out_of_fuel
  | S n => next_token_body n (next_token n) force_regexp
  end.

End Tokenizer.

(* ------------------------------------------------------------------ *)
(** ** Parser constants and the syntax tree *)

(** [ASSIGNMENT]: [=] maps to [true], [op=] to [op]. *)
Definition ASSIGNMENT_keys : list string :=
  [ "+="; "-="; "/="; "*="; "%="; ">>="; "<<="; ">>>="; "|="; "^="; "&=" ].

Definition PRECEDENCE_levels : list (list string) :=
  [ ["||"];
    ["&&"];
    ["|"];
    ["^"];
    ["&"];
    ["=="; "==="; "!="; "!=="];
    ["<"; ">"; "<="; ">="; "in"; "instanceof"];
    [">>"; "<<"; ">>>"];
    ["+"; "-"];
    ["*"; "/"; "%"] ].

(** [PRECEDENCE[op]]: level [n] counts from 1; [None] is [undefined]. *)
Fixpoint PRECEDENCE_from (a : list (list string)) (n : nat) (op : string)
  : option nat :=
  match a with
  | [] => None
  | b :: rest =>
      match PRECEDENCE_from rest (S n) op with
      | Some later => Some later
      | None => if HOP b op then Some n else None
      end
  end.

Definition PRECEDENCE (op : string) : option nat :=
  PRECEDENCE_from PRECEDENCE_levels 1 op.

Definition STATEMENTS_WITH_LABELS : list string :=
  array_to_hash [ "for"; "do"; "while"; "switch" ].

Definition ATOMIC_START_TOKEN : list string :=
  array_to_hash [ "atom"; "num"; "string"; "regexp"; "name" ].

(** A node is an array whose first element is its tag; the other values
    are what the parser stores in such arrays.  [NodeWithToken] is the
    object that replaces a tag when tokens are embedded. *)
#[warnings="-register-all"]
Inductive ast : Type :=
| Str (s : string)
| Num (n : js_number)
| Null
| Undefined
| True_
| Arr (elements : list ast)
| NodeWithToken (name : ast) (start end_ : option Token).

(** [as(...)]: [slice(arguments)]. *)
Definition as_ (arguments : list ast) : ast := Arr arguments.

Definition ast_of_value (v : token_value) : ast :=
  match v with
  | VUndefined => Undefined
  | VStr s => Str s
  | VNum n => Num n
  | VRegexp body mods => Arr [Str body; Str mods]
  end.

(** [String(a)]; an array joins its elements with commas, [null] and
    [undefined] elements as empty strings; a [NodeWithToken] answers with
    its name. *)
Fixpoint to_string (a : ast) : string :=
  match a with
  | Str s => s
  | Num n => string_of_number n
  | Null => "null"
  | Undefined => "undefined"
  | True_ => "true"
  | Arr l =>
      (fix join (l : list ast) : string :=
         match l with
         | [] => ""
         | x :: rest =>
             let sx := match x with
                       | Null | Undefined => ""
                       | _ => to_string x
                       end in
             match rest with
             | [] => sx
             | _ => sx ++ "," ++ join rest
             end
         end) l
  | NodeWithToken name _ _ => to_string name
  end.

(** [a[i]]; [None] is the TypeError of indexing [undefined] or [null]. *)
Definition index (a : ast) (i : nat) : option ast :=
  match a with
  | Arr l => Some (nth i l Undefined)
  | Undefined | Null => None
  | Str s => Some (if is_empty (charAt s i) then Undefined
                   else Str (charAt s i))
  | _ => Some Undefined
  end.

(** [a == s] for a string [s] that is not numeric. *)
Definition loose_eq_str (a : ast) (s : string) : bool :=
  match a with
  | Str _ | Arr _ | NodeWithToken _ _ _ => to_string a =? s
  | _ => false
  end.

(** [a === s]. *)
Definition strict_eq_str (a : ast) (s : string) : bool :=
  match a with
  | Str x => x =? s
  | _ => false
  end.

(** [v === s] for a token value. *)
Definition value_is (v : token_value) (s : string) : bool :=
  match v with
  | VStr x => x =? s
  | _ => false
  end.

(** [!v] for a token value. *)
Definition falsy_value (v : token_value) : bool :=
  match v with
  | VUndefined => true
  | VStr s => is_empty s
  | VNum n => (mantissa n =? 0)%N
  | VRegexp _ _ => false
  end.

(** [a === b] on the values of name tokens, which are strings. *)
Definition strict_eq_value (a b : token_value) : bool :=
  match a, b with
  | VStr x, VStr y => x =? y
  | VUndefined, VUndefined => true
  | _, _ => false
  end.

(** [member(name, array)]. *)
Definition member (name : token_value) (array : list token_value) : bool :=
  existsb (strict_eq_value name) array.

(** [add_tokens(str, start, end)]. *)
Definition add_tokens (str : ast) (start end_ : option Token) : ast :=
  match str with
  | NodeWithToken _ _ _ => str
  | _ => NodeWithToken str start end_
  end.

(** [ast[0] = add_tokens(ast[0], start, end)]; [None] is the TypeError
    when [ast] is [undefined]. *)
Definition embed_in (a : ast) (start end_ : option Token) : option ast :=
  match a with
  | Arr [] => Some (Arr [add_tokens Undefined start end_])
  | Arr (tag :: rest) => Some (Arr (add_tokens tag start end_ :: rest))
  | Undefined | Null => None
  | _ => Some a
  end.

(** [ASSIGNMENT[val]]; [None] when [val] is not a key. *)
Definition ASSIGNMENT (val : string) : option ast :=
  if val =? "=" then Some True_
  else if HOP ASSIGNMENT_keys val
       then Some (Str (substring 0 (String.length val - 1) val))
       else None.

(* ------------------------------------------------------------------ *)
(** ** The parser *)

Module Parser.

(** The record [S] of [parse]; [S_input] is the state of the tokenizer
    behind [S.input].  [S.token] is a token from the first [next()] on. *)
Record state : Type := mkS {
  S_input : Tokenizer.state;
  S_token : Token;
  S_prev : option Token;
  S_peeked : option Token;
  S_in_function : nat;
  S_in_loop : nat;
  S_labels : list token_value
}.

Definition set_input (v : Tokenizer.state) (ps : state) : state :=
  mkS v (S_token ps) (S_prev ps) (S_peeked ps) (S_in_function ps)
      (S_in_loop ps) (S_labels ps).
Definition set_token (v : Token) (ps : state) : state :=
  mkS (S_input ps) v (S_prev ps) (S_peeked ps) (S_in_function ps)
      (S_in_loop ps) (S_labels ps).
Definition set_prev (v : option Token) (ps : state) : state :=
  mkS (S_input ps) (S_token ps) v (S_peeked ps) (S_in_function ps)
      (S_in_loop ps) (S_labels ps).
Definition set_peeked (v : option Token) (ps : state) : state :=
  mkS (S_input ps) (S_token ps) (S_prev ps) v (S_in_function ps)
      (S_in_loop ps) (S_labels ps).
Definition set_in_function (v : nat) (ps : state) : state :=
  mkS (S_input ps) (S_token ps) (S_prev ps) (S_peeked ps) v
      (S_in_loop ps) (S_labels ps).
Definition set_in_loop (v : nat) (ps : state) : state :=
  mkS (S_input ps) (S_token ps) (S_prev ps) (S_peeked ps)
      (S_in_function ps) v (S_labels ps).
Definition set_labels (v : list token_value) (ps : state) : state :=
  mkS (S_input ps) (S_token ps) (S_prev ps) (S_peeked ps)
      (S_in_function ps) (S_in_loop ps) v.

Definition P (A : Type) : Type := M state A.

Section Parse.

(** The arguments of [parse] that its inner functions close over, and the
    fuel handed to each call of the tokenizer and to the loop over a
    function's parameters. *)
Variable exigent_mode : bool.
Variable embed_tokens : bool.
Variable tokenizer_fuel : nat.

(** [S.input(force_regexp)]. *)
Definition input (force_regexp : bool) : P Token := fun ps =>
  match Tokenizer.next_token tokenizer_fuel force_regexp (S_input ps) with
  | Ok (t, ts) => Ok (t, set_input ts ps)
  | Throw e => Throw e
  | OutOfFuel => OutOfFuel
  | OutOfRange => OutOfRange
  end.

Definition is_ (type : string) (value : option string) : P bool :=
  gets (fun ps => is_token (S_token ps) type value).

Definition token_value_ : P token_value :=
  gets (fun ps => tok_value (S_token ps)).

Definition token_type_ : P string :=
  gets (fun ps => tok_type (S_token ps)).

Definition peek : P Token :=
  peeked <- gets S_peeked ;;
  match peeked with
  | Some t => ret t
  | None => t <- input false ;; modify (set_peeked (Some t)) ;; ret t
  end.

Definition next : P Token :=
  modify (fun ps => set_prev (Some (S_token ps)) ps) ;;
  peeked <- gets S_peeked ;;
  match peeked with
  | Some t => modify (set_token t) ;; modify (set_peeked None) ;; ret t
  | None => t <- input false ;; modify (set_token t) ;; ret t
  end.

Definition prev : P (option Token) := gets S_prev.

(** [croak(msg, line, col, pos)]; an argument that is not given is
    [None]. *)
Definition croak {A : Type} (msg : string) (line col pos : option nat)
  : P A := fun ps =>
  let ctx := S_input ps in
  Throw (ParseError (mkError msg
    (match line with Some l => l | None => Tokenizer.tokline ctx end)
    (match col with Some c => c | None => Tokenizer.tokcol ctx end)
    (match pos with Some p => p | None => Tokenizer.tokpos ctx end))).

Definition token_error {A : Type} (token : Token) (msg : string) : P A :=
  croak msg (Some (tok_line token)) (Some (tok_col token)) None.

(** [unexpected(token)]; [None] when the call passes no token. *)
Definition unexpected {A : Type} (token : option Token) : P A :=
  current <- gets S_token ;;
  let token := match token with Some t => t | None => current end in
  token_error token ("Unexpected token: " ++ tok_type token ++ " ("
                     ++ string_of_value (tok_value token) ++ ")").

Definition expect_token (type : string) (val : option string) : P Token :=
  b <- is_ type val ;;
  if b then next
  else
    current <- gets S_token ;;
    token_error current ("Unexpected token " ++ tok_type current
                         ++ ", expected " ++ type).

Definition expect (punc : string) : P Token :=
  expect_token "punc" (Some punc).

Definition can_insert_semicolon : P bool :=
  nlb <- gets (fun ps => tok_nlb (S_token ps)) ;;
  at_eof <- is_ "eof" None ;;
  at_brace <- is_ "punc" (Some "}") ;;
  ret (negb exigent_mode && (nlb || at_eof || at_brace)).

Definition semicolon : P unit :=
  b <- is_ "punc" (Some ";") ;;
  if b then next ;; ret tt
  else
    can <- can_insert_semicolon ;;
    if negb can then unexpected None else ret tt.

(** [in_loop(cont)]; after a [throw] nothing reads the counter that
    [finally] restores. *)
Definition in_loop {A : Type} (cont : P A) : P A :=
  modify (fun ps => set_in_loop (S (S_in_loop ps)) ps) ;;
  r <- cont ;;
  modify (fun ps => set_in_loop (Nat.pred (S_in_loop ps)) ps) ;;
  ret r.

Definition break_cont (type : string) : P ast :=
  b <- is_ "name" None ;;
  v <- token_value_ ;;
  let name := if b then v else VUndefined in
  (match name with
   | VUndefined =>
       in_loop_ <- gets S_in_loop ;;
       if (in_loop_ =? 0)%nat
       then croak (type ++ " not inside a loop or switch") None None None
       else ret tt
   | _ =>
       next ;;
       labels <- gets S_labels ;;
       if negb (member name labels)
       then croak ("Label " ++ string_of_value name
                   ++ " without matching loop or statement") None None None
       else ret tt
   end) ;;
  semicolon ;;
  ret (as_ [Str type;
            match name with VUndefined => Null | _ => ast_of_value name end]).

Definition as_name : P ast :=
  type <- token_type_ ;;
  if (type =? "name") || (type =? "operator") || (type =? "keyword")
     || (type =? "atom")
  then v <- token_value_ ;; next ;; ret (ast_of_value v)
  else unexpected None.

Definition as_property_name : P ast :=
  type <- token_type_ ;;
  if (type =? "num") || (type =? "string")
  then v <- token_value_ ;; next ;; ret (ast_of_value v)
  else as_name.

Definition is_assignable (expr : ast) : P bool :=
  if negb exigent_mode then ret true
  else
    match index expr 0 with
    | None => throw TypeError
    | Some tag =>
        if strict_eq_str tag "dot" || strict_eq_str tag "sub"
           || strict_eq_str tag "new" || strict_eq_str tag "call"
        then ret true
        else if strict_eq_str tag "name" then
          match index expr 1 with
          | Some v => ret (negb (loose_eq_str v "this"))
          | None => throw TypeError
          end
        else ret false
    end.

Definition make_unary (tag : string) (op : token_value) (expr : ast)
  : P ast :=
  (if value_eq op "++" || value_eq op "--" then
     ok <- is_assignable expr ;;
     if negb ok
     then croak ("Invalid use of " ++ string_of_value op ++ " operator")
                None None None
     else ret tt
   else ret tt) ;;
  ret (as_ [Str tag; ast_of_value op; expr]).

(** The parameter loop of [$function_]. *)
Fixpoint function_params (fuel : nat) (first : bool) (a : list ast)
  : P (list ast) :=
  match fuel with
  | O => out_of_fuel
  | S n =>
      closing <- is_ "punc" (Some ")") ;;
      if closing then next ;; ret a
      else
        (if first then ret tt else expect "," ;; ret tt) ;;
        named <- is_ "name" None ;;
        (if negb named then unexpected None else ret tt) ;;
        v <- token_value_ ;;
        next ;;
        function_params n false (a ++ [ast_of_value v])%list
  end.

(** An element of [switch_block_]'s array: [[expr, cur]] or
    [[null, cur]], with [cur] the statements pushed so far. *)
Definition push_to_last (a : list (ast * list ast)) (s : ast)
  : list (ast * list ast) :=
  match rev a with
  | [] => []
  | (e, cur) :: before => (rev before ++ [(e, cur ++ [s])])%list
  end.

Definition ast_of_cases (a : list (ast * list ast)) : ast :=
  Arr (map (fun c => Arr [fst c; Arr (snd c)]) a).

(** [opt ? x : undefined] for the optional children of a node. *)
Definition or_undefined (o : option ast) : ast :=
  match o with
  | Some a => a
  | None => Undefined
  end.

(** The parser's functions call one another; [calls] holds them as they
    stand with one unit of fuel less, and each function below reaches the
    others through it. *)
Record calls : Type := mkCalls {
  call_statement : P ast;
  call_dollar_statement : P ast;
  call_parenthesised : P ast;
  call_labeled_statement : token_value -> P ast;
  call_simple_statement : P ast;
  call_for_ : P ast;
  call_regular_for : ast -> P ast;
  call_for_in : ast -> P ast;
  call_function_ : bool -> P ast;
  call_dollar_function_ : bool -> P ast;
  call_if_ : P ast;
  call_block_ : P (list ast);
  call_block_loop : list ast -> P (list ast);
  call_switch_block_ : P ast;
  call_switch_loop :
    list (ast * list ast) -> P (list (ast * list ast));
  call_try_ : P ast;
  call_vardefs : bool -> list ast -> P (list ast);
  call_var_ : bool -> P ast;
  call_const_ : P ast;
  call_new_ : P ast;
  call_expr_atom : bool -> P ast;
  call_expr_list :
    string -> bool -> bool -> bool -> list ast -> P (list ast);
  call_array_ : P ast;
  call_object_ : P ast;
  call_object_loop : bool -> list ast -> P (list ast);
  call_subscripts : ast -> bool -> P ast;
  call_expr_op : ast -> nat -> bool -> P ast;
  call_expr_ops : bool -> P ast;
  call_maybe_conditional : bool -> P ast;
  call_maybe_assign : bool -> P ast;
  call_expression : bool -> bool -> P ast
}.

Definition statement (self : calls) : P ast :=
  if embed_tokens then
    start <- gets S_token ;;
    a <- call_dollar_statement self ;;
    end_ <- prev ;;
    match embed_in a (Some start) end_ with
    | Some a' => ret a'
    | None => throw TypeError
    end
  else call_dollar_statement self.

Definition dollar_statement (self : calls) : P ast :=
  slash <- is_ "operator" (Some "/") ;;
  (if slash then
     modify (set_peeked None) ;;
     t <- input true ;;
     modify (set_token t)
   else ret tt) ;;
  type <- token_type_ ;;
  if (type =? "num") || (type =? "string") || (type =? "regexp")
     || (type =? "operator") || (type =? "atom")
  then call_simple_statement self
  else if type =? "name" then
    p <- peek ;;
    if is_token p "punc" (Some ":") then
      label <- token_value_ ;;
      next ;; next ;;
      call_labeled_statement self label
    else call_simple_statement self
  else if type =? "punc" then
    v <- token_value_ ;;
    if value_is v "{" then
      a <- call_block_ self ;; ret (as_ [Str "block"; Arr a])
    else if value_is v "[" || value_is v "(" then call_simple_statement self
    else if value_is v ";" then next ;; ret (as_ [Str "block"])
    else unexpected None
  else if type =? "keyword" then
    v <- token_value_ ;;
    next ;;
    if value_is v "break" then break_cont "break"
    else if value_is v "continue" then break_cont "continue"
    else if value_is v "debugger" then
      semicolon ;; ret (as_ [Str "debugger"])
    else if value_is v "do" then
      body <- in_loop (call_statement self) ;;
      expect_token "keyword" (Some "while") ;;
      cond <- call_parenthesised self ;;
      semicolon ;;
      ret (as_ [Str "do"; cond; body])
    else if value_is v "for" then call_for_ self
    else if value_is v "function" then call_function_ self true
    else if value_is v "if" then call_if_ self
    else if value_is v "return" then
      in_function <- gets S_in_function ;;
      (if (in_function =? 0)%nat
       then croak "'return' outside of function" None None None
       else ret tt) ;;
      semi <- is_ "punc" (Some ";") ;;
      value <-
        (if semi then next ;; ret Null
         else
           can <- can_insert_semicolon ;;
           if can then ret Null
           else e <- call_expression self true false ;; semicolon ;; ret e) ;;
      ret (as_ [Str "return"; value])
    else if value_is v "switch" then
      d <- call_parenthesised self ;;
      cases <- call_switch_block_ self ;;
      ret (as_ [Str "switch"; d; cases])
    else if value_is v "throw" then
      e <- call_expression self true false ;;
      semicolon ;;
      ret (as_ [Str "throw"; e])
    else if value_is v "try" then call_try_ self
    else if value_is v "var" then
      a <- call_var_ self false ;; semicolon ;; ret a
    else if value_is v "const" then
      a <- call_const_ self ;; semicolon ;; ret a
    else if value_is v "while" then
      cond <- call_parenthesised self ;;
      body <- in_loop (call_statement self) ;;
      ret (as_ [Str "while"; cond; body])
    else if value_is v "with" then
      e <- call_parenthesised self ;;
      body <- call_statement self ;;
      ret (as_ [Str "with"; e; body])
    else unexpected None
  else ret Undefined.

Definition parenthesised (self : calls) : P ast :=
  expect "(" ;;
  ex <- call_expression self true false ;;
  expect ")" ;;
  ret ex.

Definition labeled_statement (self : calls) (label : token_value)
  : P ast :=
  modify (fun ps => set_labels (S_labels ps ++ [label])%list ps) ;;
  start <- gets S_token ;;
  stat <- call_statement self ;;
  (if exigent_mode then
     match index stat 0 with
     | None => throw TypeError
     | Some tag =>
         if negb (HOP STATEMENTS_WITH_LABELS (to_string tag))
         then unexpected (Some start)
         else ret tt
     end
   else ret tt) ;;
  modify (fun ps => set_labels (removelast (S_labels ps)) ps) ;;
  ret (as_ [Str "label"; ast_of_value label; stat]).

Definition simple_statement (self : calls) : P ast :=
  e <- call_expression self true false ;;
  semicolon ;;
  ret (as_ [Str "stat"; e]).

Definition for_ (self : calls) : P ast :=
  expect "(" ;;
  semi <- is_ "punc" (Some ";") ;;
  if negb semi then
    is_var <- is_ "keyword" (Some "var") ;;
    init <- (if is_var then next ;; call_var_ self true
             else call_expression self true true) ;;
    is_in <- is_ "operator" (Some "in") ;;
    if is_in then call_for_in self init else call_regular_for self init
  else call_regular_for self Null.

Definition regular_for (self : calls) (init : ast) : P ast :=
  expect ";" ;;
  semi <- is_ "punc" (Some ";") ;;
  test <- (if semi then ret Null else call_expression self true false) ;;
  expect ";" ;;
  closing <- is_ "punc" (Some ")") ;;
  step <- (if closing then ret Null else call_expression self true false) ;;
  expect ")" ;;
  body <- in_loop (call_statement self) ;;
  ret (as_ [Str "for"; init; test; step; body]).

Definition for_in (self : calls) (init : ast) : P ast :=
  lhs <-
    match index init 0 with
    | None => throw TypeError
    | Some tag =>
        if loose_eq_str tag "var" then
          match index init 1 with
          | None => throw TypeError
          | Some defs =>
              match index defs 0 with
              | None => throw TypeError
              | Some first => ret (as_ [Str "name"; first])
              end
          end
        else ret init
    end ;;
  next ;;
  obj <- call_expression self true false ;;
  expect ")" ;;
  body <- in_loop (call_statement self) ;;
  ret (as_ [Str "for-in"; init; lhs; obj; body]).

Definition function_ (self : calls) (in_statement : bool) : P ast :=
  if embed_tokens then
    start <- prev ;;
    a <- call_dollar_function_ self in_statement ;;
    end_ <- prev ;;
    match embed_in a start end_ with
    | Some a' => ret a'
    | None => throw TypeError
    end
  else call_dollar_function_ self in_statement.

Definition dollar_function_ (self : calls) (in_statement : bool) : P ast :=
  named <- is_ "name" None ;;
  name <- (if named then v <- token_value_ ;; next ;; ret v
           else ret VUndefined) ;;
  (if in_statement && falsy_value name then unexpected None
   else ret tt) ;;
  expect "(" ;;
  params <- function_params tokenizer_fuel true [] ;;
  modify (fun ps => set_in_function (S (S_in_function ps)) ps) ;;
  loop <- gets S_in_loop ;;
  modify (set_in_loop 0) ;;
  a <- call_block_ self ;;
  modify (fun ps => set_in_function (Nat.pred (S_in_function ps)) ps) ;;
  modify (set_in_loop loop) ;;
  ret (as_ [Str (if in_statement then "defun" else "function");
            (if named then ast_of_value name else Null);
            Arr params; Arr a]).

Definition if_ (self : calls) : P ast :=
  cond <- call_parenthesised self ;;
  body <- call_statement self ;;
  has_else <- is_ "keyword" (Some "else") ;;
  belse <- (if has_else then next ;; call_statement self
            else ret Undefined) ;;
  ret (as_ [Str "if"; cond; body; belse]).

Definition block_ (self : calls) : P (list ast) :=
  expect "{" ;;
  a <- call_block_loop self [] ;;
  next ;;
  ret a.

Definition block_loop (self : calls) (a : list ast) : P (list ast) :=
  closing <- is_ "punc" (Some "}") ;;
  if closing then ret a
  else
    at_eof <- is_ "eof" None ;;
    (if at_eof then unexpected None else ret tt) ;;
    s <- call_statement self ;;
    call_block_loop self (a ++ [s])%list.

Definition switch_block_ (self : calls) : P ast :=
  in_loop
    (expect "{" ;;
     a <- call_switch_loop self [] ;;
     next ;;
     ret (ast_of_cases a)).

Definition switch_loop (self : calls) (a : list (ast * list ast))
  : P (list (ast * list ast)) :=
  closing <- is_ "punc" (Some "}") ;;
  if closing then ret a
  else
    at_eof <- is_ "eof" None ;;
    (if at_eof then unexpected None else ret tt) ;;
    is_case <- is_ "keyword" (Some "case") ;;
    if is_case then
      next ;;
      e <- call_expression self true false ;;
      expect ":" ;;
      call_switch_loop self (a ++ [(e, [])])%list
    else
      is_default <- is_ "keyword" (Some "default") ;;
      if is_default then
        next ;;
        expect ":" ;;
        call_switch_loop self (a ++ [(Null, [])])%list
      else
        (match a with
         | [] => unexpected None
         | _ => ret tt
         end) ;;
        s <- call_statement self ;;
        call_switch_loop self (push_to_last a s).

Definition try_ (self : calls) : P ast :=
  body <- call_block_ self ;;
  has_catch <- is_ "keyword" (Some "catch") ;;
  bcatch <-
    (if has_catch then
       next ;;
       expect "(" ;;
       named <- is_ "name" None ;;
       (if negb named then croak "Name expected" None None None
        else ret tt) ;;
       name <- token_value_ ;;
       next ;;
       expect ")" ;;
       b <- call_block_ self ;;
       ret (Some (Arr [ast_of_value name; Arr b]))
     else ret None) ;;
  has_finally <- is_ "keyword" (Some "finally") ;;
  bfinally <-
    (if has_finally then next ;; b <- call_block_ self ;; ret (Some (Arr b))
     else ret None) ;;
  (match bcatch, bfinally with
   | None, None => croak "Missing catch/finally blocks" None None None
   | _, _ => ret tt
   end) ;;
  ret (as_ [Str "try"; Arr body; or_undefined bcatch;
            or_undefined bfinally]).

Definition vardefs (self : calls) (no_in : bool) (a : list ast)
  : P (list ast) :=
  named <- is_ "name" None ;;
  (if negb named then unexpected None else ret tt) ;;
  name <- token_value_ ;;
  next ;;
  has_init <- is_ "operator" (Some "=") ;;
  def <-
    (if has_init then
       next ;;
       e <- call_expression self false no_in ;;
       ret (Arr [ast_of_value name; e])
     else ret (Arr [ast_of_value name])) ;;
  let a := (a ++ [def])%list in
  comma <- is_ "punc" (Some ",") ;;
  if negb comma then ret a
  else next ;; call_vardefs self no_in a.

Definition var_ (self : calls) (no_in : bool) : P ast :=
  a <- call_vardefs self no_in [] ;; ret (as_ [Str "var"; Arr a]).

Definition const_ (self : calls) : P ast :=
  a <- call_vardefs self false [] ;; ret (as_ [Str "const"; Arr a]).

Definition new_ (self : calls) : P ast :=
  newexp <- call_expr_atom self false ;;
  has_args <- is_ "punc" (Some "(") ;;
  args <- (if has_args
           then next ;; call_expr_list self ")" false false true []
           else ret []) ;;
  call_subscripts self (as_ [Str "new"; newexp; Arr args]) true.

Definition expr_atom (self : calls) (allow_calls : bool) : P ast :=
  is_new <- is_ "operator" (Some "new") ;;
  if is_new then next ;; call_new_ self
  else
    is_op <- is_ "operator" None ;;
    v <- token_value_ ;;
    if is_op && HOP_value UNARY_PREFIX v then
      next ;;
      e <- call_expr_atom self allow_calls ;;
      make_unary "unary-prefix" v e
    else
      is_punc <- is_ "punc" None ;;
      if is_punc then
        if value_is v "(" then
          next ;;
          e <- call_expression self true false ;;
          expect ")" ;;
          call_subscripts self e allow_calls
        else if value_is v "[" then
          next ;;
          a <- call_array_ self ;;
          call_subscripts self a allow_calls
        else if value_is v "{" then
          next ;;
          o <- call_object_ self ;;
          call_subscripts self o allow_calls
        else unexpected None
      else
        is_function <- is_ "keyword" (Some "function") ;;
        if is_function then
          next ;;
          f <- call_function_ self false ;;
          call_subscripts self f allow_calls
        else
          type <- token_type_ ;;
          if HOP ATOMIC_START_TOKEN type then
            let atom :=
              if type =? "regexp" then
                match v with
                | VRegexp body mods => as_ [Str "regexp"; Str body; Str mods]
                | _ => as_ [Str "regexp"; Undefined; Undefined]
                end
              else as_ [Str type; ast_of_value v] in
            next ;;
            call_subscripts self atom allow_calls
          else unexpected None.

Definition expr_list (self : calls) (closing : string)
  (allow_trailing_comma allow_empty first : bool) (a : list ast)
  : P (list ast) :=
  at_closing <- is_ "punc" (Some closing) ;;
  if at_closing then next ;; ret a
  else
    (if first then ret tt else expect "," ;; ret tt) ;;
    at_closing <- is_ "punc" (Some closing) ;;
    if allow_trailing_comma && at_closing then next ;; ret a
    else
      comma <- is_ "punc" (Some ",") ;;
      e <- (if comma && allow_empty
            then ret (Arr [Str "atom"; Str "undefined"])
            else call_expression self false false) ;;
      call_expr_list self closing allow_trailing_comma allow_empty false
                (a ++ [e])%list.

Definition array_ (self : calls) : P ast :=
  a <- call_expr_list self "]" (negb exigent_mode) true true [] ;;
  ret (as_ [Str "array"; Arr a]).

Definition object_ (self : calls) : P ast :=
  a <- call_object_loop self true [] ;;
  next ;;
  ret (as_ [Str "object"; Arr a]).

Definition object_loop (self : calls) (first : bool) (a : list ast)
  : P (list ast) :=
  closing <- is_ "punc" (Some "}") ;;
  if closing then ret a
  else
    (if first then ret tt else expect "," ;; ret tt) ;;
    closing <- is_ "punc" (Some "}") ;;
    if negb exigent_mode && closing then ret a
    else
      type <- token_type_ ;;
      name <- as_property_name ;;
      colon <- is_ "punc" (Some ":") ;;
      if (type =? "name")
         && (loose_eq_str name "get" || loose_eq_str name "set")
         && negb colon
      then
        key <- as_name ;;
        f <- call_function_ self false ;;
        call_object_loop self false (a ++ [Arr [key; f; name]])%list
      else
        expect ":" ;;
        e <- call_expression self false false ;;
        call_object_loop self false (a ++ [Arr [name; e]])%list.

Definition subscripts (self : calls) (expr : ast) (allow_calls : bool)
  : P ast :=
  dot <- is_ "punc" (Some ".") ;;
  if dot then
    next ;;
    name <- as_name ;;
    call_subscripts self (as_ [Str "dot"; expr; name]) allow_calls
  else
    bracket <- is_ "punc" (Some "[") ;;
    if bracket then
      next ;;
      e <- call_expression self true false ;;
      expect "]" ;;
      call_subscripts self (as_ [Str "sub"; expr; e]) allow_calls
    else
      paren <- is_ "punc" (Some "(") ;;
      if allow_calls && paren then
        next ;;
        args <- call_expr_list self ")" false false true [] ;;
        call_subscripts self (as_ [Str "call"; expr; Arr args]) true
      else
        is_op <- is_ "operator" None ;;
        v <- token_value_ ;;
        if allow_calls && is_op && HOP_value UNARY_POSTFIX v then
          u <- make_unary "unary-postfix" v expr ;;
          next ;;
          ret u
        else ret expr.

Definition expr_op (self : calls) (left : ast) (min_prec : nat)
  (no_in : bool) : P ast :=
  is_op <- is_ "operator" None ;;
  v <- token_value_ ;;
  let op := if is_op then v else VUndefined in
  let op := if negb (falsy_value op) && value_eq op "in" && no_in
            then VUndefined else op in
  let prec := match op with
              | VUndefined => None
              | _ => PRECEDENCE (string_of_value op)
              end in
  match prec with
  | Some p =>
      if (min_prec <? p)%nat then
        next ;;
        atom <- call_expr_atom self true ;;
        right <- call_expr_op self atom p no_in ;;
        call_expr_op self (as_ [Str "binary"; ast_of_value op; left; right])
                min_prec no_in
      else ret left
  | None => ret left
  end.

Definition expr_ops (self : calls) (no_in : bool) : P ast :=
  atom <- call_expr_atom self true ;; call_expr_op self atom 0 no_in.

Definition maybe_conditional (self : calls) (no_in : bool) : P ast :=
  expr <- call_expr_ops self no_in ;;
  question <- is_ "operator" (Some "?") ;;
  if question then
    next ;;
    yes <- call_expression self false false ;;
    expect ":" ;;
    no <- call_expression self false no_in ;;
    ret (as_ [Str "conditional"; expr; yes; no])
  else ret expr.

Definition maybe_assign (self : calls) (no_in : bool) : P ast :=
  left <- call_maybe_conditional self no_in ;;
  val <- token_value_ ;;
  is_op <- is_ "operator" None ;;
  match (if is_op then ASSIGNMENT (string_of_value val) else None) with
  | Some op =>
      ok <- is_assignable left ;;
      if ok then
        next ;;
        right <- call_maybe_assign self no_in ;;
        ret (as_ [Str "assign"; op; left; right])
      else croak "Invalid assignment" None None None
  | None => ret left
  end.

Definition expression (self : calls) (commas no_in : bool) : P ast :=
  expr <- call_maybe_assign self no_in ;;
  comma <- is_ "punc" (Some ",") ;;
  if commas && comma then
    next ;;
    rest <- call_expression self true no_in ;;
    ret (as_ [Str "seq"; expr; rest])
  else ret expr.

(** With no fuel every call ends [OutOfFuel]. *)
Definition no_calls : calls :=
  mkCalls out_of_fuel out_of_fuel out_of_fuel (fun _ => out_of_fuel)
    out_of_fuel out_of_fuel (fun _ => out_of_fuel) (fun _ => out_of_fuel)
    (fun _ => out_of_fuel) (fun _ => out_of_fuel) out_of_fuel out_of_fuel
    (fun _ => out_of_fuel) out_of_fuel (fun _ => out_of_fuel) out_of_fuel
    (fun _ _ => out_of_fuel) (fun _ => out_of_fuel) out_of_fuel out_of_fuel
    (fun _ => out_of_fuel) (fun _ _ _ _ _ => out_of_fuel) out_of_fuel
    out_of_fuel (fun _ _ => out_of_fuel) (fun _ _ => out_of_fuel)
    (fun _ _ _ => out_of_fuel) (fun _ => out_of_fuel) (fun _ => out_of_fuel)
    (fun _ => out_of_fuel) (fun _ _ => out_of_fuel).

Fixpoint parser (fuel : nat) : calls :=
  match fuel with
  | O => no_calls
  | S n =>
      let self := parser n in
      mkCalls (statement self)
        (dollar_statement self)
        (parenthesised self)
        (labeled_statement self)
        (simple_statement self)
        (for_ self)
        (regular_for self)
        (for_in self)
        (function_ self)
        (dollar_function_ self)
        (if_ self)
        (block_ self)
        (block_loop self)
        (switch_block_ self)
        (switch_loop self)
        (try_ self)
        (vardefs self)
        (var_ self)
        (const_ self)
        (new_ self)
        (expr_atom self)
        (expr_list self)
        (array_ self)
        (object_ self)
        (object_loop self)
        (subscripts self)
        (expr_op self)
        (expr_ops self)
        (maybe_conditional self)
        (maybe_assign self)
        (expression self)
  end.

(** The loop of [parse]'s last statement. *)
Fixpoint toplevel (fuel : nat) (a : list ast) : P (list ast) :=
  match fuel with
  | O => out_of_fuel
  | S n =>
      at_eof <- is_ "eof" None ;;
      if at_eof then ret a
      else s <- statement (parser n) ;; toplevel n (a ++ [s])%list
  end.

End Parse.

End Parser.

(** [parse($TEXT, exigent_mode, embed_tokens)] for a string [$TEXT]: the
    first [next()] fills [S.token], then the top-level loop runs. *)
Definition parse (TEXT : string) (exigent_mode embed_tokens : bool)
  (fuel : nat) : outcome ast :=
  match Tokenizer.next_token fuel false (Tokenizer.tokenizer TEXT) with
  | Ok (t, ts) =>
      match Parser.toplevel exigent_mode embed_tokens fuel fuel []
              (Parser.mkS ts t None None 0 0 []) with
      | Ok (a, _) => Ok (as_ [Str "toplevel"; Arr a])
      | Throw e => Throw e
      | OutOfFuel => OutOfFuel
      | OutOfRange => OutOfRange
      end
  | Throw e => Throw e
  | OutOfFuel => OutOfFuel
  | OutOfRange => OutOfRange
  end.

(* ------------------------------------------------------------------ *)
(** ** The token stream of a text *)

(** The tokens that repeated calls of the tokenizer return, up to and
    including [eof]. *)
Fixpoint tokens (fuel : nat) (st : Tokenizer.state) : outcome (list Token) :=
  match fuel with
  | O => OutOfFuel
  | S n =>
      match Tokenizer.next_token fuel false st with
      | Ok (t, st') =>
          if tok_type t =? "eof" then Ok [t]
          else
            match tokens n st' with
            | Ok ts => Ok (t :: ts)
            | Throw e => Throw e
            | OutOfFuel => OutOfFuel
            | OutOfRange => OutOfRange
            end
      | Throw e => Throw e
      | OutOfFuel => OutOfFuel
      | OutOfRange => OutOfRange
      end
  end.

(** Type, value and [nlb] of each token of a text. *)
Definition scan (fuel : nat) (TEXT : string)
  : outcome (list (string * token_value * bool)) :=
  match tokens fuel (Tokenizer.tokenizer TEXT) with
  | Ok ts => Ok (map (fun t => (tok_type t, tok_value t, tok_nlb t)) ts)
  | Throw e => Throw e
  | OutOfFuel => OutOfFuel
  | OutOfRange => OutOfRange
  end.

(* ------------------------------------------------------------------ *)
(** ** The properties, as the specification states them *)

(** The three kinds of token after which an expression may start, as the
    specification lists them. *)
Definition precedes_expression (t : Token) : Prop :=
  (tok_type t = "operator"
   /\ tok_value t <> VStr "++" /\ tok_value t <> VStr "--")
  \/ (tok_type t = "keyword"
      /\ exists v, tok_value t = VStr v
         /\ In v ["return"; "new"; "delete"; "throw"; "else"; "case"])
  \/ (tok_type t = "punc"
      /\ exists v, tok_value t = VStr v
         /\ In v ["["; "{"; "}"; "("; ","; "."; ";"; ":"]).

(** What [token] is called with: a value that is a string, or a type that
    is none of the three the rule looks at. *)
Definition plain_emission (type : string) (value : token_value) : Prop :=
  (exists s, value = VStr s)
  \/ (type <> "operator" /\ type <> "keyword" /\ type <> "punc").

(** A tokenizer action that, whenever it returns a token, leaves the flag
    as the rule says for that token. *)
Definition flag_follows_rule (m : Tokenizer.T Token) : Prop :=
  forall st t st',
    m st = Ok (t, st') ->
    (Tokenizer.regex_allowed st' = true <-> precedes_expression t).

(** The action [m] leaves the part [f] of the tokenizer's state as it
    was, whenever it returns. *)
Definition keeps {A B : Type} (f : Tokenizer.state -> B)
  (m : Tokenizer.T A) : Prop :=
  forall st a st', m st = Ok (a, st') -> f st' = f st.

(** A comment token: what [read_line_comment] and
    [read_multiline_comment] return. *)
Definition is_comment_token (c : Token) : Prop :=
  (tok_type c = "comment1" \/ tok_type c = "comment2")
  /\ tok_comments_before c = None.

(** [rescans n st m st']: the call [next_token()] made in state [st] with
    fuel [n] reads one or more comments, one per call of itself, and then
    calls [next_token()] in state [st'] with fuel [m]. *)
Inductive rescans
  : nat -> Tokenizer.state -> nat -> Tokenizer.state -> Prop :=
| rescans_once (n : nat) (st st' : Tokenizer.state) :
    (forall self,
       Tokenizer.next_token_body n self false st = self false st') ->
    rescans (S n) st n st'
| rescans_more (n m k : nat) (st st1 st' : Tokenizer.state) :
    rescans n st m st1 -> rescans m st1 k st' -> rescans n st k st'.

(** The condition under which a missing semicolon is accepted. *)
Definition insertable (t : Token) : Prop :=
  tok_nlb t = true
  \/ tok_type t = "eof"
  \/ (tok_type t = "punc" /\ tok_value t = VStr "}").

(** The error [unexpected()] raises for the current token: the token's
    line and column, the position the tokenizer last started a token at. *)
Definition unexpected_current (ps : Parser.state) : JS_Parse_Error :=
  let t := Parser.S_token ps in
  mkError ("Unexpected token: " ++ tok_type t ++ " ("
           ++ string_of_value (tok_value t) ++ ")")
          (tok_line t) (tok_col t) (Tokenizer.tokpos (Parser.S_input ps)).

(** The lexemes [read_num] builds: a digit first, or a dot and a digit. *)
Definition digit_headed (lexeme : string) : Prop :=
  exists c rest,
    code_in 48 57 c = true
    /\ (lexeme = String c rest \/ lexeme = String "." (String c rest)).

(** What scanning the characters of a token leaves alone: the text and
    the start of the token. *)
Definition token_start (st : Tokenizer.state) : string * nat * nat * nat :=
  (Tokenizer.text st, Tokenizer.tokline st, Tokenizer.tokcol st,
   Tokenizer.tokpos st).

(** The three shapes of a number as the specification words them: hex,
    octal, and decimal digits with an optional dot and an optional
    exponent of digits. *)
Definition spec_number_shape : regex :=
  Or (Cat (one "0") (Cat (one "x") (Plus re_hex_i)))
     (Or (Cat (one "0") (Plus re_oct))
         (Cat (Star re_d) (Cat (Opt re_dot) (Cat (Star re_d)
            (Opt (Cat (one_i "e" "E") (Cat (Opt re_sign) (Plus re_d)))))))).

(** The parser at a closing brace that no semicolon precedes. *)
Definition at_closing_brace : Parser.state :=
  Parser.mkS (Tokenizer.tokenizer "}")
    (mkToken "punc" (VStr "}") 0 0 0 false (Some [])) None None 0 0 [].

(** The text [( /*x*/ //y], a line feed, [ /z/]: two comments before a
    regular expression. *)
Definition two_comments : string := "( /*x*/ //y" ++ LF ++ " /z/".

(** The tokenizer after it has returned the [(]. *)
Definition after_paren : Tokenizer.state :=
  Tokenizer.mkS two_comments 1 0 0 0 1 0 false true [].

(** The state in which [handle_slash] calls back after the first
    comment. *)
Definition after_first_comment : Tokenizer.state :=
  Tokenizer.mkS two_comments 7 2 0 0 4 2 false true
    [mkToken "comment2" (VStr "x") 0 2 2 false None].

(** The state in which it calls back after the second comment. *)
Definition after_second_comment : Tokenizer.state :=
  Tokenizer.mkS two_comments 11 8 0 0 7 5 false true
    [mkToken "comment2" (VStr "x") 0 2 2 false None;
     mkToken "comment1" (VStr "y") 0 5 8 false None].

(* ------------------------------------------------------------------ *)
(** ** Invariants and round trips: what the theorems below speak of *)

(** The characters of the text that are still to be read. *)
Definition remaining (st : Tokenizer.state) : nat :=
  String.length (Tokenizer.text st) - Tokenizer.pos st.

(** From [st] to [st'] the tokenizer has moved forward in the same text,
    and has counted the line feeds it passed. *)
Definition steps (st st' : Tokenizer.state) : Prop :=
  Tokenizer.text st' = Tokenizer.text st
  /\ Tokenizer.pos st <= Tokenizer.pos st'
  /\ Tokenizer.line st' =
     Tokenizer.line st
     + count_LF (substring_js (Tokenizer.text st) (Tokenizer.pos st)
                   (Tokenizer.pos st')).

(** An action that only moves forward, whenever it returns. *)
Definition advancing {A : Type} (m : Tokenizer.T A) : Prop :=
  forall st a st', m st = Ok (a, st') -> steps st st'.

(** An action that reads at least one character, whenever it returns. *)
Definition consuming {A : Type} (m : Tokenizer.T A) : Prop :=
  forall st a st',
    m st = Ok (a, st') -> steps st st' /\ Tokenizer.pos st < Tokenizer.pos st'.

(** What a token returned by [next_token] looks like: the type goes with
    the kind of value, an operator is a key of [OPERATORS], a keyword a key
    of [KEYWORDS] that is no operator, a name no key of [KEYWORDS], a
    punctuation a key of [PUNC_CHARS] or the dot. *)
Definition token_shape (t : Token) : Prop :=
  match tok_value t with
  | VUndefined => tok_type t = "eof"
  | VNum _ => tok_type t = "num"
  | VRegexp _ _ => tok_type t = "regexp"
  | VStr s =>
      tok_type t = "string"
      \/ (tok_type t = "punc" /\ (HOP PUNC_CHARS s = true \/ s = "."))
      \/ (tok_type t = "operator" /\ HOP OPERATORS s = true)
      \/ (tok_type t = "keyword"
          /\ HOP KEYWORDS s = true /\ HOP OPERATORS s = false)
      \/ (tok_type t = "name" /\ HOP KEYWORDS s = false)
  end.

(** A scan of one token: the token is well formed, and either it is [eof]
    and nothing is left to read, or it is not and the position has moved
    on. *)
Definition scans (m : Tokenizer.T Token) : Prop :=
  forall st t st',
    m st = Ok (t, st') ->
    token_shape t
    /\ ((tok_type t = "eof" /\ remaining st' = 0)
        \/ (tok_type t <> "eof" /\ Tokenizer.pos st < Tokenizer.pos st')).

(** The state in which [next_token] looks at the first character of a
    token: white space skipped, the start of the token recorded. *)
Definition token_started (s1 : Tokenizer.state) : Tokenizer.state :=
  Tokenizer.set_tokpos (Tokenizer.pos s1)
    (Tokenizer.set_tokcol (Tokenizer.col s1)
       (Tokenizer.set_tokline (Tokenizer.line s1) s1)).

(** The choice [next_token] makes on the first character [ch] of a
    token. *)
Definition dispatch (fuel : nat) (self : bool -> Tokenizer.T Token)
  (ch : string) : Tokenizer.T Token :=
  if is_empty ch then Tokenizer.token "eof" VUndefined false
  else if is_digit ch then Tokenizer.read_num fuel None
  else if (ch =? DQUOTE) || (ch =? SQUOTE) then Tokenizer.read_string fuel
  else if HOP PUNC_CHARS ch then
    c <- Tokenizer.next false ;; Tokenizer.token "punc" (VStr c) false
  else if ch =? "." then Tokenizer.handle_dot fuel
  else if ch =? "/" then Tokenizer.handle_slash fuel (self false)
  else if HOP OPERATOR_CHARS ch then Tokenizer.read_operator fuel None
  else if (ch =? BACKSLASH) || is_identifier_start ch
       then Tokenizer.read_word fuel
  else Tokenizer.parse_error ("Unexpected character '" ++ ch ++ "'").

(** An action that returns a token carrying the comments buffered before
    it and those it read itself, and leaves the buffer empty and
    [newline_before] cleared. *)
Definition emits (m : Tokenizer.T Token) : Prop :=
  forall st t st',
    m st = Ok (t, st') ->
    Tokenizer.comments_before st' = []
    /\ Tokenizer.newline_before st' = false
    /\ exists cs,
         tok_comments_before t
         = Some (Tokenizer.comments_before st ++ cs)%list
         /\ Forall is_comment_token cs.

(** With more fuel than characters left, the action does not run out of
    fuel. *)
Definition fuelled {A : Type} (fuel : nat) (m : Tokenizer.T A) : Prop :=
  forall st, remaining st < fuel -> m st <> OutOfFuel.

(** The text [x = /* a */ y], a line feed, [z]. *)
Definition commented_text : string := "x = /* a */ y" ++ LF ++ "z".

(** The tokenizer after it has returned the [=]. *)
Definition after_equals : Tokenizer.state :=
  Tokenizer.mkS commented_text 3 2 0 0 3 2 false true [].

(** The character [c] occurs in [s]. *)
Fixpoint has_char (c : ascii) (s : string) : bool :=
  match s with
  | "" => false
  | String c' rest => Ascii.eqb c c' || has_char c rest
  end.

(** The carriage return, the line feed, the backslash and the two quotes,
    as characters. *)
Definition CR_char : ascii := ascii_of_nat 13.

Definition LF_char : ascii := ascii_of_nat 10.

Definition BACKSLASH_char : ascii := ascii_of_nat 92.

Definition DQUOTE_char : ascii := ascii_of_nat 34.

Definition SQUOTE_char : ascii := ascii_of_nat 39.

(** The tokenizer stands in front of [s]: its text is [pre] followed by
    [s], and it has read [pre]. *)
Definition stands_at (st : Tokenizer.state) (pre s : string) : Prop :=
  Tokenizer.text st = pre ++ s /\ Tokenizer.pos st = String.length pre.

(** [s] begins with the character [c]. *)
Definition starts_with (c : ascii) (s : string) : bool :=
  match s with
  | "" => false
  | String c' _ => Ascii.eqb c' c
  end.

(** [s] ends with the character [c]. *)
Fixpoint ends_with (c : ascii) (s : string) : bool :=
  match s with
  | "" => false
  | String c' "" => Ascii.eqb c' c
  | String _ rest => ends_with c rest
  end.

(** Every character of [s] is in the class [cls]. *)
Fixpoint all_in (cls : ascii -> bool) (s : string) : bool :=
  match s with
  | "" => true
  | String c rest => cls c && all_in cls rest
  end.

(** What may follow the digits of a number for the scan to stop there: the
    end of the text, or a character that is neither a letter, a digit nor
    a dot. *)
Definition number_ends (rest : string) : bool :=
  match rest with
  | "" => true
  | String c _ =>
      negb (is_alphanumeric_char (String c "")) && negb (Ascii.eqb c ".")
  end.

(** A character of [WHITESPACE_CHARS]. *)
Definition whitespace_char (c : ascii) : bool :=
  HOP WHITESPACE_CHARS (String c "").

(** The function depth, the loop depth and the labels in scope. *)
Definition nesting (ps : Parser.state) : nat * nat * list token_value :=
  (Parser.S_in_function ps, Parser.S_in_loop ps, Parser.S_labels ps).

(** A parsing action that, whenever it returns, has left the nesting as it
    found it. *)
Definition balanced {A : Type} (m : Parser.P A) : Prop :=
  forall ps a ps', m ps = Ok (a, ps') -> nesting ps' = nesting ps.

(** Every function of [self] is balanced. *)
Record balanced_calls (self : Parser.calls) : Prop := mkBalanced {
  bal_statement : balanced (Parser.call_statement self);
  bal_dollar_statement : balanced (Parser.call_dollar_statement self);
  bal_parenthesised : balanced (Parser.call_parenthesised self);
  bal_labeled_statement :
    forall label, balanced (Parser.call_labeled_statement self label);
  bal_simple_statement : balanced (Parser.call_simple_statement self);
  bal_for_ : balanced (Parser.call_for_ self);
  bal_regular_for : forall init, balanced (Parser.call_regular_for self init);
  bal_for_in : forall init, balanced (Parser.call_for_in self init);
  bal_function_ : forall in_statement,
    balanced (Parser.call_function_ self in_statement);
  bal_dollar_function_ : forall in_statement,
    balanced (Parser.call_dollar_function_ self in_statement);
  bal_if_ : balanced (Parser.call_if_ self);
  bal_block_ : balanced (Parser.call_block_ self);
  bal_block_loop : forall a, balanced (Parser.call_block_loop self a);
  bal_switch_block_ : balanced (Parser.call_switch_block_ self);
  bal_switch_loop : forall a, balanced (Parser.call_switch_loop self a);
  bal_try_ : balanced (Parser.call_try_ self);
  bal_vardefs : forall no_in a, balanced (Parser.call_vardefs self no_in a);
  bal_var_ : forall no_in, balanced (Parser.call_var_ self no_in);
  bal_const_ : balanced (Parser.call_const_ self);
  bal_new_ : balanced (Parser.call_new_ self);
  bal_expr_atom : forall allow_calls,
    balanced (Parser.call_expr_atom self allow_calls);
  bal_expr_list : forall closing trailing empty first a,
    balanced (Parser.call_expr_list self closing trailing empty first a);
  bal_array_ : balanced (Parser.call_array_ self);
  bal_object_ : balanced (Parser.call_object_ self);
  bal_object_loop : forall first a,
    balanced (Parser.call_object_loop self first a);
  bal_subscripts : forall expr allow_calls,
    balanced (Parser.call_subscripts self expr allow_calls);
  bal_expr_op : forall left min_prec no_in,
    balanced (Parser.call_expr_op self left min_prec no_in);
  bal_expr_ops : forall no_in, balanced (Parser.call_expr_ops self no_in);
  bal_maybe_conditional : forall no_in,
    balanced (Parser.call_maybe_conditional self no_in);
  bal_maybe_assign : forall no_in,
    balanced (Parser.call_maybe_assign self no_in);
  bal_expression : forall commas no_in,
    balanced (Parser.call_expression self commas no_in)
}.

(** The state in which [parse] enters its top-level loop: the first token
    read, nothing else yet. *)
Definition parser_at (TEXT : string) (fuel : nat) : option Parser.state :=
  match Tokenizer.next_token fuel false (Tokenizer.tokenizer TEXT) with
  | Ok (t, ts) => Some (Parser.mkS ts t None None 0 0 [])
  | _ => None
  end.

(** The program that is the one expression statement [e]. *)
Definition program_of (e : ast) : ast :=
  Arr [Str "toplevel"; Arr [Arr [Str "stat"; e]]].

Definition name_ (x : string) : ast := Arr [Str "name"; Str x].

Definition binary_ (op : string) (l r : ast) : ast :=
  Arr [Str "binary"; Str op; l; r].

Definition assign_ (op l r : ast) : ast := Arr [Str "assign"; op; l; r].

Definition unary_prefix_ (op : string) (e : ast) : ast :=
  Arr [Str "unary-prefix"; Str op; e].

(** The parser at the end of the text [if (x)]. *)
Definition at_end_of_if : Parser.state :=
  Parser.mkS (Tokenizer.mkS "if (x)" 6 6 0 0 6 6 false false [])
    (mkToken "eof" VUndefined 0 6 6 false (Some []))
    (Some (mkToken "punc" (VStr ")") 0 5 5 false (Some []))) None 0 0 [].

(** Line, column and position of a token, and of the token the tokenizer
    started last. *)
Definition token_place (t : Token) : nat * nat * nat :=
  (tok_line t, tok_col t, tok_pos t).

Definition state_place (st : Tokenizer.state) : nat * nat * nat :=
  (Tokenizer.tokline st, Tokenizer.tokcol st, Tokenizer.tokpos st).

(** An action that returns a token at the place the tokenizer started
    last, and does not start another. *)
Definition anchored (m : Tokenizer.T Token) : Prop :=
  forall st t st',
    m st = Ok (t, st') ->
    token_place t = state_place st /\ state_place st' = state_place st.

(** An action that returns a token found at or after the position it
    began at, on the line that the line feeds up to the token make; the
    tokenizer is left with the place of that token. *)
Definition located (m : Tokenizer.T Token) : Prop :=
  forall st t st',
    m st = Ok (t, st') ->
    token_place t = state_place st'
    /\ Tokenizer.pos st <= tok_pos t
    /\ tok_line t =
       Tokenizer.line st
       + count_LF (substring_js (Tokenizer.text st) (Tokenizer.pos st)
                     (tok_pos t))
    /\ (tok_type t <> "eof" -> tok_pos t < Tokenizer.pos st').

(** The line counter agrees with the text read so far. *)
Definition line_exact (st : Tokenizer.state) : Prop :=
  Tokenizer.line st =
  count_LF (substring_js (Tokenizer.text st) 0 (Tokenizer.pos st)).

(** A line feed was met from [st] to [st']: the flag was up in [st]
    already, or the line counter has moved. *)
Definition newline_seen (st st' : Tokenizer.state) : Prop :=
  Tokenizer.newline_before st = true
  \/ Tokenizer.line st < Tokenizer.line st'.

(** An action that raises [newline_before] exactly when it meets a line
    feed, and never lowers it. *)
Definition marking {A : Type} (m : Tokenizer.T A) : Prop :=
  forall st a st',
    m st = Ok (a, st') ->
    Tokenizer.line st <= Tokenizer.line st'
    /\ (Tokenizer.newline_before st' = true <-> newline_seen st st').

(** An action that returns a token whose [nlb] tells whether a line feed
    was met up to the end of the token. *)
Definition flagged (m : Tokenizer.T Token) : Prop :=
  forall st t st',
    m st = Ok (t, st') ->
    Tokenizer.line st <= Tokenizer.line st'
    /\ (tok_nlb t = true <-> newline_seen st st').

(** What holds of [nlb] when comments may have been read on the way: a
    flag that is up comes from a line feed, and when no comment was read
    every line feed raises it. *)
Definition hinted (m : Tokenizer.T Token) : Prop :=
  forall st t st',
    m st = Ok (t, st') ->
    Tokenizer.line st <= Tokenizer.line st'
    /\ (tok_nlb t = true -> newline_seen st st')
    /\ (tok_comments_before t = Some (Tokenizer.comments_before st) ->
        newline_seen st st' -> tok_nlb t = true).

(** The text "x = /* a */ y" LF "z" after its [y]. *)
Definition after_y : Tokenizer.state :=
  Tokenizer.mkS commented_text 13 12 0 0 13 12 false false [].

(** An [eof] token, current or looked ahead, is there because the
    tokenizer has no character left. *)
Definition eof_at_end (ps : Parser.state) : Prop :=
  (tok_type (Parser.S_token ps) = "eof" ->
   remaining (Parser.S_input ps) = 0)
  /\ (forall t, Parser.S_peeked ps = Some t -> tok_type t = "eof" ->
      remaining (Parser.S_input ps) = 0).

(** A parsing action that, whenever it returns, has left the text alone,
    has not moved the tokenizer back, and still knows of an [eof] token
    that it stands at the end of the text. *)
Definition tracking {A : Type} (m : Parser.P A) : Prop :=
  forall ps a ps',
    m ps = Ok (a, ps') ->
    Tokenizer.text (Parser.S_input ps') = Tokenizer.text (Parser.S_input ps)
    /\ Tokenizer.pos (Parser.S_input ps) <= Tokenizer.pos (Parser.S_input ps')
    /\ (eof_at_end ps -> eof_at_end ps').

(** Every function of [self] keeps track of the end of the text. *)
Record tracking_calls (self : Parser.calls) : Prop := mkTracking {
  trk_statement : tracking (Parser.call_statement self);
  trk_dollar_statement : tracking (Parser.call_dollar_statement self);
  trk_parenthesised : tracking (Parser.call_parenthesised self);
  trk_labeled_statement :
    forall label, tracking (Parser.call_labeled_statement self label);
  trk_simple_statement : tracking (Parser.call_simple_statement self);
  trk_for_ : tracking (Parser.call_for_ self);
  trk_regular_for : forall init, tracking (Parser.call_regular_for self init);
  trk_for_in : forall init, tracking (Parser.call_for_in self init);
  trk_function_ : forall in_statement,
    tracking (Parser.call_function_ self in_statement);
  trk_dollar_function_ : forall in_statement,
    tracking (Parser.call_dollar_function_ self in_statement);
  trk_if_ : tracking (Parser.call_if_ self);
  trk_block_ : tracking (Parser.call_block_ self);
  trk_block_loop : forall a, tracking (Parser.call_block_loop self a);
  trk_switch_block_ : tracking (Parser.call_switch_block_ self);
  trk_switch_loop : forall a, tracking (Parser.call_switch_loop self a);
  trk_try_ : tracking (Parser.call_try_ self);
  trk_vardefs : forall no_in a, tracking (Parser.call_vardefs self no_in a);
  trk_var_ : forall no_in, tracking (Parser.call_var_ self no_in);
  trk_const_ : tracking (Parser.call_const_ self);
  trk_new_ : tracking (Parser.call_new_ self);
  trk_expr_atom : forall allow_calls,
    tracking (Parser.call_expr_atom self allow_calls);
  trk_expr_list : forall closing trailing empty first a,
    tracking (Parser.call_expr_list self closing trailing empty first a);
  trk_array_ : tracking (Parser.call_array_ self);
  trk_object_ : tracking (Parser.call_object_ self);
  trk_object_loop : forall first a,
    tracking (Parser.call_object_loop self first a);
  trk_subscripts : forall expr allow_calls,
    tracking (Parser.call_subscripts self expr allow_calls);
  trk_expr_op : forall left min_prec no_in,
    tracking (Parser.call_expr_op self left min_prec no_in);
  trk_expr_ops : forall no_in, tracking (Parser.call_expr_ops self no_in);
  trk_maybe_conditional : forall no_in,
    tracking (Parser.call_maybe_conditional self no_in);
  trk_maybe_assign : forall no_in,
    tracking (Parser.call_maybe_assign self no_in);
  trk_expression : forall commas no_in,
    tracking (Parser.call_expression self commas no_in)
}.

Definition conditional_ (c yes no : ast) : ast :=
  Arr [Str "conditional"; c; yes; no].

(** The ParseError that [croak] raises in the state [ps]: at the token
    the tokenizer started last. *)
Definition croaked (msg : string) (ps : Parser.state) : exn :=
  ParseError
    (mkError msg (Tokenizer.tokline (Parser.S_input ps))
       (Tokenizer.tokcol (Parser.S_input ps))
       (Tokenizer.tokpos (Parser.S_input ps))).

(** The characters an identifier may start with, and go on with. *)
Definition identifier_start (c : ascii) : bool :=
  is_identifier_start (String c "").

Definition identifier_char (c : ascii) : bool :=
  is_identifier_char (String c "").

(** What may follow a word for the scan to stop there: the end of the
    text, or a character that neither goes on with the word nor is a
    backslash. *)
Definition word_ends (rest : string) : bool :=
  match rest with
  | "" => true
  | String c _ =>
      negb (identifier_char c) && negb (Ascii.eqb c BACKSLASH_char)
  end.

(** The type [read_word] gives a word. *)
Definition word_type (word : string) : string :=
  if negb (HOP KEYWORDS word) then "name"
  else if HOP OPERATORS word then "operator"
  else if HOP KEYWORDS_ATOM word then "atom"
  else "keyword".

Definition SLASH_char : ascii := ascii_of_nat 47.

Definition STAR_char : ascii := ascii_of_nat 42.

Definition LBRACKET_char : ascii := ascii_of_nat 91.

(** What a regexp literal must begin with for [handle_slash] not to take
    it for a comment: a character that is no star (and, as everywhere in
    the body, no slash). *)
Definition regexp_opens (body : string) : bool :=
  match body with
  | "" => false
  | String b _ => negb (Ascii.eqb b STAR_char)
  end.

(** What may follow the text of a line comment: the end of the text, or a
    line feed. *)
Definition line_ends (rest : string) : bool :=
  match rest with
  | "" => true
  | String c _ => Ascii.eqb c LF_char
  end.

Definition dot_ (e : ast) (name : string) : ast := Arr [Str "dot"; e; Str name].

Definition object_of (name : string) (value : ast) : ast :=
  Arr [Str "object"; Arr [Arr [Str name; value]]].

(** What may follow white space for [skip_whitespace] to stop there: the
    end of the text, or a character that is no white space. *)
Definition blank_ends (rest : string) : bool :=
  match rest with
  | "" => true
  | String c _ => negb (whitespace_char c)
  end.

(** An action that returns a token carrying the comment buffer as it
    found it. *)
Definition carries (m : Tokenizer.T Token) : Prop :=
  forall st t st',
    m st = Ok (t, st') ->
    tok_comments_before t = Some (Tokenizer.comments_before st).

(** What a token begins with: the end of the text, or a character that is
    no white space and does not open a comment. *)
Definition token_head (rest : string) : bool :=
  match rest with
  | "" => true
  | String c r =>
      negb (whitespace_char c)
      && negb (Ascii.eqb c SLASH_char
               && (starts_with SLASH_char r || starts_with STAR_char r))
  end.

(** [skipped p mid cs rest]: the text [mid], which begins at position [p]
    and has [rest] behind it, is white space and comments, and [cs] are
    the tokens of these comments in the order of the text: each has the
    position of its slash and, as value, all that is between its opening
    and its end -- the line feed or the end of the text for [//], the
    first [*/] for [/*]. *)
Inductive skipped : nat -> string -> list Token -> string -> Prop :=
| skipped_nil (p : nat) (rest : string) : skipped p "" [] rest
| skipped_space (p : nat) (c : ascii) (mid : string) (cs : list Token)
    (rest : string) :
    whitespace_char c = true ->
    skipped (S p) mid cs rest ->
    skipped p (String c mid) cs rest
| skipped_line (p : nat) (body mid : string) (c : Token) (cs : list Token)
    (rest : string) :
    has_char LF_char body = false ->
    line_ends (mid ++ rest) = true ->
    tok_type c = "comment1" ->
    tok_value c = VStr body ->
    tok_pos c = p ->
    tok_comments_before c = None ->
    skipped (p + 2 + String.length body) mid cs rest ->
    skipped p (String SLASH_char (String SLASH_char (body ++ mid)))
      (c :: cs) rest
| skipped_block (p : nat) (body mid : string) (c : Token) (cs : list Token)
    (rest : string) :
    String.index 0 "*/" body = None ->
    tok_type c = "comment2" ->
    tok_value c = VStr body ->
    tok_pos c = p ->
    tok_comments_before c = None ->
    skipped (p + 2 + String.length body + 2) mid cs rest ->
    skipped p (String SLASH_char (String STAR_char (body ++ "*/" ++ mid)))
      (c :: cs) rest.

(* ------------------------------------------------------------------ *)
(** ** Reasoning about the monad *)

Lemma bind_Ok {St A B : Type} (m : M St A) (k : A -> M St B) (s : St)
  (r : B * St) :
  bind m k s = Ok r -> exists a s1, m s = Ok (a, s1) /\ k a s1 = Ok r.
Proof.
  unfold bind. destruct (m s) as [[a s1] | | |]; try discriminate.
  intros H. exists a, s1. split; [reflexivity | exact H].
Qed.

(** Run the first action of a sequence, whose outcome is [H]. *)
Ltac run_with H := unfold bind at 1; rewrite H; cbv beta iota.

Lemma string_eqb_false (a b : string) : (a =? b) = false <-> a <> b.
Proof. apply String.eqb_neq. Qed.

Lemma append_nil_r (s : string) : s ++ "" = s.
Proof. induction s as [| c rest IH]; simpl; [ | rewrite IH ]; reflexivity. Qed.

Lemma append_assoc (s1 s2 s3 : string) : (s1 ++ s2) ++ s3 = s1 ++ s2 ++ s3.
Proof.
  induction s1 as [| c rest IH]; simpl; [ | rewrite IH ]; reflexivity.
Qed.

(* ------------------------------------------------------------------ *)
(** ** C2: the flag [regex_allowed] after a token *)

Lemma HOP_In (obj : list string) (prop : string) :
  HOP obj prop = true <-> In prop obj.
Proof.
  unfold HOP. rewrite existsb_exists. split.
  - intros [x [Hin Heq]]. apply String.eqb_eq in Heq. subst. exact Hin.
  - intros Hin. exists prop. split; [exact Hin | apply String.eqb_refl].
Qed.

Lemma token_flag (type : string) (value : token_value) (is_comment : bool)
  (st : Tokenizer.state) :
  exists t st',
    Tokenizer.token type value is_comment st = Ok (t, st')
    /\ tok_type t = type /\ tok_value t = value
    /\ tok_nlb t = Tokenizer.newline_before st
    /\ Tokenizer.regex_allowed st' =
         (((type =? "operator") && negb (HOP_value UNARY_POSTFIX value))
          || ((type =? "keyword")
              && HOP_value KEYWORDS_BEFORE_EXPRESSION value)
          || ((type =? "punc") && HOP_value PUNC_BEFORE_EXPRESSION value)).
Proof.
  unfold Tokenizer.token. destruct is_comment; eexists; eexists;
    (split; [reflexivity | ]); simpl; auto.
Qed.

Lemma rule_token (type : string) (value : token_value) (is_comment : bool) :
  plain_emission type value ->
  flag_follows_rule (Tokenizer.token type value is_comment).
Proof.
  intros Hplain st t st' Hrun.
  destruct (token_flag type value is_comment st)
    as (t0 & st0 & Hrun0 & Htype & Hvalue & _ & Hflag).
  rewrite Hrun0 in Hrun. injection Hrun as <- <-.
  rewrite Hflag. unfold precedes_expression. rewrite Htype, Hvalue.
  destruct Hplain as [[s ->] | (Hop & Hkw & Hpunc)].
  - unfold HOP_value, string_of_value.
    rewrite !orb_true_iff, !andb_true_iff, negb_true_iff, !String.eqb_eq.
    rewrite !HOP_In.
    assert (Hpost : HOP UNARY_POSTFIX s = false
                    <-> VStr s <> VStr "++" /\ VStr s <> VStr "--").
    { rewrite <- not_true_iff_false, HOP_In. simpl. split.
      - intros H. split; intros [= ->]; apply H; auto.
      - intros [H1 H2] [<- | [<- | []]]; [apply H2 | apply H1]; reflexivity. }
    rewrite Hpost. split.
    + intros [[[Ht Hv] | [Ht Hv]] | [Ht Hv]].
      * left. auto.
      * right. left. split; [exact Ht | exists s; auto].
      * right. right. split; [exact Ht | exists s; auto].
    + intros [(Ht & Hv) | [(Ht & v & [= <-] & Hv) | (Ht & v & [= <-] & Hv)]].
      * left. left. tauto.
      * left. right. tauto.
      * right. tauto.
  - apply string_eqb_false in Hop, Hkw, Hpunc.
    rewrite Hop, Hkw, Hpunc. simpl. split; [discriminate | ].
    apply String.eqb_neq in Hop, Hkw, Hpunc.
    intros [(Ht & _) | [(Ht & _) | (Ht & _)]]; contradiction.
Qed.

Lemma rule_bind {A : Type} (m : Tokenizer.T A) (k : A -> Tokenizer.T Token) :
  (forall a, flag_follows_rule (k a)) -> flag_follows_rule (bind m k).
Proof.
  intros Hk st t st' Hrun.
  apply bind_Ok in Hrun. destruct Hrun as (a & s1 & _ & Hrun).
  exact (Hk a s1 t st' Hrun).
Qed.

Lemma rule_parse_error (err : string) :
  flag_follows_rule (Tokenizer.parse_error err).
Proof. intros st t st' H. discriminate H. Qed.

Lemma rule_throw (e : exn) : flag_follows_rule (throw e).
Proof. intros st t st' H. discriminate H. Qed.

Lemma rule_with_eof_error (eof_error : string) (cont : Tokenizer.T Token) :
  flag_follows_rule cont ->
  flag_follows_rule (Tokenizer.with_eof_error eof_error cont).
Proof.
  intros Hcont st t st' Hrun. unfold Tokenizer.with_eof_error in Hrun.
  destruct (cont st) as [[t0 s0] | [| |] | |] eqn:Hc; try discriminate.
  injection Hrun as <- <-. exact (Hcont st _ _ Hc).
Qed.

Lemma rule_if (b : bool) (m1 m2 : Tokenizer.T Token) :
  flag_follows_rule m1 -> flag_follows_rule m2 ->
  flag_follows_rule (if b then m1 else m2).
Proof. destruct b; auto. Qed.

Create HintDb flag_rule.

Ltac plain_type :=
  right; repeat split; discriminate.

(** One step through an action: a lemma about a named function when there
    is one, the structure of the action otherwise. *)
Ltac rule_step :=
  first
    [ solve [ auto with flag_rule nocore ]
    | apply rule_bind; intros ?
    | apply rule_with_eof_error
    | apply rule_parse_error
    | apply rule_throw
    | apply rule_token; first [ left; eexists; reflexivity | plain_type ]
    | apply rule_if ].

Lemma rule_read_num (fuel : nat) (prefix : option string) :
  flag_follows_rule (Tokenizer.read_num fuel prefix).
Proof.
  unfold Tokenizer.read_num. rule_step.
  destruct (parse_js_number _); try rule_step.
  intros st t st' H. discriminate H.
Qed.

Lemma rule_read_string (fuel : nat) :
  flag_follows_rule (Tokenizer.read_string fuel).
Proof. unfold Tokenizer.read_string. repeat rule_step. Qed.

Lemma rule_read_regexp (fuel : nat) :
  flag_follows_rule (Tokenizer.read_regexp fuel).
Proof. unfold Tokenizer.read_regexp. repeat rule_step. Qed.

Lemma rule_read_operator (fuel : nat) (prefix : option string) :
  flag_follows_rule (Tokenizer.read_operator fuel prefix).
Proof. unfold Tokenizer.read_operator. repeat rule_step. Qed.

Lemma rule_read_word (fuel : nat) :
  flag_follows_rule (Tokenizer.read_word fuel).
Proof. unfold Tokenizer.read_word. repeat rule_step. Qed.

#[local] Hint Resolve rule_read_num rule_read_string rule_read_regexp
  rule_read_operator rule_read_word : flag_rule.

Lemma rule_handle_dot (fuel : nat) :
  flag_follows_rule (Tokenizer.handle_dot fuel).
Proof. unfold Tokenizer.handle_dot. repeat rule_step. Qed.

Lemma rule_read_line_comment :
  flag_follows_rule Tokenizer.read_line_comment.
Proof.
  unfold Tokenizer.read_line_comment. do 3 rule_step.
  match goal with
  | |- context [match ?i with _ => _ end] => destruct i as [i | ]
  end; repeat rule_step.
Qed.

Lemma rule_read_multiline_comment :
  flag_follows_rule Tokenizer.read_multiline_comment.
Proof.
  unfold Tokenizer.read_multiline_comment. do 3 rule_step.
  match goal with
  | |- context [match ?i with _ => _ end] => destruct i as [i | ]
  end; [ | rule_step ].
  intros st t st' Hrun.
  apply bind_Ok in Hrun. destruct Hrun as (s0 & s1 & Hget & Hrun).
  apply bind_Ok in Hrun. destruct Hrun as (tok & s2 & Htok & Hrun).
  assert (Hplain : forall text, plain_emission "comment2" (VStr text))
    by (intros text; left; eexists; reflexivity).
  assert (Hrule := rule_token _ _ true (Hplain _) _ _ _ Htok).
  unfold bind, modify, ret in Hrun. simpl in Hrun.
  injection Hrun as <- <-. simpl. exact Hrule.
Qed.

#[local] Hint Resolve rule_handle_dot rule_read_line_comment
  rule_read_multiline_comment : flag_rule.

Lemma rule_handle_slash (fuel : nat) (next_token : Tokenizer.T Token) :
  flag_follows_rule next_token ->
  flag_follows_rule (Tokenizer.handle_slash fuel next_token).
Proof.
  intros Hself. unfold Tokenizer.handle_slash. do 3 rule_step.
  repeat first [ exact Hself | rule_step ].
Qed.

#[local] Hint Resolve rule_handle_slash : flag_rule.

Lemma rule_next_token_body (fuel : nat) (self : bool -> Tokenizer.T Token)
  (force_regexp : bool) :
  (forall force, flag_follows_rule (self force)) ->
  flag_follows_rule (Tokenizer.next_token_body fuel self force_regexp).
Proof.
  intros Hself. unfold Tokenizer.next_token_body. repeat rule_step.
Qed.

Lemma rule_next_token (fuel : nat) (force_regexp : bool) :
  flag_follows_rule (Tokenizer.next_token fuel force_regexp).
Proof.
  revert force_regexp. induction fuel as [| n IH]; intros force_regexp.
  - intros st t st' H. discriminate H.
  - simpl. apply rule_next_token_body. exact IH.
Qed.

(** C2. After every token the tokenizer emits, [regex_allowed] is true
    exactly when the token is an operator other than [++] and [--], a
    keyword among return, new, delete, throw, else, case, or a punctuation
    among [ { } ( , . ; : -- for the token that [next_token] returns
    (also under [force_regexp]) and for the comment tokens that
    [read_line_comment] and [read_multiline_comment] emit. *)
Theorem C2_regex_allowed_after_emit
  (fuel : nat) (force_regexp : bool) (st st' : Tokenizer.state) (t : Token) :
  Tokenizer.next_token fuel force_regexp st = Ok (t, st')
  \/ Tokenizer.read_line_comment st = Ok (t, st')
  \/ Tokenizer.read_multiline_comment st = Ok (t, st') ->
  (Tokenizer.regex_allowed st' = true <-> precedes_expression t).
Proof.
  intros [H | [H | H]].
  - exact (rule_next_token fuel force_regexp st t st' H).
  - exact (rule_read_line_comment st t st' H).
  - exact (rule_read_multiline_comment st t st' H).
Qed.

Lemma C2_witness :
  exists t st',
    Tokenizer.next_token 5 false (Tokenizer.tokenizer "(x") = Ok (t, st')
    /\ (Tokenizer.regex_allowed st' = true <-> precedes_expression t).
Proof.
  eexists. eexists. split; [reflexivity | ].
  apply (C2_regex_allowed_after_emit 5 false (Tokenizer.tokenizer "(x")).
  left. reflexivity.
Defined.

(* ------------------------------------------------------------------ *)
(** ** What the scanning functions leave unchanged *)

Lemma keeps_bind {A B C : Type} (f : Tokenizer.state -> C)
  (m : Tokenizer.T A) (k : A -> Tokenizer.T B) :
  keeps f m -> (forall a, keeps f (k a)) -> keeps f (bind m k).
Proof.
  intros Hm Hk st b st' Hrun.
  apply bind_Ok in Hrun. destruct Hrun as (a & s1 & H1 & H2).
  rewrite (Hk a s1 b st' H2). exact (Hm st a s1 H1).
Qed.

Lemma keeps_ret {A B : Type} (f : Tokenizer.state -> B) (a : A) :
  keeps f (ret a).
Proof. intros st a0 st' [= _ <-]. reflexivity. Qed.

Lemma keeps_gets {A B : Type} (f : Tokenizer.state -> B)
  (g : Tokenizer.state -> A) : keeps f (gets g).
Proof. intros st a st' [= _ <-]. reflexivity. Qed.

Lemma keeps_modify {B : Type} (f : Tokenizer.state -> B)
  (g : Tokenizer.state -> Tokenizer.state) :
  (forall st, f (g st) = f st) -> keeps f (modify g).
Proof. intros Hg st a st' [= _ <-]. apply Hg. Qed.

Lemma keeps_fail {A B : Type} (f : Tokenizer.state -> B)
  (m : Tokenizer.T A) :
  (forall st a st', m st <> Ok (a, st')) -> keeps f m.
Proof. intros H st a st' Hrun. destruct (H st a st' Hrun). Qed.

Lemma keeps_if {A B : Type} (f : Tokenizer.state -> B) (b : bool)
  (m1 m2 : Tokenizer.T A) :
  keeps f m1 -> keeps f m2 -> keeps f (if b then m1 else m2).
Proof. destruct b; auto. Qed.

Lemma keeps_next {B : Type} (f : Tokenizer.state -> B) (signal_eof : bool) :
  (forall v st, f (Tokenizer.set_pos v st) = f st) ->
  (forall v st, f (Tokenizer.set_col v st) = f st) ->
  (forall v st, f (Tokenizer.set_line v st) = f st) ->
  (forall v st, f (Tokenizer.set_newline_before v st) = f st) ->
  keeps f (Tokenizer.next signal_eof).
Proof.
  intros Hpos Hcol Hline Hnl st a st'. unfold Tokenizer.next.
  destruct (signal_eof && _); [discriminate | ].
  destruct (_ =? LF); intros [= _ <-];
    rewrite ?Hcol, ?Hline, ?Hnl, ?Hpos; reflexivity.
Qed.

Lemma keeps_peek {B : Type} (f : Tokenizer.state -> B) :
  keeps f Tokenizer.peek.
Proof. apply keeps_gets. Qed.

Lemma keeps_find {B : Type} (f : Tokenizer.state -> B) (what : string)
  (signal_eof : bool) : keeps f (Tokenizer.find what signal_eof).
Proof.
  intros st a st'. unfold Tokenizer.find.
  destruct (indexOf _ _ _); [ | destruct signal_eof ];
    try discriminate; intros [= _ <-]; reflexivity.
Qed.

Lemma keeps_with_eof_error {A B : Type} (f : Tokenizer.state -> B)
  (eof_error : string) (cont : Tokenizer.T A) :
  keeps f cont -> keeps f (Tokenizer.with_eof_error eof_error cont).
Proof.
  intros Hcont st a st' Hrun. unfold Tokenizer.with_eof_error in Hrun.
  destruct (cont st) as [[a0 s0] | [| |] | |] eqn:Hc; try discriminate.
  injection Hrun as <- <-. exact (Hcont st _ _ Hc).
Qed.

Lemma keeps_skip_whitespace {B : Type} (f : Tokenizer.state -> B)
  (fuel : nat) :
  keeps f (Tokenizer.next false) -> keeps f (Tokenizer.skip_whitespace fuel).
Proof.
  intros Hnext. induction fuel as [| n IH].
  - intros st a st' H. discriminate H.
  - simpl. apply keeps_bind; [apply keeps_peek | intros ch].
    apply keeps_if; [ | apply keeps_ret ].
    apply keeps_bind; [exact Hnext | intros _; exact IH].
Qed.

Lemma comment_token (type : string) (value : token_value)
  (st : Tokenizer.state) (c : Token) (st' : Tokenizer.state) :
  Tokenizer.token type value true st = Ok (c, st') ->
  tok_type c = type /\ tok_comments_before c = None
  /\ Tokenizer.comments_before st' = Tokenizer.comments_before st.
Proof. unfold Tokenizer.token. intros [= <- <-]. simpl. auto. Qed.

Lemma read_line_comment_frame (st : Tokenizer.state) (c : Token)
  (st' : Tokenizer.state) :
  Tokenizer.read_line_comment st = Ok (c, st') ->
  is_comment_token c
  /\ Tokenizer.comments_before st' = Tokenizer.comments_before st.
Proof.
  unfold Tokenizer.read_line_comment. intros Hrun.
  apply bind_Ok in Hrun. destruct Hrun as (ch & s1 & Hnext & Hrun).
  apply bind_Ok in Hrun. destruct Hrun as (i & s2 & Hfind & Hrun).
  apply bind_Ok in Hrun. destruct Hrun as (s3 & s4 & Hget & Hrun).
  injection Hget as <- <-.
  assert (H1 : Tokenizer.comments_before s1 = Tokenizer.comments_before st)
    by (revert Hnext; apply keeps_next; reflexivity).
  assert (H2 : Tokenizer.comments_before s2 = Tokenizer.comments_before s1)
    by (revert Hfind; apply keeps_find).
  destruct i as [i | ];
    apply bind_Ok in Hrun; destruct Hrun as ([] & s5 & [= <-] & Hrun);
    apply comment_token in Hrun; destruct Hrun as (Ht & Hc & Hcb);
    (split; [split; auto | ]);
    rewrite Hcb; simpl; congruence.
Qed.

Lemma read_multiline_comment_frame (st : Tokenizer.state) (c : Token)
  (st' : Tokenizer.state) :
  Tokenizer.read_multiline_comment st = Ok (c, st') ->
  is_comment_token c
  /\ Tokenizer.comments_before st' = Tokenizer.comments_before st.
Proof.
  unfold Tokenizer.read_multiline_comment. intros Hrun.
  apply bind_Ok in Hrun. destruct Hrun as (ch & s1 & Hnext & Hrun).
  assert (H1 : Tokenizer.comments_before s1 = Tokenizer.comments_before st)
    by (revert Hnext; apply keeps_next; reflexivity).
  unfold Tokenizer.with_eof_error in Hrun.
  match type of Hrun with
  | match ?m s1 with _ => _ end = _ =>
      destruct (m s1) as [[c0 s0] | [| |] | |] eqn:Hc; try discriminate
  end.
  injection Hrun as <- <-.
  apply bind_Ok in Hc. destruct Hc as (i & s2 & Hfind & Hrun).
  assert (H2 : Tokenizer.comments_before s2 = Tokenizer.comments_before s1)
    by (revert Hfind; apply keeps_find).
  destruct i as [i | ]; [ | discriminate ].
  apply bind_Ok in Hrun. destruct Hrun as (s3 & s4 & [= <- <-] & Hrun).
  apply bind_Ok in Hrun. destruct Hrun as (tok & s5 & Htok & Hrun).
  apply comment_token in Htok. destruct Htok as (Ht & Hcb0 & Hcb).
  unfold bind, modify, ret in Hrun. simpl in Hrun.
  injection Hrun as <- <-. simpl.
  split; [split; auto | congruence].
Qed.

(* ------------------------------------------------------------------ *)
(** ** C10: comments and the flag [regex_allowed] *)

(** What a call of [handle_slash] comes to, for every function
    [next_token] it may call back: either a result that owes nothing to
    that function, or -- after one comment [c] -- the call
    [next_token()] in a state [st1] that has the flag of [st]. *)
Lemma handle_slash_cases (fuel : nat) (st : Tokenizer.state) :
  (exists r, forall k, Tokenizer.handle_slash fuel k st = r)
  \/ (exists st1 c,
        (forall k, Tokenizer.handle_slash fuel k st = k st1)
        /\ Tokenizer.regex_allowed st1 = Tokenizer.regex_allowed st
        /\ Tokenizer.comments_before st1
           = (Tokenizer.comments_before st ++ [c])%list
        /\ is_comment_token c).
Proof.
  destruct (Tokenizer.next false st) as [[ch s1] | e | |] eqn:Hnext;
    try (left; eexists; intros k; unfold Tokenizer.handle_slash;
         run_with Hnext; reflexivity).
  assert (Hflag : Tokenizer.regex_allowed s1 = Tokenizer.regex_allowed st)
    by (revert Hnext; apply keeps_next; reflexivity).
  assert (Hcb : Tokenizer.comments_before s1 = Tokenizer.comments_before st)
    by (revert Hnext; apply keeps_next; reflexivity).
  pose (ch2 := charAt (Tokenizer.text s1) (Tokenizer.pos s1)).
  assert (Henter : forall k,
    Tokenizer.handle_slash fuel k st =
    (if ch2 =? "/" then
       c <- Tokenizer.read_line_comment ;;
       modify (Tokenizer.push_comment c) ;;
       modify (Tokenizer.set_regex_allowed (Tokenizer.regex_allowed s1)) ;;
       k
     else if ch2 =? "*" then
       c <- Tokenizer.read_multiline_comment ;;
       modify (Tokenizer.push_comment c) ;;
       modify (Tokenizer.set_regex_allowed (Tokenizer.regex_allowed s1)) ;;
       k
     else
       allowed <- gets Tokenizer.regex_allowed ;;
       if allowed then Tokenizer.read_regexp fuel
       else Tokenizer.read_operator fuel (Some "/")) s1).
  { intros k. unfold Tokenizer.handle_slash. run_with Hnext.
    reflexivity. }
  destruct (ch2 =? "/"); [ | destruct (ch2 =? "*") ].
  - destruct (Tokenizer.read_line_comment s1) as [[c s2] | e | |] eqn:Hc;
      try (left; eexists; intros k; rewrite Henter; run_with Hc;
           reflexivity).
    apply read_line_comment_frame in Hc as Hframe.
    destruct Hframe as (Hcomment & Hcb2).
    right. eexists. exists c. split; [ | split; [ | split ] ].
    + intros k. rewrite Henter. run_with Hc. reflexivity.
    + simpl. exact Hflag.
    + simpl. congruence.
    + exact Hcomment.
  - destruct (Tokenizer.read_multiline_comment s1)
      as [[c s2] | e | |] eqn:Hc;
      try (left; eexists; intros k; rewrite Henter; run_with Hc;
           reflexivity).
    apply read_multiline_comment_frame in Hc as Hframe.
    destruct Hframe as (Hcomment & Hcb2).
    right. eexists. exists c. split; [ | split; [ | split ] ].
    + intros k. rewrite Henter. run_with Hc. reflexivity.
    + simpl. exact Hflag.
    + simpl. congruence.
    + exact Hcomment.
  - left. eexists. intros k. rewrite Henter. reflexivity.
Qed.

(** The same for the body of [next_token]. *)
Lemma next_token_body_cases (fuel : nat) (st : Tokenizer.state) :
  (exists r, forall self, Tokenizer.next_token_body fuel self false st = r)
  \/ (exists st1 c,
        (forall self,
           Tokenizer.next_token_body fuel self false st = self false st1)
        /\ Tokenizer.regex_allowed st1 = Tokenizer.regex_allowed st
        /\ Tokenizer.comments_before st1
           = (Tokenizer.comments_before st ++ [c])%list
        /\ is_comment_token c).
Proof.
  destruct (Tokenizer.skip_whitespace fuel st) as [[[] s1] | e | |] eqn:Hws;
    try (left; eexists; intros self; unfold Tokenizer.next_token_body;
         run_with Hws; reflexivity).
  assert (Hflag : Tokenizer.regex_allowed s1 = Tokenizer.regex_allowed st).
  { revert Hws. apply keeps_skip_whitespace. apply keeps_next; reflexivity. }
  assert (Hcb : Tokenizer.comments_before s1 = Tokenizer.comments_before st).
  { revert Hws. apply keeps_skip_whitespace. apply keeps_next; reflexivity. }
  pose (s2 := Tokenizer.set_tokpos (Tokenizer.pos s1)
                (Tokenizer.set_tokcol (Tokenizer.col s1)
                   (Tokenizer.set_tokline (Tokenizer.line s1) s1))).
  pose (ch := charAt (Tokenizer.text s2) (Tokenizer.pos s2)).
  assert (Henter : forall self,
    Tokenizer.next_token_body fuel self false st =
    (if is_empty ch then Tokenizer.token "eof" VUndefined false
     else if is_digit ch then Tokenizer.read_num fuel None
     else if (ch =? DQUOTE) || (ch =? SQUOTE) then Tokenizer.read_string fuel
     else if HOP PUNC_CHARS ch then
       c <- Tokenizer.next false ;; Tokenizer.token "punc" (VStr c) false
     else if ch =? "." then Tokenizer.handle_dot fuel
     else if ch =? "/" then Tokenizer.handle_slash fuel (self false)
     else if HOP OPERATOR_CHARS ch then Tokenizer.read_operator fuel None
     else if (ch =? BACKSLASH) || is_identifier_start ch
          then Tokenizer.read_word fuel
     else Tokenizer.parse_error ("Unexpected character '" ++ ch ++ "'")) s2).
  { intros self. unfold Tokenizer.next_token_body. run_with Hws.
    reflexivity. }
  assert (Hflag2 : Tokenizer.regex_allowed s2 = Tokenizer.regex_allowed st)
    by exact Hflag.
  assert (Hcb2 : Tokenizer.comments_before s2 = Tokenizer.comments_before st)
    by exact Hcb.
  clearbody s2. clearbody ch.
  destruct (is_empty ch);
    [left; eexists; intros self; rewrite Henter; reflexivity | ].
  destruct (is_digit ch);
    [left; eexists; intros self; rewrite Henter; reflexivity | ].
  destruct ((ch =? DQUOTE) || (ch =? SQUOTE));
    [left; eexists; intros self; rewrite Henter; reflexivity | ].
  destruct (HOP PUNC_CHARS ch);
    [left; eexists; intros self; rewrite Henter; reflexivity | ].
  destruct (ch =? ".");
    [left; eexists; intros self; rewrite Henter; reflexivity | ].
  destruct (ch =? "/");
    [ | left; eexists; intros self; rewrite Henter; reflexivity ].
  destruct (handle_slash_cases fuel s2)
    as [[r Hr] | (st1 & c & Hk & Hf & Hc & Hcomment)].
  - left. exists r. intros self. rewrite Henter. apply Hr.
  - right. exists st1, c. split; [ | split; [ | split ] ].
    + intros self. rewrite Henter. apply Hk.
    + congruence.
    + congruence.
    + exact Hcomment.
Qed.

Lemma rescans_once_frame (n : nat) (st st' : Tokenizer.state) :
  (forall self,
     Tokenizer.next_token_body n self false st = self false st') ->
  Tokenizer.regex_allowed st' = Tokenizer.regex_allowed st
  /\ exists c, Tokenizer.comments_before st'
               = (Tokenizer.comments_before st ++ [c])%list
               /\ is_comment_token c.
Proof.
  intros Hre.
  destruct (next_token_body_cases n st)
    as [[r Hr] | (st1 & c & Hk & Hf & Hc & Hcomment)].
  - assert (H1 := Hre (fun _ _ => OutOfFuel)).
    assert (H2 := Hre (fun _ _ => OutOfRange)).
    rewrite Hr in H1, H2. congruence.
  - assert (Heq : st1 = st').
    { pose (probe := fun (_ : bool) (s : Tokenizer.state) =>
                       Ok (mkToken "" VUndefined 0 0 0 false None, s)).
      assert (H1 := Hre probe). rewrite (Hk probe) in H1.
      unfold probe in H1. congruence. }
    subst st1. split; [exact Hf | exists c; auto].
Qed.

(** C10. Reading comments leaves [regex_allowed] as it was: when a call of
    [next_token] consumes one or more comments before it scans its token,
    the scan of that token -- the call [next_token()] it ends in -- starts
    in a state whose [regex_allowed] is the one the first call started
    with; the comments read are appended to [comments_before], and the
    first call returns what that last call returns. *)
Theorem C10_comments_keep_regex_allowed
  (n m : nat) (st st' : Tokenizer.state) :
  rescans n st m st' ->
  Tokenizer.regex_allowed st' = Tokenizer.regex_allowed st
  /\ Tokenizer.next_token n false st = Tokenizer.next_token m false st'
  /\ exists c cs,
       Tokenizer.comments_before st'
       = (Tokenizer.comments_before st ++ c :: cs)%list
       /\ Forall is_comment_token (c :: cs).
Proof.
  induction 1 as [n st st' Hre | n m k st st1 st' _ IH1 _ IH2].
  - destruct (rescans_once_frame n st st' Hre) as (Hf & c & Hc & Hcomment).
    split; [exact Hf | split ].
    + simpl. apply Hre.
    + exists c, []. split; [exact Hc | ].
      constructor; [exact Hcomment | constructor].
  - destruct IH1 as (Hf1 & Hn1 & c1 & cs1 & Hc1 & Hall1).
    destruct IH2 as (Hf2 & Hn2 & c2 & cs2 & Hc2 & Hall2).
    split; [congruence | split; [congruence | ] ].
    exists c1, (cs1 ++ c2 :: cs2)%list. split.
    + rewrite Hc2, Hc1, <- app_assoc. reflexivity.
    + change (c1 :: cs1 ++ c2 :: cs2)%list
        with ((c1 :: cs1) ++ (c2 :: cs2))%list.
      apply Forall_app. split; assumption.
Qed.

Lemma C10_witness :
  (exists paren,
     Tokenizer.next_token 10 false (Tokenizer.tokenizer two_comments)
     = Ok (paren, after_paren))
  /\ Tokenizer.regex_allowed after_second_comment
     = Tokenizer.regex_allowed after_paren
  /\ Tokenizer.next_token 10 false after_paren
     = Tokenizer.next_token 8 false after_second_comment
  /\ exists regexp st,
       Tokenizer.next_token 10 false after_paren = Ok (regexp, st)
       /\ tok_type regexp = "regexp" /\ tok_value regexp = VRegexp "z" "".
Proof.
  assert (Hre : rescans 10 after_paren 8 after_second_comment).
  { apply (rescans_more 10 9 8 after_paren after_first_comment);
      apply rescans_once; intros self; vm_compute; reflexivity. }
  destruct (C10_comments_keep_regex_allowed
              10 8 after_paren after_second_comment Hre)
    as (Hflag & Hsame & _).
  split; [eexists; vm_compute; reflexivity | ].
  split; [exact Hflag | ]. split; [exact Hsame | ].
  eexists. eexists. split; [vm_compute; reflexivity | ].
  split; reflexivity.
Defined.

(* ------------------------------------------------------------------ *)
(** ** C3: automatic semicolon insertion *)

Lemma regexp_text_not_brace (body mods : string) :
  ((body ++ "," ++ mods) =? "}") = false.
Proof.
  apply String.eqb_neq. destruct body as [| c [| c' body']]; simpl;
    intros H; discriminate H.
Qed.

Lemma is_token_eof (t : Token) :
  is_token t "eof" None = true <-> tok_type t = "eof".
Proof.
  unfold is_token. rewrite andb_true_r. apply String.eqb_eq.
Qed.

Lemma is_token_brace (t : Token) :
  is_token t "punc" (Some "}") = true
  <-> tok_type t = "punc" /\ tok_value t = VStr "}".
Proof.
  unfold is_token. rewrite andb_true_iff, String.eqb_eq.
  destruct (tok_value t) as [| s | n | body mods]; unfold value_eq.
  - split; [intros [_ H]; discriminate H | intros [_ H]; discriminate H].
  - rewrite String.eqb_eq. split.
    + intros [Ht ->]. auto.
    + intros [Ht [= ->]]. auto.
  - split; [intros [_ H]; discriminate H | intros [_ H]; discriminate H].
  - rewrite regexp_text_not_brace.
    split; [intros [_ H]; discriminate H | intros [_ H]; discriminate H].
Qed.

Lemma can_insert_semicolon_spec (exigent_mode : bool) (ps : Parser.state) :
  exists b,
    Parser.can_insert_semicolon exigent_mode ps = Ok (b, ps)
    /\ (b = true <-> exigent_mode = false /\ insertable (Parser.S_token ps)).
Proof.
  unfold Parser.can_insert_semicolon, Parser.is_, bind, gets, ret.
  eexists. split; [reflexivity | ].
  unfold insertable.
  rewrite andb_true_iff, negb_true_iff, !orb_true_iff.
  rewrite is_token_eof, is_token_brace. tauto.
Qed.

(** C3. Where the parser requires a semicolon and the current token is not
    [;]: in lenient mode [semicolon] succeeds, consuming nothing, exactly
    when the current token has [nlb], is [eof] or is the punctuation [}],
    and raises the "Unexpected token" ParseError otherwise; in exigent mode
    it always raises that ParseError. *)
Theorem C3_semicolon_insertion (fuel : nat) (ps : Parser.state) :
  is_token (Parser.S_token ps) "punc" (Some ";") = false ->
  (insertable (Parser.S_token ps) ->
   Parser.semicolon false fuel ps = Ok (tt, ps))
  /\ (~ insertable (Parser.S_token ps) ->
      Parser.semicolon false fuel ps
      = Throw (ParseError (unexpected_current ps)))
  /\ Parser.semicolon true fuel ps
     = Throw (ParseError (unexpected_current ps)).
Proof.
  intros Hsemi.
  assert (Hrun : forall exigent_mode,
    Parser.semicolon exigent_mode fuel ps =
    match Parser.can_insert_semicolon exigent_mode ps with
    | Ok (can, ps') =>
        if negb can then Parser.unexpected None ps' else Ok (tt, ps')
    | Throw e => Throw e
    | OutOfFuel => OutOfFuel
    | OutOfRange => OutOfRange
    end).
  { intros exigent_mode. unfold Parser.semicolon.
    unfold bind at 1, Parser.is_ at 1, gets at 1. rewrite Hsemi.
    unfold bind at 1.
    destruct (Parser.can_insert_semicolon exigent_mode ps)
      as [[can ps'] | | |]; try reflexivity.
    destruct can; reflexivity. }
  assert (Hunexpected :
    Parser.unexpected None ps = @Throw (unit * Parser.state)
                                  (ParseError (unexpected_current ps)))
    by reflexivity.
  split; [ | split ].
  - intros Hins. rewrite Hrun.
    destruct (can_insert_semicolon_spec false ps) as (b & -> & Hb).
    destruct b; [reflexivity | ].
    assert (false = true) by (apply Hb; auto). discriminate.
  - intros Hins. rewrite Hrun.
    destruct (can_insert_semicolon_spec false ps) as (b & -> & Hb).
    destruct b; [ | exact Hunexpected ].
    destruct Hins. apply Hb. reflexivity.
  - rewrite Hrun.
    destruct (can_insert_semicolon_spec true ps) as (b & -> & Hb).
    destruct b; [ | exact Hunexpected ].
    assert (true = false) by (apply Hb; reflexivity). discriminate.
Qed.

Lemma C3_witness :
  Parser.semicolon false 5 at_closing_brace = Ok (tt, at_closing_brace)
  /\ Parser.semicolon true 5 at_closing_brace
     = Throw (ParseError (mkError "Unexpected token: punc (})" 0 0 0)).
Proof.
  destruct (C3_semicolon_insertion 5 at_closing_brace eq_refl)
    as (Hlenient & _ & Hexigent).
  split.
  - apply Hlenient. right. right. split; reflexivity.
  - exact Hexigent.
Defined.

(* ------------------------------------------------------------------ *)
(** ** C5: number literals *)

Lemma test_nothing_cat (r : regex) (s : string) :
  regex_test (Cat Nothing r) s = false.
Proof. induction s as [| c rest IH]; simpl; auto. Qed.

Lemma test_or (r1 r2 : regex) (s : string) :
  regex_test (Or r1 r2) s = regex_test r1 s || regex_test r2 s.
Proof.
  revert r1 r2. induction s as [| c rest IH]; intros r1 r2; simpl; auto.
Qed.

Lemma test_epsilon_cat (r : regex) (s : string) :
  regex_test (Cat Epsilon r) s = regex_test r s.
Proof.
  destruct s as [| c rest]; simpl; [reflexivity | ].
  rewrite test_or, test_nothing_cat. reflexivity.
Qed.

(** A pattern that begins with a character class consumes one character
    of that class. *)
Lemma test_class_cat (cls : ascii -> bool) (r : regex) (s : string) :
  regex_test (Cat (Class cls) r) s =
  match s with
  | "" => false
  | String c rest => cls c && regex_test r rest
  end.
Proof.
  destruct s as [| c rest]; simpl; [reflexivity | ].
  destruct (cls c); simpl.
  - apply test_epsilon_cat.
  - apply test_nothing_cat.
Qed.

Lemma substring_all (s : string) : substring 0 (String.length s) s = s.
Proof. induction s as [| c rest IH]; simpl; [ | rewrite IH ]; reflexivity. Qed.

Lemma read_digits_seen (radix : N) (s : string) :
  forall acc seen v n r,
    read_digits radix s acc seen = (v, n, r) -> seen <= n.
Proof.
  induction s as [| c rest IH]; intros acc seen v n r; simpl.
  - intros [= _ <- _]. lia.
  - destruct (digit_in radix c) as [d | ].
    + intros H. apply IH in H. lia.
    + intros [= _ <- _]. lia.
Qed.

(** [parseInt] is a number as soon as the first character is a digit of
    the radix. *)
Lemma parseInt_digit (radix : N) (c : ascii) (rest : string) (d : N) :
  digit_in radix c = Some d ->
  parseInt (String c rest) radix <> NaN.
Proof.
  intros Hd. unfold parseInt. cbn [read_digits]. rewrite Hd.
  match goal with
  | |- context [read_digits radix rest ?acc 1] =>
      destruct (read_digits radix rest acc 1) as [[v n] r] eqn:Hread
  end.
  apply read_digits_seen in Hread.
  destruct n as [| n']; [lia | ].
  destruct (v <=? 2 ^ 53)%N; discriminate.
Qed.

Lemma hex_digit_in (c : ascii) :
  (code_in 48 57 c || code_in 97 102 c || code_in 65 70 c) = true ->
  exists d, digit_in 16 c = Some d.
Proof.
  destruct c as [[] [] [] [] [] [] [] []]; intros H;
    first [ discriminate H | vm_compute; eauto ].
Qed.

Lemma oct_digit_in (c : ascii) :
  code_in 48 55 c = true -> exists d, digit_in 8 c = Some d.
Proof.
  destruct c as [[] [] [] [] [] [] [] []]; intros H;
    first [ discriminate H | vm_compute; eauto ].
Qed.

Lemma dec_digit_in (c : ascii) :
  code_in 48 57 c = true -> exists d, digit_in 10 c = Some d.
Proof.
  destruct c as [[] [] [] [] [] [] [] []]; intros H;
    first [ discriminate H | vm_compute; eauto ].
Qed.

(** A lexeme that matches the hex pattern has a hex digit after [0x]. *)
Lemma hex_number_value (num : string) :
  regex_test RE_HEX_NUMBER num = true ->
  parseInt (substr num 2) 16 <> NaN.
Proof.
  unfold RE_HEX_NUMBER, one, one_i, Plus, re_hex_i.
  rewrite test_class_cat. destruct num as [| c0 num]; [discriminate | ].
  rewrite test_class_cat. destruct num as [| c1 num];
    [rewrite andb_false_r; discriminate | ].
  rewrite test_class_cat. destruct num as [| c2 num];
    [rewrite !andb_false_r; discriminate | ].
  rewrite !andb_true_iff. intros (_ & _ & Hhex & _).
  unfold substr. simpl String.length. simpl Nat.sub.
  change (substring 2 (S (String.length num))
            (String c0 (String c1 (String c2 num))))
    with (substring 0 (String.length (String c2 num)) (String c2 num)).
  rewrite substring_all.
  destruct (hex_digit_in c2 Hhex) as [d Hd].
  exact (parseInt_digit 16 c2 num d Hd).
Qed.

(** A lexeme that matches the octal pattern has an octal digit after
    [0]. *)
Lemma oct_number_value (num : string) :
  regex_test RE_OCT_NUMBER num = true ->
  parseInt (substr num 1) 8 <> NaN.
Proof.
  unfold RE_OCT_NUMBER, one, Plus, re_oct.
  rewrite test_class_cat. destruct num as [| c0 num]; [discriminate | ].
  rewrite test_class_cat. destruct num as [| c1 num];
    [rewrite andb_false_r; discriminate | ].
  rewrite !andb_true_iff. intros (_ & Hoct & _).
  unfold substr. simpl String.length. simpl Nat.sub.
  change (substring 1 (S (String.length num)) (String c0 (String c1 num)))
    with (substring 0 (String.length (String c1 num)) (String c1 num)).
  rewrite substring_all.
  destruct (oct_digit_in c1 Hoct) as [d Hd].
  exact (parseInt_digit 8 c1 num d Hd).
Qed.

(** Such a lexeme begins with a decimal literal. *)
Lemma decimal_prefix_digit_headed (lexeme : string) :
  digit_headed lexeme -> exists m e, decimal_prefix lexeme = Some (m, e).
Proof.
  intros (c & rest & Hc & [-> | ->]);
    destruct (dec_digit_in c Hc) as [d Hd]; unfold decimal_prefix.
  - simpl read_digits at 1. rewrite Hd.
    match goal with
    | |- context [read_digits 10 rest ?acc 1] =>
        destruct (read_digits 10 rest acc 1) as [[v n] r] eqn:Hread
    end.
    apply read_digits_seen in Hread.
    destruct n as [| n']; [lia | ].
    destruct r as [| c' r']; [simpl; eauto | ].
    destruct (Ascii.eqb c' ".") eqn:Hdot.
    + apply Ascii.eqb_eq in Hdot. subst c'.
      destruct (read_digits 10 r' v 0) as [[v' n''] r''].
      simpl. eauto.
    + assert (Hne : c' <> "."%char)
        by (intros ->; rewrite Ascii.eqb_refl in Hdot; discriminate).
      destruct c' as [[] [] [] [] [] [] [] []]; simpl; eauto.
      destruct Hne. reflexivity.
  - simpl read_digits at 1.
    replace (digit_in 10 ".") with (@None N) by reflexivity.
    cbv beta iota.
    simpl read_digits at 1. rewrite Hd.
    match goal with
    | |- context [read_digits 10 rest ?acc 1] =>
        destruct (read_digits 10 rest acc 1) as [[v n] r] eqn:Hread
    end.
    apply read_digits_seen in Hread.
    destruct n as [| n']; [lia | ].
    simpl. eauto.
Qed.

Lemma number_of_decimal_not_NaN (m : N) (e : Z) :
  number_of_decimal m e <> NaN.
Proof.
  unfold number_of_decimal. destruct (shortest m e) as [s n].
  destruct n as [| p | p]; cbv zeta;
    match goal with |- (if ?b then _ else _) <> _ => destruct b end;
    discriminate.
Qed.

(** On such a lexeme [parseFloat] is a number. *)
Lemma parseFloat_digit_headed (lexeme : string) :
  digit_headed lexeme -> parseFloat lexeme <> NaN.
Proof.
  intros Hhead. unfold parseFloat.
  destruct (decimal_prefix_digit_headed lexeme Hhead) as (m & e & ->).
  apply number_of_decimal_not_NaN.
Qed.

(** [parse_js_number] is a number exactly on the digit-headed lexemes
    that match one of the three patterns. *)
Lemma parse_js_number_spec (lexeme : string) :
  digit_headed lexeme ->
  if regex_test RE_HEX_NUMBER lexeme || regex_test RE_OCT_NUMBER lexeme
     || regex_test RE_DEC_NUMBER lexeme
  then parse_js_number lexeme <> NaN
  else parse_js_number lexeme = NaN.
Proof.
  intros Hhead. unfold parse_js_number.
  destruct (regex_test RE_HEX_NUMBER lexeme) eqn:Hhex.
  - exact (hex_number_value lexeme Hhex).
  - destruct (regex_test RE_OCT_NUMBER lexeme) eqn:Hoct.
    + exact (oct_number_value lexeme Hoct).
    + destruct (regex_test RE_DEC_NUMBER lexeme); simpl.
      * exact (parseFloat_digit_headed lexeme Hhead).
      * reflexivity.
Qed.

Lemma get_lt (s : string) :
  forall n c, String.get n s = Some c -> n < String.length s.
Proof.
  induction s as [| c0 rest IH]; intros n c; simpl; [discriminate | ].
  destruct n as [| n']; [lia | ].
  intros H. apply IH in H. lia.
Qed.

Lemma charAt_lt (s : string) (n : nat) :
  is_empty (charAt s n) = false -> n < String.length s.
Proof.
  unfold charAt. destruct (String.get n s) as [c | ] eqn:Hget.
  - intros _. exact (get_lt s n c Hget).
  - discriminate.
Qed.

Lemma next_advances (st : Tokenizer.state) :
  exists st',
    Tokenizer.next false st
    = Ok (charAt (Tokenizer.text st) (Tokenizer.pos st), st')
    /\ Tokenizer.pos st' = S (Tokenizer.pos st)
    /\ token_start st' = token_start st.
Proof.
  unfold Tokenizer.next. simpl andb. cbv beta iota.
  destruct (charAt (Tokenizer.text st) (Tokenizer.pos st) =? LF);
    eexists; (split; [reflexivity | split; reflexivity]).
Qed.

(** With more fuel than characters left, [read_while] returns: it has
    appended the characters it took to [acc]. *)
Lemma read_while_returns {F : Type} (pred : string -> nat -> F -> bool * F)
  (fuel : nat) :
  forall f i acc st,
    String.length (Tokenizer.text st) - Tokenizer.pos st < fuel ->
    exists taken st',
      Tokenizer.read_while fuel pred f i acc st = Ok (acc ++ taken, st')
      /\ token_start st' = token_start st.
Proof.
  induction fuel as [| n IH]; intros f i acc st Hfuel; [lia | ].
  simpl Tokenizer.read_while.
  unfold bind at 1, Tokenizer.peek at 1, gets at 1.
  destruct (is_empty (charAt (Tokenizer.text st) (Tokenizer.pos st)))
    eqn:Hch.
  - exists "", st. rewrite append_nil_r. auto.
  - apply charAt_lt in Hch.
    destruct (pred _ i f) as [ok f'].
    destruct ok.
    + destruct (next_advances st) as (st1 & Hnext & Hpos & Hstart).
      run_with Hnext.
      destruct (IH f' (S i)
                  (acc ++ charAt (Tokenizer.text st) (Tokenizer.pos st)) st1)
        as (taken & st' & Hrun & Hstart').
      { assert (Htext : Tokenizer.text st1 = Tokenizer.text st)
          by (unfold token_start in Hstart; congruence).
        rewrite Htext, Hpos. lia. }
      exists (charAt (Tokenizer.text st) (Tokenizer.pos st) ++ taken), st'.
      rewrite Hrun, append_assoc. split; [reflexivity | congruence].
    + exists "", st. rewrite append_nil_r. auto.
Qed.

Lemma is_digit_head (ch : string) :
  is_digit ch = true ->
  exists c rest, ch = String c rest /\ code_in 48 57 c = true.
Proof.
  destruct ch as [| c rest]; [discriminate | ].
  intros H. exists c, rest. split; [reflexivity | exact H].
Qed.

(** The predicate of [read_num] takes a digit, and leaves the flags as
    they are at the start. *)
Lemma read_num_pred_digit (prefix : option string) (ch : string) (i : nat) :
  is_digit ch = true ->
  Tokenizer.read_num_pred prefix ch i (Tokenizer.read_num_flags prefix)
  = (true, Tokenizer.read_num_flags prefix).
Proof.
  intros Hdigit. unfold Tokenizer.read_num_pred.
  assert (Hnot : forall s, is_digit s = false -> (ch =? s) = false).
  { intros s Hs. apply String.eqb_neq. intros ->. congruence. }
  rewrite (Hnot "x"), (Hnot "X"), (Hnot "E"), (Hnot "e"), (Hnot "-"),
    (Hnot "+"), (Hnot ".") by reflexivity.
  simpl. unfold is_alphanumeric_char. rewrite Hdigit. reflexivity.
Qed.

(** The lexeme of [read_num] is digit-headed when the scan starts at a
    digit, with no prefix or after the dot that [handle_dot] consumed. *)
Lemma read_num_lexeme (fuel : nat) (prefix : option string)
  (st : Tokenizer.state) :
  prefix = None \/ prefix = Some "." ->
  is_digit (charAt (Tokenizer.text st) (Tokenizer.pos st)) = true ->
  String.length (Tokenizer.text st) - Tokenizer.pos st < fuel ->
  exists num st1,
    Tokenizer.read_while fuel (Tokenizer.read_num_pred prefix)
      (Tokenizer.read_num_flags prefix) 0 "" st = Ok (num, st1)
    /\ token_start st1 = token_start st
    /\ digit_headed (Tokenizer.with_prefix prefix num).
Proof.
  intros Hprefix Hdigit Hfuel.
  destruct fuel as [| n]; [lia | ].
  simpl Tokenizer.read_while.
  unfold bind at 1, Tokenizer.peek at 1, gets at 1.
  destruct (is_digit_head _ Hdigit) as (c & rest & Hch & Hc).
  assert (Hne : is_empty (charAt (Tokenizer.text st) (Tokenizer.pos st))
                = false) by (rewrite Hch; reflexivity).
  rewrite Hne. apply charAt_lt in Hne.
  rewrite (read_num_pred_digit prefix _ 0 Hdigit).
  destruct (next_advances st) as (st1 & Hnext & Hpos & Hstart).
  run_with Hnext.
  destruct (read_while_returns (Tokenizer.read_num_pred prefix) n
              (Tokenizer.read_num_flags prefix) 1
              ("" ++ charAt (Tokenizer.text st) (Tokenizer.pos st)) st1)
    as (taken & st' & Hrun & Hstart').
  { assert (Htext : Tokenizer.text st1 = Tokenizer.text st)
      by (unfold token_start in Hstart; congruence).
    rewrite Htext, Hpos. lia. }
  change ("" ++ charAt (Tokenizer.text st) (Tokenizer.pos st))
    with (charAt (Tokenizer.text st) (Tokenizer.pos st)) in Hrun.
  rewrite Hrun. eexists. eexists. split; [reflexivity | ].
  split; [congruence | ].
  rewrite Hch. exists c, (rest ++ taken).
  split; [exact Hc | ].
  destruct Hprefix as [-> | ->]; [left | right]; reflexivity.
Qed.

(** A number lexeme -- the characters [read_num] takes greedily from a
    digit on, after the dot of [handle_dot] when there is one -- becomes a
    [num] token, of the value [parse_js_number] gives it, when it matches
    one of the tokenizer's three patterns [RE_HEX_NUMBER], [RE_OCT_NUMBER]
    and [RE_DEC_NUMBER], and raises the ParseError "Invalid syntax: "
    followed by the lexeme otherwise. *)
Lemma read_num_validation (fuel : nat) (prefix : option string)
  (st : Tokenizer.state) :
  prefix = None \/ prefix = Some "." ->
  is_digit (charAt (Tokenizer.text st) (Tokenizer.pos st)) = true ->
  String.length (Tokenizer.text st) - Tokenizer.pos st < fuel ->
  exists num st1,
    Tokenizer.read_while fuel (Tokenizer.read_num_pred prefix)
      (Tokenizer.read_num_flags prefix) 0 "" st = Ok (num, st1)
    /\ let lexeme := Tokenizer.with_prefix prefix num in
       if regex_test RE_HEX_NUMBER lexeme || regex_test RE_OCT_NUMBER lexeme
          || regex_test RE_DEC_NUMBER lexeme
       then match parse_js_number lexeme with
            | Finite v =>
                exists t st2,
                  Tokenizer.read_num fuel prefix st = Ok (t, st2)
                  /\ tok_type t = "num" /\ tok_value t = VNum v
            | NaN => False
            | Unrepresented =>
                Tokenizer.read_num fuel prefix st = OutOfRange
            end
       else Tokenizer.read_num fuel prefix st
            = Throw (ParseError
                       (mkError ("Invalid syntax: " ++ lexeme)
                          (Tokenizer.tokline st) (Tokenizer.tokcol st)
                          (Tokenizer.tokpos st))).
Proof.
  intros Hprefix Hdigit Hfuel.
  destruct (read_num_lexeme fuel prefix st Hprefix Hdigit Hfuel)
    as (num & st1 & Hrun & Hstart & Hhead).
  exists num, st1. split; [exact Hrun | ].
  cbv zeta. assert (Hspec := parse_js_number_spec _ Hhead).
  destruct (regex_test RE_HEX_NUMBER _ || regex_test RE_OCT_NUMBER _
            || regex_test RE_DEC_NUMBER _).
  - destruct (parse_js_number _) as [| v | ] eqn:Hv.
    + apply Hspec. reflexivity.
    + destruct (token_flag "num" (VNum v) false st1)
        as (t & st2 & Htok & Htype & Hvalue & _).
      exists t, st2. unfold Tokenizer.read_num. run_with Hrun. cbv zeta.
      rewrite Hv. auto.
    + unfold Tokenizer.read_num. run_with Hrun. cbv zeta.
      rewrite Hv. reflexivity.
  - unfold Tokenizer.read_num. run_with Hrun. cbv zeta.
    rewrite Hspec. unfold Tokenizer.parse_error.
    unfold token_start in Hstart. injection Hstart as _ -> -> ->.
    reflexivity.
Qed.

(** C5. The text [1e2.3] has none of the three shapes, and it is one
    [num] token, of value 100: [read_num] refuses a dot only after a dot,
    not after the [e], [RE_DEC_NUMBER] lets a dot into the exponent, and
    [parseFloat] reads [1e2] and drops the rest.  After a mantissa with a
    dot the same dot ends the number and [.3] is a number of its own, and
    the other lexemes of no shape raise "Invalid syntax", as the
    specification has it. *)
Theorem C5_exponent_dot (k : nat) :
  regex_test spec_number_shape "1e2.3" = false
  /\ scan (20 + k) "1e2.3"
     = Ok [("num", VNum (mkNumber 100 0), false); ("eof", VUndefined, false)]
  /\ scan (20 + k) "1e2"
     = Ok [("num", VNum (mkNumber 100 0), false); ("eof", VUndefined, false)]
  /\ scan (20 + k) "1.5e2.3"
     = Ok [("num", VNum (mkNumber 150 0), false);
           ("num", VNum (mkNumber 3 (-1)), false); ("eof", VUndefined, false)]
  /\ scan (20 + k) ".1e2.3"
     = Ok [("num", VNum (mkNumber 10 0), false);
           ("num", VNum (mkNumber 3 (-1)), false); ("eof", VUndefined, false)]
  /\ scan (20 + k) "1e"
     = Throw (ParseError (mkError "Invalid syntax: 1e" 0 0 0))
  /\ scan (20 + k) "12abc"
     = Throw (ParseError (mkError "Invalid syntax: 12abc" 0 0 0))
  /\ scan (20 + k) "0x"
     = Throw (ParseError (mkError "Invalid syntax: 0x" 0 0 0)).
Proof. repeat split; vm_compute; reflexivity. Qed.

(* ------------------------------------------------------------------ *)
(** ** C1, C4, C6, C7, C8: the parser and the tokenizer on given texts *)

(** C1. [a / b / c] parses to one statement, the division of the division
    of [a] by [b] by [c]; [/a/.test(x)] parses to one statement, the call
    of the [test] property of the regular expression [a] -- the tokenizer
    first returns its leading [/] as an operator, and [$statement] has it
    read again as a regular expression. *)
Theorem C1_regex_or_division (k : nat) :
  parse "a / b / c" false false (20 + k)
  = Ok (Arr [Str "toplevel";
             Arr [Arr [Str "stat";
                       Arr [Str "binary"; Str "/";
                            Arr [Str "binary"; Str "/";
                                 Arr [Str "name"; Str "a"];
                                 Arr [Str "name"; Str "b"]];
                            Arr [Str "name"; Str "c"]]]]])
  /\ parse "/a/.test(x)" false false (20 + k)
     = Ok (Arr [Str "toplevel";
                Arr [Arr [Str "stat";
                          Arr [Str "call";
                               Arr [Str "dot";
                                    Arr [Str "regexp"; Str "a"; Str ""];
                                    Str "test"];
                               Arr [Arr [Str "name"; Str "x"]]]]]])
  /\ scan (20 + k) "a / b / c"
     = Ok [("name", VStr "a", false); ("operator", VStr "/", false);
           ("name", VStr "b", false); ("operator", VStr "/", false);
           ("name", VStr "c", false); ("eof", VUndefined, false)]
  /\ exists slash st regexp st',
       Tokenizer.next_token (20 + k) false (Tokenizer.tokenizer "/a/.test(x)")
       = Ok (slash, st)
       /\ tok_type slash = "operator" /\ tok_value slash = VStr "/"
       /\ Tokenizer.next_token (20 + k) true st = Ok (regexp, st')
       /\ tok_type regexp = "regexp" /\ tok_value regexp = VRegexp "a" "".
Proof.
  split; [ | split; [ | split ] ].
  - vm_compute. reflexivity.
  - vm_compute. reflexivity.
  - vm_compute. reflexivity.
  - eexists. eexists. eexists. eexists.
    split; [vm_compute; reflexivity | ].
    split; [reflexivity | ]. split; [reflexivity | ].
    split; [vm_compute; reflexivity | ].
    split; reflexivity.
Qed.

(** C4. [false], [null], [true] and [undefined] are not in [KEYWORDS], so
    [read_word] makes each of them a [name] token and never reaches its
    [atom] branch; the six operator words are [operator] tokens, another
    keyword is a [keyword] token and any other word a [name] token. *)
Theorem C4_atom_words_are_names (k : nat) :
  scan (20 + k) "false null true undefined"
  = Ok [("name", VStr "false", false); ("name", VStr "null", false);
        ("name", VStr "true", false); ("name", VStr "undefined", false);
        ("eof", VUndefined, false)]
  /\ scan (20 + k) "in instanceof typeof new void delete"
     = Ok [("operator", VStr "in", false);
           ("operator", VStr "instanceof", false);
           ("operator", VStr "typeof", false);
           ("operator", VStr "new", false); ("operator", VStr "void", false);
           ("operator", VStr "delete", false); ("eof", VUndefined, false)]
  /\ scan (20 + k) "while class foo"
     = Ok [("keyword", VStr "while", false); ("name", VStr "class", false);
           ("name", VStr "foo", false); ("eof", VUndefined, false)].
Proof. repeat split; vm_compute; reflexivity. Qed.

(** C6. For [for (var x in o) ;] the [lhs] child of the [for-in] node
    is the [name] node of the array that holds [x]: [for_in] takes
    [init[1][0]], the first definition, and not the name in it. *)
Theorem C6_for_in_lhs (k : nat) :
  parse "for (var x in o) ;" false false (20 + k)
  = Ok (Arr [Str "toplevel";
             Arr [Arr [Str "for-in";
                       Arr [Str "var"; Arr [Arr [Str "x"]]];
                       Arr [Str "name"; Arr [Str "x"]];
                       Arr [Str "name"; Str "o"];
                       Arr [Str "block"]]]]).
Proof. vm_compute. reflexivity. Qed.

(** C7. In the text [a], line feed, [/*c*/ b] the token [b] has [nlb]
    false: the comment token takes the flag, and [read_multiline_comment]
    then sets it from the comment's own text.  Without the comment it is
    true. *)
Theorem C7_newline_before_comment (k : nat) :
  scan (20 + k) ("a" ++ LF ++ "/*c*/ b")
  = Ok [("name", VStr "a", false); ("name", VStr "b", false);
        ("eof", VUndefined, false)]
  /\ scan (20 + k) ("a" ++ LF ++ " b")
     = Ok [("name", VStr "a", false); ("name", VStr "b", true);
           ("eof", VUndefined, false)].
Proof. split; vm_compute; reflexivity. Qed.

(** C8 (as amended). [1 = 2;] raises the ParseError "Invalid assignment"
    in exigent mode, whether or not tokens are embedded; in lenient mode,
    where [is_assignable] answers true before it looks at the target, it
    parses to an assignment. *)
Theorem C8_invalid_assignment (k : nat) (embed_tokens : bool) :
  parse "1 = 2;" true embed_tokens (20 + k)
  = Throw (ParseError (mkError "Invalid assignment" 0 2 2))
  /\ parse "1 = 2;" false false (20 + k)
     = Ok (Arr [Str "toplevel";
                Arr [Arr [Str "stat";
                          Arr [Str "assign"; True_;
                               Arr [Str "num"; Num (mkNumber 1 0)];
                               Arr [Str "num"; Num (mkNumber 2 0)]]]]]).
Proof.
  split; [destruct embed_tokens | ]; vm_compute; reflexivity.
Qed.

(** [1 = 2;] with [exigent_mode] left at false raises nothing. *)
Lemma C8_counterexample :
  parse "1 = 2;" false false 20
  = Ok (Arr [Str "toplevel";
             Arr [Arr [Str "stat";
                       Arr [Str "assign"; True_;
                            Arr [Str "num"; Num (mkNumber 1 0)];
                            Arr [Str "num"; Num (mkNumber 2 0)]]]]]).
Proof. vm_compute. reflexivity. Qed.

(* ------------------------------------------------------------------ *)
(** ** C9: rendering a parse error *)

(** C9 (as amended). [toString] is the message and the position in
    parentheses, then two line feeds and the stack the constructor
    recorded. *)
Theorem C9_toString (m : string) (L C P : nat) (stack : string) :
  toString (mkError m L C P) stack
  = (m ++ " (line: " ++ string_of_nat L ++ ", col: " ++ string_of_nat C
       ++ ", pos: " ++ string_of_nat P ++ ")")
    ++ LF ++ LF ++ stack.
Proof.
  unfold toString. cbn [message err_line err_col err_pos].
  rewrite !append_assoc. reflexivity.
Qed.

(** The rendering is longer than the message and the position. *)
Lemma C9_counterexample :
  toString (mkError "Invalid assignment" 0 2 2)
           "TypeError: object is not a function"
  <> "Invalid assignment (line: 0, col: 2, pos: 2)".
Proof. vm_compute. discriminate. Qed.

(* ------------------------------------------------------------------ *)
(** ** How the tokenizer moves through the text *)

Lemma count_LF_app (s1 s2 : string) :
  count_LF (s1 ++ s2) = count_LF s1 + count_LF s2.
Proof.
  induction s1 as [| c rest IH]; simpl; [reflexivity | ].
  rewrite IH. lia.
Qed.

Lemma substring_split (s : string) :
  forall a l1 l2,
    substring a (l1 + l2) s = substring a l1 s ++ substring (a + l1) l2 s.
Proof.
  induction s as [| c rest IH]; intros a l1 l2.
  - destruct a, l1, l2; reflexivity.
  - destruct a as [| a'].
    + destruct l1 as [| l1']; simpl.
      * destruct l2; reflexivity.
      * rewrite (IH 0 l1' l2). reflexivity.
    + simpl. apply IH.
Qed.

Lemma substring_js_split (s : string) (a b c : nat) :
  a <= b -> b <= c ->
  substring_js s a c = substring_js s a b ++ substring_js s b c.
Proof.
  intros Hab Hbc. unfold substring_js.
  replace (c - a) with ((b - a) + (c - b)) by lia.
  rewrite substring_split. replace (a + (b - a)) with b by lia.
  reflexivity.
Qed.

Lemma substring_one (s : string) :
  forall n, substring n 1 s = charAt s n.
Proof.
  unfold charAt. induction s as [| c rest IH]; intros n.
  - destruct n; reflexivity.
  - destruct n as [| n']; simpl.
    + destruct rest; reflexivity.
    + apply IH.
Qed.

Lemma substring_none (s : string) (n : nat) : substring n 0 s = "".
Proof.
  revert n. induction s as [| c rest IH]; intros n; destruct n; simpl; auto.
Qed.

Lemma steps_refl (st : Tokenizer.state) : steps st st.
Proof.
  unfold steps, substring_js. rewrite Nat.sub_diag, substring_none.
  simpl. auto with arith.
Qed.

Lemma steps_trans (st1 st2 st3 : Tokenizer.state) :
  steps st1 st2 -> steps st2 st3 -> steps st1 st3.
Proof.
  intros (Ht1 & Hp1 & Hl1) (Ht2 & Hp2 & Hl2).
  split; [congruence | split; [lia | ] ].
  rewrite Hl2, Hl1, Ht1.
  rewrite (substring_js_split _ _ _ _ Hp1 Hp2), count_LF_app. lia.
Qed.

(** A change of the state that touches neither the text, the position nor
    the line. *)
Lemma steps_same (st st' : Tokenizer.state) :
  Tokenizer.text st' = Tokenizer.text st ->
  Tokenizer.pos st' = Tokenizer.pos st ->
  Tokenizer.line st' = Tokenizer.line st ->
  steps st st'.
Proof.
  intros Ht Hp Hl. unfold steps. rewrite Ht, Hp, Hl.
  exact (steps_refl st).
Qed.

Lemma advancing_bind {A B : Type} (m : Tokenizer.T A)
  (k : A -> Tokenizer.T B) :
  advancing m -> (forall a, advancing (k a)) -> advancing (bind m k).
Proof.
  intros Hm Hk st b st' Hrun.
  apply bind_Ok in Hrun. destruct Hrun as (a & s1 & H1 & H2).
  exact (steps_trans _ _ _ (Hm _ _ _ H1) (Hk _ _ _ _ H2)).
Qed.

Lemma advancing_ret {A : Type} (a : A) : advancing (ret a).
Proof. intros st a0 st' [= _ <-]. apply steps_refl. Qed.

Lemma advancing_gets {A : Type} (g : Tokenizer.state -> A) :
  advancing (gets g).
Proof. intros st a st' [= _ <-]. apply steps_refl. Qed.

Lemma advancing_fail {A : Type} (m : Tokenizer.T A) :
  (forall st a st', m st <> Ok (a, st')) -> advancing m.
Proof. intros H st a st' Hrun. destruct (H st a st' Hrun). Qed.

Lemma advancing_if {A : Type} (b : bool) (m1 m2 : Tokenizer.T A) :
  advancing m1 -> advancing m2 -> advancing (if b then m1 else m2).
Proof. destruct b; auto. Qed.

Lemma advancing_with_eof_error {A : Type} (eof_error : string)
  (cont : Tokenizer.T A) :
  advancing cont -> advancing (Tokenizer.with_eof_error eof_error cont).
Proof.
  intros Hcont st a st' Hrun. unfold Tokenizer.with_eof_error in Hrun.
  destruct (cont st) as [[a0 s0] | [| |] | |] eqn:Hc; try discriminate.
  injection Hrun as <- <-. exact (Hcont st _ _ Hc).
Qed.

(** [next] reads the character at [pos] and moves one position on. *)
Lemma next_reads (signal_eof : bool) (st : Tokenizer.state) (ch : string)
  (st' : Tokenizer.state) :
  Tokenizer.next signal_eof st = Ok (ch, st') ->
  ch = charAt (Tokenizer.text st) (Tokenizer.pos st)
  /\ Tokenizer.pos st' = S (Tokenizer.pos st)
  /\ steps st st'
  /\ (signal_eof = true -> is_empty ch = false).
Proof.
  unfold Tokenizer.next.
  destruct (signal_eof && is_empty _) eqn:Hsig; [discriminate | ].
  assert (Hone : forall b : bool,
            count_LF (substring_js (Tokenizer.text st) (Tokenizer.pos st)
                                   (S (Tokenizer.pos st)))
            = if charAt (Tokenizer.text st) (Tokenizer.pos st) =? LF
              then 1 else 0).
  { intros _. unfold substring_js.
    replace (S (Tokenizer.pos st) - Tokenizer.pos st) with 1 by lia.
    rewrite substring_one. unfold charAt.
    destruct (String.get _ _) as [c | ]; [ | reflexivity ].
    unfold LF. simpl. destruct (Ascii.eqb c _); reflexivity. }
  specialize (Hone true).
  destruct (_ =? LF) eqn:Hlf; intros [= <- <-]; simpl;
    (split; [reflexivity | split; [reflexivity | split ] ]);
    try (unfold steps; simpl; rewrite Hone; repeat split; lia);
    intros ->; simpl in Hsig; exact Hsig.
Qed.

Lemma consuming_next (signal_eof : bool) :
  consuming (Tokenizer.next signal_eof).
Proof.
  intros st ch st' Hrun. apply next_reads in Hrun.
  destruct Hrun as (_ & Hpos & Hsteps & _). split; [exact Hsteps | lia].
Qed.

Lemma consuming_advancing {A : Type} (m : Tokenizer.T A) :
  consuming m -> advancing m.
Proof. intros H st a st' Hrun. exact (proj1 (H st a st' Hrun)). Qed.

Lemma consuming_bind_l {A B : Type} (m : Tokenizer.T A)
  (k : A -> Tokenizer.T B) :
  consuming m -> (forall a, advancing (k a)) -> consuming (bind m k).
Proof.
  intros Hm Hk st b st' Hrun.
  apply bind_Ok in Hrun. destruct Hrun as (a & s1 & H1 & H2).
  destruct (Hm _ _ _ H1) as (Hs1 & Hlt). assert (Hs2 := Hk _ _ _ _ H2).
  split; [exact (steps_trans _ _ _ Hs1 Hs2) | ].
  destruct Hs2 as (_ & Hle & _). lia.
Qed.

Lemma consuming_bind_r {A B : Type} (m : Tokenizer.T A)
  (k : A -> Tokenizer.T B) :
  advancing m -> (forall a, consuming (k a)) -> consuming (bind m k).
Proof.
  intros Hm Hk st b st' Hrun.
  apply bind_Ok in Hrun. destruct Hrun as (a & s1 & H1 & H2).
  assert (Hs1 := Hm _ _ _ H1). destruct (Hk _ _ _ _ H2) as (Hs2 & Hlt).
  split; [exact (steps_trans _ _ _ Hs1 Hs2) | ].
  destruct Hs1 as (_ & Hle & _). lia.
Qed.

Lemma consuming_with_eof_error {A : Type} (eof_error : string)
  (cont : Tokenizer.T A) :
  consuming cont -> consuming (Tokenizer.with_eof_error eof_error cont).
Proof.
  intros Hcont st a st' Hrun. unfold Tokenizer.with_eof_error in Hrun.
  destruct (cont st) as [[a0 s0] | [| |] | |] eqn:Hc; try discriminate.
  injection Hrun as <- <-. exact (Hcont st _ _ Hc).
Qed.

Lemma advancing_next (signal_eof : bool) :
  advancing (Tokenizer.next signal_eof).
Proof. apply consuming_advancing, consuming_next. Qed.

Lemma advancing_peek : advancing Tokenizer.peek.
Proof. apply advancing_gets. Qed.

Lemma advancing_find (what : string) (signal_eof : bool) :
  advancing (Tokenizer.find what signal_eof).
Proof.
  intros st a st'. unfold Tokenizer.find.
  destruct (indexOf _ _ _); [ | destruct signal_eof ];
    try discriminate; intros [= _ <-]; apply steps_refl.
Qed.

Lemma advancing_token (type : string) (value : token_value)
  (is_comment : bool) : advancing (Tokenizer.token type value is_comment).
Proof.
  intros st t st'. unfold Tokenizer.token.
  destruct is_comment; intros [= _ <-]; apply steps_same; reflexivity.
Qed.

Lemma advancing_start_token : advancing Tokenizer.start_token.
Proof. intros st a st' [= _ <-]. apply steps_same; reflexivity. Qed.

Lemma advancing_parse_error {A : Type} (err : string) :
  advancing (@Tokenizer.parse_error A err).
Proof. intros st a st' H. discriminate H. Qed.

Lemma advancing_throw {A : Type} (e : exn) :
  advancing (@throw Tokenizer.state A e).
Proof. intros st a st' H. discriminate H. Qed.

Lemma advancing_out_of_fuel {A : Type} :
  advancing (@out_of_fuel Tokenizer.state A).
Proof. intros st a st' H. discriminate H. Qed.

Lemma advancing_out_of_range {A : Type} :
  advancing (@out_of_range Tokenizer.state A).
Proof. intros st a st' H. discriminate H. Qed.

Create HintDb advance.

#[local] Hint Resolve advancing_next advancing_peek advancing_find
  advancing_token advancing_start_token advancing_parse_error
  advancing_throw advancing_out_of_fuel advancing_out_of_range
  advancing_ret advancing_gets : advance.

(** One step through an action that only moves forward. *)
Ltac advance_step :=
  first
    [ solve [ auto with advance nocore ]
    | apply advancing_bind; [ | intros ? ]
    | apply advancing_with_eof_error
    | apply advancing_if
    | match goal with
      | |- advancing (match ?x with _ => _ end) => destruct x
      | |- advancing (let '(_, _) := ?x in _) => destruct x
      end ].

Lemma advancing_skip_whitespace (fuel : nat) :
  advancing (Tokenizer.skip_whitespace fuel).
Proof.
  induction fuel as [| n IH]; simpl; repeat advance_step.
Qed.

Lemma advancing_read_while {F : Type} (fuel : nat)
  (pred : string -> nat -> F -> bool * F) :
  forall f i acc, advancing (Tokenizer.read_while fuel pred f i acc).
Proof.
  induction fuel as [| n IH]; intros f i acc; simpl; repeat advance_step.
Qed.

#[local] Hint Resolve advancing_skip_whitespace advancing_read_while
  : advance.

Lemma advancing_read_num (fuel : nat) (prefix : option string) :
  advancing (Tokenizer.read_num fuel prefix).
Proof. unfold Tokenizer.read_num. repeat advance_step. Qed.

Lemma advancing_hex_bytes_from (n : nat) :
  forall num, advancing (Tokenizer.hex_bytes_from n num).
Proof.
  induction n as [| n' IH]; intros num; simpl; repeat advance_step.
Qed.

Lemma advancing_read_escaped_char : advancing Tokenizer.read_escaped_char.
Proof.
  unfold Tokenizer.read_escaped_char, Tokenizer.hex_bytes,
    Tokenizer.fromCharCode.
  repeat first [ apply advancing_hex_bytes_from | advance_step ].
Qed.

#[local] Hint Resolve advancing_read_num advancing_read_escaped_char
  : advance.

Lemma advancing_read_string_from (fuel : nat) (quote : string) :
  forall acc, advancing (Tokenizer.read_string_from fuel quote acc).
Proof.
  induction fuel as [| n IH]; intros acc; simpl; repeat advance_step.
Qed.

Lemma advancing_read_name_from (fuel : nat) :
  forall backslash name,
    advancing (Tokenizer.read_name_from fuel backslash name).
Proof.
  induction fuel as [| n IH]; intros backslash name; simpl;
    repeat advance_step.
Qed.

Lemma advancing_read_regexp_from (fuel : nat) :
  forall prev_backslash in_class regexp,
    advancing
      (Tokenizer.read_regexp_from fuel prev_backslash in_class regexp).
Proof.
  induction fuel as [| n IH]; intros prev_backslash in_class regexp; simpl;
    repeat advance_step.
Qed.

Lemma advancing_grow (fuel : nat) :
  forall op, advancing (Tokenizer.grow fuel op).
Proof.
  induction fuel as [| n IH]; intros op; simpl; repeat advance_step.
Qed.

#[local] Hint Resolve advancing_read_string_from advancing_read_name_from
  advancing_read_regexp_from advancing_grow : advance.

Lemma advancing_read_string (fuel : nat) :
  advancing (Tokenizer.read_string fuel).
Proof. unfold Tokenizer.read_string. repeat advance_step. Qed.

Lemma advancing_read_regexp (fuel : nat) :
  advancing (Tokenizer.read_regexp fuel).
Proof.
  unfold Tokenizer.read_regexp, Tokenizer.read_name. repeat advance_step.
Qed.

Lemma advancing_read_operator (fuel : nat) (prefix : option string) :
  advancing (Tokenizer.read_operator fuel prefix).
Proof. unfold Tokenizer.read_operator. repeat advance_step. Qed.

Lemma advancing_read_word (fuel : nat) :
  advancing (Tokenizer.read_word fuel).
Proof.
  unfold Tokenizer.read_word, Tokenizer.read_name. repeat advance_step.
Qed.

#[local] Hint Resolve advancing_read_string advancing_read_regexp
  advancing_read_operator advancing_read_word : advance.

Lemma advancing_handle_dot (fuel : nat) :
  advancing (Tokenizer.handle_dot fuel).
Proof. unfold Tokenizer.handle_dot. repeat advance_step. Qed.

#[local] Hint Resolve advancing_handle_dot : advance.

Lemma index_ge (what : string) (s : string) :
  forall from i, String.index from what s = Some i -> from <= i.
Proof.
  induction s as [| c rest IH]; intros from i; simpl.
  - destruct from; [ | discriminate ]. intros _. lia.
  - destruct from as [| from'].
    + intros _. lia.
    + destruct (String.index from' what rest) as [j | ] eqn:Hj;
        [ | discriminate ].
      intros [= <-]. apply IH in Hj. lia.
Qed.

Lemma count_LF_char (s : string) (n : nat) :
  count_LF (charAt s n) = if charAt s n =? LF then 1 else 0.
Proof.
  unfold charAt. destruct (String.get n s) as [c | ]; [ | reflexivity ].
  unfold LF. simpl. destruct (Ascii.eqb c _); reflexivity.
Qed.

(** No line feed in a stretch of the text: none is counted there. *)
Lemma count_LF_none (s : string) (len : nat) :
  forall a,
    (forall p, a <= p -> p < a + len -> substring p 1 s <> LF) ->
    count_LF (substring a len s) = 0.
Proof.
  induction len as [| k IH]; intros a Hno.
  - rewrite substring_none. reflexivity.
  - change (S k) with (1 + k). rewrite substring_split, count_LF_app.
    rewrite (IH (a + 1)) by (intros p H1 H2; apply Hno; lia).
    assert (Ha := Hno a (le_n a)). rewrite substring_one in *.
    rewrite count_LF_char.
    destruct (charAt s a =? LF) eqn:Heq; [ | reflexivity ].
    apply String.eqb_eq in Heq. destruct Ha; [lia | exact Heq].
Qed.

(** [read_line_comment], called where a character is left to read (the
    second [/]). *)
Lemma read_line_comment_steps (st : Tokenizer.state) (c : Token)
  (st' : Tokenizer.state) :
  is_empty (charAt (Tokenizer.text st) (Tokenizer.pos st)) = false ->
  Tokenizer.read_line_comment st = Ok (c, st') ->
  steps st st' /\ Tokenizer.pos st < Tokenizer.pos st'.
Proof.
  intros Hch. apply charAt_lt in Hch.
  unfold Tokenizer.read_line_comment. intros Hrun.
  apply bind_Ok in Hrun. destruct Hrun as (ch & s1 & Hnext & Hrun).
  apply next_reads in Hnext. destruct Hnext as (_ & Hpos1 & Hsteps1 & _).
  apply bind_Ok in Hrun. destruct Hrun as (i & s2 & Hfind & Hrun).
  apply bind_Ok in Hrun. destruct Hrun as (s3 & s4 & Hget & Hrun).
  injection Hget as <- <-.
  assert (Htext : Tokenizer.text s1 = Tokenizer.text st)
    by (destruct Hsteps1 as (H & _); exact H).
  unfold Tokenizer.find in Hfind.
  destruct (indexOf (Tokenizer.text s1) LF (Tokenizer.pos s1))
    as [j | ] eqn:Hidx; injection Hfind as <- <-;
    apply bind_Ok in Hrun; destruct Hrun as ([] & s5 & [= <-] & Hrun);
    apply advancing_token in Hrun;
    match type of Hrun with
    | steps ?s _ =>
        assert (Hjump : steps s1 s /\ Tokenizer.pos s1 <= Tokenizer.pos s)
    end.
  - unfold indexOf in Hidx. assert (Hge := index_ge _ _ _ _ Hidx).
    split; [ | simpl; lia ].
    unfold steps. simpl. split; [reflexivity | split; [exact Hge | ] ].
    unfold substring_js. rewrite count_LF_none; [lia | ].
    intros p H1 H2.
    apply (index_correct2 _ _ _ _ Hidx p); lia.
  - destruct Hjump as (Hj & Hle).
    split; [exact (steps_trans _ _ _ Hsteps1 (steps_trans _ _ _ Hj Hrun)) | ].
    destruct Hrun as (_ & Hle2 & _). lia.
  - unfold indexOf in Hidx.
    split; [ | simpl; rewrite Htext; lia ].
    unfold steps. simpl.
    split; [reflexivity | split; [rewrite Htext; lia | ] ].
    unfold substring_js. rewrite count_LF_none; [lia | ].
    intros p H1 H2.
    apply (index_correct3 _ p _ _ Hidx); [discriminate | lia].
  - destruct Hjump as (Hj & Hle).
    split; [exact (steps_trans _ _ _ Hsteps1 (steps_trans _ _ _ Hj Hrun)) | ].
    destruct Hrun as (_ & Hle2 & _). lia.
Qed.

Lemma consuming_read_multiline_comment :
  consuming Tokenizer.read_multiline_comment.
Proof.
  intros st c st'. unfold Tokenizer.read_multiline_comment. intros Hrun.
  apply bind_Ok in Hrun. destruct Hrun as (ch & s1 & Hnext & Hrun).
  apply next_reads in Hnext. destruct Hnext as (_ & Hpos1 & Hsteps1 & _).
  unfold Tokenizer.with_eof_error in Hrun.
  match type of Hrun with
  | match ?m s1 with _ => _ end = _ =>
      destruct (m s1) as [[c0 s0] | [| |] | |] eqn:Hc; try discriminate
  end.
  injection Hrun as <- <-.
  apply bind_Ok in Hc. destruct Hc as (i & s2 & Hfind & Hrun).
  unfold Tokenizer.find in Hfind.
  destruct (indexOf (Tokenizer.text s1) "*/" (Tokenizer.pos s1))
    as [j | ] eqn:Hidx; [ | discriminate ].
  injection Hfind as <- <-.
  apply bind_Ok in Hrun. destruct Hrun as (s3 & s4 & [= <- <-] & Hrun).
  apply bind_Ok in Hrun. destruct Hrun as (tok & s5 & Htok & Hrun).
  unfold Tokenizer.token in Htok. injection Htok as _ <-.
  unfold bind, modify, ret in Hrun. simpl in Hrun.
  injection Hrun as _ <-.
  unfold indexOf in Hidx. assert (Hge := index_ge _ _ _ _ Hidx).
  assert (Hend := index_correct1 _ _ _ _ Hidx).
  assert (Hjump : steps s1
    (Tokenizer.mkS (Tokenizer.text s1) (j + 2) (Tokenizer.tokpos s1)
       (Tokenizer.line s1
        + count_LF (substring_js (Tokenizer.text s1) (Tokenizer.pos s1) j))
       (Tokenizer.tokline s1) (Tokenizer.col s1) (Tokenizer.tokcol s1)
       false false (Tokenizer.comments_before s1))).
  { unfold steps. simpl. split; [reflexivity | split; [lia | ] ].
    rewrite (substring_js_split _ _ j (j + 2)) by lia.
    rewrite count_LF_app. unfold substring_js at 3.
    replace (j + 2 - j) with (String.length "*/") by (simpl; lia).
    rewrite Hend. simpl. lia. }
  match goal with
  | |- steps st ?s /\ _ =>
      assert (Hlast : steps s1 s /\ Tokenizer.pos s1 <= Tokenizer.pos s)
  end.
  { split; [ | simpl; lia ].
    destruct Hjump as (H1 & H2 & H3). unfold steps. simpl in *.
    split; [reflexivity | split; [lia | exact H3] ]. }
  destruct Hlast as (Hlast & Hle).
  split; [exact (steps_trans _ _ _ Hsteps1 Hlast) | lia].
Qed.

(** [handle_slash] moves forward when the function it calls back does. *)
Lemma consuming_handle_slash (fuel : nat)
  (next_token : Tokenizer.T Token) :
  advancing next_token -> consuming (Tokenizer.handle_slash fuel next_token).
Proof.
  intros Hself. unfold Tokenizer.handle_slash.
  apply consuming_bind_l; [apply consuming_next | intros _].
  apply advancing_bind; [apply advancing_gets | intros allowed].
  intros st t st' Hrun.
  apply bind_Ok in Hrun. destruct Hrun as (ch & s1 & [= <- <-] & Hrun).
  revert Hrun.
  destruct (charAt (Tokenizer.text st) (Tokenizer.pos st) =? "/") eqn:Hs;
    [ | destruct (charAt (Tokenizer.text st) (Tokenizer.pos st) =? "*") ].
  - intros Hrun.
    apply bind_Ok in Hrun. destruct Hrun as (c & s2 & Hc & Hrun).
    apply read_line_comment_steps in Hc;
      [ | apply String.eqb_eq in Hs; rewrite Hs; reflexivity ].
    apply bind_Ok in Hrun. destruct Hrun as ([] & s3 & [= <-] & Hrun).
    apply bind_Ok in Hrun. destruct Hrun as ([] & s4 & [= <-] & Hrun).
    apply Hself in Hrun.
    refine (steps_trans _ _ _ (proj1 Hc) (steps_trans _ _ _ _ Hrun)).
    apply steps_same; reflexivity.
  - intros Hrun.
    apply bind_Ok in Hrun. destruct Hrun as (c & s2 & Hc & Hrun).
    apply consuming_read_multiline_comment in Hc.
    apply bind_Ok in Hrun. destruct Hrun as ([] & s3 & [= <-] & Hrun).
    apply bind_Ok in Hrun. destruct Hrun as ([] & s4 & [= <-] & Hrun).
    apply Hself in Hrun.
    refine (steps_trans _ _ _ (proj1 Hc) (steps_trans _ _ _ _ Hrun)).
    apply steps_same; reflexivity.
  - clear Hs. revert st t st'.
    change (advancing
              (allowed <- gets Tokenizer.regex_allowed ;;
               if allowed then Tokenizer.read_regexp fuel
               else Tokenizer.read_operator fuel (Some "/"))).
    repeat advance_step.
Qed.

Lemma advancing_next_token_body (fuel : nat)
  (self : bool -> Tokenizer.T Token) (force_regexp : bool) :
  (forall force, advancing (self force)) ->
  advancing (Tokenizer.next_token_body fuel self force_regexp).
Proof.
  intros Hself. unfold Tokenizer.next_token_body.
  repeat first
    [ apply consuming_advancing, consuming_handle_slash, Hself
    | advance_step ].
Qed.

(** Whatever [next_token] returns, it has moved forward in the same text
    and counted the line feeds it passed. *)
Lemma advancing_next_token (fuel : nat) :
  forall force_regexp, advancing (Tokenizer.next_token fuel force_regexp).
Proof.
  induction fuel as [| n IH]; intros force_regexp.
  - intros st t st' H. discriminate H.
  - simpl. apply advancing_next_token_body. exact IH.
Qed.

(* ------------------------------------------------------------------ *)
(** ** The tokens [next_token] returns *)

Lemma next_token_body_inv (fuel : nat) (self : bool -> Tokenizer.T Token)
  (st : Tokenizer.state) (r : outcome (Token * Tokenizer.state)) :
  Tokenizer.next_token_body fuel self false st = r ->
  match Tokenizer.skip_whitespace fuel st with
  | Ok (_, s1) =>
      dispatch fuel self
        (charAt (Tokenizer.text s1) (Tokenizer.pos s1)) (token_started s1)
      = r
  | Throw e => r = Throw e
  | OutOfFuel => r = OutOfFuel
  | OutOfRange => r = OutOfRange
  end.
Proof.
  intros <-.
  destruct (Tokenizer.skip_whitespace fuel st) as [[[] s1] | e | |] eqn:Hws;
    unfold Tokenizer.next_token_body; run_with Hws; reflexivity.
Qed.

(** Take the first action of a sequence that returned apart. *)
Ltac inv_bind H :=
  let a := fresh "a" in
  let s := fresh "s" in
  let H1 := fresh "Hrun" in
  apply bind_Ok in H; destruct H as (a & s & H1 & H).

Lemma charAt_ge (s : string) (n : nat) :
  is_empty (charAt s n) = true -> String.length s <= n.
Proof.
  unfold charAt. revert n. induction s as [| c rest IH]; intros n; simpl.
  - lia.
  - destruct n as [| n']; simpl; [discriminate | ].
    intros H. apply IH in H. lia.
Qed.

(** Every character an operator may start with is an operator. *)
Lemma operator_char (ch : string) :
  HOP OPERATOR_CHARS ch = true -> HOP OPERATORS ch = true.
Proof.
  rewrite HOP_In. simpl.
  intros H. repeat (destruct H as [<- | H]; [reflexivity | ]). destruct H.
Qed.

(** No keyword is one of the atom words. *)
Lemma keyword_not_atom (word : string) :
  HOP KEYWORDS word = true -> HOP KEYWORDS_ATOM word = false.
Proof.
  rewrite HOP_In. simpl.
  intros H. repeat (destruct H as [<- | H]; [reflexivity | ]). destruct H.
Qed.

(** [grow] extends an operator to an operator, as far as it can. *)
Lemma grow_operator (fuel : nat) :
  forall op st r st',
    HOP OPERATORS op = true ->
    Tokenizer.grow fuel op st = Ok (r, st') ->
    HOP OPERATORS r = true
    /\ (is_empty (charAt (Tokenizer.text st') (Tokenizer.pos st')) = true
        \/ HOP OPERATORS (r ++ charAt (Tokenizer.text st') (Tokenizer.pos st'))
           = false).
Proof.
  induction fuel as [| n IH]; intros op st r st' Hop;
    [discriminate | ].
  cbn [Tokenizer.grow].
  intros Hrun. inv_bind Hrun. injection Hrun0 as <- <-.
  destruct (is_empty (charAt (Tokenizer.text st) (Tokenizer.pos st)))
    eqn:Hch.
  - injection Hrun as <- <-. auto.
  - destruct (HOP OPERATORS (op ++ charAt _ _)) eqn:Hbig.
    + inv_bind Hrun. exact (IH _ _ _ _ Hbig Hrun).
    + injection Hrun as <- <-. auto.
Qed.

(** When the first character passes the predicate, [read_while] reads
    it. *)
Lemma read_while_first {F : Type} (fuel : nat)
  (pred : string -> nat -> F -> bool * F) (f f' : F) (i : nat)
  (acc : string) (st : Tokenizer.state) (r : string)
  (st' : Tokenizer.state) :
  is_empty (charAt (Tokenizer.text st) (Tokenizer.pos st)) = false ->
  pred (charAt (Tokenizer.text st) (Tokenizer.pos st)) i f = (true, f') ->
  Tokenizer.read_while fuel pred f i acc st = Ok (r, st') ->
  Tokenizer.pos st < Tokenizer.pos st'.
Proof.
  intros Hch Hpred. destruct fuel as [| n]; simpl; [discriminate | ].
  intros Hrun. inv_bind Hrun. injection Hrun0 as <- <-.
  rewrite Hch, Hpred in Hrun.
  revert Hrun.
  apply (consuming_bind_l (Tokenizer.next false)
           (fun c => Tokenizer.read_while n pred f' (S i) (acc ++ c)));
    [apply consuming_next | intros c; apply advancing_read_while].
Qed.

Lemma is_digit_not_empty (ch : string) :
  is_digit ch = true -> is_empty ch = false.
Proof. destruct ch; [discriminate | reflexivity]. Qed.

(** [read_num], called at a digit, returns a [num] token and has read at
    least that digit. *)
Lemma read_num_scans (fuel : nat) (prefix : option string)
  (st : Tokenizer.state) (t : Token) (st' : Tokenizer.state) :
  is_digit (charAt (Tokenizer.text st) (Tokenizer.pos st)) = true ->
  Tokenizer.read_num fuel prefix st = Ok (t, st') ->
  tok_type t = "num" /\ (exists n, tok_value t = VNum n)
  /\ Tokenizer.pos st < Tokenizer.pos st'.
Proof.
  intros Hdigit. unfold Tokenizer.read_num. intros Hrun. inv_bind Hrun.
  apply read_while_first with (f' := Tokenizer.read_num_flags prefix)
    in Hrun0;
    [ | exact (is_digit_not_empty _ Hdigit)
      | exact (read_num_pred_digit prefix _ 0 Hdigit) ].
  destruct (parse_js_number _) as [ | valid | ]; try discriminate.
  unfold Tokenizer.token in Hrun. injection Hrun as <- <-. simpl.
  split; [reflexivity | split; [eauto | exact Hrun0] ].
Qed.

Lemma read_string_scans (fuel : nat) (st : Tokenizer.state) (t : Token)
  (st' : Tokenizer.state) :
  Tokenizer.read_string fuel st = Ok (t, st') ->
  tok_type t = "string" /\ (exists s, tok_value t = VStr s)
  /\ Tokenizer.pos st < Tokenizer.pos st'.
Proof.
  intros Hrun.
  assert (Hpos : Tokenizer.pos st < Tokenizer.pos st').
  { revert Hrun. unfold Tokenizer.read_string. intros Hrun.
    refine (proj2 (consuming_with_eof_error _ _ _ _ _ _ Hrun)).
    apply consuming_bind_l; [apply consuming_next | intros q].
    repeat advance_step. }
  unfold Tokenizer.read_string, Tokenizer.with_eof_error in Hrun.
  match type of Hrun with
  | match ?m st with _ => _ end = _ =>
      destruct (m st) as [[t0 s0] | [| |] | |] eqn:Hc; try discriminate
  end.
  injection Hrun as <- <-. inv_bind Hc. inv_bind Hc.
  unfold Tokenizer.token in Hc. injection Hc as <- <-. simpl.
  split; [reflexivity | split; [eauto | exact Hpos] ].
Qed.

Lemma read_regexp_scans (fuel : nat) (st : Tokenizer.state) (t : Token)
  (st' : Tokenizer.state) :
  Tokenizer.read_regexp fuel st = Ok (t, st') ->
  tok_type t = "regexp" /\ (exists body mods, tok_value t = VRegexp body mods)
  /\ Tokenizer.pos st < Tokenizer.pos st'.
Proof.
  intros Hrun.
  assert (Hpos : Tokenizer.pos st < Tokenizer.pos st').
  { revert Hrun. unfold Tokenizer.read_regexp. intros Hrun.
    refine (proj2 (consuming_with_eof_error _ _ _ _ _ _ Hrun)).
    apply consuming_bind_l; [ | intros q; unfold Tokenizer.read_name;
                                repeat advance_step ].
    destruct fuel as [| n]; simpl;
      [intros s a s' H; discriminate H | ].
    apply consuming_bind_l; [apply consuming_next | intros ch].
    repeat advance_step. }
  unfold Tokenizer.read_regexp, Tokenizer.with_eof_error in Hrun.
  match type of Hrun with
  | match ?m st with _ => _ end = _ =>
      destruct (m st) as [[t0 s0] | [| |] | |] eqn:Hc; try discriminate
  end.
  injection Hrun as <- <-. inv_bind Hc. inv_bind Hc.
  unfold Tokenizer.token in Hc. injection Hc as <- <-. simpl.
  split; [reflexivity | split; [eauto | exact Hpos] ].
Qed.

(** [read_operator] returns an operator of [OPERATORS] when it starts from
    one: the prefix [/], or a character of [OPERATOR_CHARS]. *)
Lemma read_operator_scans (fuel : nat) (prefix : option string)
  (st : Tokenizer.state) (t : Token) (st' : Tokenizer.state) :
  prefix = Some "/"
  \/ (prefix = None
      /\ HOP OPERATOR_CHARS (charAt (Tokenizer.text st) (Tokenizer.pos st))
         = true) ->
  Tokenizer.read_operator fuel prefix st = Ok (t, st') ->
  tok_type t = "operator"
  /\ (exists op, tok_value t = VStr op /\ HOP OPERATORS op = true)
  /\ (prefix = None -> Tokenizer.pos st < Tokenizer.pos st').
Proof.
  intros Hstart. unfold Tokenizer.read_operator. intros Hrun.
  inv_bind Hrun. inv_bind Hrun.
  unfold Tokenizer.token in Hrun. injection Hrun as <- <-. simpl.
  apply advancing_grow in Hrun1 as Hgrow. destruct Hgrow as (_ & Hle & _).
  destruct Hstart as [-> | (-> & Hch)].
  - change (Tokenizer.truthy_prefix (Some "/")) with true in Hrun0.
    injection Hrun0 as <- <-.
    apply grow_operator in Hrun1; [ | reflexivity ].
    split; [reflexivity | split; [ | discriminate ] ].
    exists a0. split; [reflexivity | tauto].
  - change (Tokenizer.truthy_prefix None) with false in Hrun0.
    apply next_reads in Hrun0. destruct Hrun0 as (-> & Hpos & _).
    apply grow_operator in Hrun1; [ | exact (operator_char _ Hch) ].
    split; [reflexivity | split; [ | intros _; lia ] ].
    exists a0. split; [reflexivity | tauto].
Qed.

Lemma is_identifier_start_char (ch : string) :
  is_identifier_start ch = true -> is_identifier_char ch = true.
Proof. unfold is_identifier_char. intros ->. reflexivity. Qed.

(** [read_word], called at a backslash or at a character an identifier
    may start with. *)
Lemma read_word_scans (fuel : nat) (st : Tokenizer.state) (t : Token)
  (st' : Tokenizer.state) :
  (charAt (Tokenizer.text st) (Tokenizer.pos st) =? BACKSLASH)
  || is_identifier_start (charAt (Tokenizer.text st) (Tokenizer.pos st))
  = true ->
  Tokenizer.read_word fuel st = Ok (t, st') ->
  (exists word,
     tok_value t = VStr word
     /\ ((tok_type t = "name" /\ HOP KEYWORDS word = false)
         \/ (tok_type t = "operator" /\ HOP OPERATORS word = true)
         \/ (tok_type t = "keyword"
             /\ HOP KEYWORDS word = true /\ HOP OPERATORS word = false)))
  /\ Tokenizer.pos st < Tokenizer.pos st'.
Proof.
  intros Hstart. unfold Tokenizer.read_word. intros Hrun. inv_bind Hrun.
  assert (Hpos : Tokenizer.pos st < Tokenizer.pos s).
  { revert Hrun0. unfold Tokenizer.read_name.
    destruct fuel as [| n]; simpl; [discriminate | ].
    intros Hrun0. inv_bind Hrun0. injection Hrun1 as <- <-.
    simpl in Hrun0. revert Hrun0.
    destruct (charAt (Tokenizer.text st) (Tokenizer.pos st) =? BACKSLASH).
    - apply (consuming_bind_l (Tokenizer.next false)
               (fun _ => Tokenizer.read_name_from n true ""));
        [apply consuming_next | intros _; apply advancing_read_name_from].
    - simpl in Hstart. rewrite (is_identifier_start_char _ Hstart).
      apply (consuming_bind_l (Tokenizer.next false)
               (fun c => Tokenizer.read_name_from n false ("" ++ c)));
        [apply consuming_next | intros c; apply advancing_read_name_from]. }
  destruct (HOP KEYWORDS a) eqn:Hkw; cbn [negb] in Hrun;
    [destruct (HOP OPERATORS a) eqn:Hop;
       [ | rewrite (keyword_not_atom _ Hkw) in Hrun ] | ];
    unfold Tokenizer.token in Hrun; injection Hrun as <- <-; simpl;
    (split; [exists a; split; [reflexivity | tauto] | exact Hpos]).
Qed.

Lemma handle_dot_scans (fuel : nat) (st : Tokenizer.state) (t : Token)
  (st' : Tokenizer.state) :
  Tokenizer.handle_dot fuel st = Ok (t, st') ->
  ((tok_type t = "num" /\ exists n, tok_value t = VNum n)
   \/ (tok_type t = "punc" /\ tok_value t = VStr "."))
  /\ Tokenizer.pos st < Tokenizer.pos st'.
Proof.
  unfold Tokenizer.handle_dot. intros Hrun. inv_bind Hrun.
  apply next_reads in Hrun0. destruct Hrun0 as (_ & Hpos & _).
  inv_bind Hrun. injection Hrun0 as <- <-.
  destruct (is_digit (charAt (Tokenizer.text s) (Tokenizer.pos s))) eqn:Hd.
  - apply read_num_scans in Hrun; [ | exact Hd ].
    destruct Hrun as (Ht & Hv & Hlt). split; [left; auto | lia].
  - unfold Tokenizer.token in Hrun. injection Hrun as <- <-. simpl.
    split; [right; auto | lia].
Qed.

Lemma scans_handle_slash (fuel : nat) (next_token : Tokenizer.T Token) :
  advancing next_token -> scans next_token ->
  scans (Tokenizer.handle_slash fuel next_token).
Proof.
  intros Hadv Hself st t st' Hrun.
  assert (Hpos := proj2 (consuming_handle_slash fuel next_token Hadv
                           st t st' Hrun)).
  revert Hrun. unfold Tokenizer.handle_slash. intros Hrun.
  inv_bind Hrun. inv_bind Hrun. inv_bind Hrun.
  injection Hrun2 as <- <-. injection Hrun1 as <- <-.
  assert (Hcomment : forall s4,
            next_token s4 = Ok (t, st') ->
            token_shape t
            /\ (tok_type t = "eof" /\ remaining st' = 0
                \/ tok_type t <> "eof"
                   /\ Tokenizer.pos st < Tokenizer.pos st')).
  { intros s4 H4. destruct (Hself _ _ _ H4) as (Hshape & [Heof | Hnot]).
    - split; [exact Hshape | left; exact Heof].
    - split; [exact Hshape | right; split; [tauto | exact Hpos] ]. }
  destruct (charAt (Tokenizer.text s) (Tokenizer.pos s) =? "/");
    [ | destruct (charAt (Tokenizer.text s) (Tokenizer.pos s) =? "*") ].
  - inv_bind Hrun. inv_bind Hrun. inv_bind Hrun. exact (Hcomment _ Hrun).
  - inv_bind Hrun. inv_bind Hrun. inv_bind Hrun. exact (Hcomment _ Hrun).
  - inv_bind Hrun. injection Hrun1 as <- <-.
    destruct (Tokenizer.regex_allowed s).
    + apply read_regexp_scans in Hrun.
      destruct Hrun as (Ht & (body & mods & Hv) & _).
      unfold token_shape. rewrite Hv, Ht.
      split; [reflexivity | right; split; [discriminate | exact Hpos] ].
    + apply read_operator_scans in Hrun; [ | left; reflexivity ].
      destruct Hrun as (Ht & (op & Hv & Hop) & _).
      unfold token_shape. rewrite Hv, Ht.
      split; [tauto | right; split; [discriminate | exact Hpos] ].
Qed.

(** The scan that starts at the first character [ch] of a token. *)
Lemma scans_dispatch (fuel : nat) (self : bool -> Tokenizer.T Token)
  (s2 : Tokenizer.state) (t : Token) (st' : Tokenizer.state) :
  advancing (self false) -> scans (self false) ->
  dispatch fuel self (charAt (Tokenizer.text s2) (Tokenizer.pos s2)) s2
  = Ok (t, st') ->
  token_shape t
  /\ ((tok_type t = "eof" /\ remaining st' = 0)
      \/ (tok_type t <> "eof" /\ Tokenizer.pos s2 < Tokenizer.pos st')).
Proof.
  intros Hadv Hself. unfold dispatch.
  set (ch := charAt (Tokenizer.text s2) (Tokenizer.pos s2)).
  destruct (is_empty ch) eqn:Hempty.
  { unfold Tokenizer.token. intros [= <- <-]. unfold token_shape. simpl.
    split; [reflexivity | left; split; [reflexivity | ] ].
    apply charAt_ge in Hempty. unfold remaining. simpl. lia. }
  destruct (is_digit ch) eqn:Hdigit.
  { intros Hrun. apply read_num_scans in Hrun; [ | exact Hdigit ].
    destruct Hrun as (Ht & (n & Hv) & Hpos).
    unfold token_shape. rewrite Hv, Ht.
    split; [reflexivity | right; split; [discriminate | exact Hpos] ]. }
  destruct ((ch =? DQUOTE) || (ch =? SQUOTE)).
  { intros Hrun. apply read_string_scans in Hrun.
    destruct Hrun as (Ht & (s & Hv) & Hpos).
    unfold token_shape. rewrite Hv, Ht.
    split; [tauto | right; split; [discriminate | exact Hpos] ]. }
  destruct (HOP PUNC_CHARS ch) eqn:Hpunc.
  { intros Hrun. inv_bind Hrun.
    apply next_reads in Hrun0. destruct Hrun0 as (-> & Hpos & _).
    unfold Tokenizer.token in Hrun. injection Hrun as <- <-.
    unfold token_shape. simpl. fold ch.
    split; [tauto | right; split; [discriminate | lia] ]. }
  destruct (ch =? ".").
  { intros Hrun. apply handle_dot_scans in Hrun.
    destruct Hrun as ([(Ht & n & Hv) | (Ht & Hv)] & Hpos);
      unfold token_shape; rewrite Hv, Ht;
      (split; [tauto | right; split; [discriminate | exact Hpos] ]). }
  destruct (ch =? "/").
  { intros Hrun. exact (scans_handle_slash fuel _ Hadv Hself _ _ _ Hrun). }
  destruct (HOP OPERATOR_CHARS ch) eqn:Hop.
  { intros Hrun.
    apply read_operator_scans in Hrun; [ | right; split; auto ].
    destruct Hrun as (Ht & (op & Hv & Hin) & Hpos).
    unfold token_shape. rewrite Hv, Ht.
    split; [tauto | right; split; [discriminate | auto] ]. }
  destruct ((ch =? BACKSLASH) || is_identifier_start ch) eqn:Hword.
  { intros Hrun. apply read_word_scans in Hrun; [ | exact Hword ].
    destruct Hrun as ((word & Hv & Hkind) & Hpos).
    unfold token_shape. rewrite Hv.
    split; [ | right; split; [ | exact Hpos] ].
    - tauto.
    - destruct Hkind as [(-> & _) | [(-> & _) | (-> & _)]]; discriminate. }
  intros Hrun. discriminate Hrun.
Qed.

Lemma scans_next_token_body (fuel : nat)
  (self : bool -> Tokenizer.T Token) (force_regexp : bool) :
  advancing (self false) -> scans (self false) ->
  scans (Tokenizer.next_token_body fuel self force_regexp).
Proof.
  intros Hadv Hself st t st' Hrun. destruct force_regexp.
  - unfold Tokenizer.next_token_body in Hrun.
    apply read_regexp_scans in Hrun.
    destruct Hrun as (Ht & (body & mods & Hv) & Hpos).
    unfold token_shape. rewrite Hv, Ht.
    split; [reflexivity | right; split; [discriminate | exact Hpos] ].
  - apply next_token_body_inv in Hrun.
    destruct (Tokenizer.skip_whitespace fuel st) as [[[] s1] | e | |] eqn:Hws;
      try discriminate.
    apply advancing_skip_whitespace in Hws. destruct Hws as (_ & Hle & _).
    change (charAt (Tokenizer.text s1) (Tokenizer.pos s1))
      with (charAt (Tokenizer.text (token_started s1))
                   (Tokenizer.pos (token_started s1))) in Hrun.
    apply scans_dispatch in Hrun; [ | exact Hadv | exact Hself ].
    destruct Hrun as (Hshape & [Heof | (Hnot & Hpos)]).
    + split; [exact Hshape | left; exact Heof].
    + split; [exact Hshape | right; split; [exact Hnot | ] ].
      simpl in Hpos. lia.
Qed.

Lemma scans_next_token (fuel : nat) :
  forall force_regexp, scans (Tokenizer.next_token fuel force_regexp).
Proof.
  induction fuel as [| n IH]; intros force_regexp.
  - intros st t st' H. discriminate H.
  - simpl. apply scans_next_token_body;
      [apply advancing_next_token | apply IH].
Qed.

(* ------------------------------------------------------------------ *)
(** ** Comments and the token that follows them *)

Lemma emits_bind {A : Type} (m : Tokenizer.T A)
  (k : A -> Tokenizer.T Token) :
  keeps Tokenizer.comments_before m -> (forall a, emits (k a)) ->
  emits (bind m k).
Proof.
  intros Hm Hk st t st' Hrun. inv_bind Hrun.
  rewrite <- (Hm _ _ _ Hrun0). exact (Hk _ _ _ _ Hrun).
Qed.

Lemma emits_token (type : string) (value : token_value) :
  emits (Tokenizer.token type value false).
Proof.
  intros st t st'. unfold Tokenizer.token. intros [= <- <-]. simpl.
  split; [reflexivity | split; [reflexivity | ] ].
  exists []. rewrite app_nil_r. split; [reflexivity | constructor].
Qed.

Lemma emits_fail (m : Tokenizer.T Token) :
  (forall st a st', m st <> Ok (a, st')) -> emits m.
Proof. intros H st a st' Hrun. destruct (H st a st' Hrun). Qed.

Lemma emits_if (b : bool) (m1 m2 : Tokenizer.T Token) :
  emits m1 -> emits m2 -> emits (if b then m1 else m2).
Proof. destruct b; auto. Qed.

Lemma emits_with_eof_error (eof_error : string) (cont : Tokenizer.T Token) :
  emits cont -> emits (Tokenizer.with_eof_error eof_error cont).
Proof.
  intros Hcont st a st' Hrun. unfold Tokenizer.with_eof_error in Hrun.
  destruct (cont st) as [[a0 s0] | [| |] | |] eqn:Hc; try discriminate.
  injection Hrun as <- <-. exact (Hcont st _ _ Hc).
Qed.

(** One step through an action that leaves a part of the state alone. *)
Ltac keeps_step :=
  first
    [ assumption
    | apply keeps_next; reflexivity
    | apply keeps_peek
    | apply keeps_gets
    | apply keeps_ret
    | apply keeps_find
    | apply keeps_modify; reflexivity
    | apply keeps_fail; intros ? ? ? ?; discriminate
    | apply keeps_bind; [ | intros ? ]
    | apply keeps_with_eof_error
    | apply keeps_if
    | match goal with
      | |- keeps _ (match ?x with _ => _ end) => destruct x
      | |- keeps _ (let '(_, _) := ?x in _) => destruct x
      end ].

Lemma keeps_comments_read_while {F : Type} (fuel : nat)
  (pred : string -> nat -> F -> bool * F) :
  forall f i acc,
    keeps Tokenizer.comments_before (Tokenizer.read_while fuel pred f i acc).
Proof.
  induction fuel as [| n IH]; intros f i acc; cbn [Tokenizer.read_while];
    repeat keeps_step.
  apply IH.
Qed.

Lemma keeps_comments_hex_bytes_from (n : nat) :
  forall num,
    keeps Tokenizer.comments_before (Tokenizer.hex_bytes_from n num).
Proof.
  induction n as [| n' IH]; intros num; cbn [Tokenizer.hex_bytes_from];
    repeat keeps_step.
  apply IH.
Qed.

Lemma keeps_comments_read_escaped_char :
  keeps Tokenizer.comments_before Tokenizer.read_escaped_char.
Proof.
  unfold Tokenizer.read_escaped_char, Tokenizer.hex_bytes,
    Tokenizer.fromCharCode.
  repeat first [ apply keeps_comments_hex_bytes_from | keeps_step ].
Qed.

Lemma keeps_comments_read_string_from (fuel : nat) (quote : string) :
  forall acc,
    keeps Tokenizer.comments_before
      (Tokenizer.read_string_from fuel quote acc).
Proof.
  induction fuel as [| n IH]; intros acc; cbn [Tokenizer.read_string_from];
    repeat first [ apply keeps_comments_read_escaped_char | apply IH
                 | keeps_step ].
Qed.

Lemma keeps_comments_read_name_from (fuel : nat) :
  forall backslash name,
    keeps Tokenizer.comments_before
      (Tokenizer.read_name_from fuel backslash name).
Proof.
  induction fuel as [| n IH]; intros backslash name;
    cbn [Tokenizer.read_name_from];
    repeat first [ apply keeps_comments_read_escaped_char | apply IH
                 | keeps_step ].
Qed.

Lemma keeps_comments_read_regexp_from (fuel : nat) :
  forall prev_backslash in_class regexp,
    keeps Tokenizer.comments_before
      (Tokenizer.read_regexp_from fuel prev_backslash in_class regexp).
Proof.
  induction fuel as [| n IH]; intros prev_backslash in_class regexp;
    cbn [Tokenizer.read_regexp_from];
    repeat first [ apply IH | keeps_step ].
Qed.

Lemma keeps_comments_grow (fuel : nat) :
  forall op, keeps Tokenizer.comments_before (Tokenizer.grow fuel op).
Proof.
  induction fuel as [| n IH]; intros op; cbn [Tokenizer.grow];
    repeat first [ apply IH | keeps_step ].
Qed.

Create HintDb emit.

(** One step through an action that ends in a token. *)
Ltac emit_step :=
  first
    [ solve [ auto with emit nocore ]
    | apply emits_token
    | apply emits_fail; intros ? ? ? ?; discriminate
    | apply emits_with_eof_error
    | apply emits_if
    | apply emits_bind;
      [ first [ apply keeps_comments_read_while
              | apply keeps_comments_read_string_from
              | apply keeps_comments_read_name_from
              | apply keeps_comments_read_regexp_from
              | apply keeps_comments_grow
              | apply keeps_skip_whitespace; apply keeps_next; reflexivity
              | keeps_step ]
      | intros ? ]
    | match goal with
      | |- emits (match ?x with _ => _ end) => destruct x
      end ].

Lemma emits_read_num (fuel : nat) (prefix : option string) :
  emits (Tokenizer.read_num fuel prefix).
Proof. unfold Tokenizer.read_num. repeat emit_step. Qed.

Lemma emits_read_string (fuel : nat) : emits (Tokenizer.read_string fuel).
Proof. unfold Tokenizer.read_string. repeat emit_step. Qed.

Lemma emits_read_regexp (fuel : nat) : emits (Tokenizer.read_regexp fuel).
Proof.
  unfold Tokenizer.read_regexp, Tokenizer.read_name. repeat emit_step.
Qed.

Lemma emits_read_operator (fuel : nat) (prefix : option string) :
  emits (Tokenizer.read_operator fuel prefix).
Proof.
  unfold Tokenizer.read_operator.
  apply emits_bind; [destruct (Tokenizer.truthy_prefix prefix) | intros op ];
    repeat first [ keeps_step | emit_step ].
Qed.

Lemma emits_read_word (fuel : nat) : emits (Tokenizer.read_word fuel).
Proof.
  unfold Tokenizer.read_word, Tokenizer.read_name. repeat emit_step.
Qed.

#[local] Hint Resolve emits_read_num emits_read_string emits_read_regexp
  emits_read_operator emits_read_word : emit.

Lemma emits_handle_dot (fuel : nat) : emits (Tokenizer.handle_dot fuel).
Proof. unfold Tokenizer.handle_dot. repeat emit_step. Qed.

(** After a comment, [handle_slash] has put it at the end of the buffer
    and calls [next_token] back. *)
Lemma emits_after_comment (read_comment : Tokenizer.T Token)
  (flag : bool) (next_token : Tokenizer.T Token) :
  (forall st c st',
     read_comment st = Ok (c, st') ->
     is_comment_token c
     /\ Tokenizer.comments_before st' = Tokenizer.comments_before st) ->
  emits next_token ->
  emits (c <- read_comment ;;
         modify (Tokenizer.push_comment c) ;;
         modify (Tokenizer.set_regex_allowed flag) ;;
         next_token).
Proof.
  intros Hframe Hself st t st' Hrun.
  inv_bind Hrun. destruct (Hframe _ _ _ Hrun0) as (Hcomment & Hcb).
  inv_bind Hrun. injection Hrun1 as _ <-.
  inv_bind Hrun. injection Hrun1 as _ <-.
  destruct (Hself _ _ _ Hrun) as (Hempty & Hnl & cs & Hcs & Hall).
  split; [exact Hempty | split; [exact Hnl | ] ].
  exists (a :: cs). split.
  - rewrite Hcs. simpl. rewrite Hcb, <- app_assoc. reflexivity.
  - constructor; assumption.
Qed.

Lemma emits_handle_slash (fuel : nat) (next_token : Tokenizer.T Token) :
  emits next_token -> emits (Tokenizer.handle_slash fuel next_token).
Proof.
  intros Hself. unfold Tokenizer.handle_slash.
  do 3 emit_step.
  repeat first
    [ apply emits_after_comment;
      [ first [ exact read_line_comment_frame
              | exact read_multiline_comment_frame ]
      | exact Hself ]
    | emit_step ].
Qed.

Lemma emits_next_token_body (fuel : nat)
  (self : bool -> Tokenizer.T Token) (force_regexp : bool) :
  emits (self false) ->
  emits (Tokenizer.next_token_body fuel self force_regexp).
Proof.
  intros Hself. unfold Tokenizer.next_token_body.
  repeat first [ apply emits_handle_slash, Hself
               | apply emits_handle_dot
               | emit_step ].
Qed.

Lemma emits_next_token (fuel : nat) :
  forall force_regexp, emits (Tokenizer.next_token fuel force_regexp).
Proof.
  induction fuel as [| n IH]; intros force_regexp.
  - intros st t st' H. discriminate H.
  - simpl. apply emits_next_token_body. apply IH.
Qed.

(* ------------------------------------------------------------------ *)
(** ** The loops of the tokenizer end *)

Lemma steps_remaining (st st' : Tokenizer.state) :
  steps st st' -> remaining st' <= remaining st.
Proof. intros (Ht & Hp & _). unfold remaining. rewrite Ht. lia. Qed.

Lemma bind_fuelled {A B : Type} (m : Tokenizer.T A)
  (k : A -> Tokenizer.T B) (st : Tokenizer.state) :
  m st <> OutOfFuel ->
  (forall a s1, m st = Ok (a, s1) -> k a s1 <> OutOfFuel) ->
  bind m k st <> OutOfFuel.
Proof.
  intros Hm Hk. unfold bind.
  destruct (m st) as [[a s1] | e | |]; try discriminate.
  - apply Hk. reflexivity.
  - destruct Hm. reflexivity.
Qed.

Lemma fuelled_bind {A B : Type} (fuel : nat) (m : Tokenizer.T A)
  (k : A -> Tokenizer.T B) :
  fuelled fuel m -> advancing m -> (forall a, fuelled fuel (k a)) ->
  fuelled fuel (bind m k).
Proof.
  intros Hm Hadv Hk st Hrem. apply bind_fuelled; [exact (Hm st Hrem) | ].
  intros a s1 Hrun. apply Hk.
  apply Hadv, steps_remaining in Hrun. lia.
Qed.

Lemma fuelled_simple {A : Type} (fuel : nat) (m : Tokenizer.T A) :
  (forall st, m st <> OutOfFuel) -> fuelled fuel m.
Proof. intros H st _. apply H. Qed.

Lemma fuelled_if {A : Type} (fuel : nat) (b : bool)
  (m1 m2 : Tokenizer.T A) :
  fuelled fuel m1 -> fuelled fuel m2 -> fuelled fuel (if b then m1 else m2).
Proof. destruct b; auto. Qed.

Lemma fuelled_with_eof_error {A : Type} (fuel : nat) (eof_error : string)
  (cont : Tokenizer.T A) :
  fuelled fuel cont -> fuelled fuel (Tokenizer.with_eof_error eof_error cont).
Proof.
  intros Hcont st Hrem. specialize (Hcont st Hrem).
  unfold Tokenizer.with_eof_error.
  destruct (cont st) as [[a0 s0] | [| |] | |]; try discriminate.
  exact Hcont.
Qed.

Lemma next_never_out_of_fuel (signal_eof : bool) (st : Tokenizer.state) :
  Tokenizer.next signal_eof st <> OutOfFuel.
Proof.
  unfold Tokenizer.next.
  destruct (signal_eof && _); [discriminate | ].
  destruct (_ =? LF); discriminate.
Qed.

Lemma token_never_out_of_fuel (type : string) (value : token_value)
  (is_comment : bool) (st : Tokenizer.state) :
  Tokenizer.token type value is_comment st <> OutOfFuel.
Proof. unfold Tokenizer.token. destruct is_comment; discriminate. Qed.

Lemma find_never_out_of_fuel (what : string) (signal_eof : bool)
  (st : Tokenizer.state) :
  Tokenizer.find what signal_eof st <> OutOfFuel.
Proof.
  unfold Tokenizer.find.
  destruct (indexOf _ _ _); [ | destruct signal_eof ]; discriminate.
Qed.

(** Reading a character that is there leaves one character less. *)
Lemma next_remaining (signal_eof : bool) (st : Tokenizer.state)
  (ch : string) (st' : Tokenizer.state) :
  is_empty (charAt (Tokenizer.text st) (Tokenizer.pos st)) = false ->
  Tokenizer.next signal_eof st = Ok (ch, st') ->
  S (remaining st') = remaining st.
Proof.
  intros Hch Hrun. apply charAt_lt in Hch. apply next_reads in Hrun.
  destruct Hrun as (_ & Hpos & (Ht & _) & _).
  unfold remaining. rewrite Ht, Hpos. lia.
Qed.

Lemma next_true_remaining (st : Tokenizer.state) (ch : string)
  (st' : Tokenizer.state) :
  Tokenizer.next true st = Ok (ch, st') -> S (remaining st') = remaining st.
Proof.
  intros Hrun. apply (next_remaining true st ch st'); [ | exact Hrun ].
  apply next_reads in Hrun. destruct Hrun as (<- & _ & _ & H). auto.
Qed.

Create HintDb fuel.

#[local] Hint Resolve next_never_out_of_fuel token_never_out_of_fuel
  find_never_out_of_fuel : fuel.

(** One step through an action that has fuel enough. *)
Ltac fuel_step :=
  first
    [ solve [ auto with fuel nocore ]
    | apply fuelled_simple; intros ?;
      first [ solve [ auto with fuel nocore ] | discriminate ]
    | apply fuelled_with_eof_error
    | apply fuelled_if
    | apply fuelled_bind;
      [ | solve [ repeat advance_step ] | intros ? ]
    | match goal with
      | |- fuelled _ (match ?x with _ => _ end) => destruct x
      end ].

Lemma fuelled_skip_whitespace (fuel : nat) :
  fuelled fuel (Tokenizer.skip_whitespace fuel).
Proof.
  induction fuel as [| n IH]; intros st Hrem; [lia | ].
  cbn [Tokenizer.skip_whitespace].
  apply bind_fuelled; [discriminate | intros ch s1 [= <- <-] ].
  destruct (HOP WHITESPACE_CHARS _) eqn:Hws; [ | discriminate ].
  apply bind_fuelled; [apply next_never_out_of_fuel | intros c s1 Hnext ].
  apply IH. apply next_remaining in Hnext; [lia | ].
  destruct (charAt _ _); [discriminate Hws | reflexivity].
Qed.

Lemma fuelled_read_while {F : Type} (fuel : nat)
  (pred : string -> nat -> F -> bool * F) :
  forall f i acc, fuelled fuel (Tokenizer.read_while fuel pred f i acc).
Proof.
  induction fuel as [| n IH]; intros f i acc st Hrem; [lia | ].
  cbn [Tokenizer.read_while].
  apply bind_fuelled; [discriminate | intros ch s1 [= <- <-] ].
  destruct (is_empty _) eqn:Hch; [discriminate | ].
  destruct (pred _ i f) as [ok f']. destruct ok; [ | discriminate ].
  apply bind_fuelled; [apply next_never_out_of_fuel | intros c s1 Hnext ].
  apply IH. apply next_remaining in Hnext; [lia | exact Hch].
Qed.

Lemma fuelled_hex_bytes_from (fuel n : nat) :
  forall num, fuelled fuel (Tokenizer.hex_bytes_from n num).
Proof.
  induction n as [| n' IH]; intros num; cbn [Tokenizer.hex_bytes_from];
    repeat fuel_step.
Qed.

Lemma fuelled_read_escaped_char (fuel : nat) :
  fuelled fuel Tokenizer.read_escaped_char.
Proof.
  unfold Tokenizer.read_escaped_char, Tokenizer.hex_bytes,
    Tokenizer.fromCharCode.
  repeat first [ apply fuelled_hex_bytes_from | fuel_step ].
Qed.

Lemma fuelled_read_string_from (fuel : nat) (quote : string) :
  forall acc, fuelled fuel (Tokenizer.read_string_from fuel quote acc).
Proof.
  induction fuel as [| n IH]; intros acc st Hrem; [lia | ].
  cbn [Tokenizer.read_string_from].
  apply bind_fuelled; [apply next_never_out_of_fuel | intros ch s1 Hnext ].
  apply next_true_remaining in Hnext.
  destruct (ch =? BACKSLASH); [ | destruct (ch =? quote) ].
  - apply bind_fuelled; [apply fuelled_read_escaped_char with (fuel := n); lia
                        | intros c s2 Hesc ].
    apply IH. apply advancing_read_escaped_char, steps_remaining in Hesc.
    lia.
  - discriminate.
  - apply IH. lia.
Qed.

Lemma is_identifier_char_not_empty (ch : string) :
  is_identifier_char ch = true -> is_empty ch = false.
Proof. destruct ch; [discriminate | reflexivity]. Qed.

(** [read_escaped_char] reads at least the character after the
    backslash. *)
Lemma read_escaped_char_remaining (st : Tokenizer.state) (c : string)
  (st' : Tokenizer.state) :
  Tokenizer.read_escaped_char st = Ok (c, st') ->
  remaining st' < remaining st.
Proof.
  unfold Tokenizer.read_escaped_char. intros Hrun. inv_bind Hrun.
  apply next_true_remaining in Hrun0.
  assert (Hrest : steps s st').
  { revert Hrun. generalize st'. generalize c. generalize s.
    change (advancing
      (if a =? "n" then ret LF
       else if a =? "r" then ret CR
       else if a =? "t" then ret TAB
       else if a =? "b" then ret (String (ascii_of_nat 8) "")
       else if a =? "v" then ret (String (ascii_of_nat 11) "")
       else if a =? "f" then ret (String (ascii_of_nat 12) "")
       else if a =? "0" then ret (String (ascii_of_nat 0) "")
       else if a =? "x"
            then n <- Tokenizer.hex_bytes 2 ;; Tokenizer.fromCharCode n
       else if a =? "u"
            then n <- Tokenizer.hex_bytes 4 ;; Tokenizer.fromCharCode n
       else ret a)).
    unfold Tokenizer.hex_bytes, Tokenizer.fromCharCode.
    repeat first [ apply advancing_hex_bytes_from | advance_step ]. }
  apply steps_remaining in Hrest. lia.
Qed.

Lemma fuelled_read_name_from (fuel : nat) :
  forall backslash name,
    fuelled fuel (Tokenizer.read_name_from fuel backslash name).
Proof.
  induction fuel as [| n IH]; intros backslash name st Hrem; [lia | ].
  cbn [Tokenizer.read_name_from].
  apply bind_fuelled; [discriminate | intros ch s1 [= <- <-] ].
  set (ch := charAt (Tokenizer.text st) (Tokenizer.pos st)).
  destruct backslash; cbn [negb].
  - destruct (ch =? "u") eqn:Hu; cbn [negb]; [ | discriminate ].
    apply bind_fuelled;
      [apply fuelled_read_escaped_char with (fuel := S n); exact Hrem
      | intros c s2 Hesc ].
    destruct (is_identifier_char c); cbn [negb]; [ | discriminate ].
    apply IH. apply read_escaped_char_remaining in Hesc. lia.
  - destruct (ch =? BACKSLASH) eqn:Hb.
    + apply bind_fuelled; [apply next_never_out_of_fuel | intros c s1 Hnext ].
      apply IH. apply next_remaining in Hnext; [lia | ].
      apply String.eqb_eq in Hb. fold ch. rewrite Hb. reflexivity.
    + destruct (is_identifier_char ch) eqn:Hid; [ | discriminate ].
      apply bind_fuelled; [apply next_never_out_of_fuel | intros c s1 Hnext ].
      apply IH. apply next_remaining in Hnext; [lia | ].
      exact (is_identifier_char_not_empty _ Hid).
Qed.

Lemma fuelled_read_regexp_from (fuel : nat) :
  forall prev_backslash in_class regexp,
    fuelled fuel
      (Tokenizer.read_regexp_from fuel prev_backslash in_class regexp).
Proof.
  induction fuel as [| n IH]; intros prev_backslash in_class regexp st Hrem;
    [lia | ].
  cbn [Tokenizer.read_regexp_from].
  apply bind_fuelled; [apply next_never_out_of_fuel | intros ch s1 Hnext ].
  apply next_true_remaining in Hnext.
  assert (Hrec : forall b c r,
            Tokenizer.read_regexp_from n b c r s1 <> OutOfFuel)
    by (intros b c r; apply IH; lia).
  destruct prev_backslash; [apply Hrec | ].
  destruct (ch =? "["); [apply Hrec | ].
  destruct ((ch =? "]") && in_class); [apply Hrec | ].
  destruct ((ch =? "/") && negb in_class); [discriminate | ].
  destruct (ch =? BACKSLASH); apply Hrec.
Qed.

Lemma fuelled_grow (fuel : nat) :
  forall op, fuelled fuel (Tokenizer.grow fuel op).
Proof.
  induction fuel as [| n IH]; intros op st Hrem; [lia | ].
  cbn [Tokenizer.grow].
  apply bind_fuelled; [discriminate | intros ch s1 [= <- <-] ].
  destruct (is_empty _) eqn:Hch; [discriminate | ].
  destruct (HOP OPERATORS _); [ | discriminate ].
  apply bind_fuelled; [apply next_never_out_of_fuel | intros c s1 Hnext ].
  apply IH. apply next_remaining in Hnext; [lia | exact Hch].
Qed.

#[local] Hint Resolve fuelled_skip_whitespace fuelled_read_while
  fuelled_read_escaped_char fuelled_read_string_from
  fuelled_read_name_from fuelled_read_regexp_from fuelled_grow : fuel.

Lemma fuelled_read_num (fuel : nat) (prefix : option string) :
  fuelled fuel (Tokenizer.read_num fuel prefix).
Proof. unfold Tokenizer.read_num. repeat fuel_step. Qed.

Lemma fuelled_read_string (fuel : nat) :
  fuelled fuel (Tokenizer.read_string fuel).
Proof. unfold Tokenizer.read_string. repeat fuel_step. Qed.

Lemma fuelled_read_regexp (fuel : nat) :
  fuelled fuel (Tokenizer.read_regexp fuel).
Proof.
  unfold Tokenizer.read_regexp, Tokenizer.read_name. repeat fuel_step.
Qed.

Lemma fuelled_read_operator (fuel : nat) (prefix : option string) :
  fuelled fuel (Tokenizer.read_operator fuel prefix).
Proof. unfold Tokenizer.read_operator. repeat fuel_step. Qed.

Lemma fuelled_read_word (fuel : nat) :
  fuelled fuel (Tokenizer.read_word fuel).
Proof.
  unfold Tokenizer.read_word, Tokenizer.read_name. repeat fuel_step.
Qed.

#[local] Hint Resolve fuelled_read_num fuelled_read_string
  fuelled_read_regexp fuelled_read_operator fuelled_read_word : fuel.

Lemma fuelled_handle_dot (fuel : nat) :
  fuelled fuel (Tokenizer.handle_dot fuel).
Proof. unfold Tokenizer.handle_dot. repeat fuel_step. Qed.

Lemma fuelled_read_line_comment (fuel : nat) :
  fuelled fuel Tokenizer.read_line_comment.
Proof.
  intros st _. unfold Tokenizer.read_line_comment.
  apply bind_fuelled; [apply next_never_out_of_fuel | intros ch s1 _ ].
  apply bind_fuelled; [apply find_never_out_of_fuel | intros i s2 _ ].
  apply bind_fuelled; [discriminate | intros s3 s4 _ ].
  destruct i; (apply bind_fuelled; [discriminate | intros [] s5 _ ]);
    apply token_never_out_of_fuel.
Qed.

Lemma fuelled_read_multiline_comment (fuel : nat) :
  fuelled fuel Tokenizer.read_multiline_comment.
Proof.
  intros st _. unfold Tokenizer.read_multiline_comment.
  apply bind_fuelled; [apply next_never_out_of_fuel | intros ch s1 _ ].
  unfold Tokenizer.with_eof_error.
  match goal with
  | |- match ?m s1 with _ => _ end <> _ =>
      assert (Hc : m s1 <> OutOfFuel);
      [ | destruct (m s1) as [[c0 s0] | [| |] | |]; try discriminate;
          exact Hc ]
  end.
  apply bind_fuelled; [apply find_never_out_of_fuel | intros i s2 _ ].
  destruct i; [ | discriminate ].
  apply bind_fuelled; [discriminate | intros s3 s4 _ ].
  apply bind_fuelled; [apply token_never_out_of_fuel | intros tok s5 _ ].
  discriminate.
Qed.

(** [handle_slash] at a [/]: it has fuel enough when the function it calls
    back has, two characters further on. *)
Lemma fuelled_handle_slash (fuel : nat) (next_token : Tokenizer.T Token)
  (st : Tokenizer.state) :
  is_empty (charAt (Tokenizer.text st) (Tokenizer.pos st)) = false ->
  remaining st < fuel ->
  (forall s4, remaining s4 + 2 <= remaining st ->
              next_token s4 <> OutOfFuel) ->
  Tokenizer.handle_slash fuel next_token st <> OutOfFuel.
Proof.
  intros Hch Hrem Hself. unfold Tokenizer.handle_slash.
  apply bind_fuelled; [apply next_never_out_of_fuel | intros c s1 Hnext ].
  apply next_remaining in Hnext; [ | exact Hch ].
  apply bind_fuelled; [discriminate | intros allowed s1' [= <- <-] ].
  apply bind_fuelled; [discriminate | intros ch s1' [= <- <-] ].
  destruct (charAt (Tokenizer.text s1) (Tokenizer.pos s1) =? "/") eqn:Hs;
    [ | destruct (charAt (Tokenizer.text s1) (Tokenizer.pos s1) =? "*")
          eqn:Hstar ].
  - apply String.eqb_eq in Hs. rename Hs into Hhere.
    apply bind_fuelled;
      [apply (fuelled_read_line_comment fuel); lia | intros cm s2 Hc ].
    apply read_line_comment_steps in Hc;
      [ | rewrite Hhere; reflexivity ].
    apply bind_fuelled; [discriminate | intros [] s3 [= <-] ].
    apply bind_fuelled; [discriminate | intros [] s4 [= <-] ].
    apply Hself. destruct Hc as ((Ht & _) & Hlt).
    assert (Hin : Tokenizer.pos s1 < String.length (Tokenizer.text s1))
      by (apply charAt_lt; rewrite Hhere; reflexivity).
    unfold remaining in *. simpl. rewrite Ht. lia.
  - apply String.eqb_eq in Hstar. rename Hstar into Hhere.
    apply bind_fuelled;
      [apply (fuelled_read_multiline_comment fuel); lia | intros cm s2 Hc ].
    apply consuming_read_multiline_comment in Hc.
    apply bind_fuelled; [discriminate | intros [] s3 [= <-] ].
    apply bind_fuelled; [discriminate | intros [] s4 [= <-] ].
    apply Hself. destruct Hc as ((Ht & _) & Hlt).
    assert (Hin : Tokenizer.pos s1 < String.length (Tokenizer.text s1))
      by (apply charAt_lt; rewrite Hhere; reflexivity).
    unfold remaining in *. simpl. rewrite Ht. lia.
  - apply bind_fuelled; [discriminate | intros a s1' [= <- <-] ].
    destruct (Tokenizer.regex_allowed s1).
    + apply fuelled_read_regexp. lia.
    + apply fuelled_read_operator. lia.
Qed.

Lemma fuelled_dispatch (fuel : nat) (self : bool -> Tokenizer.T Token)
  (s2 : Tokenizer.state) :
  remaining s2 < fuel ->
  (forall s4, remaining s4 + 2 <= remaining s2 ->
              self false s4 <> OutOfFuel) ->
  dispatch fuel self (charAt (Tokenizer.text s2) (Tokenizer.pos s2)) s2
  <> OutOfFuel.
Proof.
  intros Hrem Hself. unfold dispatch.
  set (ch := charAt (Tokenizer.text s2) (Tokenizer.pos s2)).
  destruct (is_empty ch) eqn:Hempty; [apply token_never_out_of_fuel | ].
  destruct (is_digit ch); [apply fuelled_read_num; exact Hrem | ].
  destruct ((ch =? DQUOTE) || (ch =? SQUOTE));
    [apply fuelled_read_string; exact Hrem | ].
  destruct (HOP PUNC_CHARS ch).
  { apply bind_fuelled; [apply next_never_out_of_fuel | intros c s1 _ ].
    apply token_never_out_of_fuel. }
  destruct (ch =? "."); [apply fuelled_handle_dot; exact Hrem | ].
  destruct (ch =? "/");
    [apply fuelled_handle_slash; [exact Hempty | exact Hrem | exact Hself] | ].
  destruct (HOP OPERATOR_CHARS ch);
    [apply fuelled_read_operator; exact Hrem | ].
  destruct ((ch =? BACKSLASH) || is_identifier_start ch);
    [apply fuelled_read_word; exact Hrem | ].
  discriminate.
Qed.

(** With two units of fuel more than characters left, [next_token] does
    not run out of fuel. *)
Lemma next_token_fuelled (fuel : nat) :
  forall force_regexp st,
    remaining st + 1 < fuel ->
    Tokenizer.next_token fuel force_regexp st <> OutOfFuel.
Proof.
  induction fuel as [| n IH]; intros force_regexp st Hrem; [lia | ].
  cbn [Tokenizer.next_token]. destruct force_regexp.
  - unfold Tokenizer.next_token_body. apply fuelled_read_regexp. lia.
  - intros Hout. apply next_token_body_inv in Hout.
    assert (Hws := fuelled_skip_whitespace n st).
    destruct (Tokenizer.skip_whitespace n st) as [[[] s1] | e | |] eqn:Hrun;
      try discriminate; [ | apply Hws; [lia | reflexivity] ].
    apply advancing_skip_whitespace, steps_remaining in Hrun.
    revert Hout.
    change (charAt (Tokenizer.text s1) (Tokenizer.pos s1))
      with (charAt (Tokenizer.text (token_started s1))
                   (Tokenizer.pos (token_started s1))).
    apply fuelled_dispatch.
    + change (remaining (token_started s1)) with (remaining s1). lia.
    + intros s4 H4. apply IH.
      change (remaining (token_started s1)) with (remaining s1) in H4. lia.
Qed.

(* ------------------------------------------------------------------ *)
(** ** The tokenizer: progress, positions and the shape of tokens *)

(** X2. A call of [next_token] that returns has left the text as it was;
    the token is [eof] and no character is left to read, or it is another
    token and the position has moved on. *)
Theorem X2_next_token_progress (fuel : nat) (force_regexp : bool)
  (st : Tokenizer.state) (t : Token) (st' : Tokenizer.state) :
  Tokenizer.next_token fuel force_regexp st = Ok (t, st') ->
  Tokenizer.text st' = Tokenizer.text st
  /\ ((tok_type t = "eof"
       /\ String.length (Tokenizer.text st) <= Tokenizer.pos st')
      \/ (tok_type t <> "eof" /\ Tokenizer.pos st < Tokenizer.pos st')).
Proof.
  intros Hrun.
  destruct (advancing_next_token _ _ _ _ _ Hrun) as (Htext & _).
  split; [exact Htext | ].
  destruct (scans_next_token _ _ _ _ _ Hrun) as (_ & [(Heof & Hrem) | Hnot]).
  - left. split; [exact Heof | ]. unfold remaining in Hrem.
    rewrite Htext in Hrem. lia.
  - right. exact Hnot.
Qed.

Lemma X2_witness :
  exists t st',
    Tokenizer.next_token 12 false after_equals = Ok (t, st')
    /\ Tokenizer.text st' = Tokenizer.text after_equals
    /\ ((tok_type t = "eof"
         /\ String.length (Tokenizer.text after_equals) <= Tokenizer.pos st')
        \/ (tok_type t <> "eof"
            /\ Tokenizer.pos after_equals < Tokenizer.pos st')).
Proof.
  eexists. eexists. split; [vm_compute; reflexivity | ].
  apply (X2_next_token_progress 12 false after_equals).
  vm_compute. reflexivity.
Defined.

(** X3. The line counter is exact: when [next_token] returns, [line] has
    grown by the number of line feeds between the old and the new
    position, those inside comments included. *)
Theorem X3_line_counter (fuel : nat) (force_regexp : bool)
  (st : Tokenizer.state) (t : Token) (st' : Tokenizer.state) :
  Tokenizer.next_token fuel force_regexp st = Ok (t, st') ->
  Tokenizer.pos st <= Tokenizer.pos st'
  /\ Tokenizer.line st' =
     Tokenizer.line st
     + count_LF (substring_js (Tokenizer.text st) (Tokenizer.pos st)
                   (Tokenizer.pos st')).
Proof.
  intros Hrun.
  destruct (advancing_next_token _ _ _ _ _ Hrun) as (_ & Hpos & Hline).
  split; assumption.
Qed.

Lemma X3_witness :
  exists t st',
    Tokenizer.next_token 12 false after_equals = Ok (t, st')
    /\ Tokenizer.pos after_equals <= Tokenizer.pos st'
    /\ Tokenizer.line st' =
       Tokenizer.line after_equals
       + count_LF (substring_js (Tokenizer.text after_equals)
                     (Tokenizer.pos after_equals) (Tokenizer.pos st')).
Proof.
  eexists. eexists. split; [vm_compute; reflexivity | ].
  eapply (X3_line_counter 12 false after_equals).
  vm_compute. reflexivity.
Defined.

Lemma token_shape_type (t : Token) :
  token_shape t ->
  In (tok_type t)
     ["eof"; "num"; "string"; "regexp"; "punc"; "operator"; "keyword";
      "name"].
Proof.
  unfold token_shape.
  destruct (tok_value t) as [| s | n | body mods].
  - intros ->. simpl. tauto.
  - intros [-> | [(-> & _) | [(-> & _) | [(-> & _) | (-> & _)]]]];
      simpl; tauto.
  - intros ->. simpl. tauto.
  - intros ->. simpl. tauto.
Qed.

(** X4. A token that [next_token] returns is well formed: its type is one
    of eof, num, string, regexp, punc, operator, keyword and name -- never
    atom, and never a comment -- and goes with its value: an operator is a
    key of [OPERATORS], a keyword a key of [KEYWORDS] that is no operator,
    a name no key of [KEYWORDS], a punctuation a key of [PUNC_CHARS] or
    the dot. *)
Theorem X4_token_shape (fuel : nat) (force_regexp : bool)
  (st : Tokenizer.state) (t : Token) (st' : Tokenizer.state) :
  Tokenizer.next_token fuel force_regexp st = Ok (t, st') ->
  token_shape t
  /\ In (tok_type t)
        ["eof"; "num"; "string"; "regexp"; "punc"; "operator"; "keyword";
         "name"].
Proof.
  intros Hrun.
  destruct (scans_next_token _ _ _ _ _ Hrun) as (Hshape & _).
  split; [exact Hshape | exact (token_shape_type t Hshape)].
Qed.

Lemma X4_witness :
  exists t st',
    Tokenizer.next_token 12 false after_equals = Ok (t, st')
    /\ token_shape t
    /\ In (tok_type t)
          ["eof"; "num"; "string"; "regexp"; "punc"; "operator"; "keyword";
           "name"].
Proof.
  eexists. eexists. split; [vm_compute; reflexivity | ].
  eapply (X4_token_shape 12 false after_equals).
  vm_compute. reflexivity.
Defined.

Lemma charAt_past_end (s : string) (n : nat) :
  String.length s <= n -> charAt s n = "".
Proof.
  unfold charAt. revert n. induction s as [| c rest IH]; intros n; simpl.
  - destruct n; reflexivity.
  - destruct n as [| n']; [lia | ]. intros H. apply IH. lia.
Qed.

(** With nothing left to read, the token is [eof]. *)
Lemma next_token_at_end (fuel : nat) (st : Tokenizer.state) (t : Token)
  (st' : Tokenizer.state) :
  remaining st = 0 ->
  Tokenizer.next_token fuel false st = Ok (t, st') ->
  tok_type t = "eof".
Proof.
  intros Hrem. destruct fuel as [| n]; [discriminate | ].
  cbn [Tokenizer.next_token]. intros Hrun.
  assert (Hch : charAt (Tokenizer.text st) (Tokenizer.pos st) = "")
    by (apply charAt_past_end; unfold remaining in Hrem; lia).
  apply next_token_body_inv in Hrun.
  destruct n as [| n']; [discriminate Hrun | ].
  cbn [Tokenizer.skip_whitespace] in Hrun.
  unfold bind at 1, Tokenizer.peek at 1, gets at 1 in Hrun.
  rewrite Hch in Hrun.
  change (HOP WHITESPACE_CHARS "") with false in Hrun.
  cbv beta iota in Hrun. unfold ret in Hrun. rewrite Hch in Hrun.
  unfold dispatch in Hrun. change (is_empty "") with true in Hrun.
  cbv iota in Hrun.
  unfold Tokenizer.token in Hrun. injection Hrun as <- _. reflexivity.
Qed.

Lemma tokens_fuelled (fuel : nat) :
  forall st, remaining st + 1 < fuel -> tokens fuel st <> OutOfFuel.
Proof.
  induction fuel as [| n IH]; intros st Hrem; [lia | ].
  cbn [tokens].
  assert (Hnext := next_token_fuelled (S n) false st Hrem).
  destruct (Tokenizer.next_token (S n) false st) as [[t st'] | e | |] eqn:Hrun;
    try discriminate; [ | destruct Hnext; reflexivity ].
  destruct (tok_type t =? "eof") eqn:Heof; [discriminate | ].
  assert (Hlt : remaining st' + 1 < n).
  { destruct (scans_next_token _ _ _ _ _ Hrun)
      as (_ & [(Ht & _) | (_ & Hpos)]).
    - rewrite Ht in Heof. discriminate Heof.
    - destruct (advancing_next_token _ _ _ _ _ Hrun) as (Htext & _).
      destruct (remaining st) as [| r] eqn:Hr.
      + rewrite (next_token_at_end _ _ _ _ Hr Hrun) in Heof.
        discriminate Heof.
      + unfold remaining in *. rewrite Htext. lia. }
  specialize (IH st' Hlt).
  destruct (tokens n st') as [ts | e | |]; try discriminate.
  exact IH.
Qed.



(** X7. Operators are read greedily: the operator that [read_operator]
    returns -- started from the [/] that [handle_slash] passes, or from a
    character of [OPERATOR_CHARS] -- is a key of [OPERATORS], and with the
    character that follows it in the text it is not one. *)
Theorem X7_operator_longest (fuel : nat) (prefix : option string)
  (st : Tokenizer.state) (t : Token) (st' : Tokenizer.state) :
  prefix = Some "/"
  \/ (prefix = None
      /\ HOP OPERATOR_CHARS (charAt (Tokenizer.text st) (Tokenizer.pos st))
         = true) ->
  Tokenizer.read_operator fuel prefix st = Ok (t, st') ->
  exists op,
    tok_type t = "operator" /\ tok_value t = VStr op
    /\ HOP OPERATORS op = true
    /\ (is_empty (charAt (Tokenizer.text st') (Tokenizer.pos st')) = true
        \/ HOP OPERATORS
             (op ++ charAt (Tokenizer.text st') (Tokenizer.pos st'))
           = false).
Proof.
  intros Hstart. unfold Tokenizer.read_operator. intros Hrun.
  inv_bind Hrun. inv_bind Hrun.
  unfold Tokenizer.token in Hrun. injection Hrun as <- <-. simpl.
  exists a0. split; [reflexivity | split; [reflexivity | ] ].
  destruct Hstart as [-> | (-> & Hch)].
  - change (Tokenizer.truthy_prefix (Some "/")) with true in Hrun0.
    injection Hrun0 as <- <-.
    exact (grow_operator _ "/" _ _ _ eq_refl Hrun1).
  - change (Tokenizer.truthy_prefix None) with false in Hrun0.
    apply next_reads in Hrun0. destruct Hrun0 as (-> & _).
    exact (grow_operator _ _ _ _ _ (operator_char _ Hch) Hrun1).
Qed.

Lemma X7_witness :
  exists t st' op,
    Tokenizer.read_operator 5 None (Tokenizer.tokenizer ">>>=1") = Ok (t, st')
    /\ op = ">>>="
    /\ tok_type t = "operator" /\ tok_value t = VStr op
    /\ HOP OPERATORS op = true
    /\ (is_empty (charAt (Tokenizer.text st') (Tokenizer.pos st')) = true
        \/ HOP OPERATORS
             (op ++ charAt (Tokenizer.text st') (Tokenizer.pos st'))
           = false).
Proof.
  destruct (X7_operator_longest 5 None (Tokenizer.tokenizer ">>>=1")
              (mkToken "operator" (VStr ">>>=") 0 0 0 false (Some []))
              (Tokenizer.mkS ">>>=1" 4 0 0 0 4 0 false true []))
    as (op & Ht & Hv & Hop & Hnext).
  - right. split; reflexivity.
  - vm_compute. reflexivity.
  - eexists. eexists. exists op.
    split; [vm_compute; reflexivity | ].
    injection Hv as <-. repeat split; auto.
Defined.

(* ------------------------------------------------------------------ *)
(** ** Line endings *)

Lemma normalize_step (c : ascii) (rest : string) :
  Tokenizer.normalize (String c rest) =
  if Ascii.eqb c CR_char then
    match rest with
    | String c' rest' =>
        if Ascii.eqb c' LF_char
        then String LF_char (Tokenizer.normalize rest')
        else String LF_char (Tokenizer.normalize rest)
    | "" => String LF_char ""
    end
  else String c (Tokenizer.normalize rest).
Proof. reflexivity. Qed.

(** What [normalize] does to a text and to the text after its first
    character. *)
Lemma normalize_facts (n : nat) :
  forall s,
    String.length s <= n ->
    has_char CR_char (Tokenizer.normalize s) = false
    /\ String.length (Tokenizer.normalize s) <= String.length s
    /\ (has_char CR_char s = false -> Tokenizer.normalize s = s).
Proof.
  induction n as [| n IH]; intros s Hlen.
  - destruct s; [simpl; auto | simpl in Hlen; lia].
  - destruct s as [| c rest]; [simpl; auto | ].
    simpl in Hlen. rewrite normalize_step.
    destruct (IH rest ltac:(lia)) as (Hno & Hle & Hid).
    destruct (Ascii.eqb c CR_char) eqn:Hc.
    + apply Ascii.eqb_eq in Hc. subst c.
      destruct rest as [| c' rest'].
      * simpl. split; [reflexivity | split; [lia | discriminate] ].
      * destruct (Ascii.eqb c' LF_char) eqn:Hc'.
        -- destruct (IH rest' ltac:(simpl in Hlen; lia)) as (Hno' & Hle' & _).
           cbn [has_char String.length]. rewrite Hno'.
           split; [reflexivity | split; [lia | discriminate] ].
        -- cbn [has_char String.length]. rewrite Hno.
           split; [reflexivity | split; [cbn [String.length] in Hle; lia | discriminate] ].
    + cbn [has_char String.length]. rewrite Ascii.eqb_sym, Hc, Hno.
      split; [reflexivity | split; [lia | ] ].
      rewrite orb_false_l. intros H. rewrite (Hid H). reflexivity.
Qed.

Lemma ends_with_tail (c x : ascii) (s : string) :
  ends_with c s = true -> ends_with c (String x s) = true.
Proof. destruct s as [| y s']; [discriminate | intros H; exact H]. Qed.

(** The replacement works on the two parts of a text one by one, unless
    the cut is between a carriage return and its line feed. *)
Lemma normalize_append (n : nat) :
  forall a b,
    String.length a <= n ->
    ends_with CR_char a && starts_with LF_char b = false ->
    Tokenizer.normalize (a ++ b)
    = Tokenizer.normalize a ++ Tokenizer.normalize b.
Proof.
  induction n as [| n IH]; intros a b Hlen Hcut.
  - destruct a; [reflexivity | simpl in Hlen; lia].
  - destruct a as [| c rest]; [reflexivity | ].
    cbn [String.length] in Hlen.
    assert (Hrest : ends_with CR_char rest && starts_with LF_char b = false).
    { destruct (ends_with CR_char rest) eqn:Hends; [ | reflexivity].
      rewrite (ends_with_tail _ c _ Hends) in Hcut. exact Hcut. }
    change (String c rest ++ b) with (String c (rest ++ b)).
    rewrite !normalize_step.
    destruct (Ascii.eqb c CR_char) eqn:Hc.
    + destruct rest as [| c' rest'].
      * apply Ascii.eqb_eq in Hc. subst c. cbn [ends_with] in Hcut.
        rewrite Ascii.eqb_refl in Hcut. cbn [andb] in Hcut.
        change ("" ++ b) with b.
        destruct b as [| c' b']; [reflexivity | ].
        cbn [starts_with] in Hcut. rewrite Hcut. reflexivity.
      * change (String c' rest' ++ b) with (String c' (rest' ++ b)).
        destruct (Ascii.eqb c' LF_char) eqn:Hc'.
        -- cbn [String.length] in Hlen.
           rewrite (IH rest' b ltac:(lia)); [rewrite ?Hc'; reflexivity | ].
           destruct (ends_with CR_char rest') eqn:Hends; [ | reflexivity].
           rewrite (ends_with_tail _ c' _ Hends) in Hrest. exact Hrest.
        -- change (String c' (rest' ++ b)) with (String c' rest' ++ b).
           rewrite (IH (String c' rest') b ltac:(lia) Hrest).
           rewrite ?Hc'. reflexivity.
    + rewrite (IH rest b ltac:(lia) Hrest). reflexivity.
Qed.

(** X1. The text the tokenizer works on, for a text of characters below
    U+0100 (the line separators U+2028 and U+2029 and a leading U+FEFF,
    which the source replaces as well, are not among them): a carriage
    return with the line feed after it has become one line feed, a
    carriage return with no line feed after it has become a line feed,
    any other character is kept, a line feed unless it comes after a
    carriage return, and the empty text is empty.  No carriage return is
    left. *)
Theorem X1_normalize_line_endings (a b : string) (c : ascii) :
  let text := fun TEXT => Tokenizer.text (Tokenizer.tokenizer TEXT) in
  text (a ++ CR ++ LF ++ b) = text a ++ LF ++ text b
  /\ (starts_with LF_char b = false ->
      text (a ++ CR ++ b) = text a ++ LF ++ text b)
  /\ (c <> CR_char ->
      (c = LF_char -> ends_with CR_char a = false) ->
      text (a ++ String c b) = text a ++ String c (text b))
  /\ text "" = ""
  /\ has_char CR_char (text a) = false.
Proof.
  cbv zeta. cbn [Tokenizer.tokenizer Tokenizer.text].
  split; [ | split; [ | split; [ | split; [reflexivity | ] ] ] ].
  - rewrite (normalize_append _ a _ (le_n _)).
    + reflexivity.
    + apply andb_false_r.
  - intros Hb. rewrite (normalize_append _ a _ (le_n _)).
    + f_equal. change (CR ++ b) with (String CR_char b).
      rewrite normalize_step, Ascii.eqb_refl.
      destruct b as [| c' b']; [reflexivity | ].
      cbn [starts_with] in Hb. rewrite Hb. reflexivity.
    + apply andb_false_r.
  - intros Hcr Hlf. rewrite (normalize_append _ a _ (le_n _)).
    + f_equal. rewrite normalize_step.
      destruct (Ascii.eqb c CR_char) eqn:Hc; [ | reflexivity].
      apply Ascii.eqb_eq in Hc. contradiction.
    + cbn [starts_with]. destruct (Ascii.eqb c LF_char) eqn:Hc.
      * apply Ascii.eqb_eq in Hc. rewrite (Hlf Hc). reflexivity.
      * apply andb_false_r.
  - destruct (normalize_facts _ a (le_n _)) as (Hno & _). exact Hno.
Qed.

Lemma X1_witness :
  Tokenizer.text (Tokenizer.tokenizer ("a" ++ CR ++ LF ++ "b" ++ CR ++ "c"))
  = "a" ++ LF ++ "b" ++ LF ++ "c"
  /\ Tokenizer.text (Tokenizer.tokenizer ("a" ++ LF ++ "b"))
     = "a" ++ LF ++ "b".
Proof.
  destruct (X1_normalize_line_endings "a" ("b" ++ CR ++ "c") LF_char)
    as (Hpair & _).
  destruct (X1_normalize_line_endings "a" "b" LF_char) as (_ & _ & Hkept & _).
  split.
  - rewrite Hpair. reflexivity.
  - apply Hkept; [discriminate | reflexivity].
Defined.

(* ------------------------------------------------------------------ *)
(** ** Reading the text character by character *)

Lemma length_append (s1 s2 : string) :
  String.length (s1 ++ s2) = String.length s1 + String.length s2.
Proof. induction s1 as [| c rest IH]; simpl; [ | rewrite IH ]; reflexivity. Qed.

Lemma get_append_here (pre s : string) :
  String.get (String.length pre) (pre ++ s) = String.get 0 s.
Proof.
  rewrite (append_correct2 pre s 0). reflexivity.
Qed.

Lemma peek_at (st : Tokenizer.state) (pre : string) (c : ascii)
  (rest : string) :
  stands_at st pre (String c rest) ->
  charAt (Tokenizer.text st) (Tokenizer.pos st) = String c "".
Proof.
  intros (Ht & Hp). unfold charAt. rewrite Ht, Hp, get_append_here.
  reflexivity.
Qed.

Lemma peek_at_end (st : Tokenizer.state) (pre : string) :
  stands_at st pre "" ->
  charAt (Tokenizer.text st) (Tokenizer.pos st) = "".
Proof.
  intros (Ht & Hp). unfold charAt. rewrite Ht, Hp, get_append_here.
  reflexivity.
Qed.

Lemma stands_at_started (st : Tokenizer.state) (pre s : string) :
  stands_at st pre s -> stands_at (token_started st) pre s.
Proof. intros H. exact H. Qed.

(** [next], in front of a character, returns it and stands behind it; the
    start of the token, the comments and [regex_allowed] are as before. *)
Lemma next_at (signal_eof : bool) (st : Tokenizer.state) (pre : string)
  (c : ascii) (rest : string) :
  stands_at st pre (String c rest) ->
  exists st',
    Tokenizer.next signal_eof st = Ok (String c "", st')
    /\ stands_at st' (pre ++ String c "") rest
    /\ token_start st' = token_start st
    /\ Tokenizer.comments_before st' = Tokenizer.comments_before st
    /\ Tokenizer.regex_allowed st' = Tokenizer.regex_allowed st.
Proof.
  intros Hat. assert (Hch := peek_at _ _ _ _ Hat). destruct Hat as (Ht & Hp).
  assert (Hstand : forall st',
            Tokenizer.text st' = Tokenizer.text st ->
            Tokenizer.pos st' = S (Tokenizer.pos st) ->
            stands_at st' (pre ++ String c "") rest).
  { intros st' Ht' Hp'. split.
    - rewrite Ht', Ht, append_assoc. reflexivity.
    - rewrite Hp', Hp, length_append. simpl. lia. }
  unfold Tokenizer.next. rewrite Hch.
  change (is_empty (String c "")) with false. rewrite andb_false_r.
  destruct (String c "" =? LF); eexists;
    (split; [reflexivity | split; [apply Hstand; reflexivity | ] ]);
    repeat split; reflexivity.
Qed.

(* ------------------------------------------------------------------ *)
(** ** String literals *)

Lemma has_char_cons (c c' : ascii) (rest : string) :
  has_char c (String c' rest) = false ->
  (String c' "" =? String c "") = false /\ has_char c rest = false.
Proof.
  cbn [has_char]. rewrite orb_false_iff. intros (Hc & Hrest).
  split; [ | exact Hrest].
  apply String.eqb_neq. intros [= ->]. rewrite Ascii.eqb_refl in Hc.
  discriminate Hc.
Qed.

(** [read_string]'s loop over characters that are neither the quote nor
    a backslash: it appends them and goes on behind them. *)
Lemma read_string_from_plain (q : ascii) (s : string) :
  forall k acc pre rest st,
    has_char q s = false -> has_char BACKSLASH_char s = false ->
    stands_at st pre (s ++ rest) ->
    exists st',
      Tokenizer.read_string_from (String.length s + k) (String q "") acc st
      = Tokenizer.read_string_from k (String q "") (acc ++ s) st'
      /\ stands_at st' (pre ++ s) rest
      /\ token_start st' = token_start st
      /\ Tokenizer.comments_before st' = Tokenizer.comments_before st.
Proof.
  induction s as [| c s' IH]; intros k acc pre rest st Hq Hb Hat.
  - exists st. rewrite !append_nil_r. auto.
  - apply has_char_cons in Hq, Hb. destruct Hq as (Hq & Hq').
    destruct Hb as (Hb & Hb').
    destruct (next_at true st pre c (s' ++ rest) Hat)
      as (s1 & Hnext & Hat1 & Hstart1 & Hcb1 & _).
    destruct (IH k (acc ++ String c "") (pre ++ String c "") rest s1
                Hq' Hb' Hat1) as (st' & Hrun & Hat' & Hstart' & Hcb').
    exists st'. split; [ | split; [ | split ] ].
    + cbn [String.length Nat.add Tokenizer.read_string_from].
      run_with Hnext.
      change BACKSLASH with (String BACKSLASH_char "").
      rewrite Hb, Hq. rewrite Hrun, append_assoc. reflexivity.
    + rewrite append_assoc in Hat'. exact Hat'.
    + congruence.
    + congruence.
Qed.

Lemma skip_whitespace_stays (n : nat) (st : Tokenizer.state) :
  HOP WHITESPACE_CHARS (charAt (Tokenizer.text st) (Tokenizer.pos st))
  = false ->
  Tokenizer.skip_whitespace (S n) st = Ok (tt, st).
Proof.
  intros Hws. cbn [Tokenizer.skip_whitespace].
  unfold bind, Tokenizer.peek, gets. rewrite Hws. reflexivity.
Qed.

(** In front of a character that is no white space, [next_token] goes by
    that character. *)
Lemma next_token_body_dispatch (n : nat) (self : bool -> Tokenizer.T Token)
  (st : Tokenizer.state) :
  HOP WHITESPACE_CHARS (charAt (Tokenizer.text st) (Tokenizer.pos st))
  = false ->
  Tokenizer.next_token_body (S n) self false st
  = dispatch (S n) self (charAt (Tokenizer.text st) (Tokenizer.pos st))
      (token_started st).
Proof.
  intros Hws.
  assert (Hinv := next_token_body_inv (S n) self st _ eq_refl).
  rewrite (skip_whitespace_stays n st Hws) in Hinv.
  symmetry. exact Hinv.
Qed.

Lemma quote_scanned (q : ascii) (fuel : nat) (st : Tokenizer.state)
  (pre rest : string) :
  q = DQUOTE_char \/ q = SQUOTE_char ->
  stands_at st pre (String q rest) ->
  forall self,
    Tokenizer.next_token_body (S fuel) self false st
    = Tokenizer.read_string (S fuel) (token_started st).
Proof.
  intros Hq Hat self. assert (Hch := peek_at _ _ _ _ Hat).
  rewrite next_token_body_dispatch;
    rewrite Hch; destruct Hq as [-> | ->]; reflexivity.
Qed.

(** X8. A string literal without backslash is read back as it stands:
    in front of a quote, characters [s] that hold neither that quote nor a
    backslash, and the same quote again, [next_token] returns the [string]
    token of value [s] -- whatever else [s] holds, a line feed included --
    and stands behind the closing quote. *)
Theorem X8_string_literal (q : ascii) (s pre post : string) (fuel : nat)
  (st : Tokenizer.state) :
  q = DQUOTE_char \/ q = SQUOTE_char ->
  has_char q s = false -> has_char BACKSLASH_char s = false ->
  stands_at st pre (String q (s ++ String q post)) ->
  String.length s + 2 < fuel ->
  exists t st',
    Tokenizer.next_token fuel false st = Ok (t, st')
    /\ tok_type t = "string" /\ tok_value t = VStr s
    /\ stands_at st' (pre ++ String q (s ++ String q "")) post.
Proof.
  intros Hquote Hq Hb Hat Hfuel.
  destruct fuel as [| [| n]]; [lia | lia | ].
  cbn [Tokenizer.next_token].
  rewrite (quote_scanned q n st pre _ Hquote Hat).
  apply stands_at_started in Hat.
  destruct (next_at false _ pre q _ Hat) as (s1 & Hnext & Hat1 & _).
  replace (S n) with (String.length s + (S n - String.length s)) by lia.
  destruct (read_string_from_plain q s (S n - String.length s) ""
              (pre ++ String q "") (String q post) s1 Hq Hb Hat1)
    as (s2 & Hrun & Hat2 & _).
  destruct (next_at true s2 _ q post Hat2) as (s3 & Hnext3 & Hat3 & _).
  destruct (token_flag "string" (VStr s) false s3)
    as (t & st' & Htok & Htype & Hvalue & _).
  exists t, st'. split; [ | split; [exact Htype | split; [exact Hvalue | ] ] ].
  - unfold Tokenizer.read_string, Tokenizer.with_eof_error.
    run_with Hnext. unfold bind at 1. rewrite Hrun.
    replace (S n - String.length s) with (S (n - String.length s)) by lia.
    cbn [Tokenizer.read_string_from]. run_with Hnext3.
    change BACKSLASH with (String BACKSLASH_char "").
    assert (Hnb : (String q "" =? String BACKSLASH_char "") = false)
      by (destruct Hquote as [-> | ->]; reflexivity).
    rewrite Hnb, String.eqb_refl. unfold ret.
    change ("" ++ s) with s. rewrite Htok. reflexivity.
  - unfold Tokenizer.token in Htok. injection Htok as _ <-.
    destruct Hat3 as (Ht3 & Hp3). split.
    + simpl. rewrite Ht3. rewrite !append_assoc. simpl.
      rewrite !append_assoc. reflexivity.
    + simpl. rewrite Hp3. rewrite !length_append. simpl.
      rewrite !length_append. simpl. lia.
Qed.

Lemma X8_witness :
  exists t st',
    Tokenizer.next_token 8 false
      (Tokenizer.mkS ("x='a" ++ LF ++ "b';") 2 1 0 0 2 1 false true [])
    = Ok (t, st')
    /\ tok_type t = "string" /\ tok_value t = VStr ("a" ++ LF ++ "b")
    /\ stands_at st' ("x=" ++ String SQUOTE_char
                        (("a" ++ LF ++ "b") ++ String SQUOTE_char "")) ";".
Proof.
  apply (X8_string_literal SQUOTE_char ("a" ++ LF ++ "b") "x=" ";" 8).
  - right. reflexivity.
  - reflexivity.
  - reflexivity.
  - split; reflexivity.
  - simpl. lia.
Defined.

(** X9. A string literal that the text ends in: in front of a quote and
    characters that hold neither that quote nor a backslash, up to the end
    of the text, [next_token] raises the ParseError "Unterminated string
    constant".  Its position is that of the opening quote; its line and
    its column are what the tokenizer has counted up to the quote, and a
    block comment moves the position without the column, so that behind
    one on the same line the column is short of the quote's. *)
Theorem X9_unterminated_string (q : ascii) (s pre : string) (fuel : nat)
  (st : Tokenizer.state) :
  q = DQUOTE_char \/ q = SQUOTE_char ->
  has_char q s = false -> has_char BACKSLASH_char s = false ->
  stands_at st pre (String q s) ->
  String.length s + 2 < fuel ->
  Tokenizer.next_token fuel false st
  = Throw (ParseError (mkError "Unterminated string constant"
                         (Tokenizer.line st) (Tokenizer.col st)
                         (String.length pre))).
Proof.
  intros Hquote Hq Hb Hat Hfuel.
  destruct fuel as [| [| n]]; [lia | lia | ].
  cbn [Tokenizer.next_token].
  rewrite (quote_scanned q n st pre _ Hquote Hat).
  rewrite <- (proj2 Hat).
  apply stands_at_started in Hat.
  destruct (next_at false _ pre q _ Hat) as (s1 & Hnext & Hat1 & _).
  replace (S n) with (String.length s + (S n - String.length s)) by lia.
  rewrite <- (append_nil_r s) in Hat1.
  destruct (read_string_from_plain q s (S n - String.length s) ""
              (pre ++ String q "") "" s1 Hq Hb Hat1)
    as (s2 & Hrun & Hat2 & _).
  assert (Hend := peek_at_end _ _ Hat2).
  unfold Tokenizer.read_string, Tokenizer.with_eof_error.
  run_with Hnext. unfold bind at 1. rewrite Hrun.
  replace (S n - String.length s) with (S (n - String.length s)) by lia.
  cbn [Tokenizer.read_string_from].
  unfold bind at 1, Tokenizer.next at 1. rewrite Hend. reflexivity.
Qed.

(** Behind the comment of [/*c*/ 'abc] the tokenizer has counted three
    columns, and the quote is the seventh character. *)
Lemma X9_witness :
  Tokenizer.next_token 8 false
    (Tokenizer.mkS "/*c*/ 'abc" 6 0 0 0 3 0 false false
       [mkToken "comment2" (VStr "c") 0 0 0 false None])
  = Throw (ParseError (mkError "Unterminated string constant" 0 3 6))
  /\ Tokenizer.next_token 8 false (Tokenizer.tokenizer "/*c*/ 'abc")
     = Throw (ParseError (mkError "Unterminated string constant" 0 3 6)).
Proof.
  split; [ | vm_compute; reflexivity ].
  apply (X9_unterminated_string SQUOTE_char "abc" "/*c*/ " 8).
  - right. reflexivity.
  - reflexivity.
  - reflexivity.
  - split; reflexivity.
  - simpl. lia.
Defined.

(* ------------------------------------------------------------------ *)
(** ** Decimal literals *)

Lemma test_nullable_cat (r1 r2 : regex) (s : string) :
  nullable r1 = true -> regex_test r2 s = true ->
  regex_test (Cat r1 r2) s = true.
Proof.
  intros Hn H2. destruct s as [| c rest]; simpl.
  - simpl in H2. rewrite Hn, H2. reflexivity.
  - rewrite Hn, test_or. simpl in H2. rewrite H2. apply orb_true_r.
Qed.

(** A match of [r1] followed by a match of [r2] is a match of their
    concatenation. *)
Lemma test_cat (s1 : string) :
  forall r1 r2 s2,
    regex_test r1 s1 = true -> regex_test r2 s2 = true ->
    regex_test (Cat r1 r2) (s1 ++ s2) = true.
Proof.
  induction s1 as [| c rest IH]; intros r1 r2 s2 H1 H2.
  - exact (test_nullable_cat r1 r2 s2 H1 H2).
  - simpl in H1. simpl.
    destruct (nullable r1);
      [rewrite test_or; apply orb_true_iff; left | ]; apply IH; assumption.
Qed.

Lemma test_star_class (cls : ascii -> bool) (s : string) :
  all_in cls s = true -> regex_test (Star (Class cls)) s = true.
Proof.
  induction s as [| c rest IH]; [reflexivity | ].
  cbn [all_in]. rewrite andb_true_iff. intros (Hc & Hrest).
  cbn [regex_test deriv]. rewrite Hc, test_epsilon_cat. exact (IH Hrest).
Qed.

(** A string of digits matches the decimal pattern, and not the hex
    pattern. *)
Lemma digits_decimal (s : string) :
  all_in (code_in 48 57) s = true ->
  regex_test RE_DEC_NUMBER s = true /\ regex_test RE_HEX_NUMBER s = false.
Proof.
  intros Hd. split.
  - rewrite <- (append_nil_r s). unfold RE_DEC_NUMBER.
    apply test_cat; [exact (test_star_class _ s Hd) | reflexivity].
  - unfold RE_HEX_NUMBER, one, one_i.
    rewrite test_class_cat. destruct s as [| c0 s]; [reflexivity | ].
    rewrite test_class_cat. destruct s as [| c1 s];
      [apply andb_false_r | ].
    cbn [all_in] in Hd. rewrite !andb_true_iff in Hd.
    destruct Hd as (_ & Hc1 & _).
    assert (Hx : (Ascii.eqb c1 "x" || Ascii.eqb c1 "X") = false).
    { destruct c1 as [[] [] [] [] [] [] [] []];
        first [ reflexivity | discriminate Hc1 ]. }
    rewrite Hx. apply andb_false_r.
Qed.

Lemma uint_digits (d : Decimal.uint) :
  all_in (code_in 48 57) (NilEmpty.string_of_uint d) = true.
Proof. induction d; simpl; auto. Qed.

(** [read_digits] on the decimal rendering of a number reads the
    number. *)
Lemma read_digits_uint (d : Decimal.uint) :
  forall acc seen,
    read_digits 10 (NilEmpty.string_of_uint d) (N.of_nat acc) seen
    = (N.of_nat (Nat.of_uint_acc d acc), seen + Decimal.nb_digits d, "").
Proof.
  induction d as [| d IH | d IH | d IH | d IH | d IH | d IH | d IH | d IH
                  | d IH | d IH ]; intros acc seen;
    cbn [NilEmpty.string_of_uint Nat.of_uint_acc Decimal.nb_digits];
    [ rewrite Nat.add_0_r; reflexivity | .. ];
    cbn [read_digits];
    match goal with
    | |- context [digit_in 10 ?c] =>
        let v := eval vm_compute in (digit_in 10 c) in
        change (digit_in 10 c) with v
    end;
    cbv beta iota;
    rewrite Nat.tail_mul_spec;
    match goal with
    | |- read_digits 10 _ ?a _ = (N.of_nat (Nat.of_uint_acc _ ?b), _, _) =>
        replace a with (N.of_nat b) by lia
    end;
    rewrite IH; f_equal; f_equal; lia.
Qed.

(** The decimal rendering of a natural number has no leading zero, unless
    it is [0] itself. *)
Lemma to_uint_head (n : nat) :
  Nat.to_uint n = Decimal.D0 Decimal.Nil
  \/ (Nat.to_uint n <> Decimal.Nil
      /\ forall d, Nat.to_uint n <> Decimal.D0 d).
Proof.
  assert (Hnorm : Decimal.unorm (Nat.to_uint n) = Nat.to_uint n).
  { rewrite <- DecimalNat.Unsigned.to_of, DecimalNat.Unsigned.of_to.
    reflexivity. }
  unfold Decimal.unorm in Hnorm.
  destruct (Decimal.nzhead (Nat.to_uint n)) eqn:Hhead;
    first [ left; symmetry; exact Hnorm
          | right; rewrite <- Hnorm; split; intros; discriminate
          | idtac ].
  destruct (DecimalFacts.nzhead_nonzero _ _ Hhead).
Qed.

(** [strip_zeros] keeps the value: what it takes from the digits it adds
    to the exponent. *)
Lemma strip_zeros_value (fuel : nat) :
  forall m e s e',
    strip_zeros fuel m e = (s, e') ->
    (e <= e')%Z /\ (s * 10 ^ Z.to_N (e' - e) = m)%N.
Proof.
  induction fuel as [| n IH]; intros m e s e'; cbn [strip_zeros].
  - intros [= <- <-]. rewrite Z.sub_diag. split; [lia | ].
    change (Z.to_N 0) with 0%N. rewrite N.pow_0_r. lia.
  - destruct ((m mod 10 =? 0)%N && negb (m =? 0)%N) eqn:Hzero.
    + intros Hrun. apply IH in Hrun. destruct Hrun as (Hle & Hval).
      apply andb_true_iff in Hzero. destruct Hzero as (Hmod & _).
      apply N.eqb_eq in Hmod. split; [lia | ].
      replace (Z.to_N (e' - e)) with (N.succ (Z.to_N (e' - (e + 1))))
        by lia.
      rewrite N.pow_succ_r'.
      assert (Hdiv := N.div_mod m 10 ltac:(discriminate)).
      rewrite Hmod in Hdiv. rewrite <- Hval in Hdiv. lia.
    + intros [= <- <-]. rewrite Z.sub_diag. split; [lia | ].
      change (Z.to_N 0) with 0%N. rewrite N.pow_0_r. lia.
Qed.

Lemma shortest_value (m : N) (e s : N) (e' : Z) :
  shortest m (Z.of_N e) = (s, e') ->
  (0 <= e')%Z /\ (s * 10 ^ Z.to_N e' = m * 10 ^ e)%N.
Proof.
  unfold shortest. destruct (m =? 0)%N eqn:Hm.
  - apply N.eqb_eq in Hm. subst m. intros [= <- <-]. split; [lia | ].
    reflexivity.
  - intros Hrun. apply strip_zeros_value in Hrun.
    destruct Hrun as (Hle & Hval). split; [lia | ].
    replace (Z.to_N e') with (Z.to_N (e' - Z.of_N e) + e)%N by lia.
    rewrite N.pow_add_r, N.mul_assoc, Hval. reflexivity.
Qed.

(** An integer up to 2^53 is the number of its own digits. *)
Lemma number_of_decimal_integer (m : N) :
  (m <= 2 ^ 53)%N -> number_of_decimal m 0 = Finite (number_of_N m).
Proof.
  intros Hm. unfold number_of_decimal.
  destruct (shortest m 0) as [s n] eqn:Hrun.
  apply (shortest_value m 0) in Hrun. destruct Hrun as (Hpos & Hval).
  rewrite N.pow_0_r, N.mul_1_r in Hval.
  assert (Hle : (m <=? 2 ^ 53)%N = true) by (apply N.leb_le; exact Hm).
  assert (Hlt : (m <? 10 ^ 300)%N = true).
  { apply N.ltb_lt. apply (N.le_lt_trans _ _ _ Hm).
    vm_compute. reflexivity. }
  destruct n as [| p | p]; [ | | lia ]; cbv zeta;
    rewrite Hval, Hle, Hlt, orb_true_r; reflexivity.
Qed.

(** The value [parse_js_number] gives the decimal rendering of [n] is
    [n], for [n] up to 2^53. *)
Lemma parse_js_number_of_nat (n : nat) :
  (N.of_nat n <= 2 ^ 53)%N ->
  parse_js_number (string_of_nat n) = Finite (number_of_N (N.of_nat n)).
Proof.
  intros Hsmall.
  unfold string_of_nat, NilZero.string_of_uint.
  assert (Hval := DecimalNat.Unsigned.of_to n). unfold Nat.of_uint in Hval.
  destruct (to_uint_head n) as [Hzero | (Hnil & Hhead)].
  { rewrite Hzero in *. simpl in Hval. subst n. reflexivity. }
  assert (Hstr : (match Nat.to_uint n with
                  | Decimal.Nil => "0"
                  | _ => NilEmpty.string_of_uint (Nat.to_uint n)
                  end) = NilEmpty.string_of_uint (Nat.to_uint n))
    by (destruct (Nat.to_uint n); [destruct Hnil | ..]; reflexivity).
  rewrite Hstr. clear Hstr.
  assert (Hdigits := uint_digits (Nat.to_uint n)).
  destruct (digits_decimal _ Hdigits) as (Hdec & Hhex).
  assert (Hoct : regex_test RE_OCT_NUMBER
                   (NilEmpty.string_of_uint (Nat.to_uint n)) = false).
  { unfold RE_OCT_NUMBER, one. rewrite test_class_cat.
    destruct (Nat.to_uint n) as [| d | d | d | d | d | d | d | d | d | d ];
      try reflexivity.
    destruct (Hhead d). reflexivity. }
  unfold parse_js_number. rewrite Hhex, Hoct, Hdec.
  unfold parseFloat, decimal_prefix.
  change 0%N with (N.of_nat 0) at 1. rewrite read_digits_uint, Hval.
  assert (Hlen : Decimal.nb_digits (Nat.to_uint n) <> 0)
    by (destruct (Nat.to_uint n); [destruct Hnil | ..]; simpl;
        try discriminate; reflexivity).
  destruct (Decimal.nb_digits (Nat.to_uint n)) as [| len];
    [destruct Hlen; reflexivity | ].
  cbn [Nat.add Nat.eqb read_exponent].
  exact (number_of_decimal_integer _ Hsmall).
Qed.

Lemma digit_char (c : ascii) :
  code_in 48 57 c = true -> is_digit (String c "") = true.
Proof. intros H. exact H. Qed.

(** The loop of [read_num] over digits: it takes them all, and stops
    before what [number_ends] allows. *)
Lemma read_while_digits (s : string) :
  forall k i acc pre rest st,
    all_in (code_in 48 57) s = true ->
    number_ends rest = true ->
    i + String.length s <> 0 ->
    stands_at st pre (s ++ rest) ->
    exists st',
      Tokenizer.read_while (String.length s + S k)
        (Tokenizer.read_num_pred None) (Tokenizer.read_num_flags None)
        i acc st
      = Ok (acc ++ s, st')
      /\ stands_at st' (pre ++ s) rest
      /\ token_start st' = token_start st.
Proof.
  induction s as [| c s' IH]; intros k i acc pre rest st Hd Hend Hi Hat.
  - exists st. rewrite !append_nil_r.
    split; [ | split; [exact Hat | reflexivity] ].
    cbn [String.length Nat.add Tokenizer.read_while].
    unfold bind, Tokenizer.peek, gets. simpl in Hat.
    destruct rest as [| c rest'].
    + rewrite (peek_at_end _ _ Hat). reflexivity.
    + rewrite (peek_at _ _ _ _ Hat).
      change (is_empty (String c "")) with false. cbv iota.
      replace (Tokenizer.read_num_pred None (String c "") i
                 (Tokenizer.read_num_flags None))
        with (false, Tokenizer.mkFlags false false false false);
        [reflexivity | ].
      simpl in Hi. destruct i as [| i']; [lia | ].
      unfold number_ends in Hend. apply andb_true_iff in Hend.
      destruct Hend as (Halnum & Hdot).
      destruct c as [[] [] [] [] [] [] [] []];
        first [ discriminate Halnum | discriminate Hdot | reflexivity ].
  - cbn [all_in] in Hd. apply andb_true_iff in Hd. destruct Hd as (Hc & Hd).
    destruct (next_at false st pre c (s' ++ rest) Hat)
      as (s1 & Hnext & Hat1 & Hstart1 & _).
    destruct (IH k (S i) (acc ++ String c "") (pre ++ String c "") rest s1
                Hd Hend ltac:(lia) Hat1) as (st' & Hrun & Hat' & Hstart').
    exists st'. split; [ | split ].
    + cbn [String.length Nat.add Tokenizer.read_while].
      unfold bind at 1, Tokenizer.peek at 1, gets at 1.
      rewrite (peek_at _ _ _ _ Hat).
      change (is_empty (String c "")) with false. cbv iota.
      rewrite (read_num_pred_digit None _ i (digit_char c Hc)).
      run_with Hnext. rewrite Hrun, append_assoc. reflexivity.
    + rewrite append_assoc in Hat'. exact Hat'.
    + congruence.
Qed.

Lemma string_of_nat_digits (n : nat) :
  all_in (code_in 48 57) (string_of_nat n) = true
  /\ exists c rest, string_of_nat n = String c rest.
Proof.
  unfold string_of_nat, NilZero.string_of_uint.
  destruct (Nat.to_uint n) as [| d | d | d | d | d | d | d | d | d | d ];
    (split; [first [reflexivity | apply uint_digits]
            | eexists; eexists; reflexivity ]).
Qed.

Lemma digit_not_whitespace (c : ascii) :
  code_in 48 57 c = true -> HOP WHITESPACE_CHARS (String c "") = false.
Proof.
  destruct c as [[] [] [] [] [] [] [] []]; intros H;
    first [ discriminate H | reflexivity ].
Qed.

(** X10. The decimal rendering of a natural number up to 2^53 (the
    integers a double holds one by one) is read back as that number: in
    front of the digits of [n], followed by the end of the text or by a
    character that is neither a letter, a digit nor a dot, [next_token]
    returns the [num] token of value [n] and stands behind the digits. *)
Theorem X10_decimal_literal (n : nat) (pre rest : string) (fuel : nat)
  (st : Tokenizer.state) :
  (N.of_nat n <= 2 ^ 53)%N ->
  stands_at st pre (string_of_nat n ++ rest) ->
  number_ends rest = true ->
  String.length (string_of_nat n) + 2 < fuel ->
  exists t st',
    Tokenizer.next_token fuel false st = Ok (t, st')
    /\ tok_type t = "num"
    /\ tok_value t = VNum (number_of_N (N.of_nat n))
    /\ stands_at st' (pre ++ string_of_nat n) rest.
Proof.
  intros Hsmall Hat Hend Hfuel.
  destruct (string_of_nat_digits n) as (Hdigits & c & r & Hs).
  destruct fuel as [| [| m]]; [lia | lia | ].
  cbn [Tokenizer.next_token].
  assert (Hc : code_in 48 57 c = true).
  { rewrite Hs in Hdigits. cbn [all_in] in Hdigits.
    apply andb_true_iff in Hdigits. tauto. }
  assert (Hch : charAt (Tokenizer.text st) (Tokenizer.pos st) = String c "").
  { rewrite Hs in Hat. exact (peek_at _ _ _ _ Hat). }
  rewrite next_token_body_dispatch
    by (rewrite Hch; exact (digit_not_whitespace c Hc)).
  rewrite Hch. unfold dispatch.
  change (is_empty (String c "")) with false.
  rewrite (digit_char c Hc). cbv iota.
  apply stands_at_started in Hat.
  destruct (read_while_digits (string_of_nat n)
              (m - String.length (string_of_nat n)) 0 "" pre rest
              (token_started st) Hdigits Hend)
    as (s1 & Hrun & Hat1 & _); [rewrite Hs; simpl; lia | exact Hat | ].
  replace (String.length (string_of_nat n)
           + S (m - String.length (string_of_nat n)))
    with (S m) in Hrun by lia.
  destruct (token_flag "num" (VNum (number_of_N (N.of_nat n))) false s1)
    as (t & st' & Htok & Htype & Hvalue & _).
  exists t, st'. split; [ | split; [exact Htype | split; [exact Hvalue | ] ] ].
  - unfold Tokenizer.read_num. run_with Hrun.
    change (Tokenizer.with_prefix None ("" ++ string_of_nat n))
      with (string_of_nat n).
    rewrite (parse_js_number_of_nat n Hsmall). exact Htok.
  - unfold Tokenizer.token in Htok. injection Htok as _ <-. exact Hat1.
Qed.

Lemma X10_witness :
  exists t st',
    Tokenizer.next_token 7 false
      (Tokenizer.mkS "x=2024;" 2 1 0 0 2 1 false true [])
    = Ok (t, st')
    /\ tok_type t = "num"
    /\ tok_value t = VNum (number_of_N 2024)
    /\ stands_at st' "x=2024" ";".
Proof.
  apply (X10_decimal_literal 2024 "x=" ";" 7).
  - vm_compute. discriminate.
  - split; reflexivity.
  - reflexivity.
  - vm_compute. lia.
Defined.

(* ------------------------------------------------------------------ *)
(** ** White space *)

Lemma whitespace_char_cases (c : ascii) :
  whitespace_char c = true ->
  c = " "%char \/ c = LF_char \/ c = CR_char \/ c = ascii_of_nat 9.
Proof.
  unfold whitespace_char. rewrite HOP_In. simpl.
  intros [[= <-] | [[= <-] | [[= <-] | [[= <-] | []]]]]; auto.
Qed.

(** White space stays white space when the line endings are replaced. *)
Lemma normalize_whitespace (n : nat) :
  forall s,
    String.length s <= n ->
    all_in whitespace_char s = true ->
    all_in whitespace_char (Tokenizer.normalize s) = true.
Proof.
  induction n as [| n IH]; intros s Hlen Hws.
  - destruct s; [reflexivity | simpl in Hlen; lia].
  - destruct s as [| c rest]; [reflexivity | ].
    cbn [String.length] in Hlen. cbn [all_in] in Hws.
    apply andb_true_iff in Hws. destruct Hws as (Hc & Hrest).
    rewrite normalize_step.
    destruct (Ascii.eqb c CR_char).
    + destruct rest as [| c' rest']; [reflexivity | ].
      destruct (Ascii.eqb c' LF_char); cbn [all_in].
      * cbn [all_in] in Hrest. apply andb_true_iff in Hrest.
        rewrite IH; [reflexivity | simpl in Hlen; lia | tauto].
      * rewrite IH; [reflexivity | lia | exact Hrest].
    + cbn [all_in]. rewrite Hc, IH; [reflexivity | lia | exact Hrest].
Qed.

(** [skip_whitespace] reads all the white space in front of it. *)
Lemma skip_whitespace_all (ws : string) :
  forall k pre rest st,
    all_in whitespace_char ws = true ->
    match rest with
    | "" => True
    | String c _ => whitespace_char c = false
    end ->
    stands_at st pre (ws ++ rest) ->
    exists st',
      Tokenizer.skip_whitespace (String.length ws + S k) st = Ok (tt, st')
      /\ stands_at st' (pre ++ ws) rest
      /\ Tokenizer.comments_before st' = Tokenizer.comments_before st.
Proof.
  induction ws as [| c ws' IH]; intros k pre rest st Hws Hrest Hat.
  - exists st. rewrite append_nil_r.
    split; [ | split; [exact Hat | reflexivity] ].
    apply skip_whitespace_stays. simpl in Hat.
    destruct rest as [| c rest'].
    + rewrite (peek_at_end _ _ Hat). reflexivity.
    + rewrite (peek_at _ _ _ _ Hat). exact Hrest.
  - cbn [all_in] in Hws. apply andb_true_iff in Hws.
    destruct Hws as (Hc & Hws).
    destruct (next_at false st pre c (ws' ++ rest) Hat)
      as (s1 & Hnext & Hat1 & _ & Hcb1 & _).
    destruct (IH k (pre ++ String c "") rest s1 Hws Hrest Hat1)
      as (st' & Hrun & Hat' & Hcb').
    exists st'. split; [ | split ].
    + cbn [String.length Nat.add Tokenizer.skip_whitespace].
      unfold bind at 1, Tokenizer.peek at 1, gets at 1.
      rewrite (peek_at _ _ _ _ Hat).
      unfold whitespace_char in Hc. rewrite Hc.
      run_with Hnext. exact Hrun.
    + rewrite append_assoc in Hat'. exact Hat'.
    + congruence.
Qed.

(** X11. A text of white space only -- the empty text included -- parses
    to the empty program, in either mode and with or without embedded
    tokens. *)
Theorem X11_blank_text (TEXT : string) (exigent_mode embed_tokens : bool)
  (fuel : nat) :
  all_in whitespace_char TEXT = true ->
  String.length TEXT + 2 < fuel ->
  parse TEXT exigent_mode embed_tokens fuel
  = Ok (Arr [Str "toplevel"; Arr []]).
Proof.
  intros Hws Hfuel.
  destruct (normalize_facts _ TEXT (le_n _)) as (_ & Hlen & _).
  apply (normalize_whitespace _ _ (le_n _)) in Hws.
  destruct fuel as [| [| n]]; [lia | lia | ].
  assert (Hat : stands_at (Tokenizer.tokenizer TEXT) ""
                  (Tokenizer.normalize TEXT ++ ""))
    by (split; [simpl; rewrite append_nil_r | ]; reflexivity).
  destruct (skip_whitespace_all (Tokenizer.normalize TEXT)
              (n - String.length (Tokenizer.normalize TEXT)) "" ""
              (Tokenizer.tokenizer TEXT) Hws I Hat)
    as (s1 & Hrun & Hat1 & _).
  replace (String.length (Tokenizer.normalize TEXT)
           + S (n - String.length (Tokenizer.normalize TEXT)))
    with (S n) in Hrun by lia.
  assert (Hinv := next_token_body_inv (S n) (Tokenizer.next_token (S n))
                    (Tokenizer.tokenizer TEXT) _ eq_refl).
  rewrite Hrun, (peek_at_end _ _ Hat1) in Hinv.
  unfold parse.
  change (Tokenizer.next_token (S (S n)) false)
    with (Tokenizer.next_token_body (S n) (Tokenizer.next_token (S n))
            false).
  rewrite <- Hinv. reflexivity.
Qed.

Lemma X11_witness :
  parse (" " ++ CR ++ LF ++ TAB) true false 7
  = Ok (Arr [Str "toplevel"; Arr []]).
Proof.
  apply (X11_blank_text (" " ++ CR ++ LF ++ TAB) true false 7).
  - reflexivity.
  - simpl. lia.
Defined.

(* ------------------------------------------------------------------ *)
(** ** The parser's look-ahead *)

(** X12. Looking ahead is transparent: [peek] followed by [next] is
    [next], and a second [peek] is the first; when [next] returns, the
    token it returns is the current one, the token before is in [prev],
    and no token is looked ahead. *)
Theorem X12_peek_then_next (tokenizer_fuel : nat) (ps : Parser.state) :
  (Parser.peek tokenizer_fuel ;; Parser.next tokenizer_fuel) ps
  = Parser.next tokenizer_fuel ps
  /\ (Parser.peek tokenizer_fuel ;; Parser.peek tokenizer_fuel) ps
     = Parser.peek tokenizer_fuel ps
  /\ forall t ps',
       Parser.next tokenizer_fuel ps = Ok (t, ps') ->
       Parser.S_token ps' = t
       /\ Parser.S_prev ps' = Some (Parser.S_token ps)
       /\ Parser.S_peeked ps' = None.
Proof.
  unfold Parser.peek, Parser.next, Parser.input, bind, gets, modify, ret.
  destruct ps as [inp tok prv [peeked | ] inf inl labels]; simpl.
  - split; [reflexivity | split; [reflexivity | ] ].
    intros t ps' [= <- <-]. auto.
  - destruct (Tokenizer.next_token tokenizer_fuel false inp)
      as [[t ts] | e | |]; simpl;
      (split; [reflexivity | split; [reflexivity | ] ]);
      intros t' ps' H; try discriminate H.
    injection H as <- <-. auto.
Qed.

(* ------------------------------------------------------------------ *)
(** ** The nesting the parser keeps track of *)

Lemma pbind_Ok {A B : Type} (m : Parser.P A) (k : A -> Parser.P B)
  (ps : Parser.state) (r : B * Parser.state) :
  bind m k ps = Ok r -> exists a p1, m ps = Ok (a, p1) /\ k a p1 = Ok r.
Proof. apply bind_Ok. Qed.

Lemma balanced_bind {A B : Type} (m : Parser.P A) (k : A -> Parser.P B) :
  balanced m -> (forall a, balanced (k a)) -> balanced (bind m k).
Proof.
  intros Hm Hk ps b ps' Hrun.
  apply bind_Ok in Hrun. destruct Hrun as (a & p1 & H1 & H2).
  rewrite (Hk a p1 b ps' H2). exact (Hm ps a p1 H1).
Qed.

Lemma balanced_ret {A : Type} (a : A) : balanced (ret a).
Proof. intros ps a0 ps' [= _ <-]. reflexivity. Qed.

Lemma balanced_gets {A : Type} (g : Parser.state -> A) : balanced (gets g).
Proof. intros ps a ps' [= _ <-]. reflexivity. Qed.

Lemma balanced_modify (g : Parser.state -> Parser.state) :
  (forall ps, nesting (g ps) = nesting ps) -> balanced (modify g).
Proof. intros Hg ps a ps' [= _ <-]. apply Hg. Qed.

Lemma balanced_fail {A : Type} (m : Parser.P A) :
  (forall ps a ps', m ps <> Ok (a, ps')) -> balanced m.
Proof. intros H ps a ps' Hrun. destruct (H ps a ps' Hrun). Qed.

Lemma balanced_croak {A : Type} (msg : string) (line col pos : option nat) :
  balanced (@Parser.croak A msg line col pos).
Proof. intros ps a ps' H. discriminate H. Qed.

Lemma balanced_unexpected {A : Type} (token : option Token) :
  balanced (@Parser.unexpected A token).
Proof. intros ps a ps' H. discriminate H. Qed.

Lemma balanced_token_error {A : Type} (token : Token) (msg : string) :
  balanced (@Parser.token_error A token msg).
Proof. intros ps a ps' H. discriminate H. Qed.

Lemma balanced_throw {A : Type} (e : exn) :
  balanced (@throw Parser.state A e).
Proof. intros ps a ps' H. discriminate H. Qed.

Lemma balanced_out_of_fuel {A : Type} :
  balanced (@out_of_fuel Parser.state A).
Proof. intros ps a ps' H. discriminate H. Qed.

Lemma balanced_input (tokenizer_fuel : nat) (force_regexp : bool) :
  balanced (Parser.input tokenizer_fuel force_regexp).
Proof.
  intros ps t ps'. unfold Parser.input.
  destruct (Tokenizer.next_token _ _ _) as [[t0 ts] | e | |];
    try discriminate.
  intros [= _ <-]. reflexivity.
Qed.

Create HintDb balance.

#[local] Hint Resolve balanced_ret balanced_gets balanced_croak
  balanced_unexpected balanced_token_error balanced_throw
  balanced_out_of_fuel balanced_input : balance.

(** One step through a parsing action. *)
Ltac balance_step :=
  first
    [ solve [ auto with balance nocore ]
    | apply balanced_modify; reflexivity
    | apply balanced_bind; [ | intros ? ]
    | match goal with
      | |- balanced (if ?b then _ else _) => destruct b
      | |- balanced (match ?x with _ => _ end) => destruct x
      end ].

Lemma balanced_is (type : string) (value : option string) :
  balanced (Parser.is_ type value).
Proof. apply balanced_gets. Qed.

Lemma balanced_token_value : balanced Parser.token_value_.
Proof. apply balanced_gets. Qed.

Lemma balanced_token_type : balanced Parser.token_type_.
Proof. apply balanced_gets. Qed.

Lemma balanced_prev : balanced Parser.prev.
Proof. apply balanced_gets. Qed.

Lemma balanced_peek (tokenizer_fuel : nat) :
  balanced (Parser.peek tokenizer_fuel).
Proof. unfold Parser.peek. repeat balance_step. Qed.

Lemma balanced_next (tokenizer_fuel : nat) :
  balanced (Parser.next tokenizer_fuel).
Proof. unfold Parser.next. repeat balance_step. Qed.

#[local] Hint Resolve balanced_is balanced_token_value balanced_token_type
  balanced_prev balanced_peek balanced_next : balance.

Lemma balanced_expect_token (tokenizer_fuel : nat) (type : string)
  (val : option string) :
  balanced (Parser.expect_token tokenizer_fuel type val).
Proof. unfold Parser.expect_token. repeat balance_step. Qed.

#[local] Hint Resolve balanced_expect_token : balance.

Lemma balanced_expect (tokenizer_fuel : nat) (punc : string) :
  balanced (Parser.expect tokenizer_fuel punc).
Proof. unfold Parser.expect. auto with balance nocore. Qed.

Lemma balanced_can_insert_semicolon (exigent_mode : bool) :
  balanced (Parser.can_insert_semicolon exigent_mode).
Proof. unfold Parser.can_insert_semicolon. repeat balance_step. Qed.

#[local] Hint Resolve balanced_expect balanced_can_insert_semicolon
  : balance.

Lemma balanced_semicolon (exigent_mode : bool) (tokenizer_fuel : nat) :
  balanced (Parser.semicolon exigent_mode tokenizer_fuel).
Proof. unfold Parser.semicolon. repeat balance_step. Qed.

Lemma balanced_as_name (tokenizer_fuel : nat) :
  balanced (Parser.as_name tokenizer_fuel).
Proof. unfold Parser.as_name. repeat balance_step. Qed.

#[local] Hint Resolve balanced_semicolon balanced_as_name : balance.

Lemma balanced_as_property_name (tokenizer_fuel : nat) :
  balanced (Parser.as_property_name tokenizer_fuel).
Proof. unfold Parser.as_property_name. repeat balance_step. Qed.

Lemma balanced_is_assignable (exigent_mode : bool) (expr : ast) :
  balanced (Parser.is_assignable exigent_mode expr).
Proof. unfold Parser.is_assignable. repeat balance_step. Qed.

#[local] Hint Resolve balanced_as_property_name balanced_is_assignable
  : balance.

Lemma balanced_make_unary (exigent_mode : bool) (tag : string)
  (op : token_value) (expr : ast) :
  balanced (Parser.make_unary exigent_mode tag op expr).
Proof. unfold Parser.make_unary. repeat balance_step. Qed.

Lemma balanced_break_cont (exigent_mode : bool) (tokenizer_fuel : nat)
  (type : string) :
  balanced (Parser.break_cont exigent_mode tokenizer_fuel type).
Proof. unfold Parser.break_cont. repeat balance_step. Qed.

Lemma balanced_function_params (tokenizer_fuel fuel : nat) :
  forall first a,
    balanced (Parser.function_params tokenizer_fuel fuel first a).
Proof.
  induction fuel as [| n IH]; intros first a;
    cbn [Parser.function_params]; repeat balance_step.
Qed.

#[local] Hint Resolve balanced_make_unary balanced_break_cont
  balanced_function_params : balance.

(** [in_loop] counts the loop up, and down again. *)
Lemma balanced_in_loop {A : Type} (cont : Parser.P A) :
  balanced cont -> balanced (Parser.in_loop cont).
Proof.
  intros Hcont ps a ps'. unfold Parser.in_loop. intros Hrun.
  apply bind_Ok in Hrun. destruct Hrun as ([] & p1 & [= <-] & Hrun).
  apply bind_Ok in Hrun. destruct Hrun as (r & p2 & Hc & Hrun).
  apply Hcont in Hc.
  apply bind_Ok in Hrun. destruct Hrun as ([] & p3 & [= <-] & Hrun).
  injection Hrun as _ <-.
  unfold nesting in *. simpl in *. injection Hc as -> -> ->. reflexivity.
Qed.

(** [labeled_statement] puts the label in scope, and takes it out
    again. *)
Lemma balanced_labeled_statement (exigent_mode : bool) (self : Parser.calls)
  (label : token_value) :
  balanced (Parser.call_statement self) ->
  balanced (Parser.labeled_statement exigent_mode self label).
Proof.
  intros Hself ps a ps'. unfold Parser.labeled_statement. intros Hrun.
  apply bind_Ok in Hrun. destruct Hrun as ([] & p1 & [= <-] & Hrun).
  apply bind_Ok in Hrun. destruct Hrun as (start & p2 & [= _ <-] & Hrun).
  apply bind_Ok in Hrun. destruct Hrun as (stat & p3 & Hstat & Hrun).
  apply Hself in Hstat.
  apply bind_Ok in Hrun. destruct Hrun as (u & p4 & Hcheck & Hrun).
  assert (Hbal : balanced
      (if exigent_mode
       then match index stat 0 with
            | Some tag =>
                if negb (HOP STATEMENTS_WITH_LABELS (to_string tag))
                then Parser.unexpected (Some start)
                else ret tt
            | None => throw TypeError
            end
       else ret tt)) by repeat balance_step.
  assert (H4 := Hbal _ _ _ Hcheck).
  apply bind_Ok in Hrun. destruct Hrun as ([] & p5 & [= <-] & Hrun).
  injection Hrun as _ <-.
  unfold nesting in *. simpl in *.
  injection H4 as -> -> ->. injection Hstat as -> -> ->.
  rewrite removelast_last. reflexivity.
Qed.

(** [$function_] parses the body one function deeper and outside any
    loop, and restores both counters. *)
Lemma balanced_dollar_function (tokenizer_fuel : nat) (self : Parser.calls)
  (in_statement : bool) :
  balanced (Parser.call_block_ self) ->
  balanced (Parser.dollar_function_ tokenizer_fuel self in_statement).
Proof.
  intros Hself. unfold Parser.dollar_function_.
  apply balanced_bind; [auto with balance nocore | intros named].
  apply balanced_bind; [repeat balance_step | intros name].
  apply balanced_bind; [repeat balance_step | intros _].
  apply balanced_bind; [repeat balance_step | intros _].
  apply balanced_bind; [repeat balance_step | intros params].
  intros ps a ps' Hrun.
  apply bind_Ok in Hrun. destruct Hrun as ([] & p1 & [= <-] & Hrun).
  apply bind_Ok in Hrun. destruct Hrun as (loop & p2 & [= <- <-] & Hrun).
  apply bind_Ok in Hrun. destruct Hrun as ([] & p3 & [= <-] & Hrun).
  apply bind_Ok in Hrun. destruct Hrun as (body & p4 & Hbody & Hrun).
  apply Hself in Hbody.
  apply bind_Ok in Hrun. destruct Hrun as ([] & p5 & [= <-] & Hrun).
  apply bind_Ok in Hrun. destruct Hrun as ([] & p6 & [= <-] & Hrun).
  injection Hrun as _ <-.
  unfold nesting in *. simpl in *. injection Hbody as -> _ ->. reflexivity.
Qed.

#[local] Hint Resolve balanced_labeled_statement balanced_dollar_function
  : balance.

(** One step through a function of the parser. *)
Ltac parser_step :=
  first
    [ solve [ auto with balance nocore ]
    | apply balanced_in_loop
    | balance_step ].

#[local] Hint Resolve bal_statement bal_dollar_statement bal_parenthesised
  bal_labeled_statement bal_simple_statement bal_for_ bal_regular_for
  bal_for_in bal_function_ bal_dollar_function_ bal_if_ bal_block_
  bal_block_loop bal_switch_block_ bal_switch_loop bal_try_ bal_vardefs
  bal_var_ bal_const_ bal_new_ bal_expr_atom bal_expr_list bal_array_
  bal_object_ bal_object_loop bal_subscripts bal_expr_op bal_expr_ops
  bal_maybe_conditional bal_maybe_assign bal_expression : balance.

(** Every function of the parser is balanced, whatever the fuel. *)
Lemma balanced_parser (exigent_mode embed_tokens : bool)
  (tokenizer_fuel fuel : nat) :
  balanced_calls
    (Parser.parser exigent_mode embed_tokens tokenizer_fuel fuel).
Proof.
  induction fuel as [| n IH].
  - constructor; intros; apply balanced_out_of_fuel.
  - cbn [Parser.parser].
    set (self := Parser.parser exigent_mode embed_tokens tokenizer_fuel n)
      in *.
    clearbody self.
    constructor; intros;
      cbn [Parser.call_statement Parser.call_dollar_statement
           Parser.call_parenthesised Parser.call_labeled_statement
           Parser.call_simple_statement Parser.call_for_
           Parser.call_regular_for Parser.call_for_in Parser.call_function_
           Parser.call_dollar_function_ Parser.call_if_ Parser.call_block_
           Parser.call_block_loop Parser.call_switch_block_
           Parser.call_switch_loop Parser.call_try_ Parser.call_vardefs
           Parser.call_var_ Parser.call_const_ Parser.call_new_
           Parser.call_expr_atom Parser.call_expr_list Parser.call_array_
           Parser.call_object_ Parser.call_object_loop
           Parser.call_subscripts Parser.call_expr_op Parser.call_expr_ops
           Parser.call_maybe_conditional Parser.call_maybe_assign
           Parser.call_expression];
      unfold Parser.statement, Parser.dollar_statement,
        Parser.parenthesised, Parser.simple_statement, Parser.for_,
        Parser.regular_for, Parser.for_in, Parser.function_, Parser.if_,
        Parser.block_, Parser.block_loop, Parser.switch_block_,
        Parser.switch_loop, Parser.try_, Parser.vardefs, Parser.var_,
        Parser.const_, Parser.new_, Parser.expr_atom, Parser.expr_list,
        Parser.array_, Parser.object_, Parser.object_loop,
        Parser.subscripts, Parser.expr_op, Parser.expr_ops,
        Parser.maybe_conditional, Parser.maybe_assign, Parser.expression;
      cbv zeta;
      repeat parser_step.
Qed.

(** X13. A statement, however it is nested, leaves the parser's
    bookkeeping as it found it: when [statement] returns -- and likewise
    [expression] -- the function depth [in_function], the loop depth
    [in_loop] and the stack of labels are what they were before it. *)
Theorem X13_nesting_restored (exigent_mode embed_tokens : bool)
  (tokenizer_fuel fuel : nat) (ps : Parser.state) (a : ast)
  (ps' : Parser.state) :
  Parser.call_statement
    (Parser.parser exigent_mode embed_tokens tokenizer_fuel fuel) ps
  = Ok (a, ps')
  \/ (exists commas no_in,
        Parser.call_expression
          (Parser.parser exigent_mode embed_tokens tokenizer_fuel fuel)
          commas no_in ps
        = Ok (a, ps')) ->
  Parser.S_in_function ps' = Parser.S_in_function ps
  /\ Parser.S_in_loop ps' = Parser.S_in_loop ps
  /\ Parser.S_labels ps' = Parser.S_labels ps.
Proof.
  intros Hrun.
  assert (Hn : nesting ps' = nesting ps).
  { destruct (balanced_parser exigent_mode embed_tokens tokenizer_fuel fuel)
      as [Hs _ _ _ _ _ _ _ _ _ _ _ _ _ _ _ _ _ _ _ _ _ _ _ _ _ _ _ _ _ He].
    destruct Hrun as [Hrun | (commas & no_in & Hrun)].
    - exact (Hs _ _ _ Hrun).
    - exact (He _ _ _ _ _ Hrun). }
  unfold nesting in Hn. injection Hn as -> -> ->. auto.
Qed.

(* ------------------------------------------------------------------ *)
(** ** Precedence and associativity *)

Lemma X13_witness :
  exists ps a ps',
    parser_at "while (x) { l: for (;;) f = function () { return 1; }; }" 30
    = Some ps
    /\ Parser.call_statement (Parser.parser false false 30 80) ps
       = Ok (a, ps')
    /\ Parser.S_in_function ps' = Parser.S_in_function ps
    /\ Parser.S_in_loop ps' = Parser.S_in_loop ps
    /\ Parser.S_labels ps' = Parser.S_labels ps.
Proof.
  eexists. eexists. eexists.
  split; [vm_compute; reflexivity | ].
  split; [vm_compute; reflexivity | ].
  eapply (X13_nesting_restored false false 30 80).
  left. vm_compute. reflexivity.
Defined.

Lemma PRECEDENCE_from_In (a : list (list string)) :
  forall n op p,
    PRECEDENCE_from a n op = Some p -> In op (List.concat a).
Proof.
  induction a as [| b rest IH]; intros n op p; cbn [PRECEDENCE_from List.concat].
  - discriminate.
  - destruct (PRECEDENCE_from rest (S n) op) as [later | ] eqn:Hlater.
    + intros _. apply in_or_app. right. exact (IH _ _ _ Hlater).
    + destruct (HOP b op) eqn:Hb; [ | discriminate ].
      intros _. apply in_or_app. left. apply HOP_In. exact Hb.
Qed.

(** The operators that have a precedence. *)
Lemma PRECEDENCE_keys (op : string) (p : nat) :
  PRECEDENCE op = Some p ->
  In op ["||"; "&&"; "|"; "^"; "&"; "=="; "==="; "!="; "!=="; "<"; ">";
         "<="; ">="; "in"; "instanceof"; ">>"; "<<"; ">>>"; "+"; "-"; "*";
         "/"; "%"].
Proof. intros H. exact (PRECEDENCE_from_In _ _ _ _ H). Qed.

(** X14. Binary operators by precedence, and to the left among equals:
    for any two operators with a precedence, [a op1 b op2 c] parses to
    [a op1 (b op2 c)] when [op2] binds tighter than [op1], and to
    [(a op1 b) op2 c] otherwise. *)
Theorem X14_binary_precedence (op1 op2 : string) (p1 p2 k : nat) :
  PRECEDENCE op1 = Some p1 -> PRECEDENCE op2 = Some p2 ->
  parse ("a " ++ op1 ++ " b " ++ op2 ++ " c") false false (40 + k)
  = Ok (program_of
          (if (p1 <? p2)%nat
           then binary_ op1 (name_ "a") (binary_ op2 (name_ "b") (name_ "c"))
           else binary_ op2 (binary_ op1 (name_ "a") (name_ "b"))
                  (name_ "c"))).
Proof.
  intros H1 H2.
  assert (Hin1 := PRECEDENCE_keys _ _ H1).
  assert (Hin2 := PRECEDENCE_keys _ _ H2).
  cbn [In] in Hin1, Hin2.
  repeat (destruct Hin1 as [<- | Hin1];
          [vm_compute in H1; injection H1 as <- | ]);
    [ .. | destruct Hin1 ];
    (repeat (destruct Hin2 as [<- | Hin2];
             [vm_compute in H2; injection H2 as <-;
              vm_compute; reflexivity | ]);
     destruct Hin2).
Qed.

Lemma X14_witness :
  parse "a + b * c" false false 40
  = Ok (program_of
          (binary_ "+" (name_ "a") (binary_ "*" (name_ "b") (name_ "c"))))
  /\ parse "a - b - c" false false 40
     = Ok (program_of
             (binary_ "-" (binary_ "-" (name_ "a") (name_ "b")) (name_ "c"))).
Proof.
  split.
  - apply (X14_binary_precedence "+" "*" 9 10 0); reflexivity.
  - apply (X14_binary_precedence "-" "-" 9 9 0); reflexivity.
Defined.

(** The keys of [ASSIGNMENT]. *)
Lemma ASSIGNMENT_keys_In (val : string) (op : ast) :
  ASSIGNMENT val = Some op ->
  In val ["="; "+="; "-="; "/="; "*="; "%="; ">>="; "<<="; ">>>="; "|=";
          "^="; "&="].
Proof.
  unfold ASSIGNMENT. destruct (val =? "=") eqn:Heq.
  - apply String.eqb_eq in Heq. subst val. intros _. left. reflexivity.
  - destruct (HOP ASSIGNMENT_keys val) eqn:Hkey; [ | discriminate ].
    intros _. right. apply HOP_In. exact Hkey.
Qed.

(** X15. Assignments nest to the right and bind looser than every binary
    operator: for assignment operators [v1], [v2] and a binary operator
    [op], in either mode, [a v1 b v2 c;] parses to the assignment of
    [b v2 c] to [a], and [a v1 b op c;] to the assignment of [b op c] to
    [a]; the node holds [true] for [=] and the operator without its [=]
    otherwise. *)
Theorem X15_assignment_nesting (v1 v2 op : string) (o1 o2 : ast)
  (p k : nat) (exigent_mode : bool) :
  ASSIGNMENT v1 = Some o1 -> ASSIGNMENT v2 = Some o2 ->
  PRECEDENCE op = Some p ->
  parse ("a " ++ v1 ++ " b " ++ v2 ++ " c;") exigent_mode false (40 + k)
  = Ok (program_of
          (assign_ o1 (name_ "a") (assign_ o2 (name_ "b") (name_ "c"))))
  /\ parse ("a " ++ v1 ++ " b " ++ op ++ " c;") exigent_mode false (40 + k)
     = Ok (program_of
             (assign_ o1 (name_ "a")
                (binary_ op (name_ "b") (name_ "c")))).
Proof.
  intros H1 H2 Hop.
  assert (Hin1 := ASSIGNMENT_keys_In _ _ H1).
  assert (Hin2 := ASSIGNMENT_keys_In _ _ H2).
  assert (Hin := PRECEDENCE_keys _ _ Hop). clear Hop.
  cbn [In] in Hin1, Hin2, Hin.
  repeat (destruct Hin1 as [<- | Hin1];
          [vm_compute in H1; injection H1 as <- | ]);
    [ .. | destruct Hin1 ];
    (split;
     [ clear Hin;
       repeat (destruct Hin2 as [<- | Hin2];
               [vm_compute in H2; injection H2 as <-;
                destruct exigent_mode; vm_compute; reflexivity | ]);
       destruct Hin2
     | clear Hin2 H2;
       repeat (destruct Hin as [<- | Hin];
               [destruct exigent_mode; vm_compute; reflexivity | ]);
       destruct Hin ]).
Qed.

Lemma X15_witness :
  parse "a = b += c;" true false 40
  = Ok (program_of
          (assign_ True_ (name_ "a")
             (assign_ (Str "+") (name_ "b") (name_ "c"))))
  /\ parse "a = b || c;" true false 40
     = Ok (program_of
             (assign_ True_ (name_ "a")
                (binary_ "||" (name_ "b") (name_ "c")))).
Proof.
  apply (X15_assignment_nesting "=" "+=" "||" True_ (Str "+") 1 0 true);
    reflexivity.
Defined.

(** X16. A prefix operator binds tighter than every binary operator: for a
    key [u] of [UNARY_PREFIX] and an operator [op] with a precedence,
    [u a op b] parses to the binary node of [u a] and [b]. *)
Theorem X16_prefix_binds_tighter (u op : string) (p k : nat) :
  HOP UNARY_PREFIX u = true -> PRECEDENCE op = Some p ->
  parse (u ++ " a " ++ op ++ " b") false false (40 + k)
  = Ok (program_of
          (binary_ op (unary_prefix_ u (name_ "a")) (name_ "b"))).
Proof.
  intros Hu Hop. apply HOP_In in Hu. cbn [In UNARY_PREFIX array_to_hash] in Hu.
  assert (Hin := PRECEDENCE_keys _ _ Hop). clear Hop. cbn [In] in Hin.
  repeat (destruct Hu as [<- | Hu]; [ | ]);
    [ .. | destruct Hu ];
    (repeat (destruct Hin as [<- | Hin]; [vm_compute; reflexivity | ]);
     destruct Hin).
Qed.

Lemma X16_witness :
  parse "typeof a == b" false false 40
  = Ok (program_of
          (binary_ "==" (unary_prefix_ "typeof" (name_ "a")) (name_ "b"))).
Proof.
  apply (X16_prefix_binds_tighter "typeof" "==" 6 0); reflexivity.
Defined.

(** X17. Where a statement is due and the text has ended, no error is
    raised: at the token [eof], [statement] returns [undefined] and
    consumes nothing, in either mode; with embedded tokens it raises the
    TypeError of assigning to [undefined[0]]. *)
Theorem X17_statement_at_eof (exigent_mode : bool)
  (tokenizer_fuel fuel : nat) (ps : Parser.state) :
  tok_type (Parser.S_token ps) = "eof" ->
  Parser.call_statement
    (Parser.parser exigent_mode false tokenizer_fuel (S (S fuel))) ps
  = Ok (Undefined, ps)
  /\ Parser.call_statement
       (Parser.parser exigent_mode true tokenizer_fuel (S (S fuel))) ps
     = Throw TypeError.
Proof.
  intros Heof.
  assert (Hdollar : forall embed_tokens,
    Parser.call_dollar_statement
      (Parser.parser exigent_mode embed_tokens tokenizer_fuel (S fuel)) ps
    = Ok (Undefined, ps)).
  { intros embed_tokens. cbn [Parser.parser Parser.call_dollar_statement].
    unfold Parser.dollar_statement.
    unfold bind at 1, Parser.is_ at 1, gets at 1, is_token. rewrite Heof.
    cbn [String.eqb Ascii.eqb Bool.eqb andb]. cbv beta iota.
    unfold bind at 1, ret at 1.
    unfold bind at 1, Parser.token_type_ at 1, gets at 1. rewrite Heof.
    reflexivity. }
  split.
  - cbn [Parser.parser Parser.call_statement]. unfold Parser.statement.
    apply Hdollar.
  - change (Parser.call_statement
              (Parser.parser exigent_mode true tokenizer_fuel (S (S fuel))))
      with (Parser.statement true
              (Parser.parser exigent_mode true tokenizer_fuel (S fuel))).
    unfold Parser.statement.
    unfold bind at 1, gets at 1. unfold bind at 1. rewrite Hdollar.
    reflexivity.
Qed.

Lemma X17_witness :
  Parser.call_statement (Parser.parser false false 10 2) at_end_of_if
  = Ok (Undefined, at_end_of_if)
  /\ Parser.call_statement (Parser.parser false true 10 2) at_end_of_if
     = Throw TypeError
  /\ parse "if (x)" false false 20
     = Ok (Arr [Str "toplevel";
                Arr [Arr [Str "if"; name_ "x"; Undefined; Undefined]]])
  /\ parse "if (x)" false true 20 = Throw TypeError.
Proof.
  destruct (X17_statement_at_eof false 10 0 at_end_of_if eq_refl)
    as (Hplain & Hembed).
  split; [exact Hplain | split; [exact Hembed | ] ].
  split; vm_compute; reflexivity.
Defined.

(* ------------------------------------------------------------------ *)
(** ** Where a token is *)

Lemma keeps_place_next (signal_eof : bool) :
  keeps state_place (Tokenizer.next signal_eof).
Proof. apply keeps_next; reflexivity. Qed.

Lemma keeps_place_read_while {F : Type} (fuel : nat)
  (pred : string -> nat -> F -> bool * F) :
  forall f i acc,
    keeps state_place (Tokenizer.read_while fuel pred f i acc).
Proof.
  induction fuel as [| n IH]; intros f i acc; cbn [Tokenizer.read_while];
    repeat first [ apply IH | keeps_step ].
Qed.

Lemma keeps_place_hex_bytes_from (n : nat) :
  forall num, keeps state_place (Tokenizer.hex_bytes_from n num).
Proof.
  induction n as [| n' IH]; intros num; cbn [Tokenizer.hex_bytes_from];
    repeat first [ apply IH | keeps_step ].
Qed.

Lemma keeps_place_read_escaped_char :
  keeps state_place Tokenizer.read_escaped_char.
Proof.
  unfold Tokenizer.read_escaped_char, Tokenizer.hex_bytes,
    Tokenizer.fromCharCode.
  repeat first [ apply keeps_place_hex_bytes_from | keeps_step ].
Qed.

Lemma keeps_place_read_string_from (fuel : nat) (quote : string) :
  forall acc,
    keeps state_place (Tokenizer.read_string_from fuel quote acc).
Proof.
  induction fuel as [| n IH]; intros acc; cbn [Tokenizer.read_string_from];
    repeat first [ apply keeps_place_read_escaped_char | apply IH
                 | keeps_step ].
Qed.

Lemma keeps_place_read_name_from (fuel : nat) :
  forall backslash name,
    keeps state_place (Tokenizer.read_name_from fuel backslash name).
Proof.
  induction fuel as [| n IH]; intros backslash name;
    cbn [Tokenizer.read_name_from];
    repeat first [ apply keeps_place_read_escaped_char | apply IH
                 | keeps_step ].
Qed.

Lemma keeps_place_read_regexp_from (fuel : nat) :
  forall prev_backslash in_class regexp,
    keeps state_place
      (Tokenizer.read_regexp_from fuel prev_backslash in_class regexp).
Proof.
  induction fuel as [| n IH]; intros prev_backslash in_class regexp;
    cbn [Tokenizer.read_regexp_from];
    repeat first [ apply IH | keeps_step ].
Qed.

Lemma keeps_place_grow (fuel : nat) :
  forall op, keeps state_place (Tokenizer.grow fuel op).
Proof.
  induction fuel as [| n IH]; intros op; cbn [Tokenizer.grow];
    repeat first [ apply IH | keeps_step ].
Qed.

Lemma anchored_bind {A : Type} (m : Tokenizer.T A)
  (k : A -> Tokenizer.T Token) :
  keeps state_place m -> (forall a, anchored (k a)) -> anchored (bind m k).
Proof.
  intros Hm Hk st t st' Hrun. inv_bind Hrun.
  rewrite <- (Hm _ _ _ Hrun0). exact (Hk _ _ _ _ Hrun).
Qed.

Lemma anchored_token (type : string) (value : token_value)
  (is_comment : bool) :
  anchored (Tokenizer.token type value is_comment).
Proof.
  intros st t st'. unfold Tokenizer.token.
  destruct is_comment; intros [= <- <-]; split; reflexivity.
Qed.

Lemma anchored_fail (m : Tokenizer.T Token) :
  (forall st a st', m st <> Ok (a, st')) -> anchored m.
Proof. intros H st a st' Hrun. destruct (H st a st' Hrun). Qed.

Lemma anchored_if (b : bool) (m1 m2 : Tokenizer.T Token) :
  anchored m1 -> anchored m2 -> anchored (if b then m1 else m2).
Proof. destruct b; auto. Qed.

Lemma anchored_with_eof_error (eof_error : string)
  (cont : Tokenizer.T Token) :
  anchored cont -> anchored (Tokenizer.with_eof_error eof_error cont).
Proof.
  intros Hcont st a st' Hrun. unfold Tokenizer.with_eof_error in Hrun.
  destruct (cont st) as [[a0 s0] | [| |] | |] eqn:Hc; try discriminate.
  injection Hrun as <- <-. exact (Hcont st _ _ Hc).
Qed.

Create HintDb anchor.

(** One step through an action that ends in a token of the place last
    started. *)
Ltac anchor_step :=
  first
    [ solve [ auto with anchor nocore ]
    | apply anchored_token
    | apply anchored_fail; intros ? ? ? ?; discriminate
    | apply anchored_with_eof_error
    | apply anchored_if
    | apply anchored_bind;
      [ first [ apply keeps_place_read_while
              | apply keeps_place_read_string_from
              | apply keeps_place_read_name_from
              | apply keeps_place_read_regexp_from
              | apply keeps_place_grow
              | keeps_step ]
      | intros ? ]
    | match goal with
      | |- anchored (match ?x with _ => _ end) => destruct x
      end ].

Lemma anchored_read_num (fuel : nat) (prefix : option string) :
  anchored (Tokenizer.read_num fuel prefix).
Proof. unfold Tokenizer.read_num. repeat anchor_step. Qed.

Lemma anchored_read_string (fuel : nat) :
  anchored (Tokenizer.read_string fuel).
Proof. unfold Tokenizer.read_string. repeat anchor_step. Qed.

Lemma anchored_read_regexp (fuel : nat) :
  anchored (Tokenizer.read_regexp fuel).
Proof.
  unfold Tokenizer.read_regexp, Tokenizer.read_name. repeat anchor_step.
Qed.

Lemma anchored_read_operator (fuel : nat) (prefix : option string) :
  anchored (Tokenizer.read_operator fuel prefix).
Proof.
  unfold Tokenizer.read_operator.
  apply anchored_bind; [destruct (Tokenizer.truthy_prefix prefix) | intros op ];
    repeat first [ keeps_step | anchor_step ].
Qed.

Lemma anchored_read_word (fuel : nat) :
  anchored (Tokenizer.read_word fuel).
Proof.
  unfold Tokenizer.read_word, Tokenizer.read_name. repeat anchor_step.
Qed.

#[local] Hint Resolve anchored_read_num anchored_read_string
  anchored_read_regexp anchored_read_operator anchored_read_word : anchor.

Lemma anchored_handle_dot (fuel : nat) :
  anchored (Tokenizer.handle_dot fuel).
Proof. unfold Tokenizer.handle_dot. repeat anchor_step. Qed.

(** A token at the place just started is located there. *)
Lemma anchored_located (s2 : Tokenizer.state) (t : Token)
  (st' : Tokenizer.state) :
  Tokenizer.tokpos s2 = Tokenizer.pos s2 ->
  Tokenizer.tokline s2 = Tokenizer.line s2 ->
  (tok_type t <> "eof" -> Tokenizer.pos s2 < Tokenizer.pos st') ->
  token_place t = state_place s2 /\ state_place st' = state_place s2 ->
  token_place t = state_place st'
  /\ Tokenizer.pos s2 <= tok_pos t
  /\ tok_line t =
     Tokenizer.line s2
     + count_LF (substring_js (Tokenizer.text s2) (Tokenizer.pos s2)
                   (tok_pos t))
  /\ (tok_type t <> "eof" -> tok_pos t < Tokenizer.pos st').
Proof.
  intros Hpos Hline Hlt (Ht & Hs). split; [congruence | ].
  unfold token_place, state_place in Ht. injection Ht as Hl _ Hp.
  rewrite Hp, Hl, Hpos, Hline. split; [lia | split; [ | exact Hlt] ].
  unfold substring_js. rewrite Nat.sub_diag, substring_none. simpl. lia.
Qed.

(** A token located from a state further on is located from here. *)
Lemma located_from (st s4 : Tokenizer.state) (t : Token)
  (st' : Tokenizer.state) :
  steps st s4 ->
  token_place t = state_place st'
  /\ Tokenizer.pos s4 <= tok_pos t
  /\ tok_line t =
     Tokenizer.line s4
     + count_LF (substring_js (Tokenizer.text s4) (Tokenizer.pos s4)
                   (tok_pos t))
  /\ (tok_type t <> "eof" -> tok_pos t < Tokenizer.pos st') ->
  token_place t = state_place st'
  /\ Tokenizer.pos st <= tok_pos t
  /\ tok_line t =
     Tokenizer.line st
     + count_LF (substring_js (Tokenizer.text st) (Tokenizer.pos st)
                   (tok_pos t))
  /\ (tok_type t <> "eof" -> tok_pos t < Tokenizer.pos st').
Proof.
  intros (Htext & Hle & Hline) (Hplace & Hpos & Htok & Hlt).
  split; [exact Hplace | split; [lia | split; [ | exact Hlt] ] ].
  rewrite Htok, Hline, Htext.
  rewrite (substring_js_split _ _ _ _ Hle Hpos), count_LF_app. lia.
Qed.

Lemma located_handle_slash (fuel : nat) (next_token : Tokenizer.T Token)
  (s2 : Tokenizer.state) (t : Token) (st' : Tokenizer.state) :
  advancing next_token -> located next_token ->
  Tokenizer.tokpos s2 = Tokenizer.pos s2 ->
  Tokenizer.tokline s2 = Tokenizer.line s2 ->
  Tokenizer.handle_slash fuel next_token s2 = Ok (t, st') ->
  token_place t = state_place st'
  /\ Tokenizer.pos s2 <= tok_pos t
  /\ tok_line t =
     Tokenizer.line s2
     + count_LF (substring_js (Tokenizer.text s2) (Tokenizer.pos s2)
                   (tok_pos t))
  /\ (tok_type t <> "eof" -> tok_pos t < Tokenizer.pos st').
Proof.
  intros Hadv Hself Hpos Hline Hrun.
  assert (Hlt := proj2 (consuming_handle_slash fuel next_token Hadv
                          s2 t st' Hrun)).
  revert Hrun. unfold Tokenizer.handle_slash. intros Hrun.
  inv_bind Hrun. inv_bind Hrun. inv_bind Hrun.
  injection Hrun2 as <- <-. injection Hrun1 as <- <-.
  assert (Hplace1 := keeps_place_next _ _ _ _ Hrun0).
  apply next_reads in Hrun0. destruct Hrun0 as (_ & Hpos1 & Hsteps1 & _).
  destruct (charAt (Tokenizer.text s) (Tokenizer.pos s) =? "/") eqn:Hs;
    [ | destruct (charAt (Tokenizer.text s) (Tokenizer.pos s) =? "*") ].
  - inv_bind Hrun. inv_bind Hrun. inv_bind Hrun.
    injection Hrun2 as _ <-. injection Hrun1 as _ <-.
    apply read_line_comment_steps in Hrun0;
      [ | apply String.eqb_eq in Hs; rewrite Hs; reflexivity ].
    refine (located_from s2 _ t st' _ (Hself _ _ _ Hrun)).
    refine (steps_trans _ _ _ Hsteps1 (steps_trans _ _ _ (proj1 Hrun0) _)).
    apply steps_same; reflexivity.
  - inv_bind Hrun. inv_bind Hrun. inv_bind Hrun.
    injection Hrun2 as _ <-. injection Hrun1 as _ <-.
    apply consuming_read_multiline_comment in Hrun0.
    refine (located_from s2 _ t st' _ (Hself _ _ _ Hrun)).
    refine (steps_trans _ _ _ Hsteps1 (steps_trans _ _ _ (proj1 Hrun0) _)).
    apply steps_same; reflexivity.
  - inv_bind Hrun. injection Hrun0 as <- <-.
    apply (anchored_located s2 t st' Hpos Hline); [intros _; exact Hlt | ].
    rewrite <- Hplace1.
    destruct (Tokenizer.regex_allowed s).
    + exact (anchored_read_regexp _ _ _ _ Hrun).
    + exact (anchored_read_operator _ _ _ _ _ Hrun).
Qed.

Lemma located_dispatch (fuel : nat) (self : bool -> Tokenizer.T Token)
  (s2 : Tokenizer.state) (t : Token) (st' : Tokenizer.state) :
  advancing (self false) -> located (self false) -> scans (self false) ->
  Tokenizer.tokpos s2 = Tokenizer.pos s2 ->
  Tokenizer.tokline s2 = Tokenizer.line s2 ->
  dispatch fuel self (charAt (Tokenizer.text s2) (Tokenizer.pos s2)) s2
  = Ok (t, st') ->
  token_place t = state_place st'
  /\ Tokenizer.pos s2 <= tok_pos t
  /\ tok_line t =
     Tokenizer.line s2
     + count_LF (substring_js (Tokenizer.text s2) (Tokenizer.pos s2)
                   (tok_pos t))
  /\ (tok_type t <> "eof" -> tok_pos t < Tokenizer.pos st').
Proof.
  intros Hadv Hself Hscans Hpos Hline Hrun.
  assert (Hlt : tok_type t <> "eof" -> Tokenizer.pos s2 < Tokenizer.pos st').
  { destruct (scans_dispatch fuel self s2 t st' Hadv Hscans Hrun)
      as (_ & [(Heof & _) | (_ & H)]); [contradiction | intros _; exact H]. }
  revert Hrun. unfold dispatch.
  set (ch := charAt (Tokenizer.text s2) (Tokenizer.pos s2)). clearbody ch.
  destruct (ch =? "/") eqn:Hslash.
  - apply String.eqb_eq in Hslash. subst ch.
    change (is_empty "/") with false. change (is_digit "/") with false.
    change (("/" =? DQUOTE) || ("/" =? SQUOTE)) with false.
    change (HOP PUNC_CHARS "/") with false. change ("/" =? ".") with false.
    cbv iota. apply located_handle_slash; assumption.
  - intros Hrun. apply (anchored_located s2 t st' Hpos Hline Hlt).
    revert Hrun. clear Hlt. generalize st'. generalize t. generalize s2.
    change (anchored
      (if is_empty ch then Tokenizer.token "eof" VUndefined false
       else if is_digit ch then Tokenizer.read_num fuel None
       else if (ch =? DQUOTE) || (ch =? SQUOTE)
            then Tokenizer.read_string fuel
       else if HOP PUNC_CHARS ch then
         c <- Tokenizer.next false ;; Tokenizer.token "punc" (VStr c) false
       else if ch =? "." then Tokenizer.handle_dot fuel
       else if false then Tokenizer.handle_slash fuel (self false)
       else if HOP OPERATOR_CHARS ch then Tokenizer.read_operator fuel None
       else if (ch =? BACKSLASH) || is_identifier_start ch
            then Tokenizer.read_word fuel
       else Tokenizer.parse_error ("Unexpected character '" ++ ch ++ "'"))).
    cbv iota.
    repeat first [ apply anchored_handle_dot | anchor_step ].
Qed.

Lemma located_next_token (fuel : nat) :
  located (Tokenizer.next_token fuel false).
Proof.
  induction fuel as [| n IH]; [intros st t st' H; discriminate H | ].
  intros st t st' Hrun. cbn [Tokenizer.next_token] in Hrun.
  apply next_token_body_inv in Hrun.
  destruct (Tokenizer.skip_whitespace n st) as [[[] s1] | e | |] eqn:Hws;
    try discriminate.
  apply advancing_skip_whitespace in Hws.
  change (charAt (Tokenizer.text s1) (Tokenizer.pos s1))
    with (charAt (Tokenizer.text (token_started s1))
                 (Tokenizer.pos (token_started s1))) in Hrun.
  apply located_dispatch in Hrun;
    [ | apply advancing_next_token | exact IH | apply scans_next_token
      | reflexivity | reflexivity ].
  apply (located_from st (token_started s1) t st'); [ | exact Hrun ].
  refine (steps_trans _ _ _ Hws _). apply steps_same; reflexivity.
Qed.



(* ------------------------------------------------------------------ *)
(** ** The newline flag of a token *)

Lemma marking_bind {A B : Type} (m : Tokenizer.T A)
  (k : A -> Tokenizer.T B) :
  marking m -> (forall a, marking (k a)) -> marking (bind m k).
Proof.
  intros Hm Hk st b st' Hrun. inv_bind Hrun.
  destruct (Hm _ _ _ Hrun0) as (Hle1 & Hnl1).
  destruct (Hk _ _ _ _ Hrun) as (Hle2 & Hnl2).
  unfold newline_seen in *. split; [lia | ].
  rewrite Hnl2, Hnl1. intuition lia.
Qed.

Lemma marking_ret {A : Type} (a : A) : marking (ret a).
Proof.
  intros st a' st' [= _ <-]. unfold newline_seen.
  split; [lia | intuition lia].
Qed.

Lemma marking_gets {A : Type} (g : Tokenizer.state -> A) : marking (gets g).
Proof.
  intros st a' st' [= _ <-]. unfold newline_seen.
  split; [lia | intuition lia].
Qed.

Lemma marking_fail {A : Type} (m : Tokenizer.T A) :
  (forall st a st', m st <> Ok (a, st')) -> marking m.
Proof. intros H st a st' Hrun. destruct (H st a st' Hrun). Qed.

Lemma marking_if {A : Type} (b : bool) (m1 m2 : Tokenizer.T A) :
  marking m1 -> marking m2 -> marking (if b then m1 else m2).
Proof. destruct b; auto. Qed.

Lemma marking_with_eof_error {A : Type} (eof_error : string)
  (cont : Tokenizer.T A) :
  marking cont -> marking (Tokenizer.with_eof_error eof_error cont).
Proof.
  intros Hcont st a st' Hrun. unfold Tokenizer.with_eof_error in Hrun.
  destruct (cont st) as [[a0 s0] | [| |] | |] eqn:Hc; try discriminate.
  injection Hrun as <- <-. exact (Hcont st _ _ Hc).
Qed.

Lemma marking_next (signal_eof : bool) :
  marking (Tokenizer.next signal_eof).
Proof.
  intros st a st'. unfold Tokenizer.next, newline_seen.
  destruct (signal_eof && _); [discriminate | ].
  destruct (_ =? LF); intros [= _ <-]; simpl;
    (split; [lia | intuition lia]).
Qed.

Lemma marking_find (what : string) (signal_eof : bool) :
  marking (Tokenizer.find what signal_eof).
Proof.
  intros st a st'. unfold Tokenizer.find, newline_seen.
  destruct (indexOf _ _ _); [ | destruct signal_eof ];
    try discriminate; intros [= _ <-]; (split; [lia | intuition lia]).
Qed.

(** One step through an action that marks the line feeds it meets. *)
Ltac mark_step :=
  first
    [ assumption
    | apply marking_next
    | apply marking_gets
    | apply marking_ret
    | apply marking_find
    | apply marking_fail; intros ? ? ? ?; discriminate
    | apply marking_bind; [ | intros ? ]
    | apply marking_with_eof_error
    | apply marking_if
    | match goal with
      | |- marking (match ?x with _ => _ end) => destruct x
      | |- marking (let '(_, _) := ?x in _) => destruct x
      end ].

Lemma marking_skip_whitespace (fuel : nat) :
  marking (Tokenizer.skip_whitespace fuel).
Proof.
  induction fuel as [| n IH]; cbn [Tokenizer.skip_whitespace];
    repeat first [ apply IH | mark_step ].
Qed.

Lemma marking_read_while {F : Type} (fuel : nat)
  (pred : string -> nat -> F -> bool * F) :
  forall f i acc, marking (Tokenizer.read_while fuel pred f i acc).
Proof.
  induction fuel as [| n IH]; intros f i acc; cbn [Tokenizer.read_while];
    repeat first [ apply IH | mark_step ].
Qed.

Lemma marking_hex_bytes_from (n : nat) :
  forall num, marking (Tokenizer.hex_bytes_from n num).
Proof.
  induction n as [| n' IH]; intros num; cbn [Tokenizer.hex_bytes_from];
    repeat first [ apply IH | mark_step ].
Qed.

Lemma marking_read_escaped_char : marking Tokenizer.read_escaped_char.
Proof.
  unfold Tokenizer.read_escaped_char, Tokenizer.hex_bytes,
    Tokenizer.fromCharCode.
  repeat first [ apply marking_hex_bytes_from | mark_step ].
Qed.

Lemma marking_read_string_from (fuel : nat) (quote : string) :
  forall acc, marking (Tokenizer.read_string_from fuel quote acc).
Proof.
  induction fuel as [| n IH]; intros acc; cbn [Tokenizer.read_string_from];
    repeat first [ apply marking_read_escaped_char | apply IH | mark_step ].
Qed.

Lemma marking_read_name_from (fuel : nat) :
  forall backslash name,
    marking (Tokenizer.read_name_from fuel backslash name).
Proof.
  induction fuel as [| n IH]; intros backslash name;
    cbn [Tokenizer.read_name_from];
    repeat first [ apply marking_read_escaped_char | apply IH | mark_step ].
Qed.

Lemma marking_read_regexp_from (fuel : nat) :
  forall prev_backslash in_class regexp,
    marking (Tokenizer.read_regexp_from fuel prev_backslash in_class regexp).
Proof.
  induction fuel as [| n IH]; intros prev_backslash in_class regexp;
    cbn [Tokenizer.read_regexp_from];
    repeat first [ apply IH | mark_step ].
Qed.

Lemma marking_grow (fuel : nat) :
  forall op, marking (Tokenizer.grow fuel op).
Proof.
  induction fuel as [| n IH]; intros op; cbn [Tokenizer.grow];
    repeat first [ apply IH | mark_step ].
Qed.

Lemma flagged_bind {A : Type} (m : Tokenizer.T A)
  (k : A -> Tokenizer.T Token) :
  marking m -> (forall a, flagged (k a)) -> flagged (bind m k).
Proof.
  intros Hm Hk st b st' Hrun. inv_bind Hrun.
  destruct (Hm _ _ _ Hrun0) as (Hle1 & Hnl1).
  destruct (Hk _ _ _ _ Hrun) as (Hle2 & Hnl2).
  unfold newline_seen in *. split; [lia | ].
  rewrite Hnl2, Hnl1. intuition lia.
Qed.

Lemma flagged_token (type : string) (value : token_value)
  (is_comment : bool) :
  flagged (Tokenizer.token type value is_comment).
Proof.
  intros st t st'. unfold Tokenizer.token, newline_seen.
  destruct is_comment; intros [= <- <-]; simpl;
    (split; [lia | intuition lia]).
Qed.

Lemma flagged_fail (m : Tokenizer.T Token) :
  (forall st a st', m st <> Ok (a, st')) -> flagged m.
Proof. intros H st a st' Hrun. destruct (H st a st' Hrun). Qed.

Lemma flagged_if (b : bool) (m1 m2 : Tokenizer.T Token) :
  flagged m1 -> flagged m2 -> flagged (if b then m1 else m2).
Proof. destruct b; auto. Qed.

Lemma flagged_with_eof_error (eof_error : string)
  (cont : Tokenizer.T Token) :
  flagged cont -> flagged (Tokenizer.with_eof_error eof_error cont).
Proof.
  intros Hcont st a st' Hrun. unfold Tokenizer.with_eof_error in Hrun.
  destruct (cont st) as [[a0 s0] | [| |] | |] eqn:Hc; try discriminate.
  injection Hrun as <- <-. exact (Hcont st _ _ Hc).
Qed.

Create HintDb flag.

(** One step through an action that ends in a token. *)
Ltac flag_step :=
  first
    [ solve [ auto with flag nocore ]
    | apply flagged_token
    | apply flagged_fail; intros ? ? ? ?; discriminate
    | apply flagged_with_eof_error
    | apply flagged_if
    | apply flagged_bind;
      [ first [ apply marking_read_while
              | apply marking_read_string_from
              | apply marking_read_name_from
              | apply marking_read_regexp_from
              | apply marking_grow
              | mark_step ]
      | intros ? ]
    | match goal with
      | |- flagged (match ?x with _ => _ end) => destruct x
      end ].

Lemma flagged_read_num (fuel : nat) (prefix : option string) :
  flagged (Tokenizer.read_num fuel prefix).
Proof. unfold Tokenizer.read_num. repeat flag_step. Qed.

Lemma flagged_read_string (fuel : nat) :
  flagged (Tokenizer.read_string fuel).
Proof. unfold Tokenizer.read_string. repeat flag_step. Qed.

Lemma flagged_read_regexp (fuel : nat) :
  flagged (Tokenizer.read_regexp fuel).
Proof.
  unfold Tokenizer.read_regexp, Tokenizer.read_name. repeat flag_step.
Qed.

Lemma flagged_read_operator (fuel : nat) (prefix : option string) :
  flagged (Tokenizer.read_operator fuel prefix).
Proof.
  unfold Tokenizer.read_operator.
  apply flagged_bind; [destruct (Tokenizer.truthy_prefix prefix) | intros op ];
    repeat first [ mark_step | flag_step ].
Qed.

Lemma flagged_read_word (fuel : nat) :
  flagged (Tokenizer.read_word fuel).
Proof.
  unfold Tokenizer.read_word, Tokenizer.read_name. repeat flag_step.
Qed.

#[local] Hint Resolve flagged_read_num flagged_read_string
  flagged_read_regexp flagged_read_operator flagged_read_word : flag.

Lemma flagged_handle_dot (fuel : nat) :
  flagged (Tokenizer.handle_dot fuel).
Proof. unfold Tokenizer.handle_dot. repeat flag_step. Qed.

(** A line feed found in a string is counted. *)
Lemma index_LF_counted (s : string) :
  forall j, String.index 0 LF s = Some j -> 0 < count_LF s.
Proof.
  induction s as [| c rest IH]; intros j; [discriminate | ].
  unfold LF in *. cbn [String.index String.prefix count_LF].
  destruct (ascii_dec (ascii_of_nat 10) c) as [<- | Hne].
  - intros _. rewrite Ascii.eqb_refl. lia.
  - destruct (String.index 0 (String (ascii_of_nat 10) "") rest) as [k | ];
      [ | discriminate ].
    intros _. specialize (IH k eq_refl). lia.
Qed.

Lemma flagged_hinted (m : Tokenizer.T Token) : flagged m -> hinted m.
Proof.
  intros Hm st t st' Hrun. destruct (Hm _ _ _ Hrun) as (Hle & Hiff).
  split; [exact Hle | split ].
  - apply Hiff.
  - intros _. apply Hiff.
Qed.

Lemma hinted_bind {A : Type} (m : Tokenizer.T A)
  (k : A -> Tokenizer.T Token) :
  marking m -> keeps Tokenizer.comments_before m ->
  (forall a, hinted (k a)) -> hinted (bind m k).
Proof.
  intros Hm Hcb Hk st t st' Hrun. inv_bind Hrun.
  destruct (Hm _ _ _ Hrun0) as (Hle1 & Hnl1).
  destruct (Hk _ _ _ _ Hrun) as (Hle2 & Hup & Hdown).
  rewrite (Hcb _ _ _ Hrun0) in Hdown.
  unfold newline_seen in *. split; [lia | split ].
  - intros Hnlb. destruct (Hup Hnlb) as [H | H]; [ | right; lia ].
    apply Hnl1 in H. destruct H as [H | H]; [left; exact H | right; lia].
  - intros Hsame Hseen. apply (Hdown Hsame).
    destruct (Nat.eq_dec (Tokenizer.line st) (Tokenizer.line s)) as [He | Hne].
    + destruct Hseen as [H | H]; [left; apply Hnl1; left; exact H | ].
      right. lia.
    + left. apply Hnl1. right. lia.
Qed.

(** A line comment leaves the flag down: its line feed is not read yet. *)
Lemma read_line_comment_flag (st : Tokenizer.state) (c : Token)
  (st' : Tokenizer.state) :
  Tokenizer.read_line_comment st = Ok (c, st') ->
  Tokenizer.line st <= Tokenizer.line st'
  /\ (Tokenizer.newline_before st' = true ->
      Tokenizer.line st < Tokenizer.line st').
Proof.
  unfold Tokenizer.read_line_comment. intros Hrun.
  inv_bind Hrun. destruct (marking_next _ _ _ _ Hrun0) as (Hle & _).
  inv_bind Hrun. destruct (marking_find _ _ _ _ _ Hrun1) as (Hle1 & _).
  inv_bind Hrun. injection Hrun2 as <- <-.
  destruct a0 as [i | ]; inv_bind Hrun; injection Hrun2 as _ <-;
    unfold Tokenizer.token in Hrun; injection Hrun as _ <-; simpl;
    (split; [lia | discriminate]).
Qed.

(** A block comment raises the flag when it has a line feed in it. *)
Lemma read_multiline_comment_flag (st : Tokenizer.state) (c : Token)
  (st' : Tokenizer.state) :
  Tokenizer.read_multiline_comment st = Ok (c, st') ->
  Tokenizer.line st <= Tokenizer.line st'
  /\ (Tokenizer.newline_before st' = true ->
      Tokenizer.line st < Tokenizer.line st').
Proof.
  unfold Tokenizer.read_multiline_comment. intros Hrun.
  inv_bind Hrun. destruct (marking_next _ _ _ _ Hrun0) as (Hle & _).
  unfold Tokenizer.with_eof_error in Hrun.
  match type of Hrun with
  | match ?m s with _ => _ end = _ =>
      destruct (m s) as [[c0 s0] | [| |] | |] eqn:Hc; try discriminate
  end.
  injection Hrun as <- <-.
  inv_bind Hc. destruct (marking_find _ _ _ _ _ Hrun) as (Hle1 & _).
  destruct a0 as [i | ]; [ | discriminate ].
  inv_bind Hc. injection Hrun1 as <- <-.
  inv_bind Hc. unfold Tokenizer.token in Hrun1. injection Hrun1 as _ <-.
  unfold bind, modify, ret in Hc. cbn [fst snd] in Hc.
  injection Hc as _ <-. cbn.
  split; [lia | ].
  destruct (indexOf _ LF 0) as [j | ] eqn:Hidx; [ | discriminate ].
  intros _. apply index_LF_counted in Hidx. lia.
Qed.

(** After a comment, [handle_slash] calls [next_token] back: the token
    that comes has the comment before it. *)
Lemma hinted_after_comment (read_comment : Tokenizer.T Token)
  (flag : bool) (next_token : Tokenizer.T Token) :
  (forall st c st',
     read_comment st = Ok (c, st') ->
     is_comment_token c
     /\ Tokenizer.comments_before st' = Tokenizer.comments_before st) ->
  (forall st c st',
     read_comment st = Ok (c, st') ->
     Tokenizer.line st <= Tokenizer.line st'
     /\ (Tokenizer.newline_before st' = true ->
         Tokenizer.line st < Tokenizer.line st')) ->
  emits next_token -> hinted next_token ->
  hinted (c <- read_comment ;;
          modify (Tokenizer.push_comment c) ;;
          modify (Tokenizer.set_regex_allowed flag) ;;
          next_token).
Proof.
  intros Hframe Hflag Hemits Hself st t st' Hrun.
  inv_bind Hrun. destruct (Hframe _ _ _ Hrun0) as (_ & Hcb).
  destruct (Hflag _ _ _ Hrun0) as (Hle1 & Hnl1).
  inv_bind Hrun. injection Hrun1 as _ <-.
  inv_bind Hrun. injection Hrun1 as _ <-.
  destruct (Hself _ _ _ Hrun) as (Hle2 & Hup & _).
  destruct (Hemits _ _ _ Hrun) as (_ & _ & cs & Hcs & _).
  unfold newline_seen in *. cbn in Hle2, Hup, Hcs.
  split; [lia | split ].
  - intros Hnlb. right. destruct (Hup Hnlb) as [H | H]; [ | lia ].
    apply Hnl1 in H. lia.
  - intros Hsame. rewrite Hsame, Hcb in Hcs. injection Hcs as Hcs.
    apply (f_equal (@List.length Token)) in Hcs.
    rewrite !length_app in Hcs. simpl in Hcs. lia.
Qed.

Lemma hinted_handle_slash (fuel : nat) (next_token : Tokenizer.T Token) :
  emits next_token -> hinted next_token ->
  hinted (Tokenizer.handle_slash fuel next_token).
Proof.
  intros Hemits Hself. unfold Tokenizer.handle_slash.
  apply hinted_bind; [apply marking_next | keeps_step | intros _ ].
  apply hinted_bind; [apply marking_gets | keeps_step | intros flag ].
  apply hinted_bind; [apply marking_gets | keeps_step | intros ch ].
  destruct (ch =? "/"); [ | destruct (ch =? "*") ].
  - apply hinted_after_comment;
      [ exact read_line_comment_frame | exact read_line_comment_flag
      | exact Hemits | exact Hself ].
  - apply hinted_after_comment;
      [ exact read_multiline_comment_frame
      | exact read_multiline_comment_flag | exact Hemits | exact Hself ].
  - apply flagged_hinted. repeat flag_step.
Qed.

Lemma hinted_dispatch (fuel : nat) (self : bool -> Tokenizer.T Token)
  (ch : string) :
  emits (self false) -> hinted (self false) ->
  hinted (dispatch fuel self ch).
Proof.
  intros Hemits Hself. unfold dispatch.
  destruct (ch =? "/") eqn:Hslash.
  - apply String.eqb_eq in Hslash. subst ch.
    change (is_empty "/") with false. change (is_digit "/") with false.
    change (("/" =? DQUOTE) || ("/" =? SQUOTE)) with false.
    change (HOP PUNC_CHARS "/") with false. change ("/" =? ".") with false.
    cbv iota. apply hinted_handle_slash; assumption.
  - apply flagged_hinted.
    repeat first [ apply flagged_handle_dot | flag_step ].
Qed.

Lemma hinted_next_token (fuel : nat) :
  hinted (Tokenizer.next_token fuel false).
Proof.
  induction fuel as [| n IH]; [intros st t st' H; discriminate H | ].
  intros st t st' Hrun. cbn [Tokenizer.next_token] in Hrun.
  apply next_token_body_inv in Hrun.
  destruct (Tokenizer.skip_whitespace n st) as [[[] s1] | e | |] eqn:Hws;
    try discriminate.
  assert (Hcb : Tokenizer.comments_before s1 = Tokenizer.comments_before st).
  { revert Hws. apply keeps_skip_whitespace. apply keeps_next; reflexivity. }
  destruct (marking_skip_whitespace _ _ _ _ Hws) as (Hle1 & Hnl1).
  destruct (hinted_dispatch n (Tokenizer.next_token n) _
              (emits_next_token n false) IH _ _ _ Hrun)
    as (Hle2 & Hup & Hdown).
  unfold newline_seen in *. cbn in Hle2, Hup, Hdown. rewrite Hcb in Hdown.
  split; [lia | split ].
  - intros Hnlb. destruct (Hup Hnlb) as [H | H]; [ | right; lia ].
    apply Hnl1 in H. destruct H as [H | H]; [left; exact H | right; lia].
  - intros Hsame Hseen. apply (Hdown Hsame).
    destruct (Nat.eq_dec (Tokenizer.line st) (Tokenizer.line s1))
      as [He | Hne].
    + destruct Hseen as [H | H]; [left; apply Hnl1; left; exact H | ].
      right. lia.
    + left. apply Hnl1. right. lia.
Qed.

(** X19. The newline flag of a token: when [next_token] returns a token
    whose [nlb] is true, [newline_before] was true before the call or a
    line feed lies between the position the call began at and the end of
    the token.  When the call read no comment (the token carries only the
    comments buffered before), the converse holds too: [nlb] is true
    exactly when the flag was up or such a line feed exists. *)
Theorem X19_newline_before (fuel : nat) (st : Tokenizer.state) (t : Token)
  (st' : Tokenizer.state) :
  Tokenizer.next_token fuel false st = Ok (t, st') ->
  (tok_nlb t = true ->
   Tokenizer.newline_before st = true
   \/ 0 < count_LF (substring_js (Tokenizer.text st) (Tokenizer.pos st)
                      (Tokenizer.pos st')))
  /\ (tok_comments_before t = Some (Tokenizer.comments_before st) ->
      (tok_nlb t = true <->
       Tokenizer.newline_before st = true
       \/ 0 < count_LF (substring_js (Tokenizer.text st) (Tokenizer.pos st)
                          (Tokenizer.pos st')))).
Proof.
  intros Hrun.
  destruct (hinted_next_token _ _ _ _ Hrun) as (_ & Hup & Hdown).
  destruct (advancing_next_token _ _ _ _ _ Hrun) as (_ & _ & Hline).
  unfold newline_seen in *.
  assert (Hlf : Tokenizer.line st < Tokenizer.line st' <->
                0 < count_LF (substring_js (Tokenizer.text st)
                                (Tokenizer.pos st) (Tokenizer.pos st')))
    by lia.
  rewrite <- Hlf. split; [exact Hup | ].
  intros Hsame. split; [exact Hup | exact (Hdown Hsame)].
Qed.

Lemma X19_witness :
  exists t st',
    Tokenizer.next_token 12 false after_y = Ok (t, st')
    /\ tok_value t = VStr "z"
    /\ (tok_nlb t = true ->
        Tokenizer.newline_before after_y = true
        \/ 0 < count_LF (substring_js (Tokenizer.text after_y)
                           (Tokenizer.pos after_y) (Tokenizer.pos st')))
    /\ (tok_comments_before t = Some (Tokenizer.comments_before after_y) ->
        (tok_nlb t = true <->
         Tokenizer.newline_before after_y = true
         \/ 0 < count_LF (substring_js (Tokenizer.text after_y)
                            (Tokenizer.pos after_y) (Tokenizer.pos st')))).
Proof.
  eexists. eexists. split; [vm_compute; reflexivity | ].
  split; [reflexivity | ].
  apply (X19_newline_before 12 after_y).
  vm_compute. reflexivity.
Defined.

(* ------------------------------------------------------------------ *)
(** ** The parser reads the text to its end *)

Lemma tracking_bind {A B : Type} (m : Parser.P A) (k : A -> Parser.P B) :
  tracking m -> (forall a, tracking (k a)) -> tracking (bind m k).
Proof.
  intros Hm Hk ps b ps' Hrun.
  apply bind_Ok in Hrun. destruct Hrun as (a & p1 & H1 & H2).
  destruct (Hm _ _ _ H1) as (Ht1 & Hp1 & Hi1).
  destruct (Hk _ _ _ _ H2) as (Ht2 & Hp2 & Hi2).
  split; [congruence | split; [lia | auto] ].
Qed.

Lemma tracking_ret {A : Type} (a : A) : tracking (ret a).
Proof. intros ps a0 ps' [= _ <-]. auto. Qed.

Lemma tracking_gets {A : Type} (g : Parser.state -> A) : tracking (gets g).
Proof. intros ps a ps' [= _ <-]. auto. Qed.

(** A change that leaves the tokenizer and the current token alone, and
    the token looked ahead too unless it drops it. *)
Lemma tracking_modify (g : Parser.state -> Parser.state) :
  (forall ps,
     Parser.S_input (g ps) = Parser.S_input ps
     /\ Parser.S_token (g ps) = Parser.S_token ps
     /\ (Parser.S_peeked (g ps) = Parser.S_peeked ps
         \/ Parser.S_peeked (g ps) = None)) ->
  tracking (modify g).
Proof.
  intros Hg ps a ps' [= _ <-]. destruct (Hg ps) as (Hi & Ht & Hp).
  unfold eof_at_end. rewrite Hi, Ht.
  split; [reflexivity | split; [lia | ] ].
  intros (H1 & H2). split; [exact H1 | ].
  destruct Hp as [-> | ->]; [exact H2 | discriminate].
Qed.

Lemma tracking_fail {A : Type} (m : Parser.P A) :
  (forall ps a ps', m ps <> Ok (a, ps')) -> tracking m.
Proof. intros H ps a ps' Hrun. destruct (H ps a ps' Hrun). Qed.

Lemma tracking_croak {A : Type} (msg : string) (line col pos : option nat) :
  tracking (@Parser.croak A msg line col pos).
Proof. intros ps a ps' H. discriminate H. Qed.

Lemma tracking_unexpected {A : Type} (token : option Token) :
  tracking (@Parser.unexpected A token).
Proof. intros ps a ps' H. discriminate H. Qed.

Lemma tracking_token_error {A : Type} (token : Token) (msg : string) :
  tracking (@Parser.token_error A token msg).
Proof. intros ps a ps' H. discriminate H. Qed.

Lemma tracking_throw {A : Type} (e : exn) :
  tracking (@throw Parser.state A e).
Proof. intros ps a ps' H. discriminate H. Qed.

Lemma tracking_out_of_fuel {A : Type} :
  tracking (@out_of_fuel Parser.state A).
Proof. intros ps a ps' H. discriminate H. Qed.

(** What a call of the tokenizer does to the parser's state. *)
Lemma input_reads (tokenizer_fuel : nat) (force_regexp : bool)
  (ps : Parser.state) (t : Token) (ps' : Parser.state) :
  Parser.input tokenizer_fuel force_regexp ps = Ok (t, ps') ->
  ps' = Parser.set_input (Parser.S_input ps') ps
  /\ Tokenizer.text (Parser.S_input ps') = Tokenizer.text (Parser.S_input ps)
  /\ Tokenizer.pos (Parser.S_input ps) <= Tokenizer.pos (Parser.S_input ps')
  /\ (tok_type t = "eof" -> remaining (Parser.S_input ps') = 0).
Proof.
  unfold Parser.input.
  destruct (Tokenizer.next_token _ _ _) as [[t0 ts] | e | |] eqn:Hrun;
    try discriminate.
  intros [= <- <-].
  destruct (advancing_next_token _ _ _ _ _ Hrun) as (Htext & Hpos & _).
  destruct (scans_next_token _ _ _ _ _ Hrun) as (_ & [(_ & H) | (H & _)]).
  - repeat split; auto.
  - repeat split; auto. intros He. destruct (H He).
Qed.

(** Nothing left to read stays so. *)
Lemma remaining_stays (st st' : Tokenizer.state) :
  Tokenizer.text st' = Tokenizer.text st ->
  Tokenizer.pos st <= Tokenizer.pos st' ->
  remaining st = 0 -> remaining st' = 0.
Proof. unfold remaining. intros ->. lia. Qed.

Lemma tracking_peek (tokenizer_fuel : nat) :
  tracking (Parser.peek tokenizer_fuel).
Proof.
  intros ps t ps'. unfold Parser.peek. intros Hrun.
  apply bind_Ok in Hrun. destruct Hrun as (peeked & p1 & [= <- <-] & Hrun).
  destruct (Parser.S_peeked ps) as [t0 | ] eqn:Hpeeked.
  - injection Hrun as _ <-. auto.
  - apply bind_Ok in Hrun. destruct Hrun as (t1 & p1 & Hin & Hrun).
    apply input_reads in Hin. destruct Hin as (Hp1 & Htext & Hpos & Heof).
    apply bind_Ok in Hrun. destruct Hrun as ([] & p2 & [= <-] & Hrun).
    injection Hrun as _ <-. rewrite Hp1. cbn.
    split; [exact Htext | split; [exact Hpos | ] ].
    intros (H1 & _). split; cbn.
    + intros He. exact (remaining_stays _ _ Htext Hpos (H1 He)).
    + intros t' [= <-]. exact Heof.
Qed.

Lemma tracking_next (tokenizer_fuel : nat) :
  tracking (Parser.next tokenizer_fuel).
Proof.
  intros ps t ps'. unfold Parser.next. intros Hrun.
  apply bind_Ok in Hrun. destruct Hrun as ([] & p0 & [= <-] & Hrun).
  apply bind_Ok in Hrun. destruct Hrun as (peeked & p1 & [= <- <-] & Hrun).
  cbn in Hrun.
  destruct (Parser.S_peeked ps) as [t0 | ] eqn:Hpeeked.
  - apply bind_Ok in Hrun. destruct Hrun as ([] & p2 & [= <-] & Hrun).
    apply bind_Ok in Hrun. destruct Hrun as ([] & p3 & [= <-] & Hrun).
    injection Hrun as _ <-. cbn.
    split; [reflexivity | split; [lia | ] ].
    intros (_ & H2). split; cbn; [ | discriminate ].
    exact (H2 _ Hpeeked).
  - apply bind_Ok in Hrun. destruct Hrun as (t1 & p1 & Hin & Hrun).
    apply input_reads in Hin. destruct Hin as (Hp1 & Htext & Hpos & Heof).
    apply bind_Ok in Hrun. destruct Hrun as ([] & p2 & [= <-] & Hrun).
    injection Hrun as _ <-. rewrite Hp1. cbn in *.
    split; [exact Htext | split; [exact Hpos | ] ].
    intros _. split; cbn; [exact Heof | ].
    rewrite Hpeeked. discriminate.
Qed.

(** The second reading of a [/] as the start of a regexp, in
    [$statement]. *)
Lemma tracking_rescan (tokenizer_fuel : nat) :
  tracking
    (modify (Parser.set_peeked None) ;;
     t <- Parser.input tokenizer_fuel true ;;
     modify (Parser.set_token t)).
Proof.
  intros ps u ps' Hrun.
  apply bind_Ok in Hrun. destruct Hrun as ([] & p0 & [= <-] & Hrun).
  apply bind_Ok in Hrun. destruct Hrun as (t1 & p1 & Hin & Hrun).
  apply input_reads in Hin. destruct Hin as (Hp1 & Htext & Hpos & Heof).
  injection Hrun as _ <-. rewrite Hp1. cbn in *.
  split; [exact Htext | split; [exact Hpos | ] ].
  intros _. split; cbn; [exact Heof | discriminate ].
Qed.

Create HintDb track.

#[local] Hint Resolve tracking_ret tracking_gets tracking_croak
  tracking_unexpected tracking_token_error tracking_throw
  tracking_out_of_fuel tracking_peek tracking_next tracking_rescan : track.

(** One step through a parsing action. *)
Ltac track_step :=
  first
    [ solve [ auto with track nocore ]
    | apply tracking_modify; intros ?; cbn;
      repeat split; solve [ left; reflexivity | right; reflexivity ]
    | apply tracking_bind; [ | intros ? ]
    | match goal with
      | |- tracking (if ?b then _ else _) => destruct b
      | |- tracking (match ?x with _ => _ end) => destruct x
      end ].

Lemma tracking_is (type : string) (value : option string) :
  tracking (Parser.is_ type value).
Proof. apply tracking_gets. Qed.

Lemma tracking_token_value : tracking Parser.token_value_.
Proof. apply tracking_gets. Qed.

Lemma tracking_token_type : tracking Parser.token_type_.
Proof. apply tracking_gets. Qed.

Lemma tracking_prev : tracking Parser.prev.
Proof. apply tracking_gets. Qed.

#[local] Hint Resolve tracking_is tracking_token_value tracking_token_type
  tracking_prev : track.

Lemma tracking_expect_token (tokenizer_fuel : nat) (type : string)
  (val : option string) :
  tracking (Parser.expect_token tokenizer_fuel type val).
Proof. unfold Parser.expect_token. repeat track_step. Qed.

#[local] Hint Resolve tracking_expect_token : track.

Lemma tracking_expect (tokenizer_fuel : nat) (punc : string) :
  tracking (Parser.expect tokenizer_fuel punc).
Proof. unfold Parser.expect. auto with track nocore. Qed.

Lemma tracking_can_insert_semicolon (exigent_mode : bool) :
  tracking (Parser.can_insert_semicolon exigent_mode).
Proof. unfold Parser.can_insert_semicolon. repeat track_step. Qed.

#[local] Hint Resolve tracking_expect tracking_can_insert_semicolon
  : track.

Lemma tracking_semicolon (exigent_mode : bool) (tokenizer_fuel : nat) :
  tracking (Parser.semicolon exigent_mode tokenizer_fuel).
Proof. unfold Parser.semicolon. repeat track_step. Qed.

Lemma tracking_as_name (tokenizer_fuel : nat) :
  tracking (Parser.as_name tokenizer_fuel).
Proof. unfold Parser.as_name. repeat track_step. Qed.

#[local] Hint Resolve tracking_semicolon tracking_as_name : track.

Lemma tracking_as_property_name (tokenizer_fuel : nat) :
  tracking (Parser.as_property_name tokenizer_fuel).
Proof. unfold Parser.as_property_name. repeat track_step. Qed.

Lemma tracking_is_assignable (exigent_mode : bool) (expr : ast) :
  tracking (Parser.is_assignable exigent_mode expr).
Proof. unfold Parser.is_assignable. repeat track_step. Qed.

#[local] Hint Resolve tracking_as_property_name tracking_is_assignable
  : track.

Lemma tracking_make_unary (exigent_mode : bool) (tag : string)
  (op : token_value) (expr : ast) :
  tracking (Parser.make_unary exigent_mode tag op expr).
Proof. unfold Parser.make_unary. repeat track_step. Qed.

Lemma tracking_break_cont (exigent_mode : bool) (tokenizer_fuel : nat)
  (type : string) :
  tracking (Parser.break_cont exigent_mode tokenizer_fuel type).
Proof. unfold Parser.break_cont. repeat track_step. Qed.

Lemma tracking_function_params (tokenizer_fuel fuel : nat) :
  forall first a,
    tracking (Parser.function_params tokenizer_fuel fuel first a).
Proof.
  induction fuel as [| n IH]; intros first a;
    cbn [Parser.function_params]; repeat track_step.
Qed.

#[local] Hint Resolve tracking_make_unary tracking_break_cont
  tracking_function_params : track.

(** One step through a function of the parser. *)
Ltac tracker_step :=
  first
    [ solve [ auto with track nocore ]
    | track_step ].

#[local] Hint Resolve trk_statement trk_dollar_statement trk_parenthesised
  trk_labeled_statement trk_simple_statement trk_for_ trk_regular_for
  trk_for_in trk_function_ trk_dollar_function_ trk_if_ trk_block_
  trk_block_loop trk_switch_block_ trk_switch_loop trk_try_ trk_vardefs
  trk_var_ trk_const_ trk_new_ trk_expr_atom trk_expr_list trk_array_
  trk_object_ trk_object_loop trk_subscripts trk_expr_op trk_expr_ops
  trk_maybe_conditional trk_maybe_assign trk_expression : track.

(** Every function of the parser keeps track of the end of the text,
    whatever the fuel. *)
Lemma tracking_parser (exigent_mode embed_tokens : bool)
  (tokenizer_fuel fuel : nat) :
  tracking_calls
    (Parser.parser exigent_mode embed_tokens tokenizer_fuel fuel).
Proof.
  induction fuel as [| n IH].
  - constructor; intros; apply tracking_out_of_fuel.
  - cbn [Parser.parser].
    set (self := Parser.parser exigent_mode embed_tokens tokenizer_fuel n)
      in *.
    clearbody self.
    constructor; intros;
      cbn [Parser.call_statement Parser.call_dollar_statement
           Parser.call_parenthesised Parser.call_labeled_statement
           Parser.call_simple_statement Parser.call_for_
           Parser.call_regular_for Parser.call_for_in Parser.call_function_
           Parser.call_dollar_function_ Parser.call_if_ Parser.call_block_
           Parser.call_block_loop Parser.call_switch_block_
           Parser.call_switch_loop Parser.call_try_ Parser.call_vardefs
           Parser.call_var_ Parser.call_const_ Parser.call_new_
           Parser.call_expr_atom Parser.call_expr_list Parser.call_array_
           Parser.call_object_ Parser.call_object_loop
           Parser.call_subscripts Parser.call_expr_op Parser.call_expr_ops
           Parser.call_maybe_conditional Parser.call_maybe_assign
           Parser.call_expression];
      unfold Parser.statement, Parser.dollar_statement,
        Parser.parenthesised, Parser.simple_statement, Parser.in_loop,
        Parser.labeled_statement, Parser.dollar_function_, Parser.for_,
        Parser.regular_for, Parser.for_in, Parser.function_, Parser.if_,
        Parser.block_, Parser.block_loop, Parser.switch_block_,
        Parser.switch_loop, Parser.try_, Parser.vardefs, Parser.var_,
        Parser.const_, Parser.new_, Parser.expr_atom, Parser.expr_list,
        Parser.array_, Parser.object_, Parser.object_loop,
        Parser.subscripts, Parser.expr_op, Parser.expr_ops,
        Parser.maybe_conditional, Parser.maybe_assign, Parser.expression;
      cbv zeta;
      repeat tracker_step.
Qed.

(** The top-level loop stops at the [eof] token only. *)
Lemma toplevel_ends (exigent_mode embed_tokens : bool)
  (tokenizer_fuel fuel : nat) :
  forall acc ps a ps',
    Parser.toplevel exigent_mode embed_tokens tokenizer_fuel fuel acc ps
    = Ok (a, ps') ->
    tok_type (Parser.S_token ps') = "eof"
    /\ Tokenizer.text (Parser.S_input ps') = Tokenizer.text (Parser.S_input ps)
    /\ (eof_at_end ps -> eof_at_end ps').
Proof.
  induction fuel as [| n IH]; intros acc ps a ps' Hrun; [discriminate | ].
  cbn [Parser.toplevel] in Hrun.
  apply bind_Ok in Hrun. destruct Hrun as (at_eof & p1 & [= <- <-] & Hrun).
  destruct (is_token (Parser.S_token ps) "eof" None) eqn:Heof.
  - injection Hrun as _ <-. unfold is_token in Heof.
    apply andb_prop in Heof. destruct Heof as (Heof & _).
    apply String.eqb_eq in Heof. auto.
  - apply bind_Ok in Hrun. destruct Hrun as (s & p1 & Hstat & Hrun).
    assert (Htrk := trk_statement _
              (tracking_parser exigent_mode embed_tokens tokenizer_fuel
                 (S n))).
    cbn [Parser.parser Parser.call_statement] in Htrk.
    destruct (Htrk _ _ _ Hstat) as (Htext & _ & Hinv).
    destruct (IH _ _ _ _ Hrun) as (He & Htext' & Hinv').
    split; [exact He | split; [congruence | auto] ].
Qed.

(** X20. The parser reads the text to its end: when [parse] returns a
    program, the top-level loop behind it has stopped with [eof] as the
    current token and the tokenizer at the end of the text, so that every
    character of the text was read on the way.  A program is never
    returned for a part of the text only. *)
Theorem X20_parse_reads_all (TEXT : string)
  (exigent_mode embed_tokens : bool) (fuel : nat) (program : ast) :
  parse TEXT exigent_mode embed_tokens fuel = Ok program ->
  exists t ts a ps',
    Tokenizer.next_token fuel false (Tokenizer.tokenizer TEXT) = Ok (t, ts)
    /\ Parser.toplevel exigent_mode embed_tokens fuel fuel []
         (Parser.mkS ts t None None 0 0 [])
       = Ok (a, ps')
    /\ program = as_ [Str "toplevel"; Arr a]
    /\ tok_type (Parser.S_token ps') = "eof"
    /\ Tokenizer.text (Parser.S_input ps')
       = Tokenizer.text (Tokenizer.tokenizer TEXT)
    /\ String.length (Tokenizer.text (Parser.S_input ps'))
       <= Tokenizer.pos (Parser.S_input ps').
Proof.
  unfold parse.
  destruct (Tokenizer.next_token fuel false (Tokenizer.tokenizer TEXT))
    as [[t ts] | e | |] eqn:Hfirst; try discriminate.
  destruct (Parser.toplevel exigent_mode embed_tokens fuel fuel []
              (Parser.mkS ts t None None 0 0 []))
    as [[a ps'] | e | |] eqn:Hloop; try discriminate.
  intros [= <-]. exists t, ts, a, ps'.
  destruct (toplevel_ends _ _ _ _ _ _ _ _ Hloop) as (Heof & Htext & Hinv).
  destruct (advancing_next_token _ _ _ _ _ Hfirst) as (Htext0 & _).
  assert (Hstart : eof_at_end (Parser.mkS ts t None None 0 0 [])).
  { split; cbn; [ | discriminate ].
    destruct (scans_next_token _ _ _ _ _ Hfirst) as (_ & [(_ & H) | (H & _)]);
      [intros _; exact H | intros He; destruct (H He)]. }
  destruct (Hinv Hstart) as (Hend & _). specialize (Hend Heof).
  cbn in Htext. unfold remaining in Hend.
  split; [reflexivity | split; [exact Hloop | split; [reflexivity | ] ] ].
  split; [exact Heof | split; [congruence | lia] ].
Qed.

Lemma X20_witness :
  exists t ts a ps',
    Tokenizer.next_token 20 false (Tokenizer.tokenizer "f(x) /* end */")
    = Ok (t, ts)
    /\ Parser.toplevel false false 20 20 []
         (Parser.mkS ts t None None 0 0 [])
       = Ok (a, ps')
    /\ Arr [Str "toplevel";
            Arr [Arr [Str "stat";
                      Arr [Str "call"; Arr [Str "name"; Str "f"];
                           Arr [Arr [Str "name"; Str "x"]]]]]]
       = as_ [Str "toplevel"; Arr a]
    /\ tok_type (Parser.S_token ps') = "eof"
    /\ Tokenizer.text (Parser.S_input ps')
       = Tokenizer.text (Tokenizer.tokenizer "f(x) /* end */")
    /\ String.length (Tokenizer.text (Parser.S_input ps'))
       <= Tokenizer.pos (Parser.S_input ps').
Proof.
  apply (X20_parse_reads_all "f(x) /* end */" false false 20).
  vm_compute. reflexivity.
Defined.

(* ------------------------------------------------------------------ *)
(** ** The conditional operator *)

(** X21. The conditional operator binds looser than every binary operator
    and tighter than assignment, and nests to the right: for an operator
    [op] with a precedence and an assignment operator [v],
    [a op b ? c : d] is the conditional on [a op b], [a ? b : c op d] has
    [c op d] as its last branch, [a ? b : c ? d : e] has the second
    conditional as its last branch, and [x v a ? b : c] assigns the
    conditional to [x]. *)
Theorem X21_conditional_nesting (op v : string) (o : ast) (p k : nat) :
  PRECEDENCE op = Some p -> ASSIGNMENT v = Some o ->
  parse ("a " ++ op ++ " b ? c : d") false false (40 + k)
  = Ok (program_of
          (conditional_ (binary_ op (name_ "a") (name_ "b"))
             (name_ "c") (name_ "d")))
  /\ parse ("a ? b : c " ++ op ++ " d") false false (40 + k)
     = Ok (program_of
             (conditional_ (name_ "a") (name_ "b")
                (binary_ op (name_ "c") (name_ "d"))))
  /\ parse "a ? b : c ? d : e" false false (40 + k)
     = Ok (program_of
             (conditional_ (name_ "a") (name_ "b")
                (conditional_ (name_ "c") (name_ "d") (name_ "e"))))
  /\ parse ("x " ++ v ++ " a ? b : c") false false (40 + k)
     = Ok (program_of
             (assign_ o (name_ "x")
                (conditional_ (name_ "a") (name_ "b") (name_ "c")))).
Proof.
  intros Hop Hv.
  assert (Hin := PRECEDENCE_keys _ _ Hop). clear Hop.
  assert (Hinv := ASSIGNMENT_keys_In _ _ Hv).
  cbn [In] in Hin, Hinv.
  split; [ | split; [ | split ] ].
  - clear Hv Hinv.
    repeat (destruct Hin as [<- | Hin]; [vm_compute; reflexivity | ]).
    destruct Hin.
  - clear Hv Hinv.
    repeat (destruct Hin as [<- | Hin]; [vm_compute; reflexivity | ]).
    destruct Hin.
  - vm_compute. reflexivity.
  - clear Hin.
    repeat (destruct Hinv as [<- | Hinv];
            [vm_compute in Hv; injection Hv as <-; vm_compute; reflexivity
            | ]).
    destruct Hinv.
Qed.

Lemma X21_witness :
  parse "a || b ? c : d" false false 40
  = Ok (program_of
          (conditional_ (binary_ "||" (name_ "a") (name_ "b"))
             (name_ "c") (name_ "d")))
  /\ parse "a ? b : c || d" false false 40
     = Ok (program_of
             (conditional_ (name_ "a") (name_ "b")
                (binary_ "||" (name_ "c") (name_ "d"))))
  /\ parse "a ? b : c ? d : e" false false 40
     = Ok (program_of
             (conditional_ (name_ "a") (name_ "b")
                (conditional_ (name_ "c") (name_ "d") (name_ "e"))))
  /\ parse "x += a ? b : c" false false 40
     = Ok (program_of
             (assign_ (Str "+") (name_ "x")
                (conditional_ (name_ "a") (name_ "b") (name_ "c")))).
Proof.
  apply (X21_conditional_nesting "||" "+=" (Str "+") 1 0); reflexivity.
Defined.

(* ------------------------------------------------------------------ *)
(** ** Jumps out of place *)

Lemma bind_run {St A B : Type} (m : M St A) (k : A -> M St B) (s : St)
  (a : A) (s1 : St) :
  m s = Ok (a, s1) -> bind m k s = k a s1.
Proof. unfold bind. intros ->. reflexivity. Qed.

Lemma bind_throws {St A B : Type} (m : M St A) (k : A -> M St B) (s : St)
  (e : exn) :
  m s = Throw e -> bind m k s = Throw e.
Proof. unfold bind. intros ->. reflexivity. Qed.

(** An error in [$statement] is an error of [statement]. *)
Lemma statement_throws (embed_tokens : bool) (self : Parser.calls)
  (ps : Parser.state) (e : exn) :
  Parser.call_dollar_statement self ps = Throw e ->
  Parser.statement embed_tokens self ps = Throw e.
Proof.
  intros H. unfold Parser.statement. destruct embed_tokens; [ | exact H ].
  unfold bind at 1, gets at 1. apply bind_throws. exact H.
Qed.

(** After [next] the token it returned is the current one, and the
    nesting is as before. *)
Lemma next_current (tokenizer_fuel : nat) (ps : Parser.state) (t : Token)
  (ps1 : Parser.state) :
  Parser.next tokenizer_fuel ps = Ok (t, ps1) ->
  Parser.S_token ps1 = t /\ nesting ps1 = nesting ps.
Proof.
  intros Hnext. split; [ | exact (balanced_next _ _ _ _ Hnext) ].
  revert Hnext.
  unfold Parser.next, Parser.input, bind, gets, modify, ret.
  destruct ps as [inp tok prv [peeked | ] inf inl labels]; simpl.
  - intros [= <- <-]. reflexivity.
  - destruct (Tokenizer.next_token tokenizer_fuel false inp)
      as [[t0 ts] | e | |]; simpl; intros H; try discriminate H.
    injection H as <- <-. reflexivity.
Qed.

(** Run [$statement] at a keyword up to the choice it makes on the
    keyword: [Htype] and [Hval] say what the current token is, [Hnext]
    what [next] returns. *)
Ltac at_keyword Htype Hval Hnext :=
  cbn [Parser.parser Parser.call_statement]; apply statement_throws;
  cbn [Parser.parser Parser.call_dollar_statement];
  unfold Parser.dollar_statement;
  unfold bind at 1, Parser.is_ at 1, gets at 1, is_token; rewrite Htype;
  cbn [String.eqb Ascii.eqb Bool.eqb andb]; cbv beta iota;
  unfold bind at 1, ret at 1;
  unfold bind at 1, Parser.token_type_ at 1, gets at 1; rewrite Htype;
  cbn [String.eqb Ascii.eqb Bool.eqb orb]; cbv beta iota;
  unfold bind at 1, Parser.token_value_ at 1, gets at 1; rewrite Hval;
  rewrite (bind_run _ _ _ _ _ Hnext);
  cbn [value_is String.eqb Ascii.eqb Bool.eqb].

(** X22. Jumps out of place are errors.  At a keyword, [statement] reads
    the next token first; then [return] outside of every function,
    [break] and [continue] outside of every loop and [switch], and
    [break] and [continue] with a label that is not in scope raise a
    ParseError, placed at the token the tokenizer started last. *)
Theorem X22_jump_out_of_place (exigent_mode embed_tokens : bool)
  (tokenizer_fuel fuel : nat) (ps : Parser.state) (t : Token)
  (ps1 : Parser.state) :
  tok_type (Parser.S_token ps) = "keyword" ->
  Parser.next tokenizer_fuel ps = Ok (t, ps1) ->
  (tok_value (Parser.S_token ps) = VStr "return" ->
   Parser.S_in_function ps = 0 ->
   Parser.call_statement
     (Parser.parser exigent_mode embed_tokens tokenizer_fuel (S (S fuel))) ps
   = Throw (croaked "'return' outside of function" ps1))
  /\ (forall type,
        type = "break" \/ type = "continue" ->
        tok_value (Parser.S_token ps) = VStr type ->
        (tok_type t <> "name" -> Parser.S_in_loop ps = 0 ->
         Parser.call_statement
           (Parser.parser exigent_mode embed_tokens tokenizer_fuel
              (S (S fuel))) ps
         = Throw (croaked (type ++ " not inside a loop or switch") ps1))
        /\ (forall label t2 ps2,
              tok_type t = "name" -> tok_value t = VStr label ->
              Parser.next tokenizer_fuel ps1 = Ok (t2, ps2) ->
              member (VStr label) (Parser.S_labels ps) = false ->
              Parser.call_statement
                (Parser.parser exigent_mode embed_tokens tokenizer_fuel
                   (S (S fuel))) ps
              = Throw (croaked ("Label " ++ label
                                ++ " without matching loop or statement")
                         ps2))).
Proof.
  intros Htype Hnext.
  destruct (next_current _ _ _ _ Hnext) as (Htok & Hnest).
  unfold nesting in Hnest. injection Hnest as Hinf Hinl Hlabels.
  split; [ | intros type Hjump Hval; split ].
  - intros Hval Hfun. at_keyword Htype Hval Hnext.
    unfold bind at 1, gets at 1. rewrite Hinf, Hfun. reflexivity.
  - intros Hname Hloop.
    assert (Hrun : Parser.break_cont exigent_mode tokenizer_fuel type ps1
                   = Throw (croaked (type ++ " not inside a loop or switch")
                              ps1)).
    { unfold Parser.break_cont.
      unfold bind at 1, Parser.is_ at 1, gets at 1, is_token. rewrite Htok.
      apply String.eqb_neq in Hname. rewrite Hname.
      cbn [andb]. cbv beta iota.
      unfold bind at 1, Parser.token_value_ at 1, gets at 1. cbv beta iota.
      unfold bind at 1. unfold bind at 1, gets at 1.
      rewrite Hinl, Hloop. reflexivity. }
    destruct Hjump as [-> | ->]; at_keyword Htype Hval Hnext; exact Hrun.
  - intros label t2 ps2 Hname Hlabel Hnext2 Hmember.
    destruct (next_current _ _ _ _ Hnext2) as (_ & Hnest2).
    unfold nesting in Hnest2. injection Hnest2 as _ _ Hlabels2.
    assert (Hrun : Parser.break_cont exigent_mode tokenizer_fuel type ps1
                   = Throw (croaked ("Label " ++ label
                                     ++ " without matching loop or statement")
                              ps2)).
    { unfold Parser.break_cont.
      unfold bind at 1, Parser.is_ at 1, gets at 1, is_token. rewrite Htok.
      rewrite Hname. cbn [String.eqb Ascii.eqb Bool.eqb andb].
      cbv beta iota.
      unfold bind at 1, Parser.token_value_ at 1, gets at 1.
      rewrite Htok, Hlabel. cbv beta iota.
      unfold bind at 1. rewrite (bind_run _ _ _ _ _ Hnext2).
      unfold bind at 1, gets at 1. rewrite Hlabels2, Hlabels, Hmember.
      reflexivity. }
    destruct Hjump as [-> | ->]; at_keyword Htype Hval Hnext; exact Hrun.
Qed.

Lemma X22_witness :
  (exists ps t ps1,
     parser_at "return 1;" 20 = Some ps
     /\ Parser.next 20 ps = Ok (t, ps1)
     /\ Parser.call_statement (Parser.parser true false 20 2) ps
        = Throw (croaked "'return' outside of function" ps1)
     /\ croaked "'return' outside of function" ps1
        = ParseError (mkError "'return' outside of function" 0 7 7))
  /\ (exists ps t ps1,
        parser_at "break;" 20 = Some ps
        /\ Parser.next 20 ps = Ok (t, ps1)
        /\ Parser.call_statement (Parser.parser false false 20 2) ps
           = Throw (croaked "break not inside a loop or switch" ps1)
        /\ croaked "break not inside a loop or switch" ps1
           = ParseError (mkError "break not inside a loop or switch" 0 5 5))
  /\ (exists ps t ps1 t2 ps2,
        parser_at "continue out;" 20 = Some ps
        /\ Parser.next 20 ps = Ok (t, ps1)
        /\ Parser.next 20 ps1 = Ok (t2, ps2)
        /\ Parser.call_statement (Parser.parser false true 20 2) ps
           = Throw (croaked "Label out without matching loop or statement"
                      ps2)
        /\ croaked "Label out without matching loop or statement" ps2
           = ParseError
               (mkError "Label out without matching loop or statement"
                  0 12 12)).
Proof.
  split; [ | split ].
  - eexists. eexists. eexists.
    split; [vm_compute; reflexivity | ].
    match goal with
    | |- ?run = Ok (?t, ?p) /\ _ =>
        assert (Hnext : run = Ok (t, p)) by (vm_compute; reflexivity)
    end.
    split; [exact Hnext | ].
    split; [ | vm_compute; reflexivity ].
    assert (H := fun Htype =>
              X22_jump_out_of_place true false 20 0 _ _ _ Htype Hnext).
    exact (proj1 (H eq_refl) eq_refl eq_refl).
  - eexists. eexists. eexists.
    split; [vm_compute; reflexivity | ].
    match goal with
    | |- ?run = Ok (?t, ?p) /\ _ =>
        assert (Hnext : run = Ok (t, p)) by (vm_compute; reflexivity)
    end.
    split; [exact Hnext | ].
    split; [ | vm_compute; reflexivity ].
    assert (H := fun Htype =>
              X22_jump_out_of_place false false 20 0 _ _ _ Htype Hnext).
    apply (proj1 (proj2 (H eq_refl) "break" (or_introl eq_refl) eq_refl));
      [discriminate | reflexivity].
  - eexists. eexists. eexists. eexists. eexists.
    split; [vm_compute; reflexivity | ].
    match goal with
    | |- ?run = Ok (?t, ?p) /\ _ =>
        assert (Hnext : run = Ok (t, p)) by (vm_compute; reflexivity)
    end.
    split; [exact Hnext | ].
    match goal with
    | |- ?run = Ok (?t, ?p) /\ _ =>
        assert (Hnext2 : run = Ok (t, p)) by (vm_compute; reflexivity)
    end.
    split; [exact Hnext2 | ].
    split; [ | vm_compute; reflexivity ].
    assert (H := fun Htype =>
              X22_jump_out_of_place false true 20 0 _ _ _ Htype Hnext).
    exact (proj2 (proj2 (H eq_refl) "continue" (or_intror eq_refl) eq_refl)
             "out" _ _ eq_refl eq_refl Hnext2 eq_refl).
Defined.

(* ------------------------------------------------------------------ *)
(** ** Words *)

Lemma identifier_char_plain (c : ascii) :
  identifier_char c = true -> (String c "" =? BACKSLASH) = false.
Proof.
  intros H. apply String.eqb_neq. intros Heq.
  unfold identifier_char in H. rewrite Heq in H. discriminate H.
Qed.

(** [next_token] sends a character that may start an identifier to
    [read_word]. *)
Lemma identifier_start_dispatch (c : ascii) :
  identifier_start c = true ->
  HOP WHITESPACE_CHARS (String c "") = false
  /\ is_digit (String c "") = false
  /\ (String c "" =? DQUOTE) || (String c "" =? SQUOTE) = false
  /\ HOP PUNC_CHARS (String c "") = false
  /\ (String c "" =? ".") = false
  /\ (String c "" =? "/") = false
  /\ HOP OPERATOR_CHARS (String c "") = false.
Proof.
  destruct c as [[] [] [] [] [] [] [] []]; intros H;
    first [ discriminate H | repeat split; reflexivity ].
Qed.

(** [read_name]'s loop over the characters of a word. *)
Lemma read_name_from_word (s : string) :
  forall k name pre rest st,
    all_in identifier_char s = true ->
    word_ends rest = true ->
    stands_at st pre (s ++ rest) ->
    exists st',
      Tokenizer.read_name_from (String.length s + S k) false name st
      = Ok (name ++ s, st')
      /\ stands_at st' (pre ++ s) rest
      /\ token_start st' = token_start st.
Proof.
  induction s as [| c s' IH]; intros k name pre rest st Hs Hend Hat.
  - exists st. rewrite !append_nil_r.
    split; [ | split; [exact Hat | reflexivity] ].
    cbn [String.length Nat.add Tokenizer.read_name_from].
    unfold bind, Tokenizer.peek, gets. simpl in Hat.
    destruct rest as [| c rest'].
    + rewrite (peek_at_end _ _ Hat). reflexivity.
    + rewrite (peek_at _ _ _ _ Hat).
      cbn [word_ends] in Hend. apply andb_true_iff in Hend.
      destruct Hend as (Hc & Hb).
      apply negb_true_iff in Hc, Hb. unfold identifier_char in Hc.
      assert (Hnb : (String c "" =? BACKSLASH) = false).
      { apply String.eqb_neq. intros [= ->].
        rewrite Ascii.eqb_refl in Hb. discriminate Hb. }
      cbn [negb]. rewrite Hnb, Hc. reflexivity.
  - cbn [all_in] in Hs. apply andb_true_iff in Hs. destruct Hs as (Hc & Hs').
    destruct (next_at false st pre c (s' ++ rest) Hat)
      as (s1 & Hnext & Hat1 & Hstart1 & _).
    destruct (IH k (name ++ String c "") (pre ++ String c "") rest s1
                Hs' Hend Hat1) as (st' & Hrun & Hat' & Hstart').
    exists st'. split; [ | split ].
    + cbn [String.length Nat.add Tokenizer.read_name_from].
      unfold bind at 1, Tokenizer.peek at 1, gets at 1.
      rewrite (peek_at _ _ _ _ Hat). cbn [negb].
      rewrite (identifier_char_plain c Hc).
      unfold identifier_char in Hc. rewrite Hc.
      run_with Hnext. rewrite Hrun, append_assoc. reflexivity.
    + rewrite append_assoc in Hat'. exact Hat'.
    + congruence.
Qed.

(** X23. Words are read whole: in front of a word -- a character an
    identifier may start with, followed by characters an identifier may go
    on with -- that ends at the end of the text or at a character that is
    neither of these nor a backslash, [next_token] returns the token whose
    value is the word, of the type [read_word] gives it by the tables,
    placed where the word begins, and stands behind the word. *)
Theorem X23_word (c : ascii) (w pre rest : string) (fuel : nat)
  (st : Tokenizer.state) :
  identifier_start c = true ->
  all_in identifier_char w = true ->
  word_ends rest = true ->
  stands_at st pre (String c w ++ rest) ->
  String.length w + 3 < fuel ->
  exists t st',
    Tokenizer.next_token fuel false st = Ok (t, st')
    /\ tok_type t = word_type (String c w)
    /\ tok_value t = VStr (String c w)
    /\ tok_pos t = String.length pre
    /\ stands_at st' (pre ++ String c w) rest.
Proof.
  intros Hc Hw Hend Hat Hfuel.
  destruct (identifier_start_dispatch c Hc)
    as (Hws & Hdigit & Hquote & Hpunc & Hdot & Hslash & Hop).
  destruct fuel as [| [| m]]; [lia | lia | ].
  cbn [Tokenizer.next_token].
  assert (Hch : charAt (Tokenizer.text st) (Tokenizer.pos st) = String c "")
    by exact (peek_at _ _ _ _ Hat).
  rewrite next_token_body_dispatch by (rewrite Hch; exact Hws).
  rewrite Hch. unfold dispatch.
  change (is_empty (String c "")) with false.
  rewrite Hdigit, Hquote, Hpunc, Hdot, Hslash, Hop.
  unfold identifier_start in Hc. rewrite Hc, orb_true_r. cbv iota.
  assert (Hpos : Tokenizer.tokpos (token_started st) = String.length pre)
    by (destruct Hat as (_ & Hp); exact Hp).
  apply stands_at_started in Hat.
  assert (Hall : all_in identifier_char (String c w) = true).
  { cbn [all_in]. unfold identifier_char at 1.
    rewrite (is_identifier_start_char _ Hc). exact Hw. }
  destruct (read_name_from_word (String c w) (m - String.length (String c w))
              "" pre rest (token_started st) Hall Hend Hat)
    as (s1 & Hrun & Hat1 & Hstart1).
  replace (String.length (String c w)
           + S (m - String.length (String c w)))
    with (S m) in Hrun by (simpl; lia).
  change ("" ++ String c w) with (String c w) in Hrun.
  assert (Htok : forall type,
            exists t st',
              Tokenizer.token type (VStr (String c w)) false s1 = Ok (t, st')
              /\ tok_type t = type /\ tok_value t = VStr (String c w)
              /\ tok_pos t = String.length pre
              /\ stands_at st' (pre ++ String c w) rest).
  { intros type. unfold Tokenizer.token. eexists. eexists.
    split; [reflexivity | ]. cbn.
    unfold token_start in Hstart1. injection Hstart1 as _ _ _ Hp.
    split; [reflexivity | split; [reflexivity | split ] ];
      [rewrite Hp; exact Hpos | exact Hat1]. }
  destruct (Htok (word_type (String c w)))
    as (t & st' & Hrun' & Htype & Hvalue & Hplace & Hat').
  exists t, st'.
  split; [ | split; [exact Htype | split; [exact Hvalue | split;
                                            [exact Hplace | exact Hat'] ] ] ].
  unfold Tokenizer.read_word, Tokenizer.read_name. run_with Hrun.
  rewrite <- Hrun'. unfold word_type.
  destruct (negb (HOP KEYWORDS (String c w))); [reflexivity | ].
  destruct (HOP OPERATORS (String c w)); [reflexivity | ].
  destruct (HOP KEYWORDS_ATOM (String c w)); reflexivity.
Qed.

Lemma X23_witness :
  exists t st',
    Tokenizer.next_token 12 false
      (Tokenizer.mkS "x=typeof $y2;" 2 1 0 0 2 1 false true [])
    = Ok (t, st')
    /\ tok_type t = "operator"
    /\ tok_value t = VStr "typeof"
    /\ tok_pos t = 2
    /\ stands_at st' "x=typeof" " $y2;".
Proof.
  apply (X23_word "t" "ypeof" "x=" " $y2;" 12
           (Tokenizer.mkS "x=typeof $y2;" 2 1 0 0 2 1 false true []));
    first [ reflexivity | split; reflexivity | simpl; lia ].
Defined.

(* ------------------------------------------------------------------ *)
(** ** Regexp literals *)

(** [read_regexp]'s loop over characters that are neither a slash, nor a
    backslash, nor an opening bracket. *)
Lemma read_regexp_from_plain (s : string) :
  forall k acc pre rest st,
    has_char SLASH_char s = false ->
    has_char BACKSLASH_char s = false ->
    has_char LBRACKET_char s = false ->
    stands_at st pre (s ++ rest) ->
    exists st',
      Tokenizer.read_regexp_from (String.length s + k) false false acc st
      = Tokenizer.read_regexp_from k false false (acc ++ s) st'
      /\ stands_at st' (pre ++ s) rest
      /\ token_start st' = token_start st.
Proof.
  induction s as [| c s' IH]; intros k acc pre rest st Hs Hb Hl Hat.
  - exists st. rewrite !append_nil_r. auto.
  - apply has_char_cons in Hs, Hb, Hl. destruct Hs as (Hs & Hs').
    destruct Hb as (Hb & Hb'). destruct Hl as (Hl & Hl').
    destruct (next_at true st pre c (s' ++ rest) Hat)
      as (s1 & Hnext & Hat1 & Hstart1 & _).
    destruct (IH k (acc ++ String c "") (pre ++ String c "") rest s1
                Hs' Hb' Hl' Hat1) as (st' & Hrun & Hat' & Hstart').
    exists st'. split; [ | split ].
    + cbn [String.length Nat.add Tokenizer.read_regexp_from].
      run_with Hnext.
      change BACKSLASH with (String BACKSLASH_char "").
      change "[" with (String LBRACKET_char "").
      change "/" with (String SLASH_char "").
      rewrite Hl, Hs, Hb, andb_false_r. cbn [andb].
      rewrite Hrun, append_assoc. reflexivity.
    + rewrite append_assoc in Hat'. exact Hat'.
    + congruence.
Qed.

(** [read_regexp] in front of a plain body, the closing slash and the
    flags. *)
Lemma read_regexp_plain (body mods pre rest : string) (fuel : nat)
  (st : Tokenizer.state) :
  has_char SLASH_char body = false ->
  has_char BACKSLASH_char body = false ->
  has_char LBRACKET_char body = false ->
  all_in identifier_char mods = true ->
  word_ends rest = true ->
  stands_at st pre (body ++ String SLASH_char (mods ++ rest)) ->
  String.length body + String.length mods + 1 < fuel ->
  exists t st',
    Tokenizer.read_regexp fuel st = Ok (t, st')
    /\ tok_type t = "regexp"
    /\ tok_value t = VRegexp body mods
    /\ tok_pos t = Tokenizer.tokpos st
    /\ stands_at st' (pre ++ body ++ String SLASH_char mods) rest.
Proof.
  intros Hs Hb Hl Hmods Hend Hat Hfuel.
  destruct (read_regexp_from_plain body (fuel - String.length body) ""
              pre _ st Hs Hb Hl Hat) as (s1 & Hrun & Hat1 & Hstart1).
  replace (String.length body + (fuel - String.length body)) with fuel
    in Hrun by lia.
  destruct (next_at true s1 _ SLASH_char _ Hat1)
    as (s2 & Hnext & Hat2 & Hstart2 & _).
  destruct (read_name_from_word mods (fuel - String.length mods - 1) ""
              _ rest s2 Hmods Hend Hat2) as (s3 & Hname & Hat3 & Hstart3).
  replace (String.length mods + S (fuel - String.length mods - 1)) with fuel
    in Hname by lia.
  assert (Hpos : Tokenizer.tokpos s3 = Tokenizer.tokpos st).
  { rewrite Hstart2, Hstart1 in Hstart3. unfold token_start in Hstart3.
    injection Hstart3 as _ _ _ H. exact H. }
  exists (mkToken "regexp" (VRegexp body mods) (Tokenizer.tokline s3)
            (Tokenizer.tokcol s3) (Tokenizer.tokpos s3)
            (Tokenizer.newline_before s3)
            (Some (Tokenizer.comments_before s3))).
  eexists.
  split; [ | split; [reflexivity | split; [reflexivity | split;
                                            [exact Hpos | ] ] ] ].
  - unfold Tokenizer.read_regexp, Tokenizer.with_eof_error,
      Tokenizer.read_name.
    unfold bind at 1. rewrite Hrun.
    replace (fuel - String.length body)
      with (S (fuel - String.length body - 1)) by lia.
    cbn [Tokenizer.read_regexp_from]. run_with Hnext.
    change (String SLASH_char "") with "/".
    change ("/" =? "[") with false. change ("/" =? "]") with false.
    change ("/" =? "/") with true. cbn [andb negb]. cbv iota.
    unfold ret at 1.
    run_with Hname. change ("" ++ body) with body.
    change ("" ++ mods) with mods. unfold Tokenizer.token. reflexivity.
  - replace (((pre ++ body) ++ String SLASH_char "") ++ mods)
      with (pre ++ body ++ String SLASH_char mods) in Hat3
      by (rewrite !append_assoc; reflexivity).
    exact Hat3.
Qed.

(** X24. Regexp literals are read back as they stand, with flags that
    nobody checks: a body holding no slash, backslash or opening bracket,
    a slash, and flags made of any characters an identifier may go on
    with, ended like a word, give the [regexp] token of that body and
    those flags.  This is so when the parser forces a regexp (it has read
    the opening slash as an operator already), and when the tokenizer
    reads the opening slash itself where a regexp is allowed and the body
    does not begin with a star. *)
Theorem X24_regexp_literal (body mods pre rest : string) (fuel : nat)
  (st : Tokenizer.state) :
  has_char SLASH_char body = false ->
  has_char BACKSLASH_char body = false ->
  has_char LBRACKET_char body = false ->
  all_in identifier_char mods = true ->
  word_ends rest = true ->
  String.length body + String.length mods + 3 < fuel ->
  (stands_at st pre (body ++ String SLASH_char (mods ++ rest)) ->
   exists t st',
     Tokenizer.next_token fuel true st = Ok (t, st')
     /\ tok_type t = "regexp"
     /\ tok_value t = VRegexp body mods
     /\ stands_at st' (pre ++ body ++ String SLASH_char mods) rest)
  /\ (Tokenizer.regex_allowed st = true ->
      regexp_opens body = true ->
      stands_at st pre
        (String SLASH_char (body ++ String SLASH_char (mods ++ rest))) ->
      exists t st',
        Tokenizer.next_token fuel false st = Ok (t, st')
        /\ tok_type t = "regexp"
        /\ tok_value t = VRegexp body mods
        /\ tok_pos t = String.length pre
        /\ stands_at st'
             (pre ++ String SLASH_char (body ++ String SLASH_char mods))
             rest).
Proof.
  intros Hs Hb Hl Hmods Hend Hfuel.
  destruct fuel as [| [| m]]; [lia | lia | ].
  split.
  - intros Hat.
    destruct (read_regexp_plain body mods pre rest (S m) st
                Hs Hb Hl Hmods Hend Hat)
      as (t & st' & Hrun & Htype & Hvalue & _ & Hat'); [lia | ].
    exists t, st'. auto.
  - intros Hallowed Hopens Hat.
    cbn [Tokenizer.next_token].
    assert (Hch : charAt (Tokenizer.text st) (Tokenizer.pos st)
                  = String SLASH_char "") by exact (peek_at _ _ _ _ Hat).
    rewrite next_token_body_dispatch by (rewrite Hch; reflexivity).
    rewrite Hch. change (String SLASH_char "") with "/". unfold dispatch.
    change (is_empty "/") with false. change (is_digit "/") with false.
    change (("/" =? DQUOTE) || ("/" =? SQUOTE)) with false.
    change (HOP PUNC_CHARS "/") with false. change ("/" =? ".") with false.
    change ("/" =? "/") with true. cbv iota.
    assert (Hpos : Tokenizer.tokpos (token_started st) = String.length pre)
      by (destruct Hat as (_ & Hp); exact Hp).
    apply stands_at_started in Hat.
    destruct (next_at false _ pre SLASH_char _ Hat)
      as (s1 & Hnext & Hat1 & Hstart1 & _ & Hra1).
    destruct body as [| b body']; [discriminate Hopens | ].
    cbn [regexp_opens] in Hopens. apply negb_true_iff in Hopens.
    assert (Hb1 : charAt (Tokenizer.text s1) (Tokenizer.pos s1)
                  = String b "") by exact (peek_at _ _ _ _ Hat1).
    destruct (has_char_cons _ _ _ Hs) as (Hns & _).
    assert (Hnstar : (String b "" =? "*") = false).
    { apply String.eqb_neq. intros [= ->]. discriminate Hopens. }
    destruct (read_regexp_plain (String b body') mods
                (pre ++ String SLASH_char "") rest (S m) s1
                Hs Hb Hl Hmods Hend Hat1)
      as (t & st' & Hrun & Htype & Hvalue & Hplace & Hat'); [lia | ].
    exists t, st'.
    split; [ | split; [exact Htype | split; [exact Hvalue | split ] ] ].
    + unfold Tokenizer.handle_slash. run_with Hnext.
      unfold bind at 1, gets at 1.
      unfold bind at 1, Tokenizer.peek at 1, gets at 1. rewrite Hb1.
      change "/" with (String SLASH_char "") at 1. rewrite Hns, Hnstar.
      unfold bind at 1, gets at 1. rewrite Hra1.
      change (Tokenizer.regex_allowed (token_started st))
        with (Tokenizer.regex_allowed st).
      rewrite Hallowed. exact Hrun.
    + rewrite Hplace. unfold token_start in Hstart1.
      injection Hstart1 as _ _ _ H. rewrite H. exact Hpos.
    + rewrite append_assoc in Hat'. exact Hat'.
Qed.

Lemma X24_witness :
  (exists t st',
     Tokenizer.next_token 12 true
       (Tokenizer.mkS "x=/a+b/gq;" 3 2 0 0 3 2 false true [])
     = Ok (t, st')
     /\ tok_type t = "regexp"
     /\ tok_value t = VRegexp "a+b" "gq"
     /\ stands_at st' "x=/a+b/gq" ";")
  /\ (exists t st',
        Tokenizer.next_token 12 false
          (Tokenizer.mkS "x=/a+b/gq;" 2 1 0 0 2 1 false true [])
        = Ok (t, st')
        /\ tok_type t = "regexp"
        /\ tok_value t = VRegexp "a+b" "gq"
        /\ tok_pos t = 2
        /\ stands_at st' "x=/a+b/gq" ";").
Proof.
  split.
  - apply (proj1 (X24_regexp_literal "a+b" "gq" "x=/" ";" 12
                    (Tokenizer.mkS "x=/a+b/gq;" 3 2 0 0 3 2 false true [])
                    eq_refl eq_refl eq_refl eq_refl eq_refl
                    ltac:(simpl; lia))).
    split; reflexivity.
  - apply (proj2 (X24_regexp_literal "a+b" "gq" "x=" ";" 12
                    (Tokenizer.mkS "x=/a+b/gq;" 2 1 0 0 2 1 false true [])
                    eq_refl eq_refl eq_refl eq_refl eq_refl
                    ltac:(simpl; lia))); [reflexivity | reflexivity | ].
    split; reflexivity.
Defined.

(* ------------------------------------------------------------------ *)
(** ** The text of a comment *)

Lemma substring_append_here (a s r : string) :
  substring (String.length a) (String.length s) (a ++ s ++ r) = s.
Proof.
  induction a as [| c a' IH]; [ | exact IH ].
  change ("" ++ s ++ r) with (s ++ r). change (String.length "") with 0.
  induction s as [| c s' IHs]; simpl.
  - destruct r; reflexivity.
  - rewrite IHs. reflexivity.
Qed.

Lemma substr_append_here (a s : string) :
  substr (a ++ s) (String.length a) = s.
Proof.
  unfold substr. rewrite length_append.
  replace (String.length a + String.length s - String.length a)
    with (String.length s) by lia.
  rewrite <- (append_nil_r s) at 2. apply substring_append_here.
Qed.

(** Looking for [w] behind a prefix that is skipped. *)
Lemma index_skip (w a s : string) (n : nat) :
  String.index (String.length a + n) w (a ++ s)
  = option_map (Nat.add (String.length a)) (String.index n w s).
Proof.
  induction a as [| c a' IH].
  - simpl. destruct (String.index n w s); reflexivity.
  - cbn [String.length Nat.add append String.index]. rewrite IH.
    destruct (String.index n w s); reflexivity.
Qed.

Lemma index_LF_none (s : string) :
  has_char LF_char s = false -> String.index 0 LF s = None.
Proof.
  unfold LF, LF_char. induction s as [| c s' IH]; [reflexivity | ].
  intros H. cbn [has_char] in H. apply orb_false_iff in H.
  destruct H as (Hc & Hs').
  cbn [String.index String.prefix]. rewrite (IH Hs').
  destruct (ascii_dec (ascii_of_nat 10) c) as [<- | _]; [ | reflexivity ].
  rewrite Ascii.eqb_refl in Hc. discriminate Hc.
Qed.

Lemma index_LF_found (s r : string) :
  has_char LF_char s = false ->
  String.index 0 LF (s ++ String LF_char r) = Some (String.length s).
Proof.
  unfold LF, LF_char. induction s as [| c s' IH].
  - intros _. cbn [append String.index String.prefix].
    destruct (ascii_dec (ascii_of_nat 10) (ascii_of_nat 10)) as [_ | Hne];
      [destruct r; reflexivity | destruct Hne; reflexivity].
  - intros H. cbn [has_char] in H. apply orb_false_iff in H.
    destruct H as (Hc & Hs').
    cbn [append String.index String.prefix String.length]. rewrite (IH Hs').
    destruct (ascii_dec (ascii_of_nat 10) c) as [<- | _]; [ | reflexivity ].
    rewrite Ascii.eqb_refl in Hc. discriminate Hc.
Qed.

(** The first [*/] behind a text that holds none. *)
Lemma index_close_found (s r : string) :
  String.index 0 "*/" s = None ->
  String.index 0 "*/" (s ++ "*/" ++ r) = Some (String.length s).
Proof.
  change ("*/" ++ r) with (String "*" (String "/" r)).
  induction s as [| c s' IH]; [intros _; destruct r; reflexivity | ].
  cbn [append String.index String.length].
  destruct (String.index 0 "*/" s') as [i | ] eqn:Hi;
    [destruct (String.prefix "*/" (String c s')); discriminate | ].
  rewrite (IH eq_refl).
  destruct (String.prefix "*/" (String c s')) eqn:Hp; [discriminate | ].
  intros _.
  replace (String.prefix "*/" (String c (s' ++ String "*" (String "/" r))))
    with false; [reflexivity | ].
  transitivity (String.prefix "*/" (String c s')); [symmetry; exact Hp | ].
  cbn [String.prefix].
  destruct (ascii_dec "*" c); [ | reflexivity ].
  destruct s' as [| d s'']; [reflexivity | ].
  cbn [append String.prefix].
  destruct (ascii_dec "/" d); [ | reflexivity ].
  destruct s''; reflexivity.
Qed.

Lemma index_LF_some (s : string) :
  has_char LF_char s = true -> exists j, String.index 0 LF s = Some j.
Proof.
  unfold LF, LF_char. induction s as [| c s' IH]; [discriminate | ].
  cbn [has_char String.index String.prefix]. intros H.
  destruct (ascii_dec (ascii_of_nat 10) c) as [<- | Hne].
  - exists 0. destruct s'; reflexivity.
  - destruct (Ascii.eqb (ascii_of_nat 10) c) eqn:Heq;
      [apply Ascii.eqb_eq in Heq; destruct (Hne Heq) | ].
    destruct (IH H) as (j & ->). exists (S j). reflexivity.
Qed.

(** A character that is no line feed leaves the line and the flag as they
    are. *)
Lemma next_same_line (signal_eof : bool) (st : Tokenizer.state)
  (ch : string) (st' : Tokenizer.state) :
  Tokenizer.next signal_eof st = Ok (ch, st') ->
  (ch =? LF) = false ->
  Tokenizer.line st' = Tokenizer.line st
  /\ Tokenizer.newline_before st' = Tokenizer.newline_before st.
Proof.
  unfold Tokenizer.next.
  destruct (signal_eof && _); [discriminate | ].
  destruct (_ =? LF) eqn:Hlf; intros [= <- <-] H; [congruence | ].
  split; reflexivity.
Qed.

(** [read_line_comment], standing at the second slash. *)
Lemma read_line_comment_at (st : Tokenizer.state) (pre body rest : string) :
  has_char LF_char body = false ->
  line_ends rest = true ->
  stands_at st pre (String SLASH_char (body ++ rest)) ->
  exists st',
    Tokenizer.read_line_comment st
    = Ok (mkToken "comment1" (VStr body) (Tokenizer.tokline st)
            (Tokenizer.tokcol st) (Tokenizer.tokpos st)
            (Tokenizer.newline_before st) None, st')
    /\ stands_at st' (pre ++ String SLASH_char body) rest
    /\ Tokenizer.comments_before st' = Tokenizer.comments_before st
    /\ Tokenizer.line st' = Tokenizer.line st
    /\ Tokenizer.newline_before st' = false.
Proof.
  intros Hbody Hend Hat.
  destruct (next_at false st pre SLASH_char _ Hat)
    as (s1 & Hnext & Hat1 & Hstart1 & Hcb1 & _).
  destruct (next_same_line _ _ _ _ Hnext eq_refl) as (Hline1 & Hnl1).
  unfold token_start in Hstart1. injection Hstart1 as Htext1 Htl1 Htc1 Htp1.
  assert (Hfind : Tokenizer.find LF false s1
                  = Ok (match rest with
                        | "" => None
                        | String _ _ =>
                            Some (String.length (pre ++ String SLASH_char "")
                                  + String.length body)
                        end, s1)).
  { unfold Tokenizer.find, indexOf. destruct Hat1 as (Ht1 & Hp1).
    rewrite Ht1, Hp1.
    rewrite <- (Nat.add_0_r (String.length (pre ++ String SLASH_char ""))).
    rewrite index_skip.
    destruct rest as [| c rest'].
    - rewrite append_nil_r, (index_LF_none _ Hbody). reflexivity.
    - cbn [line_ends] in Hend. apply Ascii.eqb_eq in Hend. subst c.
      rewrite (index_LF_found _ _ Hbody). cbn [option_map].
      rewrite Nat.add_0_r. reflexivity. }
  destruct Hat1 as (Ht1 & Hp1).
  assert (Hsplit : (pre ++ String SLASH_char "") ++ body ++ rest
                   = (pre ++ String SLASH_char body) ++ rest)
    by (rewrite !append_assoc; reflexivity).
  unfold Tokenizer.read_line_comment.
  rewrite (bind_run _ _ _ _ _ Hnext), (bind_run _ _ _ _ _ Hfind).
  unfold bind at 1, get at 1.
  destruct rest as [| c rest'].
  - eexists. split; [ | split; [ | split; [ | split ] ] ].
    + assert (Hsub : substr (Tokenizer.text s1) (Tokenizer.pos s1) = body)
        by (rewrite Ht1, Hp1, append_nil_r; apply substr_append_here).
      rewrite Hsub. unfold bind, modify, Tokenizer.token. cbn.
      rewrite Htl1, Htc1, Htp1, Hnl1. reflexivity.
    + split; cbn; [rewrite Ht1; exact Hsplit | ].
      rewrite Ht1, Hsplit, append_nil_r. reflexivity.
    + cbn. exact Hcb1.
    + cbn. exact Hline1.
    + reflexivity.
  - eexists. split; [ | split; [ | split; [ | split ] ] ].
    + assert (Hsub : substring_js (Tokenizer.text s1) (Tokenizer.pos s1)
                       (String.length (pre ++ String SLASH_char "")
                        + String.length body) = body).
      { unfold substring_js. rewrite Ht1, Hp1.
        replace (String.length (pre ++ String SLASH_char "")
                 + String.length body
                 - String.length (pre ++ String SLASH_char ""))
          with (String.length body) by lia.
        apply substring_append_here. }
      rewrite Hsub. unfold bind, modify, Tokenizer.token. cbn.
      rewrite Htl1, Htc1, Htp1, Hnl1. reflexivity.
    + split; cbn; [rewrite Ht1; exact Hsplit | ].
      rewrite !length_append. simpl. lia.
    + cbn. exact Hcb1.
    + cbn. exact Hline1.
    + reflexivity.
Qed.

(** [read_multiline_comment], standing at the star. *)
Lemma read_multiline_comment_at (st : Tokenizer.state)
  (pre body rest : string) :
  String.index 0 "*/" body = None ->
  stands_at st pre (String STAR_char (body ++ "*/" ++ rest)) ->
  exists st',
    Tokenizer.read_multiline_comment st
    = Ok (mkToken "comment2" (VStr body) (Tokenizer.tokline st)
            (Tokenizer.tokcol st) (Tokenizer.tokpos st)
            (Tokenizer.newline_before st) None, st')
    /\ stands_at st' (pre ++ String STAR_char (body ++ "*/")) rest
    /\ Tokenizer.comments_before st' = Tokenizer.comments_before st
    /\ Tokenizer.line st' = Tokenizer.line st + count_LF body
    /\ Tokenizer.newline_before st' = has_char LF_char body.
Proof.
  intros Hbody Hat.
  destruct (next_at false st pre STAR_char _ Hat)
    as (s1 & Hnext & Hat1 & Hstart1 & Hcb1 & _).
  destruct (next_same_line _ _ _ _ Hnext eq_refl) as (Hline1 & Hnl1).
  unfold token_start in Hstart1. injection Hstart1 as Htext1 Htl1 Htc1 Htp1.
  destruct Hat1 as (Ht1 & Hp1).
  assert (Hfind : Tokenizer.find "*/" true s1
                  = Ok (Some (String.length (pre ++ String STAR_char "")
                              + String.length body), s1)).
  { unfold Tokenizer.find, indexOf. rewrite Ht1, Hp1.
    rewrite <- (Nat.add_0_r (String.length (pre ++ String STAR_char ""))).
    rewrite index_skip, (index_close_found _ _ Hbody). cbn [option_map].
    rewrite Nat.add_0_r. reflexivity. }
  assert (Hsub : substring_js (Tokenizer.text s1) (Tokenizer.pos s1)
                   (String.length (pre ++ String STAR_char "")
                    + String.length body) = body).
  { unfold substring_js. rewrite Ht1, Hp1.
    replace (String.length (pre ++ String STAR_char "")
             + String.length body
             - String.length (pre ++ String STAR_char ""))
      with (String.length body) by lia.
    apply substring_append_here. }
  assert (Hflag : match indexOf body LF 0 with
                  | Some _ => true
                  | None => false
                  end = has_char LF_char body).
  { unfold indexOf. destruct (has_char LF_char body) eqn:Hlf.
    - destruct (index_LF_some _ Hlf) as (j & ->). reflexivity.
    - rewrite (index_LF_none _ Hlf). reflexivity. }
  eexists. split; [ | split; [ | split; [ | split ] ] ].
  - unfold Tokenizer.read_multiline_comment.
    rewrite (bind_run _ _ _ _ _ Hnext). unfold Tokenizer.with_eof_error.
    rewrite (bind_run _ _ _ _ _ Hfind).
    unfold bind at 1, get at 1. rewrite Hsub, Hflag.
    unfold bind, modify, ret, Tokenizer.token. cbn.
    rewrite Htl1, Htc1, Htp1, Hnl1. reflexivity.
  - split; cbn.
    + rewrite Ht1. rewrite !append_assoc. simpl. rewrite !append_assoc.
      reflexivity.
    + rewrite !length_append. simpl. rewrite !length_append. simpl. lia.
  - cbn. exact Hcb1.
  - cbn. rewrite Hline1. reflexivity.
  - reflexivity.
Qed.

(** A block comment that is not closed. *)
Lemma read_multiline_comment_open (st : Tokenizer.state)
  (pre body : string) :
  String.index 0 "*/" body = None ->
  stands_at st pre (String STAR_char body) ->
  Tokenizer.read_multiline_comment st
  = Throw (ParseError
             (mkError "Unterminated multiline comment" (Tokenizer.tokline st)
                (Tokenizer.tokcol st) (Tokenizer.tokpos st))).
Proof.
  intros Hbody Hat.
  destruct (next_at false st pre STAR_char _ Hat)
    as (s1 & Hnext & Hat1 & Hstart1 & _).
  unfold token_start in Hstart1. injection Hstart1 as _ Htl1 Htc1 Htp1.
  destruct Hat1 as (Ht1 & Hp1).
  assert (Hfind : Tokenizer.find "*/" true s1 = Throw EX_EOF).
  { unfold Tokenizer.find, indexOf. rewrite Ht1, Hp1.
    rewrite <- (Nat.add_0_r (String.length (pre ++ String STAR_char ""))).
    rewrite index_skip, Hbody. reflexivity. }
  unfold Tokenizer.read_multiline_comment.
  rewrite (bind_run _ _ _ _ _ Hnext). unfold Tokenizer.with_eof_error.
  rewrite (bind_throws _ _ _ _ Hfind). unfold Tokenizer.parse_error.
  rewrite Htl1, Htc1, Htp1. reflexivity.
Qed.

(** In front of a slash, [next_token] goes to [handle_slash]. *)
Lemma slash_scanned (fuel : nat) (st : Tokenizer.state)
  (pre rest : string) :
  stands_at st pre (String SLASH_char rest) ->
  forall self,
    Tokenizer.next_token_body (S fuel) self false st
    = Tokenizer.handle_slash (S fuel) (self false) (token_started st).
Proof.
  intros Hat self. assert (Hch := peek_at _ _ _ _ Hat).
  rewrite next_token_body_dispatch; rewrite Hch; reflexivity.
Qed.

(** [handle_slash] in front of a comment: the comment is read, put at the
    end of the buffer, and [next_token] is called back with the flag
    [regex_allowed] as it was. *)
Lemma handle_slash_comment (fuel : nat) (k : Tokenizer.T Token)
  (st : Tokenizer.state) (pre : string) (c : ascii) (rest : string)
  (read_comment : Tokenizer.T Token) :
  stands_at st pre (String SLASH_char (String c rest)) ->
  (c = SLASH_char /\ read_comment = Tokenizer.read_line_comment)
  \/ (c = STAR_char /\ read_comment = Tokenizer.read_multiline_comment) ->
  exists s1,
    Tokenizer.next false st = Ok ("/", s1)
    /\ stands_at s1 (pre ++ String SLASH_char "") (String c rest)
    /\ token_start s1 = token_start st
    /\ Tokenizer.comments_before s1 = Tokenizer.comments_before st
    /\ Tokenizer.line s1 = Tokenizer.line st
    /\ Tokenizer.newline_before s1 = Tokenizer.newline_before st
    /\ Tokenizer.handle_slash fuel k st
       = (cm <- read_comment ;;
          modify (Tokenizer.push_comment cm) ;;
          modify (Tokenizer.set_regex_allowed (Tokenizer.regex_allowed st)) ;;
          k) s1.
Proof.
  intros Hat Hkind.
  destruct (next_at false st pre SLASH_char _ Hat)
    as (s1 & Hnext & Hat1 & Hstart1 & Hcb1 & Hra1).
  destruct (next_same_line _ _ _ _ Hnext eq_refl) as (Hline1 & Hnl1).
  exists s1. repeat (split; [assumption | ]).
  unfold Tokenizer.handle_slash. rewrite (bind_run _ _ _ _ _ Hnext).
  unfold bind at 1, gets at 1.
  unfold bind at 1, Tokenizer.peek at 1, gets at 1.
  rewrite (peek_at _ _ _ _ Hat1), Hra1.
  destruct Hkind as [(-> & ->) | (-> & ->)]; reflexivity.
Qed.

Lemma next_col (signal_eof : bool) (st : Tokenizer.state) (ch : string)
  (st' : Tokenizer.state) :
  Tokenizer.next signal_eof st = Ok (ch, st') ->
  (ch =? LF) = false ->
  Tokenizer.col st' = S (Tokenizer.col st).
Proof.
  unfold Tokenizer.next.
  destruct (signal_eof && _); [discriminate | ].
  destruct (_ =? LF) eqn:Hlf; intros [= <- <-] H; [congruence | ].
  reflexivity.
Qed.

(** A comment moves the position to its end, and the column by the one
    character [next] has read. *)
Lemma read_line_comment_col (st : Tokenizer.state) (t : Token)
  (st' : Tokenizer.state) :
  Tokenizer.read_line_comment st = Ok (t, st') ->
  (charAt (Tokenizer.text st) (Tokenizer.pos st) =? LF) = false ->
  Tokenizer.col st' = S (Tokenizer.col st).
Proof.
  intros Hrun Hch. unfold Tokenizer.read_line_comment in Hrun.
  inv_bind Hrun.
  assert (Hcol := next_col _ _ _ _ Hrun0).
  assert (Ha : a = charAt (Tokenizer.text st) (Tokenizer.pos st)).
  { unfold Tokenizer.next in Hrun0.
    destruct (false && _); [discriminate | ].
    destruct (_ =? LF); injection Hrun0 as <- _; reflexivity. }
  rewrite Ha in Hcol. specialize (Hcol Hch). rewrite <- Hcol.
  inv_bind Hrun.
  assert (Hs : s0 = s).
  { unfold Tokenizer.find in Hrun1.
    destruct (indexOf _ _ _); injection Hrun1 as _ <-; reflexivity. }
  subst s0.
  unfold bind, get, modify, Tokenizer.token in Hrun.
  destruct a0; injection Hrun as _ <-; reflexivity.
Qed.

Lemma read_multiline_comment_col (st : Tokenizer.state) (t : Token)
  (st' : Tokenizer.state) :
  Tokenizer.read_multiline_comment st = Ok (t, st') ->
  (charAt (Tokenizer.text st) (Tokenizer.pos st) =? LF) = false ->
  Tokenizer.col st' = S (Tokenizer.col st).
Proof.
  intros Hrun Hch. unfold Tokenizer.read_multiline_comment in Hrun.
  inv_bind Hrun.
  assert (Hcol := next_col _ _ _ _ Hrun0).
  assert (Ha : a = charAt (Tokenizer.text st) (Tokenizer.pos st)).
  { unfold Tokenizer.next in Hrun0.
    destruct (false && _); [discriminate | ].
    destruct (_ =? LF); injection Hrun0 as <- _; reflexivity. }
  rewrite Ha in Hcol. specialize (Hcol Hch). rewrite <- Hcol.
  unfold Tokenizer.with_eof_error, bind, Tokenizer.find in Hrun.
  destruct (indexOf _ _ _) as [i | ]; [ | discriminate ].
  unfold get, modify, Tokenizer.token, ret in Hrun.
  injection Hrun as _ <-. reflexivity.
Qed.

(** X25. The text of a line comment: in front of [//], a text [body]
    without line feed, and then a line feed or the end of the text,
    [next_token] behaves as [next_token] in the state in which [body] --
    all of it, and nothing else -- has been put at the end of the comment
    buffer as a [comment1] token.  The token has the position of the first
    slash, and the line and the column the tokenizer has counted up to
    there.  The tokenizer then stands in front of the line feed, which it
    has not read, with [regex_allowed] and the line as they were; its
    column has moved by the two slashes and not by [body]. *)
Theorem X25_line_comment (body pre rest : string) (fuel : nat)
  (st : Tokenizer.state) :
  has_char LF_char body = false ->
  line_ends rest = true ->
  stands_at st pre (String SLASH_char (String SLASH_char (body ++ rest))) ->
  exists st1,
    Tokenizer.next_token (S (S fuel)) false st
    = Tokenizer.next_token (S fuel) false st1
    /\ Tokenizer.comments_before st1
       = (Tokenizer.comments_before st
          ++ [mkToken "comment1" (VStr body) (Tokenizer.line st)
                (Tokenizer.col st) (String.length pre)
                (Tokenizer.newline_before st) None])%list
    /\ stands_at st1 (pre ++ String SLASH_char (String SLASH_char body)) rest
    /\ Tokenizer.regex_allowed st1 = Tokenizer.regex_allowed st
    /\ Tokenizer.line st1 = Tokenizer.line st
    /\ Tokenizer.col st1 = Tokenizer.col st + 2
    /\ Tokenizer.newline_before st1 = false.
Proof.
  intros Hbody Hend Hat. rewrite <- (proj2 Hat).
  change (Tokenizer.next_token (S (S fuel)) false st)
      with (Tokenizer.next_token_body (S fuel)
              (Tokenizer.next_token (S fuel)) false st).
    rewrite (slash_scanned _ _ _ _ Hat).
  apply stands_at_started in Hat.
  destruct (handle_slash_comment (S fuel)
              (Tokenizer.next_token (S fuel) false) _ pre SLASH_char
              (body ++ rest) Tokenizer.read_line_comment Hat
              (or_introl (conj eq_refl eq_refl)))
    as (s1 & Hnext & Hat1 & Hstart1 & Hcb1 & Hline1 & Hnl1 & Hrun).
  rewrite Hrun.
  destruct (read_line_comment_at s1 _ body rest Hbody Hend Hat1)
    as (s2 & Hread & Hat2 & Hcb2 & Hline2 & Hnl2).
  assert (Hcol1 := next_col _ _ _ _ Hnext eq_refl).
  assert (Hcol2 := read_line_comment_col _ _ _ Hread).
  rewrite (peek_at _ _ _ _ Hat1) in Hcol2. specialize (Hcol2 eq_refl).
  rewrite (bind_run _ _ _ _ _ Hread).
  unfold bind at 1, modify at 1. unfold bind at 1, modify at 1.
  unfold token_start in Hstart1. injection Hstart1 as _ Htl1 Htc1 Htp1.
  assert (Hsplit : (pre ++ String SLASH_char "") ++ String SLASH_char body
                   = pre ++ String SLASH_char (String SLASH_char body))
    by (rewrite append_assoc; reflexivity).
  rewrite Hsplit in Hat2.
  eexists. split; [reflexivity | ].
  split; [cbn; rewrite Hcb2, Hcb1, Htl1, Htc1, Htp1, Hnl1; reflexivity | ].
  split; [exact Hat2 | ].
  split; [reflexivity | ].
  split; [cbn; rewrite Hline2, Hline1; reflexivity | ].
  split; [cbn; rewrite Hcol2, Hcol1; cbn; lia | exact Hnl2].
Qed.

(** In [/*c*/ //d] the line comment begins at the seventh character, and
    the tokenizer has counted three columns. *)
Lemma X25_witness :
  exists st1,
    Tokenizer.next_token 12 false
      (Tokenizer.mkS "/*c*/ //d" 6 0 0 0 3 0 false false
         [mkToken "comment2" (VStr "c") 0 0 0 false None])
    = Tokenizer.next_token 11 false st1
    /\ Tokenizer.comments_before st1
       = [mkToken "comment2" (VStr "c") 0 0 0 false None;
          mkToken "comment1" (VStr "d") 0 3 6 false None]
    /\ stands_at st1 "/*c*/ //d" ""
    /\ Tokenizer.regex_allowed st1 = false
    /\ Tokenizer.line st1 = 0
    /\ Tokenizer.col st1 = 5
    /\ Tokenizer.newline_before st1 = false.
Proof.
  apply (X25_line_comment "d" "/*c*/ " "" 10
           (Tokenizer.mkS "/*c*/ //d" 6 0 0 0 3 0 false false
              [mkToken "comment2" (VStr "c") 0 0 0 false None]));
    first [ reflexivity | split; reflexivity ].
Defined.

(** X26. The text of a block comment: in front of [/*], a text [body]
    that holds no [*/], and [*/], [next_token] behaves as [next_token] in
    the state in which [body] has been put at the end of the comment
    buffer as a [comment2] token.  The token has the position of the
    slash, and the line and the column the tokenizer has counted up to
    there.  The tokenizer then stands behind the closing [*/], the line
    feeds of [body] counted, with [newline_before] telling whether [body]
    holds a line feed and [regex_allowed] as it was; its column has moved
    by the two characters [/*] only, whatever [body] holds.  When the text
    ends before any [*/], the ParseError "Unterminated multiline comment"
    is raised, with the position of the slash and the line and the column
    counted up to there. *)
Theorem X26_block_comment (body pre : string) (fuel : nat)
  (st : Tokenizer.state) :
  String.index 0 "*/" body = None ->
  (forall rest,
     stands_at st pre
       (String SLASH_char (String STAR_char (body ++ "*/" ++ rest))) ->
     exists st1,
       Tokenizer.next_token (S (S fuel)) false st
       = Tokenizer.next_token (S fuel) false st1
       /\ Tokenizer.comments_before st1
          = (Tokenizer.comments_before st
             ++ [mkToken "comment2" (VStr body) (Tokenizer.line st)
                   (Tokenizer.col st) (String.length pre)
                   (Tokenizer.newline_before st) None])%list
       /\ stands_at st1
            (pre ++ String SLASH_char (String STAR_char (body ++ "*/"))) rest
       /\ Tokenizer.regex_allowed st1 = Tokenizer.regex_allowed st
       /\ Tokenizer.line st1 = Tokenizer.line st + count_LF body
       /\ Tokenizer.col st1 = Tokenizer.col st + 2
       /\ Tokenizer.newline_before st1 = has_char LF_char body)
  /\ (stands_at st pre (String SLASH_char (String STAR_char body)) ->
      Tokenizer.next_token (S (S fuel)) false st
      = Throw (ParseError
                 (mkError "Unterminated multiline comment"
                    (Tokenizer.line st) (Tokenizer.col st)
                    (String.length pre)))).
Proof.
  intros Hbody. split.
  - intros rest Hat. rewrite <- (proj2 Hat).
    change (Tokenizer.next_token (S (S fuel)) false st)
      with (Tokenizer.next_token_body (S fuel)
              (Tokenizer.next_token (S fuel)) false st).
    rewrite (slash_scanned _ _ _ _ Hat).
    apply stands_at_started in Hat.
    destruct (handle_slash_comment (S fuel)
                (Tokenizer.next_token (S fuel) false) _ pre STAR_char
                (body ++ "*/" ++ rest) Tokenizer.read_multiline_comment Hat
                (or_intror (conj eq_refl eq_refl)))
      as (s1 & Hnext & Hat1 & Hstart1 & Hcb1 & Hline1 & Hnl1 & Hrun).
    rewrite Hrun.
    destruct (read_multiline_comment_at s1 _ body rest Hbody Hat1)
      as (s2 & Hread & Hat2 & Hcb2 & Hline2 & Hnl2).
    assert (Hcol1 := next_col _ _ _ _ Hnext eq_refl).
    assert (Hcol2 := read_multiline_comment_col _ _ _ Hread).
    rewrite (peek_at _ _ _ _ Hat1) in Hcol2. specialize (Hcol2 eq_refl).
    rewrite (bind_run _ _ _ _ _ Hread).
    unfold bind at 1, modify at 1. unfold bind at 1, modify at 1.
    unfold token_start in Hstart1. injection Hstart1 as _ Htl1 Htc1 Htp1.
    assert (Hsplit : (pre ++ String SLASH_char "")
                     ++ String STAR_char (body ++ "*/")
                     = pre ++ String SLASH_char
                                (String STAR_char (body ++ "*/")))
      by (rewrite append_assoc; reflexivity).
    rewrite Hsplit in Hat2.
    eexists. split; [reflexivity | ].
    split; [cbn; rewrite Hcb2, Hcb1, Htl1, Htc1, Htp1, Hnl1; reflexivity | ].
    split; [exact Hat2 | ].
    split; [reflexivity | ].
    split; [cbn; rewrite Hline2, Hline1; reflexivity | ].
    split; [cbn; rewrite Hcol2, Hcol1; cbn; lia | exact Hnl2].
  - intros Hat. rewrite <- (proj2 Hat).
    change (Tokenizer.next_token (S (S fuel)) false st)
      with (Tokenizer.next_token_body (S fuel)
              (Tokenizer.next_token (S fuel)) false st).
    rewrite (slash_scanned _ _ _ _ Hat).
    apply stands_at_started in Hat.
    destruct (handle_slash_comment (S fuel)
                (Tokenizer.next_token (S fuel) false) _ pre STAR_char
                body Tokenizer.read_multiline_comment Hat
                (or_intror (conj eq_refl eq_refl)))
      as (s1 & _ & Hat1 & Hstart1 & _ & _ & _ & Hrun).
    rewrite Hrun.
    rewrite (bind_throws _ _ _ _
               (read_multiline_comment_open s1 _ body Hbody Hat1)).
    unfold token_start in Hstart1. injection Hstart1 as _ -> -> ->.
    reflexivity.
Qed.

(** In [/*c*/ /* a */ y] the second comment begins at the seventh
    character, and the tokenizer has counted three columns. *)
Lemma X26_witness :
  (exists st1,
     Tokenizer.next_token 12 false
       (Tokenizer.mkS "/*c*/ /* a */ y" 6 0 0 0 3 0 false false
          [mkToken "comment2" (VStr "c") 0 0 0 false None])
     = Tokenizer.next_token 11 false st1
     /\ Tokenizer.comments_before st1
        = [mkToken "comment2" (VStr "c") 0 0 0 false None;
           mkToken "comment2" (VStr " a ") 0 3 6 false None]
     /\ stands_at st1 "/*c*/ /* a */" " y"
     /\ Tokenizer.regex_allowed st1 = false
     /\ Tokenizer.line st1 = 0
     /\ Tokenizer.col st1 = 5
     /\ Tokenizer.newline_before st1 = false)
  /\ Tokenizer.next_token 12 false
       (Tokenizer.mkS "/*c*/ /* a *" 6 0 0 0 3 0 false false
          [mkToken "comment2" (VStr "c") 0 0 0 false None])
     = Throw (ParseError (mkError "Unterminated multiline comment" 0 3 6)).
Proof.
  split.
  - apply (proj1 (X26_block_comment " a " "/*c*/ " 10
                    (Tokenizer.mkS "/*c*/ /* a */ y" 6 0 0 0 3 0 false false
                       [mkToken "comment2" (VStr "c") 0 0 0 false None])
                    eq_refl)
             " y").
    split; reflexivity.
  - apply (proj2 (X26_block_comment " a *" "/*c*/ " 10
                    (Tokenizer.mkS "/*c*/ /* a *" 6 0 0 0 3 0 false false
                       [mkToken "comment2" (VStr "c") 0 0 0 false None])
                    eq_refl)).
    split; reflexivity.
Defined.

(* ------------------------------------------------------------------ *)
(** ** Keywords as property names *)

(** X27. Every keyword may name a property, behind a dot and in an object
    literal alike, in either mode: for a key [k] of [KEYWORDS],
    [a.k = {k: 1};] parses to the assignment of the object with the one
    property [k] to the property [k] of [a]. *)
Theorem X27_keyword_property (k : string) (exigent_mode : bool)
  (fuel : nat) :
  HOP KEYWORDS k = true ->
  parse ("a." ++ k ++ " = {" ++ k ++ ": 1};") exigent_mode false (40 + fuel)
  = Ok (program_of
          (assign_ True_ (dot_ (name_ "a") k)
             (object_of k (Arr [Str "num"; Num (mkNumber 1 0)])))).
Proof.
  intros Hk. apply HOP_In in Hk. cbn [In KEYWORDS array_to_hash] in Hk.
  repeat (destruct Hk as [<- | Hk];
          [destruct exigent_mode; vm_compute; reflexivity | ]).
  destruct Hk.
Qed.

Lemma X27_witness :
  parse "a.new = {new: 1};" true false 40
  = Ok (program_of
          (assign_ True_ (dot_ (name_ "a") "new")
             (object_of "new" (Arr [Str "num"; Num (mkNumber 1 0)])))).
Proof. apply (X27_keyword_property "new" true 0). reflexivity. Defined.

(* ------------------------------------------------------------------ *)
(** ** White space before a token *)

(** A text holds a line feed when its line feeds count one at least. *)
Lemma has_LF_counted (s : string) :
  has_char LF_char s = true <-> 0 < count_LF s.
Proof.
  induction s as [| c s' IH]; cbn [has_char count_LF].
  - split; [discriminate | lia].
  - unfold LF_char at 1. rewrite Ascii.eqb_sym.
    destruct (Ascii.eqb c (ascii_of_nat 10)); cbn [orb].
    + split; [intros _; lia | reflexivity].
    + rewrite IH. split; intros H; lia.
Qed.

(** X28. White space before a token changes nothing but the place: in
    front of white space [ws] followed by the end of the text or by a
    character that is no white space, [next_token] returns what it returns
    in the state [st0] that stands behind [ws]; in [st0] the comment
    buffer and [regex_allowed] are as before, the line feeds of [ws] are
    counted, and [newline_before] is true when it was or when [ws] holds a
    line feed. *)
Theorem X28_leading_whitespace (ws pre rest : string) (fuel : nat)
  (st : Tokenizer.state) :
  all_in whitespace_char ws = true ->
  blank_ends rest = true ->
  stands_at st pre (ws ++ rest) ->
  String.length ws < fuel ->
  exists st0,
    Tokenizer.next_token (S fuel) false st
    = Tokenizer.next_token (S fuel) false st0
    /\ stands_at st0 (pre ++ ws) rest
    /\ Tokenizer.comments_before st0 = Tokenizer.comments_before st
    /\ Tokenizer.regex_allowed st0 = Tokenizer.regex_allowed st
    /\ Tokenizer.line st0 = Tokenizer.line st + count_LF ws
    /\ Tokenizer.newline_before st0
       = Tokenizer.newline_before st || has_char LF_char ws.
Proof.
  intros Hws Hend Hat Hfuel.
  assert (Hrest : match rest with
                  | "" => True
                  | String c _ => whitespace_char c = false
                  end).
  { destruct rest as [| c rest']; [exact I | ].
    cbn [blank_ends] in Hend. apply negb_true_iff in Hend. exact Hend. }
  destruct (skip_whitespace_all ws (fuel - String.length ws - 1) pre rest st
              Hws Hrest Hat) as (st0 & Hskip & Hat0 & Hcb0).
  replace (String.length ws + S (fuel - String.length ws - 1)) with fuel
    in Hskip by lia.
  assert (Hstay : Tokenizer.skip_whitespace fuel st0 = Ok (tt, st0)).
  { destruct fuel as [| n]; [lia | ]. apply skip_whitespace_stays.
    destruct rest as [| c rest'].
    - rewrite (peek_at_end _ _ Hat0). reflexivity.
    - rewrite (peek_at _ _ _ _ Hat0). exact Hrest. }
  assert (Hra : Tokenizer.regex_allowed st0 = Tokenizer.regex_allowed st).
  { revert Hskip. apply keeps_skip_whitespace. apply keeps_next; reflexivity. }
  destruct (advancing_skip_whitespace _ _ _ _ Hskip) as (Htext & _ & Hline).
  assert (Hcount : count_LF (substring_js (Tokenizer.text st)
                               (Tokenizer.pos st) (Tokenizer.pos st0))
                   = count_LF ws).
  { destruct Hat as (Ht & Hp). destruct Hat0 as (_ & Hp0).
    unfold substring_js. rewrite Ht, Hp, Hp0, length_append.
    replace (String.length pre + String.length ws - String.length pre)
      with (String.length ws) by lia.
    rewrite substring_append_here. reflexivity. }
  exists st0.
  split; [ | split; [exact Hat0 | split; [exact Hcb0 | split; [exact Hra | ] ] ] ].
  - cbn [Tokenizer.next_token]. unfold Tokenizer.next_token_body.
    rewrite (bind_run _ _ _ _ _ Hskip), (bind_run _ _ _ _ _ Hstay).
    reflexivity.
  - rewrite Hline, Hcount. split; [reflexivity | ].
    destruct (marking_skip_whitespace _ _ _ _ Hskip) as (_ & Hmark).
    unfold newline_seen in Hmark. rewrite Hline, Hcount in Hmark.
    assert (Hlf := has_LF_counted ws).
    destruct (Tokenizer.newline_before st0) eqn:H0;
      destruct (Tokenizer.newline_before st) eqn:H1;
      destruct (has_char LF_char ws) eqn:H2; try reflexivity; exfalso.
    + assert (H : false = true \/ Tokenizer.line st < Tokenizer.line st + count_LF ws)
        by (apply Hmark; reflexivity).
      destruct H as [H | H]; [discriminate | ].
      assert (0 < count_LF ws) by lia. apply Hlf in H3. discriminate.
    + assert (H : false = true) by (apply Hmark; left; reflexivity).
      discriminate.
    + assert (H : false = true) by (apply Hmark; left; reflexivity).
      discriminate.
    + assert (H : false = true).
      { apply Hmark. right. assert (0 < count_LF ws) by (apply Hlf; reflexivity).
        lia. }
      discriminate.
Qed.

Lemma X28_witness :
  exists st0,
    Tokenizer.next_token 6 false
      (Tokenizer.mkS ("x " ++ LF ++ "  y") 1 0 0 0 1 0 false false [])
    = Tokenizer.next_token 6 false st0
    /\ stands_at st0 ("x " ++ LF ++ "  ") "y"
    /\ Tokenizer.comments_before st0 = []
    /\ Tokenizer.regex_allowed st0 = false
    /\ Tokenizer.line st0 = 1
    /\ Tokenizer.newline_before st0 = true.
Proof.
  apply (X28_leading_whitespace (" " ++ LF ++ "  ") "x" "y" 5
           (Tokenizer.mkS ("x " ++ LF ++ "  y") 1 0 0 0 1 0 false false []));
    first [ reflexivity | split; reflexivity | simpl; lia ].
Defined.

(* ------------------------------------------------------------------ *)
(** ** The comments in front of a token *)

Lemma carries_bind {A : Type} (m : Tokenizer.T A)
  (k : A -> Tokenizer.T Token) :
  keeps Tokenizer.comments_before m -> (forall a, carries (k a)) ->
  carries (bind m k).
Proof.
  intros Hm Hk st t st' Hrun. inv_bind Hrun.
  rewrite <- (Hm _ _ _ Hrun0). exact (Hk _ _ _ _ Hrun).
Qed.

Lemma carries_token (type : string) (value : token_value) :
  carries (Tokenizer.token type value false).
Proof.
  intros st t st'. unfold Tokenizer.token. intros [= <- <-]. reflexivity.
Qed.

Lemma carries_fail (m : Tokenizer.T Token) :
  (forall st a st', m st <> Ok (a, st')) -> carries m.
Proof. intros H st a st' Hrun. destruct (H st a st' Hrun). Qed.

Lemma carries_if (b : bool) (m1 m2 : Tokenizer.T Token) :
  carries m1 -> carries m2 -> carries (if b then m1 else m2).
Proof. destruct b; auto. Qed.

Lemma carries_with_eof_error (eof_error : string)
  (cont : Tokenizer.T Token) :
  carries cont -> carries (Tokenizer.with_eof_error eof_error cont).
Proof.
  intros Hcont st a st' Hrun. unfold Tokenizer.with_eof_error in Hrun.
  destruct (cont st) as [[a0 s0] | [| |] | |] eqn:Hc; try discriminate.
  injection Hrun as <- <-. exact (Hcont st _ _ Hc).
Qed.

Create HintDb carry.

(** One step through an action that ends in a token and reads no
    comment. *)
Ltac carry_step :=
  first
    [ solve [ auto with carry nocore ]
    | apply carries_token
    | apply carries_fail; intros ? ? ? ?; discriminate
    | apply carries_with_eof_error
    | apply carries_if
    | apply carries_bind;
      [ first [ apply keeps_comments_read_while
              | apply keeps_comments_read_string_from
              | apply keeps_comments_read_name_from
              | apply keeps_comments_read_regexp_from
              | apply keeps_comments_grow
              | keeps_step ]
      | intros ? ]
    | match goal with
      | |- carries (match ?x with _ => _ end) => destruct x
      end ].

Lemma carries_read_num (fuel : nat) (prefix : option string) :
  carries (Tokenizer.read_num fuel prefix).
Proof. unfold Tokenizer.read_num. repeat carry_step. Qed.

Lemma carries_read_string (fuel : nat) :
  carries (Tokenizer.read_string fuel).
Proof. unfold Tokenizer.read_string. repeat carry_step. Qed.

Lemma carries_read_regexp (fuel : nat) :
  carries (Tokenizer.read_regexp fuel).
Proof.
  unfold Tokenizer.read_regexp, Tokenizer.read_name. repeat carry_step.
Qed.

Lemma carries_read_operator (fuel : nat) (prefix : option string) :
  carries (Tokenizer.read_operator fuel prefix).
Proof.
  unfold Tokenizer.read_operator.
  apply carries_bind; [destruct (Tokenizer.truthy_prefix prefix) | intros op ];
    repeat first [ keeps_step | carry_step ].
Qed.

Lemma carries_read_word (fuel : nat) :
  carries (Tokenizer.read_word fuel).
Proof.
  unfold Tokenizer.read_word, Tokenizer.read_name. repeat carry_step.
Qed.

#[local] Hint Resolve carries_read_num carries_read_string
  carries_read_regexp carries_read_operator carries_read_word : carry.

Lemma carries_handle_dot (fuel : nat) :
  carries (Tokenizer.handle_dot fuel).
Proof. unfold Tokenizer.handle_dot. repeat carry_step. Qed.

(** On a character that is no slash, [next_token] reads a token and no
    comment: the token carries the buffer as it was, at the place last
    started. *)
Lemma dispatch_plain (fuel : nat) (self : bool -> Tokenizer.T Token)
  (ch : string) :
  (ch =? "/") = false ->
  carries (dispatch fuel self ch) /\ anchored (dispatch fuel self ch).
Proof.
  intros Hslash. unfold dispatch. rewrite Hslash. cbv iota. split.
  - repeat first [ apply carries_handle_dot | carry_step ].
  - repeat first [ apply anchored_handle_dot | apply anchored_read_num
                 | apply anchored_read_string | apply anchored_read_operator
                 | apply anchored_read_word | anchor_step ].
Qed.

Lemma char_eqb (c d : ascii) :
  (String c "" =? String d "") = Ascii.eqb c d.
Proof. cbn [String.eqb]. apply andb_true_r. Qed.

(** [handle_slash] in front of a slash that opens no comment: a regular
    expression or an operator, and no comment. *)
Lemma handle_slash_plain (fuel : nat) (k : Tokenizer.T Token)
  (s2 : Tokenizer.state) (pre r : string) (t : Token)
  (st' : Tokenizer.state) :
  stands_at s2 pre (String SLASH_char r) ->
  starts_with SLASH_char r = false ->
  starts_with STAR_char r = false ->
  Tokenizer.handle_slash fuel k s2 = Ok (t, st') ->
  tok_comments_before t = Some (Tokenizer.comments_before s2)
  /\ tok_pos t = Tokenizer.tokpos s2.
Proof.
  intros Hat Hs1 Hs2 Hrun.
  destruct (next_at false s2 pre SLASH_char r Hat)
    as (s3 & Hnext & Hat3 & Hstart3 & Hcb3 & _).
  unfold Tokenizer.handle_slash in Hrun.
  rewrite (bind_run _ _ _ _ _ Hnext) in Hrun.
  unfold bind at 1, gets at 1 in Hrun.
  unfold bind at 1, Tokenizer.peek at 1, gets at 1 in Hrun.
  assert (Hch : (charAt (Tokenizer.text s3) (Tokenizer.pos s3) =? "/")
                = false
                /\ (charAt (Tokenizer.text s3) (Tokenizer.pos s3) =? "*")
                   = false).
  { destruct r as [| d r'].
    - rewrite (peek_at_end _ _ Hat3). split; reflexivity.
    - rewrite (peek_at _ _ _ _ Hat3). cbn [starts_with] in Hs1, Hs2.
      change "/" with (String SLASH_char "").
      change "*" with (String STAR_char "").
      rewrite !char_eqb. split; assumption. }
  destruct Hch as (Hc1 & Hc2). rewrite Hc1, Hc2 in Hrun.
  unfold bind at 1, gets at 1 in Hrun.
  unfold token_start in Hstart3. injection Hstart3 as _ _ _ Htp3.
  rewrite <- Hcb3, <- Htp3.
  destruct (Tokenizer.regex_allowed s3).
  - split; [exact (carries_read_regexp _ _ _ _ Hrun) | ].
    destruct (anchored_read_regexp _ _ _ _ Hrun) as (Hplace & _).
    injection Hplace as _ _ Hp. exact Hp.
  - split; [exact (carries_read_operator _ _ _ _ _ Hrun) | ].
    destruct (anchored_read_operator _ _ _ _ _ Hrun) as (Hplace & _).
    injection Hplace as _ _ Hp. exact Hp.
Qed.

(** What [skip_whitespace] has read, when it returns: the white space in
    front of it, all of it. *)
Lemma skip_whitespace_read (fuel : nat) :
  forall st pre s s1,
    stands_at st pre s ->
    Tokenizer.skip_whitespace fuel st = Ok (tt, s1) ->
    exists ws rest,
      s = ws ++ rest
      /\ all_in whitespace_char ws = true
      /\ blank_ends rest = true
      /\ stands_at s1 (pre ++ ws) rest
      /\ Tokenizer.comments_before s1 = Tokenizer.comments_before st.
Proof.
  induction fuel as [| n IH]; intros st pre s s1 Hat Hrun;
    [discriminate Hrun | ].
  cbn [Tokenizer.skip_whitespace] in Hrun.
  unfold bind at 1, Tokenizer.peek at 1, gets at 1 in Hrun.
  destruct s as [| c s2].
  - rewrite (peek_at_end _ _ Hat) in Hrun.
    change (HOP WHITESPACE_CHARS "") with false in Hrun.
    injection Hrun as <-. exists "", "". rewrite (append_nil_r pre).
    repeat split; first [reflexivity | apply Hat].
  - rewrite (peek_at _ _ _ _ Hat) in Hrun.
    destruct (HOP WHITESPACE_CHARS (String c "")) eqn:Hc.
    + destruct (next_at false st pre c s2 Hat)
        as (s' & Hnext & Hat' & _ & Hcb' & _).
      rewrite (bind_run _ _ _ _ _ Hnext) in Hrun.
      destruct (IH _ _ _ _ Hat' Hrun)
        as (ws & rest & Hs & Hws & Hend & Hat1 & Hcb1).
      exists (String c ws), rest. subst s2.
      split; [reflexivity | ].
      split; [cbn [all_in]; unfold whitespace_char at 1; rewrite Hc; exact Hws | ].
      split; [exact Hend | ].
      split; [ | congruence].
      rewrite append_assoc in Hat1. exact Hat1.
    + injection Hrun as <-. exists "", (String c s2).
      rewrite (append_nil_r pre).
      split; [reflexivity | split; [reflexivity | ] ].
      split; [ | split; [exact Hat | reflexivity] ].
      cbn [blank_ends]. unfold whitespace_char. rewrite Hc. reflexivity.
Qed.

Lemma skipped_spaces (ws : string) :
  forall p mid cs rest,
    all_in whitespace_char ws = true ->
    skipped (p + String.length ws) mid cs rest ->
    skipped p (ws ++ mid) cs rest.
Proof.
  induction ws as [| c ws' IH]; intros p mid cs rest Hws Hmid.
  - cbn [String.length] in Hmid. rewrite Nat.add_0_r in Hmid. exact Hmid.
  - cbn [all_in] in Hws. apply andb_true_iff in Hws.
    destruct Hws as (Hc & Hws).
    change (String c ws' ++ mid) with (String c (ws' ++ mid)).
    apply skipped_space; [exact Hc | ].
    apply IH; [exact Hws | ].
    cbn [String.length] in Hmid.
    replace (S p + String.length ws') with (p + S (String.length ws'))
      by lia.
    exact Hmid.
Qed.

(** A text up to its first line feed, and from there on. *)
Lemma line_split (s : string) :
  exists body rest,
    s = body ++ rest
    /\ has_char LF_char body = false /\ line_ends rest = true.
Proof.
  induction s as [| c s' IH]; [exists "", ""; auto | ].
  destruct (Ascii.eqb c LF_char) eqn:Hc.
  - exists "", (String c s'). cbn [line_ends]. auto.
  - destruct IH as (body & rest & -> & Hbody & Hend).
    exists (String c body), rest.
    split; [reflexivity | split; [ | exact Hend] ].
    cbn [has_char]. rewrite Ascii.eqb_sym, Hc. exact Hbody.
Qed.

Lemma prefix_close (c : ascii) (s : string) :
  prefix "*/" (String c s)
  = Ascii.eqb c STAR_char && starts_with SLASH_char s.
Proof.
  cbn [prefix]. destruct (ascii_dec "*" c) as [<- | Hne].
  - change (Ascii.eqb "*" STAR_char) with true. cbn [andb].
    destruct s as [| d s']; [reflexivity | ].
    cbn [prefix starts_with]. destruct (ascii_dec "/" d) as [<- | Hne'].
    + destruct s'; reflexivity.
    + symmetry. apply (proj2 (Ascii.eqb_neq _ _)).
      intros ->. apply Hne'. reflexivity.
  - symmetry. apply andb_false_iff. left.
    apply (proj2 (Ascii.eqb_neq _ _)). intros ->. apply Hne. reflexivity.
Qed.

(** A text up to its first [*/], and from there on, when it has one. *)
Lemma close_split (s : string) :
  String.index 0 "*/" s = None
  \/ exists body rest,
       s = body ++ "*/" ++ rest /\ String.index 0 "*/" body = None.
Proof.
  induction s as [| c s' IH]; [left; reflexivity | ].
  cbn [String.index]. rewrite prefix_close.
  destruct (Ascii.eqb c STAR_char) eqn:Hc.
  - destruct s' as [| d s''].
    + left. reflexivity.
    + cbn [starts_with andb].
      destruct (Ascii.eqb d SLASH_char) eqn:Hd.
      * right. apply Ascii.eqb_eq in Hc, Hd. subst c d.
        exists "", s''. split; reflexivity.
      * destruct IH as [Hnone | (body & rest & Hs & Hbody)].
        -- left. rewrite Hnone. reflexivity.
        -- right. exists (String c body), rest. rewrite Hs.
           split; [reflexivity | ].
           cbn [String.index]. rewrite prefix_close, Hc, Hbody.
           destruct body as [| b body']; [reflexivity | ].
           injection Hs as <- _. cbn [starts_with andb]. rewrite Hd.
           reflexivity.
  - cbn [andb].
    destruct IH as [Hnone | (body & rest & Hs & Hbody)].
    + left. rewrite Hnone. reflexivity.
    + right. exists (String c body), rest. rewrite Hs.
      split; [reflexivity | ].
      cbn [String.index]. rewrite prefix_close, Hc, Hbody. reflexivity.
Qed.

(** The comments [next_token] reads: from where it stands to the token it
    returns there is white space and comments only, and the token carries
    these comments behind those of the buffer. *)
Lemma next_token_skipped (fuel : nat) :
  forall st pre s t st',
    stands_at st pre s ->
    Tokenizer.next_token fuel false st = Ok (t, st') ->
    exists cs mid rest,
      tok_comments_before t
      = Some (Tokenizer.comments_before st ++ cs)%list
      /\ s = mid ++ rest
      /\ skipped (String.length pre) mid cs rest
      /\ token_head rest = true
      /\ tok_pos t = String.length (pre ++ mid).
Proof.
  induction fuel as [| n IH]; intros st pre s t st' Hat Hrun;
    [discriminate Hrun | ].
  cbn [Tokenizer.next_token] in Hrun.
  apply next_token_body_inv in Hrun.
  destruct (Tokenizer.skip_whitespace n st) as [[[] s1] | e | |] eqn:Hws;
    try discriminate.
  destruct (skip_whitespace_read _ _ _ _ _ Hat Hws)
    as (ws & r1 & Hs & Hblank & Hend & Hat1 & Hcb1).
  assert (Hat2 := stands_at_started _ _ _ Hat1).
  assert (Hpos2 : Tokenizer.tokpos (token_started s1)
                  = String.length (pre ++ ws))
    by (destruct Hat1 as (_ & Hp); exact Hp).
  assert (Hcb2 : Tokenizer.comments_before (token_started s1)
                 = Tokenizer.comments_before st) by exact Hcb1.
  assert (Hplain :
    token_head r1 = true ->
    tok_comments_before t
    = Some (Tokenizer.comments_before (token_started s1))
    /\ tok_pos t = Tokenizer.tokpos (token_started s1) ->
    exists cs mid rest,
      tok_comments_before t
      = Some (Tokenizer.comments_before st ++ cs)%list
      /\ s = mid ++ rest
      /\ skipped (String.length pre) mid cs rest
      /\ token_head rest = true
      /\ tok_pos t = String.length (pre ++ mid)).
  { intros Hhead (Hcarry & Hplace). exists [], ws, r1.
    rewrite app_nil_r, Hcarry, Hcb2, Hplace, Hpos2.
    split; [reflexivity | split; [exact Hs | ] ].
    split; [ | split; [exact Hhead | reflexivity] ].
    rewrite <- (append_nil_r ws). apply skipped_spaces; [exact Hblank | ].
    constructor. }
  destruct r1 as [| c r].
  { apply Hplain; [reflexivity | ].
    rewrite (peek_at_end _ _ Hat1) in Hrun.
    destruct (dispatch_plain n (Tokenizer.next_token n) "" eq_refl)
      as (Hcarry & Hanchor).
    split; [exact (Hcarry _ _ _ Hrun) | ].
    destruct (Hanchor _ _ _ Hrun) as (Hplace & _).
    injection Hplace as _ _ Hp. exact Hp. }
  rewrite (peek_at _ _ _ _ Hat1) in Hrun.
  cbn [blank_ends] in Hend.
  destruct (Ascii.eqb c SLASH_char) eqn:Hc.
  2:{ apply Hplain.
      - cbn [token_head]. rewrite Hend, Hc. reflexivity.
      - assert (Hne : (String c "" =? "/") = false)
          by (change "/" with (String SLASH_char ""); rewrite char_eqb;
              exact Hc).
        destruct (dispatch_plain n (Tokenizer.next_token n) _ Hne)
          as (Hcarry & Hanchor).
        split; [exact (Hcarry _ _ _ Hrun) | ].
        destruct (Hanchor _ _ _ Hrun) as (Hplace & _).
        injection Hplace as _ _ Hp. exact Hp. }
  apply Ascii.eqb_eq in Hc. subst c.
  change (dispatch n (Tokenizer.next_token n) (String SLASH_char "")
            (token_started s1))
    with (Tokenizer.handle_slash n (Tokenizer.next_token n false)
            (token_started s1)) in Hrun.
  destruct (starts_with SLASH_char r) eqn:Hline;
    [ | destruct (starts_with STAR_char r) eqn:Hblock ].
  - (* a line comment *)
    destruct r as [| d r']; [discriminate Hline | ].
    cbn [starts_with] in Hline. apply Ascii.eqb_eq in Hline. subst d.
    destruct (line_split r') as (body & rest2 & -> & Hbody & Hends).
    destruct (handle_slash_comment n (Tokenizer.next_token n false) _ _
                SLASH_char (body ++ rest2) Tokenizer.read_line_comment Hat2
                (or_introl (conj eq_refl eq_refl)))
      as (s3 & _ & Hat3 & Hstart3 & Hcb3 & _ & _ & Hslash).
    rewrite Hslash in Hrun.
    destruct (read_line_comment_at s3 _ body rest2 Hbody Hends Hat3)
      as (s4 & Hread & Hat4 & Hcb4 & _).
    rewrite (bind_run _ _ _ _ _ Hread) in Hrun.
    unfold bind at 1, modify at 1 in Hrun.
    unfold bind at 1, modify at 1 in Hrun.
    unfold token_start in Hstart3. injection Hstart3 as _ _ _ Htp3.
    match type of Hrun with
    | Tokenizer.next_token n false ?s5 = _ =>
        assert (Hat5 : stands_at s5
                         (((pre ++ ws) ++ String SLASH_char "")
                          ++ String SLASH_char body) rest2)
          by exact Hat4
    end.
    destruct (IH _ _ _ _ _ Hat5 Hrun)
      as (cs & mid & rest & Hcarry & Hrest2 & Hskip & Hhead & Hplace).
    cbn [Tokenizer.set_regex_allowed Tokenizer.push_comment
         Tokenizer.set_comments_before Tokenizer.comments_before] in Hcarry.
    rewrite Hcb4, Hcb3, Hcb2, <- app_assoc in Hcarry.
    eexists (_ :: cs), (ws ++ String SLASH_char
                                (String SLASH_char (body ++ mid))), rest.
    split; [exact Hcarry | ].
    split; [rewrite Hs, Hrest2, !append_assoc; cbn [append];
            rewrite !append_assoc; reflexivity | ].
    split; [ | split; [exact Hhead | ] ].
    + apply skipped_spaces; [exact Hblank | ].
      apply skipped_line;
        [ exact Hbody | rewrite <- Hrest2; exact Hends | reflexivity
        | reflexivity
        | cbn [tok_pos]; rewrite Htp3;
          exact (eq_trans Hpos2 (length_append pre ws))
        | reflexivity | ].
      rewrite !length_append in Hskip. cbn [String.length] in Hskip.
      replace (String.length pre + String.length ws + 2
               + String.length body)
        with (String.length pre + String.length ws + 1
              + S (String.length body)) by lia.
      exact Hskip.
    + rewrite Hplace. f_equal. rewrite !append_assoc. cbn [append].
      rewrite ?append_assoc. reflexivity.
  - (* a block comment *)
    destruct r as [| d r']; [discriminate Hblock | ].
    cbn [starts_with] in Hblock. apply Ascii.eqb_eq in Hblock. subst d.
    destruct (handle_slash_comment n (Tokenizer.next_token n false) _ _
                STAR_char r' Tokenizer.read_multiline_comment Hat2
                (or_intror (conj eq_refl eq_refl)))
      as (s3 & _ & Hat3 & Hstart3 & Hcb3 & _ & _ & Hslash).
    rewrite Hslash in Hrun.
    destruct (close_split r') as [Hopen | (body & rest2 & -> & Hbody)].
    { rewrite (bind_throws _ _ _ _
                 (read_multiline_comment_open s3 _ r' Hopen Hat3)) in Hrun.
      discriminate Hrun. }
    destruct (read_multiline_comment_at s3 _ body rest2 Hbody Hat3)
      as (s4 & Hread & Hat4 & Hcb4 & _).
    rewrite (bind_run _ _ _ _ _ Hread) in Hrun.
    unfold bind at 1, modify at 1 in Hrun.
    unfold bind at 1, modify at 1 in Hrun.
    unfold token_start in Hstart3. injection Hstart3 as _ _ _ Htp3.
    match type of Hrun with
    | Tokenizer.next_token n false ?s5 = _ =>
        assert (Hat5 : stands_at s5
                         (((pre ++ ws) ++ String SLASH_char "")
                          ++ String STAR_char (body ++ "*/")) rest2)
          by exact Hat4
    end.
    destruct (IH _ _ _ _ _ Hat5 Hrun)
      as (cs & mid & rest & Hcarry & Hrest2 & Hskip & Hhead & Hplace).
    cbn [Tokenizer.set_regex_allowed Tokenizer.push_comment
         Tokenizer.set_comments_before Tokenizer.comments_before] in Hcarry.
    rewrite Hcb4, Hcb3, Hcb2, <- app_assoc in Hcarry.
    eexists (_ :: cs), (ws ++ String SLASH_char
                                (String STAR_char (body ++ "*/" ++ mid))),
      rest.
    split; [exact Hcarry | ].
    split; [rewrite Hs, Hrest2, !append_assoc; cbn [append];
            rewrite !append_assoc; reflexivity | ].
    split; [ | split; [exact Hhead | ] ].
    + apply skipped_spaces; [exact Hblank | ].
      apply skipped_block;
        [ exact Hbody | reflexivity | reflexivity
        | cbn [tok_pos]; rewrite Htp3;
          exact (eq_trans Hpos2 (length_append pre ws))
        | reflexivity | ].
      rewrite !length_append in Hskip. cbn [String.length] in Hskip.
      rewrite !length_append in Hskip. cbn [String.length] in Hskip.
      replace (String.length pre + String.length ws + 2
               + String.length body + 2)
        with (String.length pre + String.length ws + 1
              + S (String.length body + 2)) by lia.
      exact Hskip.
    + rewrite Hplace. f_equal. rewrite !append_assoc. cbn [append].
      rewrite ?append_assoc. cbn [append]. reflexivity.
  - (* a regular expression or an operator *)
    apply Hplain.
    + cbn [token_head]. rewrite Hend, Hline, Hblock. reflexivity.
    + exact (handle_slash_plain _ _ _ _ _ _ _ Hat2 Hline Hblock Hrun).
Qed.

(** X5. The comments in front of a token.  When [next_token] returns a
    token, the text from where the tokenizer stood to the position of the
    token is white space and comments only, and the token does not begin
    with white space or with the opening of a comment; the token carries,
    in order, the comments that were buffered before the call and then
    the comments of that text, one token for each, none left out and none
    added: a [comment1] for each [//], with all the characters up to the
    line feed or the end of the text, and a [comment2] for each [/*], with
    all the characters up to the first [*/], each at the position of its
    slash.  Called for a regular expression, [next_token] reads no comment
    and the token carries the buffer as it was.  Either call leaves the
    buffer empty and [newline_before] false. *)
Theorem X5_comments_before (fuel : nat) (st : Tokenizer.state)
  (pre s : string) (t : Token) (st' : Tokenizer.state) :
  (stands_at st pre s ->
   Tokenizer.next_token fuel false st = Ok (t, st') ->
   Tokenizer.comments_before st' = []
   /\ Tokenizer.newline_before st' = false
   /\ exists cs mid rest,
        tok_comments_before t
        = Some (Tokenizer.comments_before st ++ cs)%list
        /\ s = mid ++ rest
        /\ skipped (String.length pre) mid cs rest
        /\ token_head rest = true
        /\ tok_pos t = String.length (pre ++ mid))
  /\ (Tokenizer.next_token fuel true st = Ok (t, st') ->
      Tokenizer.comments_before st' = []
      /\ Tokenizer.newline_before st' = false
      /\ tok_comments_before t = Some (Tokenizer.comments_before st)).
Proof.
  split.
  - intros Hat Hrun.
    destruct (emits_next_token _ _ _ _ _ Hrun) as (Hempty & Hnl & _).
    split; [exact Hempty | split; [exact Hnl | ] ].
    exact (next_token_skipped _ _ _ _ _ _ Hat Hrun).
  - intros Hrun.
    destruct (emits_next_token _ _ _ _ _ Hrun) as (Hempty & Hnl & _).
    split; [exact Hempty | split; [exact Hnl | ] ].
    destruct fuel as [| n]; [discriminate Hrun | ].
    exact (carries_read_regexp _ _ _ _ Hrun).
Qed.

(** In the text [x = /* a */ y], behind the [=], the token [y] carries the
    one comment, read from the fifth character on. *)
Lemma X5_witness :
  exists t st',
    Tokenizer.next_token 12 false after_equals = Ok (t, st')
    /\ tok_type t = "name" /\ tok_value t = VStr "y"
    /\ Tokenizer.comments_before st' = []
    /\ Tokenizer.newline_before st' = false
    /\ exists cs mid rest,
         tok_comments_before t = Some cs
         /\ " /* a */ y" ++ LF ++ "z" = mid ++ rest
         /\ skipped 3 mid cs rest
         /\ token_head rest = true
         /\ tok_pos t = String.length ("x =" ++ mid).
Proof.
  eexists. eexists. split; [vm_compute; reflexivity | ].
  split; [reflexivity | split; [reflexivity | ] ].
  refine (proj1 (X5_comments_before 12 after_equals "x ="
                   (" /* a */ y" ++ LF ++ "z") _ _) _ _).
  - split; reflexivity.
  - vm_compute. reflexivity.
Defined.
